(** * Custom element runtime: name validation, upgrade and reaction queues

    A shallow embedding of [src/custom-elements.js].  JavaScript strings are
    sequences of UTF-16 code units, objects with identity (elements, user
    functions, constructors, the construction stack of a definition) are
    addressed by numbers, and the mutable state of the module is threaded
    explicitly through every function as a [World].  Functions that may
    throw return an [outcome]; functions that run user code, or loop over
    an array that user code can extend, go through one recursive knot that
    is cut by fuel.

    Embedded: [isValidCustomElementName], [isCustom],
    [lookupCustomElementDefinition], [define], [upgradeElement],
    [tryToUpgradeElement], [enqueueElementOnAppropriateElementQueue],
    [enqueueCallbackReaction], [enqueueUpgradeReaction],
    [invokeReactions], [executeCEReactions], [shouldNotUpgrade],
    [getCallback], the hooks registered with the host tree and the two
    microtasks the module schedules; further [tryToUpgradeElementSync],
    [performInitialUpgrades], the registry methods [get] and [whenDefined],
    [isInstalled], and [uninstall] as far as the installation and the tasks
    scheduled for it go (a drain task scheduled before [uninstall] keeps
    the installation it was scheduled for).  [define] with the [extends]
    option reads the identifier [testElement], which the module does not
    declare: a program says whether the page has such a global.  Left to
    the host: [install], [createElement] and [createAnElement], and the
    [HTMLElement] constructor shim, which is part of the construction hook
    (its only effect on a construction stack is to overwrite the top entry
    in place, before [upgradeElement] pops it). *)

From Stdlib Require Import ZArith List Bool Lia ZifyBool String Ascii.
From stdpp Require Import base option list gmap.

Set Warnings "-register-all".

(** ** JavaScript strings *)

Module JSString.

Local Open Scope Z_scope.

(** A string value is the list of its UTF-16 code units; [charCodeAt] and
    [length] of the source see exactly these. *)
Definition jsstring : Type := list Z.

(** The code units of an ASCII literal of the source. *)
Definition lit (s : string) : jsstring :=
  map (fun c => Z.of_N (N_of_ascii c)) (list_ascii_of_string s).

(** UTF-16 encoding of one Unicode code point: the code point itself inside
    the basic plane, a surrogate pair above it. *)
Definition utf16_units (cp : Z) : list Z :=
  if cp <? 0x10000 then [cp]
  else [0xD800 + (cp - 0x10000) / 0x400; 0xDC00 + (cp - 0x10000) mod 0x400].

(** The string value holding the given sequence of code points. *)
Definition utf16 (cps : list Z) : jsstring := flat_map utf16_units cps.

Definition jsstring_eqb (a b : jsstring) : bool := bool_decide (a = b).

End JSString.

Export JSString.

(** ** The name validator *)

Module NameValidator.

Local Open Scope Z_scope.

(** The [switch] at the head of [isValidCustomElementName]. *)
Definition reserved_names : list jsstring :=
  [ lit "annotation-xml"; lit "color-profile"; lit "font-face";
    lit "font-face-src"; lit "font-face-uri"; lit "font-face-format";
    lit "font-face-name"; lit "missing-glyph" ].

Definition is_reserved (localName : jsstring) : bool :=
  existsb (jsstring_eqb localName) reserved_names.

(** The body of the [for] loop, from index 1 on: [rest] holds the code units
    not yet visited, [foundHyphen] is the loop's flag.  Every [continue] of
    the source is a recursive call, every [return false] ends the scan. *)
Fixpoint scan (rest : list Z) (foundHyphen : bool) : bool :=
  match rest with
  | [] => foundHyphen
  | code :: rest' =>
      if (0x61 <=? code) && (code <=? 0x7A) then scan rest' foundHyphen
      else if code =? 0x2D then scan rest' true
      else if (code =? 0x2E) || (code =? 0x5F) || (code =? 0xB7)
           then scan rest' foundHyphen
      else if (0x30 <=? code) && (code <=? 0x39) then scan rest' foundHyphen
      else if code <? 0x00C0 then false
      else if (0xC0 <=? code) && (code <=? 0xD6) then scan rest' foundHyphen
      else if (0xD8 <=? code) && (code <=? 0xF6) then scan rest' foundHyphen
      else if (0xF8 <=? code) && (code <=? 0x37D) then scan rest' foundHyphen
      else if (0x37F <=? code) && (code <=? 0x1FFF) then scan rest' foundHyphen
      else if (0x200C <=? code) && (code <=? 0x200D) then scan rest' foundHyphen
      else if (0x203F <=? code) && (code <=? 0x2040) then scan rest' foundHyphen
      else if (0x2070 <=? code) && (code <=? 0x218F) then scan rest' foundHyphen
      else if (0x2C00 <=? code) && (code <=? 0x2FEF) then scan rest' foundHyphen
      else if (0x3001 <=? code) && (code <=? 0xD7FF) then scan rest' foundHyphen
      else if (0xF900 <=? code) && (code <=? 0xFDCF) then scan rest' foundHyphen
      else if (0xFDF0 <=? code) && (code <=? 0xFFFD) then scan rest' foundHyphen
      else if (0x10000 <=? code) && (code <=? 0xEFFFF) then scan rest' foundHyphen
      else false
  end.

Definition isValidCustomElementName (localName : jsstring) : bool :=
  if is_reserved localName then false
  else if (Z.of_nat (length localName) <? 2) then false
  else match localName with
       | [] => false
       | firstCode :: rest =>
           if (firstCode <? 0x61) || (firstCode >? 0x7A) then false
           else scan rest false
       end.

(** *** The grammar as the specification words it

    The same predicate written from the prose: a deny-list, a length bound,
    a first character in [a-z], the remaining characters in the listed
    classes and ranges, and a hyphen after the first character.  It is
    stated over a sequence of characters given by their numeric codes. *)

Definition in_range (lo hi c : Z) : bool := (lo <=? c) && (c <=? hi).

Definition pcen_ranges : list (Z * Z) :=
  [ (0xC0, 0xD6); (0xD8, 0xF6); (0xF8, 0x37D); (0x37F, 0x1FFF);
    (0x200C, 0x200D); (0x203F, 0x2040); (0x2070, 0x218F); (0x2C00, 0x2FEF);
    (0x3001, 0xD7FF); (0xF900, 0xFDCF); (0xFDF0, 0xFFFD); (0x10000, 0xEFFFF) ].

Definition is_lower (c : Z) : bool := in_range 0x61 0x7A c.
Definition is_digit (c : Z) : bool := in_range 0x30 0x39 c.
Definition is_hyphen (c : Z) : bool := c =? 0x2D.

Definition name_char (c : Z) : bool :=
  is_lower c || is_digit c || (c =? 0x2E) || (c =? 0x5F) || (c =? 0xB7)
  || is_hyphen c
  || existsb (fun r => in_range (fst r) (snd r) c) pcen_ranges.

Definition grammar_valid_name (chars : list Z) : bool :=
  negb (is_reserved chars)
  && (2 <=? Z.of_nat (length chars))
  && match chars with
     | [] => false
     | first :: rest =>
         is_lower first && forallb name_char rest && existsb is_hyphen rest
     end.

End NameValidator.

Export NameValidator.

(** ** The data model of the runtime *)

Module Model.

(** Objects with identity are addressed by numbers: nodes, user functions
    and user constructors. *)
Definition elem : Type := nat.
Definition fnid : Type := nat.
Definition classid : Type := nat.

Inductive error_kind : Type :=
| TypeError
| SyntaxError
| NotSupportedError
| InvalidStateError
| ReferenceError
| UserError (tag : nat).

(** The values that cross the module's boundary: callback arguments and
    whatever user code throws.  Anything may be thrown, also [null]. *)
Inductive value : Type :=
| VUndefined
| VNull
| VBool (b : bool)
| VNum (n : Z)
| VStr (s : jsstring)
| VObj (o : nat)
| VError (k : error_kind).

#[global] Instance error_kind_eq_dec : EqDecision error_kind.
Proof. solve_decision. Defined.

#[global] Instance value_eq_dec : EqDecision value.
Proof. solve_decision. Defined.

(** What [if (v)] tests. *)
Definition truthy (v : value) : bool :=
  match v with
  | VUndefined | VNull => false
  | VBool b => b
  | VNum n => negb (n =? 0)%Z
  | VStr s => match s with [] => false | _ => true end
  | VObj _ | VError _ => true
  end.

Inductive callback_name : Type :=
| CE_CALLBACK_CONNECTED
| CE_CALLBACK_DISCONNECTED
| CE_CALLBACK_ADOPTED
| CE_CALLBACK_ATTRIBUTE_CHANGED.

#[global] Instance callback_name_eq_dec : EqDecision callback_name.
Proof. solve_decision. Defined.

(** The object built by [define] under the four fixed keys; an entry is
    [None] when [getCallback] gave [null] or the key was never written. *)
Record LifecycleCallbacks : Type := {
  connectedCallback : option fnid;
  disconnectedCallback : option fnid;
  adoptedCallback : option fnid;
  attributeChangedCallback : option fnid;
}.

Definition no_callbacks : LifecycleCallbacks :=
  {| connectedCallback := None; disconnectedCallback := None;
     adoptedCallback := None; attributeChangedCallback := None |}.

Definition get_callback (l : LifecycleCallbacks) (k : callback_name)
  : option fnid :=
  match k with
  | CE_CALLBACK_CONNECTED => connectedCallback l
  | CE_CALLBACK_DISCONNECTED => disconnectedCallback l
  | CE_CALLBACK_ADOPTED => adoptedCallback l
  | CE_CALLBACK_ATTRIBUTE_CHANGED => attributeChangedCallback l
  end.

Definition set_callback (k : callback_name) (f : option fnid)
  (l : LifecycleCallbacks) : LifecycleCallbacks :=
  match k with
  | CE_CALLBACK_CONNECTED =>
      {| connectedCallback := f; disconnectedCallback := disconnectedCallback l;
         adoptedCallback := adoptedCallback l;
         attributeChangedCallback := attributeChangedCallback l |}
  | CE_CALLBACK_DISCONNECTED =>
      {| connectedCallback := connectedCallback l; disconnectedCallback := f;
         adoptedCallback := adoptedCallback l;
         attributeChangedCallback := attributeChangedCallback l |}
  | CE_CALLBACK_ADOPTED =>
      {| connectedCallback := connectedCallback l;
         disconnectedCallback := disconnectedCallback l;
         adoptedCallback := f;
         attributeChangedCallback := attributeChangedCallback l |}
  | CE_CALLBACK_ATTRIBUTE_CHANGED =>
      {| connectedCallback := connectedCallback l;
         disconnectedCallback := disconnectedCallback l;
         adoptedCallback := adoptedCallback l;
         attributeChangedCallback := f |}
  end.

(** The definition object of [define].  [constructionStack] is the address
    of the definition's own mutable array in the world; the other fields are
    never written after creation.  ([htmlConstructor] is not a field here:
    it is read by the [HTMLElement] constructor shim only, which is part of
    the construction hook.) *)
Record CustomElementDefinition : Type := {
  def_name : jsstring;
  def_localName : jsstring;
  def_constructor : classid;
  observedAttributes : list value;
  lifecycleCallbacks : LifecycleCallbacks;
  constructionStack : nat;
}.

Inductive Reaction : Type :=
| UpgradeReaction (definition : CustomElementDefinition)
| CallbackReaction (callback : fnid) (args : list value).

Inductive CEState : Type :=
| CE_STATE_FAILED
| CE_STATE_CUSTOM
| CE_STATE_UNDEFINED.

(** The object stored under [_custom] on an element.  The source creates it
    with different subsets of the properties; a property that was never
    written reads as [None]. *)
Record ElementState : Type := {
  customElementState : option CEState;
  customElementDefinition : option CustomElementDefinition;
  reactionQueue : option (list Reaction);
  isValue : option jsstring;
}.

Definition set_customElementState (s : option CEState) (st : ElementState)
  : ElementState :=
  {| customElementState := s;
     customElementDefinition := customElementDefinition st;
     reactionQueue := reactionQueue st; isValue := isValue st |}.

Definition set_customElementDefinition (d : option CustomElementDefinition)
  (st : ElementState) : ElementState :=
  {| customElementState := customElementState st;
     customElementDefinition := d;
     reactionQueue := reactionQueue st; isValue := isValue st |}.

Definition set_reactionQueue (q : option (list Reaction)) (st : ElementState)
  : ElementState :=
  {| customElementState := customElementState st;
     customElementDefinition := customElementDefinition st;
     reactionQueue := q; isValue := isValue st |}.

(** What the module reads from a node of the host tree. *)
Record Attr : Type := {
  attr_localName : jsstring;
  attr_value : jsstring;
  attr_namespaceURI : option jsstring;
}.

Record DomNode : Type := {
  is_element : bool;                 (* nodeType === Node.ELEMENT_NODE *)
  namespaceURI : option jsstring;
  localName : jsstring;
  attributes : list Attr;
  isConnected : bool;
  has_defaultView : bool;            (* ownerDocument.defaultView is set *)
}.

Definition htmlNamespace : jsstring := lit "http://www.w3.org/1999/xhtml".

Definition default_node : DomNode :=
  {| is_element := true; namespaceURI := Some htmlNamespace; localName := [];
     attributes := []; isConnected := false; has_defaultView := true |}.

(** The private state of the registry object. *)
Record Registry : Type := {
  definitions : list CustomElementDefinition;
  elementDefinitionIsRunning : bool;
  whenDefinedPromiseMap : list jsstring;   (* names with a pending entry *)
}.

(** The object [install] records on the global object. *)
Record Installation : Type := {
  registry : Registry;
  customElementsReactionStack : list (list elem);   (* top is the last *)
  backupElementQueue : list elem;
  processingBackupElementQueue : bool;
}.

Definition set_registry (r : Registry) (i : Installation) : Installation :=
  {| registry := r;
     customElementsReactionStack := customElementsReactionStack i;
     backupElementQueue := backupElementQueue i;
     processingBackupElementQueue := processingBackupElementQueue i |}.

Definition set_stack (s : list (list elem)) (i : Installation) : Installation :=
  {| registry := registry i;
     customElementsReactionStack := s;
     backupElementQueue := backupElementQueue i;
     processingBackupElementQueue := processingBackupElementQueue i |}.

Definition set_backup (q : list elem) (i : Installation) : Installation :=
  {| registry := registry i;
     customElementsReactionStack := customElementsReactionStack i;
     backupElementQueue := q;
     processingBackupElementQueue := processingBackupElementQueue i |}.

Definition set_processing (b : bool) (i : Installation) : Installation :=
  {| registry := registry i;
     customElementsReactionStack := customElementsReactionStack i;
     backupElementQueue := backupElementQueue i;
     processingBackupElementQueue := b |}.

#[global] Instance lifecycleCallbacks_eq_dec : EqDecision LifecycleCallbacks.
Proof. solve_decision. Defined.

#[global] Instance definition_eq_dec : EqDecision CustomElementDefinition.
Proof. solve_decision. Defined.

#[global] Instance registry_eq_dec : EqDecision Registry.
Proof. solve_decision. Defined.

#[global] Instance installation_eq_dec : EqDecision Installation.
Proof. solve_decision. Defined.

(** The tasks handed to [$microtask.enqueue].  The drain task is a closure
    over the installation object it was scheduled for.  The world holds the
    state of one installation object, the one recorded on the global object,
    and [DrainBackupElementQueue] is the drain task of that object.  When
    [uninstall] takes the object off the global object, the pending drain
    tasks are all that still refers to it, and from then on they carry its
    state: [DrainDetachedQueue]. *)
Inductive Microtask : Type :=
| DrainBackupElementQueue
| ResolveWhenDefined (name : jsstring)
| DrainDetachedQueue (installation : Installation).

#[global] Instance microtask_eq_dec : EqDecision Microtask.
Proof. solve_decision. Defined.

(** Everything the module reads or writes. *)
Record World : Type := {
  installation : option Installation;          (* window._custom *)
  privateState : gmap elem ElementState;       (* element._custom *)
  nodes : gmap elem DomNode;                   (* the host tree *)
  document_order : list elem;   (* the document, in shadow-including order *)
  document_loading : bool;      (* document.readyState === 'loading' *)
  constructionStacks : gmap nat (list elem);
  microtasks : list Microtask;                 (* pending, oldest first *)
  reported : list value;                       (* $utils.reportError *)
  invoked : list (elem * fnid * list value);   (* callback.apply calls *)
}.

Definition with_installation (i : option Installation) (w : World) : World :=
  {| installation := i; privateState := privateState w; nodes := nodes w;
     document_order := document_order w;
     document_loading := document_loading w;
     constructionStacks := constructionStacks w; microtasks := microtasks w;
     reported := reported w; invoked := invoked w |}.

Definition with_privateState (p : gmap elem ElementState) (w : World) : World :=
  {| installation := installation w; privateState := p; nodes := nodes w;
     document_order := document_order w;
     document_loading := document_loading w;
     constructionStacks := constructionStacks w; microtasks := microtasks w;
     reported := reported w; invoked := invoked w |}.

Definition with_nodes (n : gmap elem DomNode) (w : World) : World :=
  {| installation := installation w; privateState := privateState w;
     nodes := n; document_order := document_order w;
     document_loading := document_loading w;
     constructionStacks := constructionStacks w; microtasks := microtasks w;
     reported := reported w; invoked := invoked w |}.

Definition with_constructionStacks (c : gmap nat (list elem)) (w : World)
  : World :=
  {| installation := installation w; privateState := privateState w;
     nodes := nodes w; document_order := document_order w;
     document_loading := document_loading w;
     constructionStacks := c; microtasks := microtasks w;
     reported := reported w; invoked := invoked w |}.

Definition with_microtasks (m : list Microtask) (w : World) : World :=
  {| installation := installation w; privateState := privateState w;
     nodes := nodes w; document_order := document_order w;
     document_loading := document_loading w;
     constructionStacks := constructionStacks w; microtasks := m;
     reported := reported w; invoked := invoked w |}.

Definition with_reported (r : list value) (w : World) : World :=
  {| installation := installation w; privateState := privateState w;
     nodes := nodes w; document_order := document_order w;
     document_loading := document_loading w;
     constructionStacks := constructionStacks w; microtasks := microtasks w;
     reported := r; invoked := invoked w |}.

Definition with_invoked (i : list (elem * fnid * list value)) (w : World)
  : World :=
  {| installation := installation w; privateState := privateState w;
     nodes := nodes w; document_order := document_order w;
     document_loading := document_loading w;
     constructionStacks := constructionStacks w; microtasks := microtasks w;
     reported := reported w; invoked := i |}.

Definition node_of (w : World) (node : elem) : DomNode :=
  default default_node (nodes w !! node).

(** *** User code

    User code reaches the module through the hooks the module registers
    with the host tree, through the exported functions and through the
    registry.  A user function is a sequence of such steps. *)
Inductive cmd : Type :=
| Throw (v : value)
| TryCatch (body handler : list cmd)
| DomUpdate (node : elem) (d : DomNode)
| InsertingSteps (node : elem)
| RemovingSteps (node : elem)
| AdoptingSteps (node : elem) (oldDocument newDocument : value)
| CloningSteps (node : elem)
| AttributeChangeSteps (element : elem)
    (attrName oldValue newValue nameSpace : value)
| TryToUpgradeElement (element : elem)
| ExecuteCEReactions (callback : list cmd)
| Define (name : jsstring) (constructor : classid) (extends : option jsstring).

(** What [define] and [upgradeElement] observe of a user constructor.  A
    property read may run a getter: its steps, then the value read. *)
Record ClassDecl : Type := {
  prototype_constructor_is_self : bool;
  prototype_is_object : bool;
  prototype_get : callback_name -> list cmd * option fnid;
  observedAttributes_get : list cmd * option (list value);
  construct_body : list cmd;
  construct_yield : elem -> elem;
}.

(** The code of the page.  [testElement_constructor_get] is what the global
    scope of the page gives to the expression
    [Object.getPrototypeOf(testElement).constructor] of [define]: [None]
    when the identifier [testElement], which the module does not declare,
    does not resolve; otherwise the steps the evaluation runs (an accessor
    on the global object or on the prototype; a read that fails is a
    [Throw]) before it yields the constructor. *)
Record Program : Type := {
  functions : fnid -> list cmd;
  classes : classid -> ClassDecl;
  testElement_constructor_get : option (list cmd);
}.

(** *** Outcomes *)

Inductive outcome (A : Type) : Type :=
| Ok (a : A) (w : World)
| Throws (error : value) (w : World)
| Diverges.

Arguments Ok {A} a w.
Arguments Throws {A} error w.
Arguments Diverges {A}.

Definition result : Type := outcome unit.

Definition bind {A B : Type} (r : outcome A) (k : A -> World -> outcome B)
  : outcome B :=
  match r with
  | Ok a w => k a w
  | Throws error w => Throws error w
  | Diverges => Diverges
  end.

Definition ret (w : World) : result := Ok tt w.

End Model.

Export Model.

Notation "'let*' w ':=' r 'in' k" := (bind r (fun _ w => k))
  (at level 10, w name, r at level 100, k at level 200).

Notation "'let*' ( a , w ) ':=' r 'in' k" := (bind r (fun a w => k))
  (at level 10, a name, w name, r at level 100, k at level 200).

(** ** The functions of the module *)

Module Machine.

(** JavaScript arrays used as stacks grow and shrink at the end. *)
Fixpoint array_pop {A : Type} (l : list A) : option (list A * A) :=
  match l with
  | [] => None
  | x :: l' =>
      match array_pop l' with
      | None => Some ([], x)
      | Some (rest, y) => Some (x :: rest, y)
      end
  end.

Definition getPrivateState (w : World) (object : elem) : option ElementState :=
  privateState w !! object.

Definition setPrivateState (object : elem) (state : ElementState) (w : World)
  : World :=
  with_privateState (<[object := state]> (privateState w)) w.

Definition shouldNotUpgrade (state : ElementState) : bool :=
  match customElementState state with
  | Some CE_STATE_CUSTOM | Some CE_STATE_FAILED => true
  | _ => false
  end.

Definition isCustom (w : World) (node : elem) : bool :=
  if negb (is_element (node_of w node)) then false
  else match getPrivateState w node with
       | None => false
       | Some nodeState =>
           match customElementState nodeState with
           | Some CE_STATE_CUSTOM => true
           | _ => false
           end
       end.

(** [lookupCustomElementDefinition]: first match in insertion order.  The
    registry is reached through the global object, so without an
    installation the property access fails. *)
Definition definition_matches (localName' : jsstring) (is' : option jsstring)
  (definition : CustomElementDefinition) : bool :=
  jsstring_eqb (def_localName definition) localName'
  && (jsstring_eqb (def_name definition) localName'
      || match is' with
         | Some v => jsstring_eqb (def_name definition) v
         | None => false
         end).

Definition lookupCustomElementDefinition (w : World) (node : DomNode)
  (is' : option jsstring) : outcome (option CustomElementDefinition) :=
  if negb (bool_decide (namespaceURI node = Some htmlNamespace)) then Ok None w
  else if negb (has_defaultView node) then Ok None w
  else match installation w with
       | None => Throws (VError TypeError) w
       | Some inst =>
           Ok (find (definition_matches (localName node) is')
                    (definitions (registry inst))) w
       end.

(** [enqueueElementOnAppropriateElementQueue]. *)
Definition enqueueElementOnAppropriateElementQueue (element : elem) (w : World)
  : World :=
  match installation w with
  | None => w
  | Some inst =>
      match array_pop (customElementsReactionStack inst) with
      | None =>
          let inst1 := set_backup (backupElementQueue inst ++ [element]) inst in
          if processingBackupElementQueue inst1
          then with_installation (Some inst1) w
          else with_microtasks (microtasks w ++ [DrainBackupElementQueue])
                 (with_installation (Some (set_processing true inst1)) w)
      | Some (below, top) =>
          with_installation
            (Some (set_stack (below ++ [top ++ [element]]) inst)) w
      end
  end.

(** [args[0]] of an argument array. *)
Definition first_arg (args : list value) : value :=
  match args with
  | [] => VUndefined
  | a :: _ => a
  end.

(** [enqueueCallbackReaction]. *)
Definition enqueueCallbackReaction (element : elem)
  (callbackName : callback_name) (args : list value) (w : World) : result :=
  match getPrivateState w element with
  | None => Throws (VError TypeError) w
  | Some elementState =>
      match customElementDefinition elementState with
      | None => Throws (VError TypeError) w
      | Some definition =>
          match get_callback (lifecycleCallbacks definition) callbackName with
          | None => ret w
          | Some callback =>
              if bool_decide (callbackName = CE_CALLBACK_ATTRIBUTE_CHANGED)
                 && negb (bool_decide
                            (first_arg args ∈ observedAttributes definition))
              then ret w
              else
                let queue := default [] (reactionQueue elementState) in
                let elementState' :=
                  set_reactionQueue
                    (Some (queue ++ [CallbackReaction callback args]))
                    elementState in
                ret (enqueueElementOnAppropriateElementQueue element
                       (setPrivateState element elementState' w))
          end
      end
  end.

(** [enqueueUpgradeReaction].  A record without a [reactionQueue] makes the
    [push] fail after the definition has been written. *)
Definition enqueueUpgradeReaction (element : elem)
  (definition : CustomElementDefinition) (w : World) : result :=
  let elementState :=
    match getPrivateState w element with
    | Some st => st
    | None =>
        {| customElementState := None; customElementDefinition := None;
           reactionQueue := Some []; isValue := None |}
    end in
  let elementState1 := set_customElementDefinition (Some definition) elementState in
  match reactionQueue elementState1 with
  | None => Throws (VError TypeError) (setPrivateState element elementState1 w)
  | Some queue =>
      let elementState2 :=
        set_reactionQueue (Some (queue ++ [UpgradeReaction definition]))
          elementState1 in
      ret (enqueueElementOnAppropriateElementQueue element
             (setPrivateState element elementState2 w))
  end.

(** [tryToUpgradeElement]. *)
Definition tryToUpgradeElement (element : elem) (w : World) : result :=
  let elementState := getPrivateState w element in
  if match elementState with
     | Some st => shouldNotUpgrade st
     | None => false
     end
  then ret w
  else
    let isValue' :=
      match elementState with
      | Some st => isValue st
      | None => None
      end in
    let* (definition, w1) :=
      lookupCustomElementDefinition w (node_of w element) isValue' in
    match definition with
    | Some definition => enqueueUpgradeReaction element definition w1
    | None => ret w1
    end.

(** *** The first half of [upgradeElement]: the backlog

    The loop over [element.attributes] and the [isConnected] test, which run
    before anything is constructed. *)
Definition attribute_args (attribute : Attr) : list value :=
  [ VStr (attr_localName attribute); VNull; VStr (attr_value attribute);
    match attr_namespaceURI attribute with
    | Some ns => VStr ns
    | None => VNull
    end ].

Fixpoint enqueue_attributes (element : elem) (attrs : list Attr) (w : World)
  : result :=
  match attrs with
  | [] => ret w
  | attribute :: rest =>
      let* w1 :=
        enqueueCallbackReaction element CE_CALLBACK_ATTRIBUTE_CHANGED
          (attribute_args attribute) w in
      enqueue_attributes element rest w1
  end.

Definition enqueue_backlog (element : elem) (w : World) : result :=
  let* w1 := enqueue_attributes element (attributes (node_of w element)) w in
  if isConnected (node_of w1 element)
  then enqueueCallbackReaction element CE_CALLBACK_CONNECTED [] w1
  else ret w1.

Definition constructionStack_of (w : World)
  (definition : CustomElementDefinition) : list elem :=
  default [] (constructionStacks w !! constructionStack definition).

Definition constructionStack_push (definition : CustomElementDefinition)
  (element : elem) (w : World) : World :=
  with_constructionStacks
    (<[constructionStack definition :=
         constructionStack_of w definition ++ [element]]>
       (constructionStacks w)) w.

Definition constructionStack_pop (definition : CustomElementDefinition)
  (w : World) : World :=
  with_constructionStacks
    (<[constructionStack definition :=
         match array_pop (constructionStack_of w definition) with
         | Some (rest, _) => rest
         | None => []
         end]>
       (constructionStacks w)) w.

(** The state reached when [upgradeElement] is about to construct: [None]
    when it returns at once, the outcome of the backlog otherwise, with the
    element already pushed on the construction stack. *)
Definition upgrade_prepare (element : elem)
  (definition : CustomElementDefinition) (w : World) : option result :=
  let start :=
    match getPrivateState w element with
    | None =>
        Some (setPrivateState element
                {| customElementState := None;
                   customElementDefinition := Some definition;
                   reactionQueue := Some []; isValue := None |} w)
    | Some elementState =>
        if shouldNotUpgrade elementState then None else Some w
    end in
  match start with
  | None => None
  | Some w0 =>
      Some (let* w1 := enqueue_backlog element w0 in
            ret (constructionStack_push definition element w1))
  end.

(** The [catch] block of [upgradeElement].  The [splice] is a property
    access on [reactionQueue] and fails on a record that has none. *)
Definition upgrade_catch (element : elem) (w : World) : result :=
  match getPrivateState w element with
  | None => Throws (VError TypeError) w
  | Some elementState =>
      let failed :=
        set_customElementDefinition None
          (set_customElementState (Some CE_STATE_FAILED) elementState) in
      match reactionQueue failed with
      | None => Throws (VError TypeError) (setPrivateState element failed w)
      | Some _ =>
          ret (setPrivateState element (set_reactionQueue (Some []) failed) w)
      end
  end.

(** What follows [try]/[catch]: the pop, the re-throw guarded by
    [if (caught)], and the final assignment. *)
Definition upgrade_finish (element : elem)
  (definition : CustomElementDefinition) (caught : option value) (w : World)
  : result :=
  let w1 := constructionStack_pop definition w in
  if match caught with
     | Some error => truthy error
     | None => false
     end
  then Throws (default VNull caught) w1
  else
    ret (with_privateState
           (alter (set_customElementState (Some CE_STATE_CUSTOM)) element
              (privateState w1)) w1).

(** The calls that go through the recursive knot. *)
Inductive queue_ref : Type :=
| BackupQueue                      (* installation.backupElementQueue *)
| PoppedQueue (queue : list elem). (* an array nothing else refers to any
                                      more: the one returned by stack.pop(),
                                      or the backup queue of an installation
                                      taken off the global object *)

Inductive call : Type :=
| RunScript (body : list cmd)
| InvokeReactions (queue : queue_ref) (i : nat)
| WhileReactions (element : elem).

Definition read_queue (queue : queue_ref) (w : World) : list elem :=
  match queue with
  | BackupQueue =>
      match installation w with
      | Some inst => backupElementQueue inst
      | None => []
      end
  | PoppedQueue l => l
  end.

Definition reportError (error : value) (w : World) : World :=
  with_reported (reported w ++ [error]) w.

Section Step.

Variable prog : Program.
Variable rec : call -> World -> result.

(** [new definition.constructor] followed by the identity test. *)
Definition construct (element : elem) (definition : CustomElementDefinition)
  (w : World) : result :=
  let class := classes prog (def_constructor definition) in
  let* w1 := rec (RunScript (construct_body class)) w in
  if bool_decide (construct_yield class element = element) then ret w1
  else Throws (VError InvalidStateError) w1.

(** [upgradeElement]. *)
Definition upgradeElement (element : elem)
  (definition : CustomElementDefinition) (w : World) : result :=
  match upgrade_prepare element definition w with
  | None => ret w
  | Some prepared =>
      let* w2 := prepared in
      match construct element definition w2 with
      | Diverges => Diverges
      | Ok _ w3 => upgrade_finish element definition None w3
      | Throws error w3 =>
          let* w4 := upgrade_catch element w3 in
          upgrade_finish element definition (Some error) w4
      end
  end.

(** [executeCEReactions]: no handler surrounds the call of [callback]. *)
Definition executeCEReactions (callback : World -> result) (w : World)
  : result :=
  match installation w with
  | Some inst =>
      let w1 :=
        with_installation
          (Some (set_stack (customElementsReactionStack inst ++ [[]]) inst)) w in
      let* w2 := callback w1 in
      match installation w2 with
      | Some inst2 =>
          match array_pop (customElementsReactionStack inst2) with
          | Some (below, queue) =>
              rec (InvokeReactions (PoppedQueue queue) 0)
                (with_installation (Some (set_stack below inst2)) w2)
          | None => Throws (VError TypeError) w2
          end
      | None => Throws (VError TypeError) w2
      end
  | None => callback w
  end.

(** *** [define] *)

Definition getCallback (class : ClassDecl) (callbackName : callback_name)
  (w : World) : outcome (option fnid) :=
  let* w1 := rec (RunScript (fst (prototype_get class callbackName))) w in
  Ok (snd (prototype_get class callbackName)) w1.

(** The assignments to [lifecycleCallbacks] inside [try], in order; the
    object holds what was written before a getter threw. *)
Fixpoint read_callbacks (class : ClassDecl) (names : list callback_name)
  (acc : LifecycleCallbacks) (w : World) : LifecycleCallbacks * result :=
  match names with
  | [] => (acc, ret w)
  | callbackName :: rest =>
      match getCallback class callbackName w with
      | Ok callback w1 =>
          read_callbacks class rest (set_callback callbackName callback acc) w1
      | Throws error w1 => (acc, Throws error w1)
      | Diverges => (acc, Diverges)
      end
  end.

Definition callback_names : list callback_name :=
  [ CE_CALLBACK_CONNECTED; CE_CALLBACK_DISCONNECTED; CE_CALLBACK_ADOPTED;
    CE_CALLBACK_ATTRIBUTE_CHANGED ].

(** The [try] block of [define]: the callbacks and observed attributes as
    they stand when the block is left, and how it was left. *)
Definition define_try (class : ClassDecl) (w : World)
  : LifecycleCallbacks * list value * result :=
  if negb (prototype_is_object class)
  then (no_callbacks, [], Throws (VError TypeError) w)
  else
    match read_callbacks class callback_names no_callbacks w with
    | (callbacks, Ok _ w1) =>
        match attributeChangedCallback callbacks with
        | Some _ =>
            match rec (RunScript (fst (observedAttributes_get class))) w1 with
            | Ok _ w2 =>
                (callbacks, default [] (snd (observedAttributes_get class)),
                 ret w2)
            | other => (callbacks, [], other)
            end
        | None => (callbacks, [], ret w1)
        end
    | (callbacks, other) => (callbacks, [], other)
    end.

Definition set_running (b : bool) (w : World) : World :=
  match installation w with
  | Some inst =>
      with_installation
        (Some (set_registry
                 {| definitions := definitions (registry inst);
                    elementDefinitionIsRunning := b;
                    whenDefinedPromiseMap :=
                      whenDefinedPromiseMap (registry inst) |} inst)) w
  | None => w
  end.

Definition push_definition (definition : CustomElementDefinition) (w : World)
  : World :=
  match installation w with
  | Some inst =>
      with_installation
        (Some (set_registry
                 {| definitions := definitions (registry inst) ++ [definition];
                    elementDefinitionIsRunning :=
                      elementDefinitionIsRunning (registry inst);
                    whenDefinedPromiseMap :=
                      whenDefinedPromiseMap (registry inst) |} inst)) w
  | None => w
  end.

(** The visitor handed to the tree traversal, for a node that passed the
    three tests.  With a non-empty [extends] the record of the node is read
    first, a property access that fails on a node without a record. *)
Definition sweep_visit (definition : CustomElementDefinition)
  (extensionOf : option jsstring) (node : elem) (w : World) : result :=
  if match extensionOf with
     | Some extensionOf => truthy (VStr extensionOf)
     | None => false
     end
  then match getPrivateState w node with
       | None => Throws (VError TypeError) w
       | Some nodeState =>
           if bool_decide (isValue nodeState = extensionOf)
           then enqueueUpgradeReaction node definition w
           else ret w
       end
  else enqueueUpgradeReaction node definition w.

(** The traversal of the document; what the visitor throws ends it. *)
Fixpoint upgrade_sweep (definition : CustomElementDefinition)
  (extensionOf : option jsstring) (visit : list elem) (w : World) : result :=
  match visit with
  | [] => ret w
  | node :: rest =>
      let n := node_of w node in
      if is_element n
         && bool_decide (namespaceURI n = Some htmlNamespace)
         && jsstring_eqb (localName n) (def_localName definition)
      then let* w1 := sweep_visit definition extensionOf node w in
           upgrade_sweep definition extensionOf rest w1
      else upgrade_sweep definition extensionOf rest w
  end.

Definition resolve_whenDefined (name : jsstring) (w : World) : World :=
  match installation w with
  | Some inst =>
      if bool_decide (name ∈ whenDefinedPromiseMap (registry inst))
      then with_microtasks (microtasks w ++ [ResolveWhenDefined name]) w
      else w
  | None => w
  end.

(** The second half of the arrow function of [define], from the test of
    the running flag on.  [localName'] is the local name the first half
    chose and [extensionOf] the [extends] option. *)
Definition define_registration (name : jsstring) (constructor : classid)
  (localName' : jsstring) (extensionOf : option jsstring) (w : World)
  : result :=
  match installation w with
  | None => Throws (VError TypeError) w
  | Some inst =>
      let class := classes prog constructor in
      if elementDefinitionIsRunning (registry inst)
      then Throws (VError NotSupportedError) w
      else
        match define_try class (set_running true w) with
        | (_, _, Diverges) => Diverges
        | (callbacks, observed, exit) =>
            let '(caught, w1) :=
              match exit with
              | Throws error w' => (Some error, w')
              | Ok _ w' => (None, w')
              | Diverges => (None, w)
              end in
            let w2 := set_running false w1 in
            if match caught with
               | Some error => truthy error
               | None => false
               end
            then Throws (default VNull caught) w2
            else
              let address := fresh (dom (constructionStacks w2)) in
              let definition :=
                {| def_name := name; def_localName := localName';
                   def_constructor := constructor;
                   observedAttributes := observed;
                   lifecycleCallbacks := callbacks;
                   constructionStack := address |} in
              let w3 :=
                with_constructionStacks
                  (<[address := []]> (constructionStacks w2))
                  (push_definition definition w2) in
              let* w4 :=
                if document_loading w3 then ret w3
                else upgrade_sweep definition extensionOf
                       (document_order w3) w3 in
              ret (resolve_whenDefined name w4)
        end
  end.

(** The arrow function [define] hands to [executeCEReactions].  With
    [extends] the body reads the identifier [testElement], which the module
    does not declare: a [ReferenceError] unless the page has such a
    global. *)
Definition define_body (name : jsstring) (constructor : classid)
  (extends : option jsstring) (w : World) : result :=
  match installation w with
  | None => Throws (VError TypeError) w
  | Some inst =>
      let class := classes prog constructor in
      if negb (prototype_constructor_is_self class)
      then Throws (VError TypeError) w
      else if negb (isValidCustomElementName name)
      then Throws (VError SyntaxError) w
      else
        match extends with
        | Some extensionOf =>
            if isValidCustomElementName extensionOf
            then Throws (VError NotSupportedError) w
            else
              match testElement_constructor_get prog with
              | None => Throws (VError ReferenceError) w
              | Some getter =>
                  let* w0 := rec (RunScript getter) w in
                  define_registration name constructor extensionOf
                    (Some extensionOf) w0
              end
        | None => define_registration name constructor name None w
        end
  end.

Definition define (name : jsstring) (constructor : classid)
  (extends : option jsstring) (w : World) : result :=
  executeCEReactions (define_body name constructor extends) w.

(** *** User code, one step *)

Definition exec_cmd (c : cmd) (w : World) : result :=
  match c with
  | Throw v => Throws v w
  | TryCatch body handler =>
      match rec (RunScript body) w with
      | Throws _ w1 => rec (RunScript handler) w1
      | other => other
      end
  | DomUpdate node d => ret (with_nodes (<[node := d]> (nodes w)) w)
  | InsertingSteps node =>
      if isConnected (node_of w node)
      then if isCustom w node
           then enqueueCallbackReaction node CE_CALLBACK_CONNECTED [] w
           else tryToUpgradeElement node w
      else ret w
  | RemovingSteps node =>
      if isCustom w node
      then enqueueCallbackReaction node CE_CALLBACK_DISCONNECTED [] w
      else ret w
  | AdoptingSteps node oldDocument newDocument =>
      if isCustom w node
      then enqueueCallbackReaction node CE_CALLBACK_ADOPTED
             [oldDocument; newDocument] w
      else ret w
  | CloningSteps node => tryToUpgradeElement node w
  | AttributeChangeSteps element attrName oldValue newValue nameSpace =>
      if isCustom w element
      then enqueueCallbackReaction element CE_CALLBACK_ATTRIBUTE_CHANGED
             [attrName; oldValue; newValue; nameSpace] w
      else ret w
  | TryToUpgradeElement element => tryToUpgradeElement element w
  | ExecuteCEReactions callback =>
      executeCEReactions (rec (RunScript callback)) w
  | Define name constructor extends => define name constructor extends w
  end.

(** *** [invokeReactions]

    The outer [for] re-reads [queue.length] on every iteration, and the
    inner [while] re-reads [reactions.length]: both arrays are read from the
    current world.  The record of an element is never replaced once the
    element sits in a queue, so reading the reaction queue through the
    element is reading the array bound to [reactions]. *)

Definition invoke_reaction (element : elem) (reaction : Reaction) (w : World)
  : result :=
  match reaction with
  | UpgradeReaction definition => upgradeElement element definition w
  | CallbackReaction callback args =>
      rec (RunScript (functions prog callback))
        (with_invoked (invoked w ++ [(element, callback, args)]) w)
  end.

Definition while_reactions (element : elem) (w : World) : result :=
  match getPrivateState w element with
  | None => ret w
  | Some elementState =>
      match reactionQueue elementState with
      | None | Some [] => ret w
      | Some (reaction :: rest) =>
          let w1 :=
            setPrivateState element
              (set_reactionQueue (Some rest) elementState) w in
          match invoke_reaction element reaction w1 with
          | Ok _ w2 => rec (WhileReactions element) w2
          | Throws error w2 => rec (WhileReactions element) (reportError error w2)
          | Diverges => Diverges
          end
      end
  end.

Definition invokeReactions_from (queue : queue_ref) (i : nat) (w : World)
  : result :=
  match read_queue queue w !! i with
  | None => ret w
  | Some element =>
      match getPrivateState w element with
      | None => Throws (VError TypeError) w
      | Some elementState =>
          match reactionQueue elementState with
          | None => Throws (VError TypeError) w
          | Some _ =>
              let* w1 := rec (WhileReactions element) w in
              rec (InvokeReactions queue (S i)) w1
          end
      end
  end.

Fixpoint run_script (body : list cmd) (w : World) : result :=
  match body with
  | [] => ret w
  | c :: rest =>
      let* w1 := exec_cmd c w in
      run_script rest w1
  end.

Definition step (c : call) (w : World) : result :=
  match c with
  | RunScript body => run_script body w
  | InvokeReactions queue i => invokeReactions_from queue i w
  | WhileReactions element => while_reactions element w
  end.

End Step.

(** Tying the knot: every call through [rec] costs one unit of fuel. *)
Fixpoint eval (prog : Program) (fuel : nat) (c : call) (w : World) : result :=
  match fuel with
  | O => Diverges
  | S n => step prog (eval prog n) c w
  end.

Definition invokeReactions (prog : Program) (fuel : nat) (queue : queue_ref)
  (w : World) : result :=
  eval prog fuel (InvokeReactions queue 0) w.

(** The task scheduled by [enqueueElementOnAppropriateElementQueue], and the
    one scheduled by [define]; both are run by the host, oldest first. *)
Definition clear_whenDefined (name : jsstring) (w : World) : World :=
  match installation w with
  | Some inst =>
      with_installation
        (Some (set_registry
                 {| definitions := definitions (registry inst);
                    elementDefinitionIsRunning :=
                      elementDefinitionIsRunning (registry inst);
                    whenDefinedPromiseMap :=
                      filter (fun n => n ≠ name)
                        (whenDefinedPromiseMap (registry inst)) |} inst)) w
  | None => w
  end.

Definition set_processingBackupElementQueue (b : bool) (w : World) : World :=
  match installation w with
  | Some inst => with_installation (Some (set_processing b inst)) w
  | None => w
  end.

(** The drain task reads the backup queue of its own installation object
    and clears the flag of that object.  Nothing appends to the backup queue
    of a detached object any more, and nothing reads its flag. *)
Definition run_task (prog : Program) (fuel : nat) (task : Microtask)
  (w : World) : result :=
  match task with
  | DrainBackupElementQueue =>
      let* w1 := invokeReactions prog fuel BackupQueue w in
      ret (set_processingBackupElementQueue false w1)
  | ResolveWhenDefined name => ret (clear_whenDefined name w)
  | DrainDetachedQueue inst =>
      invokeReactions prog fuel (PoppedQueue (backupElementQueue inst)) w
  end.

Definition run_microtask (prog : Program) (fuel : nat) (w : World) : result :=
  match microtasks w with
  | [] => ret w
  | task :: rest => run_task prog fuel task (with_microtasks rest w)
  end.

(** [uninstall], as far as the world goes: the installation is taken off
    the global object (together with [window.customElements]), and the
    drain tasks that were scheduled for it keep it.  Restoring the patched
    constructors and [createElement] is left to the host.  It is called by
    the page between two scripts, not from inside a reaction. *)
Definition detach_task (inst : Installation) (task : Microtask) : Microtask :=
  match task with
  | DrainBackupElementQueue => DrainDetachedQueue inst
  | other => other
  end.

Definition uninstall (w : World) : World :=
  match installation w with
  | None => w
  | Some inst =>
      with_microtasks (map (detach_task inst) (microtasks w))
        (with_installation None w)
  end.

Definition isInstalled (w : World) : bool :=
  match installation w with
  | Some _ => true
  | None => false
  end.

End Machine.

Export Machine.

(** ** Concrete programs and worlds used by the examples *)

Module Examples.

Local Open Scope Z_scope.

Definition attr_a : Attr :=
  {| attr_localName := lit "a"; attr_value := lit "1";
     attr_namespaceURI := None |}.
Definition attr_b : Attr :=
  {| attr_localName := lit "b"; attr_value := lit "2";
     attr_namespaceURI := None |}.
Definition attr_c : Attr :=
  {| attr_localName := lit "c"; attr_value := lit "3";
     attr_namespaceURI := None |}.

(** A connected [<x-a a="1" b="2" c="3">]. *)
Definition x_a_node : DomNode :=
  {| is_element := true; namespaceURI := Some htmlNamespace;
     localName := lit "x-a"; attributes := [attr_a; attr_b; attr_c];
     isConnected := true; has_defaultView := true |}.

(** User functions: 1 is a [connectedCallback], 2 an
    [attributeChangedCallback] that throws, 3 a callback that reports a
    connection of element 6 from inside the drain, the others do nothing. *)
Definition example_functions (f : fnid) : list cmd :=
  match f with
  | 2%nat => [Throw (VError (UserError 2))]
  | 3%nat => [InsertingSteps 6%nat]
  | _ => []
  end.

Definition getters (connected attributeChanged : option fnid)
  (k : callback_name) : list cmd * option fnid :=
  match k with
  | CE_CALLBACK_CONNECTED => ([], connected)
  | CE_CALLBACK_ATTRIBUTE_CHANGED => ([], attributeChanged)
  | _ => ([], None)
  end.

(** Class 0 constructs normally and observes only [a]; class 1 throws
    [null] from its constructor; class 2 throws an error object; class 3
    yields another object than the one being upgraded; class 4 is not its
    prototype's constructor; class 5 re-enters [define] from the getter of
    [observedAttributes]. *)
Definition example_classes (c : classid) : ClassDecl :=
  {| prototype_constructor_is_self := negb (c =? 4)%nat;
     prototype_is_object := true;
     prototype_get := getters (Some 1%nat) (Some 2%nat);
     observedAttributes_get :=
       (if (c =? 5)%nat then [Define (lit "x-inner") 0%nat None] else [],
        Some [VStr (lit "a")]);
     construct_body :=
       match c with
       | 1%nat => [Throw VNull]
       | 2%nat => [Throw (VError (UserError 7))]
       | _ => []
       end;
     construct_yield := fun e => if (c =? 3)%nat then 99%nat else e |}.

Definition example_program : Program :=
  {| functions := example_functions; classes := example_classes;
     testElement_constructor_get := None |}.

(** The same program on a page that has a global [testElement], a plain
    data property. *)
Definition extends_program : Program :=
  {| functions := example_functions; classes := example_classes;
     testElement_constructor_get := Some [] |}.

(** A page whose global [testElement] is an accessor that defines [x-a]
    with class 6 when it is read. *)
Definition accessor_program : Program :=
  {| functions := example_functions; classes := example_classes;
     testElement_constructor_get := Some [Define (lit "x-a") 6%nat None] |}.

Definition empty_registry : Registry :=
  {| definitions := []; elementDefinitionIsRunning := false;
     whenDefinedPromiseMap := [] |}.

Definition fresh_installation : Installation :=
  {| registry := empty_registry; customElementsReactionStack := [];
     backupElementQueue := []; processingBackupElementQueue := false |}.

(** An installed runtime over a loaded document holding one [<x-a>]. *)
Definition installed_world : World :=
  {| installation := Some fresh_installation; privateState := ∅;
     nodes := {[ 5%nat := x_a_node ]}; document_order := [5%nat];
     document_loading := false; constructionStacks := ∅; microtasks := [];
     reported := []; invoked := [] |}.

(** The same page without the runtime installed. *)
Definition uninstalled_world : World :=
  with_installation None installed_world.

Definition x_a_definition (constructor : classid) : CustomElementDefinition :=
  {| def_name := lit "x-a"; def_localName := lit "x-a";
     def_constructor := constructor;
     observedAttributes := [VStr (lit "a")];
     lifecycleCallbacks :=
       {| connectedCallback := Some 1%nat; disconnectedCallback := None;
          adoptedCallback := None; attributeChangedCallback := Some 2%nat |};
     constructionStack := 0%nat |}.

Local Close Scope Z_scope.

(** A world in which a definition is running, as seen from a getter that
    [define] calls. *)
Definition running_world : World :=
  set_running true installed_world.

Definition running_installation : Installation :=
  set_registry
    {| definitions := []; elementDefinitionIsRunning := true;
       whenDefinedPromiseMap := [] |} fresh_installation.

(** A definition of [x-a] whose class has no lifecycle callback. *)
Definition x_a_silent_definition : CustomElementDefinition :=
  {| def_name := lit "x-a"; def_localName := lit "x-a";
     def_constructor := 0;
     observedAttributes := [VStr (lit "a")];
     lifecycleCallbacks :=
       {| connectedCallback := None; disconnectedCallback := None;
          adoptedCallback := None; attributeChangedCallback := None |};
     constructionStack := 0 |}.

Definition custom_record (queue : list Reaction) : ElementState :=
  {| customElementState := Some CE_STATE_CUSTOM;
     customElementDefinition := Some (x_a_definition 0);
     reactionQueue := Some queue; isValue := None |}.

(** Two custom elements with pending callbacks; the first callback of
    element 5 (function 2) throws. *)
Definition batch_world : World :=
  with_privateState
    (<[5 := custom_record
              [ CallbackReaction 2 (attribute_args attr_a);
                CallbackReaction 1 [] ]]>
       (<[6 := custom_record [CallbackReaction 1 []]]> ∅))
    installed_world.

(** Element 5 waits for an upgrade whose constructor (class 2) throws, with
    a callback queued behind it; element 6 has one callback pending. *)
Definition failing_upgrade_world : World :=
  with_privateState
    (<[5 := {| customElementState := None;
               customElementDefinition := Some (x_a_definition 2);
               reactionQueue :=
                 Some [ UpgradeReaction (x_a_definition 2);
                        CallbackReaction 1 [] ];
               isValue := None |}]>
       (<[6 := custom_record [CallbackReaction 1 []]]> ∅))
    installed_world.

(** The runtime after [define("x-a")] upgraded element 5 and the drain task
    ran: element 5 sits twice in the backup queue with nothing pending. *)
Definition settled_installation : Installation :=
  {| registry :=
       {| definitions := [x_a_definition 0];
          elementDefinitionIsRunning := false; whenDefinedPromiseMap := [] |};
     customElementsReactionStack := [];
     backupElementQueue := [5; 5];
     processingBackupElementQueue := false |}.

Definition settled_world : World :=
  with_installation (Some settled_installation)
    (with_privateState (<[5 := custom_record []]> ∅) installed_world).

(** Element 5 was upgraded while the runtime was installed, and the runtime
    is gone. *)
Definition orphan_world : World :=
  with_privateState (<[5 := custom_record []]> ∅) uninstalled_world.

(** The drain task is about to run: element 5 sits in the backup queue with
    a callback (function 3) that reports the connection of the custom
    element 6. *)
Definition drain_installation : Installation :=
  {| registry :=
       {| definitions := [x_a_definition 0];
          elementDefinitionIsRunning := false; whenDefinedPromiseMap := [] |};
     customElementsReactionStack := [];
     backupElementQueue := [5];
     processingBackupElementQueue := true |}.

Definition drain_world : World :=
  with_installation (Some drain_installation)
    (with_nodes (<[6 := x_a_node]> (nodes installed_world))
       (with_privateState
          (<[5 := custom_record [CallbackReaction 3 []]]>
             (<[6 := custom_record []]> ∅))
          installed_world)).

(** The same moment, with the task still in the microtask list. *)
Definition scheduled_world : World :=
  with_microtasks [DrainBackupElementQueue] drain_world.

End Examples.

(** ** The vocabulary of the statements *)

Module Vocabulary.

(** The names in the definition table of the world an outcome carries. *)
Definition registered_names (r : result) : list jsstring :=
  match r with
  | Ok _ w | Throws _ w =>
      match installation w with
      | Some inst => map def_name (definitions (registry inst))
      | None => []
      end
  | Diverges => []
  end.

(** The reactions pending on an element, when its record has a queue. *)
Definition pending (w : World) (element : elem) : option (list Reaction) :=
  getPrivateState w element ≫= reactionQueue.

(** What [enqueueCallbackReaction] appends for a definition: nothing when
    the callback is missing or the attribute is not observed. *)
Definition callback_reactions (definition : CustomElementDefinition)
  (callbackName : callback_name) (args : list value) : list Reaction :=
  match get_callback (lifecycleCallbacks definition) callbackName with
  | None => []
  | Some callback =>
      if bool_decide (callbackName = CE_CALLBACK_ATTRIBUTE_CHANGED)
         && negb (bool_decide (first_arg args ∈ observedAttributes definition))
      then []
      else [CallbackReaction callback args]
  end.

(** The backlog as the steps before construction produce it: one
    attribute-changed reaction for every observed attribute, in attribute
    order, then one connected reaction; each only if the definition has the
    callback. *)
Definition backlog (definition : CustomElementDefinition) (node : DomNode)
  : list Reaction :=
  match attributeChangedCallback (lifecycleCallbacks definition) with
  | Some callback =>
      map (fun attribute => CallbackReaction callback (attribute_args attribute))
        (filter (fun attribute =>
                   VStr (attr_localName attribute)
                   ∈ observedAttributes definition)
           (attributes node))
  | None => []
  end
  ++ match connectedCallback (lifecycleCallbacks definition) with
     | Some callback =>
         if isConnected node then [CallbackReaction callback []] else []
     | None => []
     end.

(** A user function that does nothing but throw (or nothing at all). *)
Definition throws_only (body : list cmd) : Prop :=
  Forall (fun c => exists v, c = Throw v) body.

(** What such a function throws, if anything. *)
Definition script_error (body : list cmd) : list value :=
  match body with
  | Throw v :: _ => [v]
  | _ => []
  end.

(** The entry a callback reaction leaves in the invocation log. *)
Definition reaction_calls (element : elem) (reaction : Reaction)
  : list (elem * fnid * list value) :=
  match reaction with
  | CallbackReaction callback args => [(element, callback, args)]
  | UpgradeReaction _ => []
  end.

End Vocabulary.

Export Vocabulary.

(** ** Invariants of the reaction queue engine *)

Module Invariants.

(** The element has a record, and the record has a reaction queue. *)
Definition has_queue (w : World) (element : elem) : Prop :=
  is_Some (pending w element).

(** The number of pending tasks that drain the backup element queue of the
    installation on the global object. *)
Fixpoint count_drains (tasks : list Microtask) : nat :=
  match tasks with
  | [] => 0
  | DrainBackupElementQueue :: rest => S (count_drains rest)
  | ResolveWhenDefined _ :: rest | DrainDetachedQueue _ :: rest =>
      count_drains rest
  end.

(** Every element that sits in an element queue can be processed by
    [invokeReactions]. *)
Definition queues_have_records (w : World) : Prop :=
  forall inst,
    installation w = Some inst ->
    Forall (has_queue w) (backupElementQueue inst)
    /\ Forall (Forall (has_queue w)) (customElementsReactionStack inst).

(** At most one drain task is pending, and none while the flag is clear. *)
Definition single_drain (w : World) : Prop :=
  forall inst,
    installation w = Some inst ->
    count_drains (microtasks w) <= 1
    /\ (processingBackupElementQueue inst = false ->
        count_drains (microtasks w) = 0).

(** How the world may change while the module runs: reaction queues are
    never taken away from a record, the backup element queue only grows at
    its end, and while the processing flag is set it stays set and no drain
    task is added. *)
Definition evolves (w w' : World) : Prop :=
  (forall element, has_queue w element -> has_queue w' element)
  /\ (installation w = None -> installation w' = None)
  /\ forall inst,
       installation w = Some inst ->
       exists inst',
         installation w' = Some inst'
         /\ backupElementQueue inst `prefix_of` backupElementQueue inst'
         /\ (processingBackupElementQueue inst = true ->
             processingBackupElementQueue inst' = true
             /\ count_drains (microtasks w') = count_drains (microtasks w)).

Definition step_ok (w w' : World) : Prop :=
  evolves w w'
  /\ (queues_have_records w -> queues_have_records w')
  /\ (single_drain w -> single_drain w').

Definition keeps {A : Type} (w : World) (r : outcome A) : Prop :=
  match r with
  | Ok _ w' | Throws _ w' => step_ok w w'
  | Diverges => True
  end.

End Invariants.

Export Invariants.

Module LoopVocabulary.

(** Every element of a popped queue has a record with a reaction queue;
    for the backup queue this is part of [queues_have_records]. *)
Definition queue_ready (queue : queue_ref) (w : World) : Prop :=
  match queue with
  | BackupQueue => True
  | PoppedQueue l => Forall (has_queue w) l
  end.

(** The outcome still holds the backup queue [inst] had, as a prefix. *)
Definition backup_kept {A : Type} (inst : Installation) (r : outcome A)
  : Prop :=
  match r with
  | Ok _ w' | Throws _ w' =>
      exists inst',
        installation w' = Some inst'
        /\ backupElementQueue inst `prefix_of` backupElementQueue inst'
  | Diverges => True
  end.

(** Nothing was placed or scheduled, nothing ran. *)
Definition quiet (w w' : World) : Prop :=
  installation w' = None
  /\ microtasks w' = microtasks w
  /\ invoked w' = invoked w
  /\ reported w' = reported w.

(** An outcome whose world is [quiet] with respect to [w]. *)
Definition stays_quiet {A : Type} (w : World) (r : outcome A) : Prop :=
  match r with
  | Ok _ w' | Throws _ w' => quiet w w'
  | Diverges => True
  end.

(** An outcome whose world satisfies [single_drain]. *)
Definition keeps_single_drain {A : Type} (r : outcome A) : Prop :=
  match r with
  | Ok _ w' | Throws _ w' => single_drain w'
  | Diverges => True
  end.

Section WithProgram.

Variable prog : Program.

(** A callback reaction whose callback only throws. *)
Definition simple_reaction (reaction : Reaction) : Prop :=
  match reaction with
  | CallbackReaction callback _ => throws_only (functions prog callback)
  | UpgradeReaction _ => False
  end.

(** The errors a simple reaction raises when invoked. *)
Definition reaction_errors (reaction : Reaction) : list value :=
  match reaction with
  | CallbackReaction callback _ => script_error (functions prog callback)
  | UpgradeReaction _ => []
  end.

(** The world after the inner loop has consumed the reactions [rs] of
    [element]: every callback was called, every error was reported. *)
Definition drained (element : elem) (st : ElementState) (rs : list Reaction)
  (w : World) : World :=
  with_reported (reported w ++ flat_map reaction_errors rs)
    (with_invoked (invoked w ++ flat_map (reaction_calls element) rs)
       (setPrivateState element (set_reactionQueue (Some []) st) w)).

(** One visit of the outer loop, and a whole batch. *)
Definition drain_element (element : elem) (w : World) : World :=
  match getPrivateState w element with
  | Some st =>
      match reactionQueue st with
      | Some rs => drained element st rs w
      | None => w
      end
  | None => w
  end.

Fixpoint batch (elements : list elem) (w : World) : World :=
  match elements with
  | [] => w
  | element :: rest => batch rest (drain_element element w)
  end.

(** All reactions pending on the listed elements are simple, and at most
    [bound] of them wait on any one element. *)
Definition simple_queue (bound : nat) (elements : list elem) (w : World)
  : Prop :=
  Forall (fun element =>
            exists rs,
              pending w element = Some rs
              /\ Forall simple_reaction rs /\ length rs <= bound)
    elements.

End WithProgram.

End LoopVocabulary.

Export LoopVocabulary.

(** ** No reaction is lost

    An element with a pending reaction is always scheduled: it sits in the
    part of the backup element queue that the drain has not passed yet, in
    a queue of the stack, or in the rest of a popped queue that an enclosing
    [invokeReactions] is still walking. *)

Module Tracking.

Definition backup_of (w : World) : list elem := read_queue BackupQueue w.

Definition on_stack (w : World) (element : elem) : Prop :=
  exists inst queue,
    installation w = Some inst
    /\ queue ∈ customElementsReactionStack inst
    /\ element ∈ queue.

(** [frames] lists what enclosing loops over popped queues have left to
    visit; [i] is the index the drain of the backup queue has reached. *)
Definition scheduled (frames : list elem) (i : nat) (w : World)
  (element : elem) : Prop :=
  element ∈ frames \/ element ∈ drop i (backup_of w) \/ on_stack w element.

Definition waiting (w : World) (element : elem) : Prop :=
  exists r rs, pending w element = Some (r :: rs).

Definition tracked (frames : list elem) (i : nat) (w : World) : Prop :=
  is_Some (installation w)
  /\ i <= length (backup_of w)
  /\ forall element, waiting w element -> scheduled frames i w element.

(** The schedule only grows. *)
Definition grows (w w' : World) : Prop :=
  (is_Some (installation w) -> is_Some (installation w'))
  /\ backup_of w `prefix_of` backup_of w'
  /\ forall element, on_stack w element -> on_stack w' element.

Definition tracks {A : Type} (frames : list elem) (i : nat) (w : World)
  (r : outcome A) : Prop :=
  queues_have_records w -> tracked frames i w ->
  match r with
  | Ok _ w' | Throws _ w' => tracked frames i w'
  | Diverges => True
  end.

(** What the caller of a call through the knot must provide, and what it
    gets back. *)
Definition call_pre (frames : list elem) (i : nat) (c : call) (w : World)
  : Prop :=
  match c with
  | RunScript _ => tracked frames i w
  | WhileReactions element => tracked (element :: frames) i w
  | InvokeReactions (PoppedQueue queue) j =>
      Forall (has_queue w) queue /\ tracked (drop j queue ++ frames) i w
  | InvokeReactions BackupQueue j => tracked frames j w
  end.

Definition call_post (frames : list elem) (i : nat) (c : call) (r : result)
  : Prop :=
  match r with
  | Ok _ w' =>
      match c with
      | InvokeReactions BackupQueue _ =>
          tracked frames (length (backup_of w')) w'
      | _ => tracked frames i w'
      end
  | Throws _ w' =>
      match c with
      | RunScript _ => tracked frames i w'
      | _ => False
      end
  | Diverges => True
  end.

(** The record holds at least one pending reaction. *)
Definition queue_waiting (st : ElementState) : Prop :=
  exists r rs, reactionQueue st = Some (r :: rs).

End Tracking.

Export Tracking.

(** ** Reachable worlds *)

Module Reachability.

(** A page right after [install]: the stack and the backup queue are empty,
    the flag is clear, no drain task is pending and no reaction waits on
    any element. *)
Definition just_installed (w : World) : Prop :=
  exists inst,
    installation w = Some inst
    /\ customElementsReactionStack inst = []
    /\ backupElementQueue inst = []
    /\ processingBackupElementQueue inst = false
    /\ count_drains (microtasks w) = 0
    /\ forall element, ~ waiting w element.

Definition ends_in (r : result) (w' : World) : Prop :=
  r = ret w' \/ exists error, r = Throws error w'.

(** The worlds the host can reach: it runs user code to completion (or
    until it throws), and it runs the pending microtasks, oldest first. *)
Inductive reachable (prog : Program) : World -> Prop :=
| reachable_installed (w : World) :
    just_installed w -> reachable prog w
| reachable_script (w w' : World) (fuel : nat) (body : list cmd) :
    reachable prog w ->
    ends_in (eval prog fuel (RunScript body) w) w' ->
    reachable prog w'
| reachable_microtask (w w' : World) (fuel : nat) :
    reachable prog w ->
    ends_in (run_microtask prog fuel w) w' ->
    reachable prog w'.

End Reachability.

Export Reachability.

(** ** The initial upgrade of a document *)

Module InitialUpgrade.

Section WithKnot.

Variable prog : Program.
Variable rec : call -> World -> result.

(** [tryToUpgradeElementSync]: the steps of [tryToUpgradeElement], with the
    upgrade carried out at once instead of being enqueued. *)
Definition tryToUpgradeElementSync (element : elem) (w : World) : result :=
  let elementState := getPrivateState w element in
  if match elementState with
     | Some st => shouldNotUpgrade st
     | None => false
     end
  then ret w
  else
    let isValue' :=
      match elementState with
      | Some st => isValue st
      | None => None
      end in
    let* (definition, w1) :=
      lookupCustomElementDefinition w (node_of w element) isValue' in
    match definition with
    | Some definition => upgradeElement prog rec element definition w1
    | None => ret w1
    end.

(** [elements.forEach(tryToUpgradeElementSync)]: nothing catches what an
    upgrade throws, so the first error ends the loop. *)
Fixpoint forEach_tryToUpgradeElementSync (elements : list elem) (w : World)
  : result :=
  match elements with
  | [] => ret w
  | element :: rest =>
      let* w1 := tryToUpgradeElementSync element w in
      forEach_tryToUpgradeElementSync rest w1
  end.

(** [performInitialUpgrades]: the nodes of the document are collected
    first, then upgraded in that order. *)
Definition performInitialUpgrades (w : World) : result :=
  forEach_tryToUpgradeElementSync (document_order w) w.

End WithKnot.

End InitialUpgrade.

Export InitialUpgrade.

(** ** The registry object *)

Module CustomElementRegistry.

(** [get]: the constructor of the first definition of that name; [None]
    stands for [undefined]. *)
Definition get (r : Registry) (name : jsstring) : option classid :=
  def_constructor
    <$> find (fun definition => jsstring_eqb (def_name definition) name)
          (definitions r).

(** What [whenDefined] returns: a promise that is already resolved, or the
    promise kept in the entry of the name.  [Promise.resolve()] makes a new
    object on every call, at an address the call is given.  A name gets at
    most one entry in the life of a registry (once it is defined the entry is
    not looked at again), so the name identifies the promise of its entry. *)
Inductive DefinedPromise : Type :=
| ResolvedPromise (address : nat)
| EntryPromise (name : jsstring).

(** The plain [Error] thrown when the page has no [Promise]. *)
Definition polyfillError : value := VError (UserError 0).

Definition add_entry (name : jsstring) (r : Registry) : Registry :=
  {| definitions := definitions r;
     elementDefinitionIsRunning := elementDefinitionIsRunning r;
     whenDefinedPromiseMap := whenDefinedPromiseMap r ++ [name] |}.

(** [whenDefined].  [promisesSupported] is the constant the module computes
    when it is loaded, and [fresh] the address of the next object the call
    allocates.  The registry is reached through the global object, so
    without an installation the call itself fails. *)
Definition whenDefined (promisesSupported : bool) (fresh : nat)
  (name : jsstring) (w : World) : outcome DefinedPromise :=
  match installation w with
  | None => Throws (VError TypeError) w
  | Some inst =>
      if negb promisesSupported then Throws polyfillError w
      else if negb (isValidCustomElementName name)
      then Throws (VError SyntaxError) w
      else if existsb (fun definition => jsstring_eqb name (def_name definition))
                (definitions (registry inst))
      then Ok (ResolvedPromise fresh) w
      else if bool_decide (name ∈ whenDefinedPromiseMap (registry inst))
      then Ok (EntryPromise name) w
      else Ok (EntryPromise name)
             (with_installation
                (Some (set_registry (add_entry name (registry inst)) inst)) w)
  end.

End CustomElementRegistry.

(** ** Classes without side effects *)

Module PlainClasses.

(** A class that [define] accepts, whose property reads run no getter and
    whose constructor does nothing but return the element under
    construction. *)
Definition plain_class (class : ClassDecl) : Prop :=
  prototype_constructor_is_self class = true
  /\ prototype_is_object class = true
  /\ (forall callbackName, fst (prototype_get class callbackName) = [])
  /\ fst (observedAttributes_get class) = []
  /\ construct_body class = []
  /\ forall element, construct_yield class element = element.

(** The callbacks [define] reads from the prototype of such a class. *)
Definition callbacks_of (class : ClassDecl) : LifecycleCallbacks :=
  {| connectedCallback := snd (prototype_get class CE_CALLBACK_CONNECTED);
     disconnectedCallback :=
       snd (prototype_get class CE_CALLBACK_DISCONNECTED);
     adoptedCallback := snd (prototype_get class CE_CALLBACK_ADOPTED);
     attributeChangedCallback :=
       snd (prototype_get class CE_CALLBACK_ATTRIBUTE_CHANGED) |}.

(** The definition object [define] builds for it: [observedAttributes] is
    read only when there is an [attributeChangedCallback]. *)
Definition definition_of (prog : Program) (name : jsstring)
  (constructor : classid) (address : nat) : CustomElementDefinition :=
  let class := classes prog constructor in
  {| def_name := name; def_localName := name;
     def_constructor := constructor;
     observedAttributes :=
       match attributeChangedCallback (callbacks_of class) with
       | Some _ => default [] (snd (observedAttributes_get class))
       | None => []
       end;
     lifecycleCallbacks := callbacks_of class;
     constructionStack := address |}.

(** The test by which the sweep of [define] picks the nodes to upgrade. *)
Definition is_candidate (name : jsstring) (node : DomNode) : bool :=
  is_element node
  && bool_decide (namespaceURI node = Some htmlNamespace)
  && jsstring_eqb (localName node) name.

(** A [define] that reads [testElement] without running code of the page:
    one without [extends], or one on a page whose global needs no accessor. *)
Definition reads_nothing (prog : Program) (rec : call -> World -> result)
  (extends : option jsstring) : Prop :=
  extends = None
  \/ forall getter w w0,
       testElement_constructor_get prog = Some getter ->
       rec (RunScript getter) w = Ok tt w0 -> w0 = w.

(** A report made inside [executeCEReactions] has its callback called once
    with the given arguments before [executeCEReactions] returns: what the
    callback throws is reported, and the record of the element, the
    installation and the microtask list are afterwards what they were. *)
Definition delivered (prog : Program) (fuel : nat) (report : cmd)
  (element : elem) (callback : fnid) (args : list value) (w : World) : Prop :=
  exists w',
    eval prog fuel (RunScript [ExecuteCEReactions [report]]) w = ret w'
    /\ invoked w' = invoked w ++ [(element, callback, args)]
    /\ reported w' = reported w ++ script_error (functions prog callback)
    /\ getPrivateState w' element = getPrivateState w element
    /\ installation w' = installation w
    /\ microtasks w' = microtasks w.

End PlainClasses.

Export PlainClasses.

(** ** What a run of the module leaves in place *)

Module History.

Definition stack_of (w : World) : list (list elem) :=
  match installation w with
  | Some inst => customElementsReactionStack inst
  | None => []
  end.

Definition registry_of (w : World) : option Registry :=
  registry <$> installation w.

Definition definitions_of (w : World) : list CustomElementDefinition :=
  match installation w with
  | Some inst => definitions (registry inst)
  | None => []
  end.

Definition running_of (w : World) : bool :=
  match installation w with
  | Some inst => elementDefinitionIsRunning (registry inst)
  | None => false
  end.

Definition entries_of (w : World) : list jsstring :=
  match installation w with
  | Some inst => whenDefinedPromiseMap (registry inst)
  | None => []
  end.

Definition flag_of (w : World) : bool :=
  match installation w with
  | Some inst => processingBackupElementQueue inst
  | None => false
  end.

(** A definition made without [extends]: the local name is the name. *)
Definition autonomous (definition : CustomElementDefinition) : Prop :=
  def_localName definition = def_name definition.

(** Every record that lacks a reaction queue belongs to an element that is
    custom or failed, so that no upgrade ever reaches it. *)
Definition sound (w : World) : Prop :=
  forall element st,
    getPrivateState w element = Some st ->
    reactionQueue st = None -> shouldNotUpgrade st = true.

(** A record is not taken back: an element that is custom or failed stays
    so, and a reaction queue stays a reaction queue. *)
Definition record_kept (st st' : ElementState) : Prop :=
  (shouldNotUpgrade st = true -> shouldNotUpgrade st' = true)
  /\ (is_Some (reactionQueue st) -> is_Some (reactionQueue st')).

Definition records_kept (w w' : World) : Prop :=
  (forall element st,
      getPrivateState w element = Some st ->
      exists st', getPrivateState w' element = Some st' /\ record_kept st st')
  /\ (forall element st',
         getPrivateState w' element = Some st' ->
         getPrivateState w element = None ->
         is_Some (reactionQueue st')).

(** What no step of the module undoes: the installation stays, definitions
    are only appended, the entries of [whenDefined] and the scheduled
    microtasks stay, records are kept. *)
Definition core (w w' : World) : Prop :=
  (installation w = None <-> installation w' = None)
  /\ (exists added, definitions_of w' = definitions_of w ++ added)
  /\ entries_of w' = entries_of w
  /\ microtasks w `prefix_of` microtasks w'
  /\ records_kept w w'.

(** The flag of a running definition is found as it was left, and while it
    is set nothing is registered. *)
Definition guarded (w w' : World) : Prop :=
  running_of w' = running_of w
  /\ (running_of w = true -> definitions_of w' = definitions_of w).

(** The element queue stack does not get shallower, and while it holds a
    queue the backup element queue is not used. *)
Definition depth (w w' : World) : Prop :=
  length (stack_of w) <= length (stack_of w')
  /\ (stack_of w <> [] ->
      backup_of w' = backup_of w
      /\ flag_of w' = flag_of w
      /\ count_drains (microtasks w') = count_drains (microtasks w)).

(** Every construction stack is found as it was left. *)
Definition balanced (w w' : World) : Prop :=
  sound w ->
  forall address l,
    constructionStacks w !! address = Some l ->
    constructionStacks w' !! address = Some l.

(** A function that opens one of the three scopes keeps the other parts
    only, until the scope is closed. *)
Definition part (g d b : bool) (w w' : World) : Prop :=
  core w w'
  /\ (g = true -> guarded w w')
  /\ (d = true -> depth w w')
  /\ (b = true -> balanced w w').

Definition history : World -> World -> Prop := part true true true.

(** A property of the world an outcome carries. *)
Definition ends {A : Type} (P : World -> Prop) (r : outcome A) : Prop :=
  match r with
  | Ok _ w' | Throws _ w' => P w'
  | Diverges => True
  end.

Definition respects_part {A : Type} (g d b : bool) (w : World) (r : outcome A)
  : Prop :=
  ends (part g d b w) r.

Definition respects {A : Type} (w : World) (r : outcome A) : Prop :=
  respects_part true true true w r.

End History.

Export History.

(** ** The page as the host drives it *)

Module Host.

Import CustomElementRegistry.

(** One thing the page does: it runs a script to its end, the host runs the
    oldest microtask, the host runs the initial upgrade when the document
    has loaded, or a script asks the registry for a promise. *)
Inductive host_step (prog : Program) (promisesSupported : bool)
  (w w' : World) : Prop :=
| host_script (fuel : nat) (body : list cmd) :
    ends_in (eval prog fuel (RunScript body) w) w' ->
    host_step prog promisesSupported w w'
| host_microtask (fuel : nat) :
    ends_in (run_microtask prog fuel w) w' ->
    host_step prog promisesSupported w w'
| host_initial_upgrades (fuel : nat) :
    ends_in (performInitialUpgrades prog (eval prog fuel) w) w' ->
    host_step prog promisesSupported w w'
| host_whenDefined (fresh : nat) (name : jsstring) (promise : DefinedPromise) :
    whenDefined promisesSupported fresh name w = Ok promise w' ->
    host_step prog promisesSupported w w'.

Definition runs (prog : Program) (promisesSupported : bool)
  : World -> World -> Prop :=
  rtc (host_step prog promisesSupported).

(** What lasts over any number of such steps. *)
Definition lasting (w w' : World) : Prop :=
  (installation w = None <-> installation w' = None)
  /\ (exists added, definitions_of w' = definitions_of w ++ added)
  /\ running_of w' = running_of w
  /\ records_kept w w'
  /\ length (stack_of w) <= length (stack_of w')
  /\ (stack_of w <> [] ->
      backup_of w' = backup_of w
      /\ count_drains (microtasks w') <= count_drains (microtasks w))
  /\ balanced w w'.

End Host.

Export Host.

(** ** Concrete runs used by the examples *)

Module Runs.

Import Examples.

(** The world an outcome carries. *)
Definition outcome_world (r : result) (otherwise : World) : World :=
  match r with
  | Ok _ w | Throws _ w => w
  | Diverges => otherwise
  end.

Definition after (body : list cmd) (w : World) : World :=
  outcome_world (eval example_program 9 (RunScript body) w) w.

(** [define("x-a", class 0)] on the installed page, which upgrades element
    5, and a second [define] of the same name with another class. *)
Definition defined_world : World :=
  after [Define (lit "x-a") 0 None] installed_world.

Definition redefined_world : World :=
  after [Define (lit "x-a") 6 None] defined_world.

Definition defined_registry : Registry :=
  {| definitions := [x_a_definition 0]; elementDefinitionIsRunning := false;
     whenDefinedPromiseMap := [] |}.

(** A [define] that fails: a getter of class 5 throws. *)
Definition failed_define_world : World :=
  after [Define (lit "x-outer") 5 None] installed_world.

(** A callback handed to [executeCEReactions] has thrown, and later a
    custom element is connected outside of any scope. *)
Definition leftover_world : World :=
  after [ExecuteCEReactions [Throw (VError (UserError 0))]] settled_world.

Definition shadowed_world : World :=
  after [InsertingSteps 5] leftover_world.

(** [x-a] is defined and element 5 has not been looked at yet. *)
Definition registered_world : World :=
  with_installation
    (Some (set_registry defined_registry fresh_installation)) installed_world.

(** The installed page while its document is loading. *)
Definition loading_world : World :=
  {| installation := Some fresh_installation; privateState := ∅;
     nodes := {[ 5 := x_a_node ]}; document_order := [5];
     document_loading := true; constructionStacks := ∅; microtasks := [];
     reported := []; invoked := [] |}.

(** A script has asked for the promise of [x-a] before [x-a] is defined,
    and then [x-a] is defined. *)
Definition waiting_world : World :=
  with_installation
    (Some (set_registry
             (CustomElementRegistry.add_entry (lit "x-a") empty_registry)
             fresh_installation)) installed_world.

Definition announced_world : World :=
  after [Define (lit "x-a") 0 None] waiting_world.

(** [define("x-a", class 2)], whose constructor throws: the upgrade of
    element 5 fails.  Then a second [<x-a>] is connected, with either
    definition. *)
Definition defined_throwing_world : World :=
  after [Define (lit "x-a") 2 None] installed_world.

Definition connect_another : list cmd :=
  [DomUpdate 7 x_a_node; ExecuteCEReactions [InsertingSteps 7]].

(** An element as [createAnElement] leaves it for a customized built-in
    definition: a record without a reaction queue, no attribute, not
    connected. *)
Definition bare_node : DomNode :=
  {| is_element := true; namespaceURI := Some htmlNamespace;
     localName := lit "button"; attributes := [];
     isConnected := false; has_defaultView := true |}.

Definition bare_record : ElementState :=
  {| customElementState := None; customElementDefinition := None;
     reactionQueue := None; isValue := Some (lit "x-a") |}.

Definition created_world : World :=
  with_nodes (<[7 := bare_node]> (nodes installed_world))
    (with_privateState (<[7 := bare_record]> ∅) installed_world).

End Runs.

(** ** The order in which reactions are taken *)

Module ReactionOrder.

(** The reactions pending on an element: none when it has no record, or a
    record without a reaction queue. *)
Definition queue_of (w : World) (element : elem) : list Reaction :=
  default [] (pending w element).

(** The calls made on an element, in a part of the invocation log. *)
Definition calls_on (element : elem) (log : list (elem * fnid * list value))
  : list (elem * fnid * list value) :=
  filter (fun entry => entry.1.1 = element) log.

(** The element is custom or failed. *)
Definition settled (w : World) (element : elem) : bool :=
  match getPrivateState w element with
  | Some st => shouldNotUpgrade st
  | None => false
  end.

(** Between [w] and [w'] the reactions [taken] left the reaction queue of the
    element, at its front and in this order, and [added] were appended at
    its end; the log grew by [new], and the calls it holds on the element are
    calls of reactions taken, in the order in which they were taken. *)
Definition ordered (element : elem) (w w' : World) (taken added : list Reaction)
  (new : list (elem * fnid * list value)) : Prop :=
  queue_of w element ++ added = taken ++ queue_of w' element
  /\ invoked w' = invoked w ++ new
  /\ calls_on element new `sublist_of` flat_map (reaction_calls element) taken
  /\ (settled w element = true -> settled w' element = true).

Definition loose (element : elem) (w w' : World) : Prop :=
  exists taken added new, ordered element w w' taken added new.

(** A reaction is taken without being called only when the upgrade of
    its element fails, which discards the queue: unless the element became
    custom or failed in between, every callback reaction taken was called. *)
Definition fifo (element : elem) (w w' : World) : Prop :=
  exists taken added new,
    ordered element w w' taken added new
    /\ (settled w element = true \/ settled w' element = false ->
        calls_on element new = flat_map (reaction_calls element) taken).

Definition order (w w' : World) : Prop :=
  forall element, fifo element w w'.

Definition orders {A : Type} (w : World) (r : outcome A) : Prop :=
  match r with
  | Ok _ w' | Throws _ w' => order w w'
  | Diverges => True
  end.

(** As [fifo], and every reaction that was pending on the element has been
    taken. *)
Definition processed (element : elem) (w w' : World) : Prop :=
  exists taken added new,
    ordered element w w' taken added new
    /\ (settled w element = true \/ settled w' element = false ->
        calls_on element new = flat_map (reaction_calls element) taken)
    /\ queue_of w element `prefix_of` taken.

(** One thing the module does as a whole: a call through the knot (a script
    with the hooks it reports, a [define], a reaction loop), an upgrade, an
    enqueue operation, a microtask, the initial upgrade, or a change that
    leaves the records and the invocation log alone. *)
Inductive call_step (prog : Program) (w w' : World) : Prop :=
| step_call (fuel : nat) (c : call) :
    ends_in (eval prog fuel c w) w' -> call_step prog w w'
| step_upgradeElement (fuel : nat) (element : elem)
    (definition : CustomElementDefinition) :
    ends_in (upgradeElement prog (eval prog fuel) element definition w) w' ->
    call_step prog w w'
| step_enqueueCallbackReaction (element : elem) (callbackName : callback_name)
    (args : list value) :
    ends_in (enqueueCallbackReaction element callbackName args w) w' ->
    call_step prog w w'
| step_enqueueUpgradeReaction (element : elem)
    (definition : CustomElementDefinition) :
    ends_in (enqueueUpgradeReaction element definition w) w' ->
    call_step prog w w'
| step_microtask (fuel : nat) :
    ends_in (run_microtask prog fuel w) w' -> call_step prog w w'
| step_initial_upgrades (fuel : nat) :
    ends_in (performInitialUpgrades prog (eval prog fuel) w) w' ->
    call_step prog w w'
| step_frame :
    privateState w' = privateState w -> invoked w' = invoked w ->
    call_step prog w w'.

(** Whatever the module does once an upgrade has returned. *)
Definition afterwards (prog : Program) : World -> World -> Prop :=
  rtc (call_step prog).

(** Whatever the module does next, seen from the middle of an upgrade: one
    of the above, or one of the two parts of [upgradeElement] that follow
    the construction. *)
Inductive module_step (prog : Program) (w w' : World) : Prop :=
| step_whole : call_step prog w w' -> module_step prog w w'
| step_upgrade_catch (element : elem) :
    ends_in (upgrade_catch element w) w' -> module_step prog w w'
| step_upgrade_finish (element : elem) (definition : CustomElementDefinition)
    (caught : option value) :
    ends_in (upgrade_finish element definition caught w) w' ->
    module_step prog w w'.

Definition later (prog : Program) : World -> World -> Prop :=
  rtc (module_step prog).

End ReactionOrder.

Export ReactionOrder.

(** ** What a detached installation can still reach *)

Module Detached.

(** The elements a task scheduled before [uninstall] still holds: the backup
    queue of the installation its closure kept. *)
Definition detached_queue (task : Microtask) : list elem :=
  match task with
  | DrainDetachedQueue inst => backupElementQueue inst
  | DrainBackupElementQueue | ResolveWhenDefined _ => []
  end.

Definition detached_elements (tasks : list Microtask) : list elem :=
  flat_map detached_queue tasks.

(** Nothing is installed, nothing was scheduled (tasks only left the list),
    and every callback called was called on one of the [elements]. *)
Definition confined (elements : list elem) (w w' : World) : Prop :=
  installation w' = None
  /\ (exists ran, microtasks w = ran ++ microtasks w')
  /\ exists new,
       invoked w' = invoked w ++ new
       /\ Forall (fun entry => entry.1.1 ∈ elements) new.

Definition stays_confined {A : Type} (elements : list elem) (w : World)
  (r : outcome A) : Prop :=
  match r with
  | Ok _ w' | Throws _ w' => confined elements w w'
  | Diverges => True
  end.

(** The elements a call through the knot walks over. *)
Definition call_elements (c : call) (w : World) : list elem :=
  match c with
  | RunScript _ => []
  | InvokeReactions queue _ => read_queue queue w
  | WhileReactions element => [element]
  end.

End Detached.

Export Detached.

(** * Theorems *)

(** ** The name validator *)

Section NameValidatorFacts.

Local Open Scope Z_scope.

Lemma name_char_hyphen (c : Z) : is_hyphen c = true -> name_char c = true.
Proof.
  unfold name_char, is_lower, is_digit, is_hyphen, pcen_ranges, in_range.
  cbn [existsb fst snd]. lia.
Qed.

(** One iteration of the loop: a character of the grammar is skipped (and
    remembered when it is the hyphen), any other ends the scan. *)
Lemma scan_cons (code : Z) (rest : list Z) (foundHyphen : bool) :
  scan (code :: rest) foundHyphen
  = if name_char code then scan rest (foundHyphen || is_hyphen code) else false.
Proof.
  assert (Hn : is_hyphen code = false -> forall b, b || is_hyphen code = b)
    by (intros -> b; apply orb_false_r).
  assert (Hy : is_hyphen code = true -> forall b, b || is_hyphen code = true)
    by (intros -> b; apply orb_true_r).
  cbn [scan].
  unfold name_char, is_lower, is_digit, pcen_ranges, in_range in *.
  unfold is_hyphen in *.
  cbn [existsb fst snd].
  repeat match goal with
         | |- (if ?c then _ else _) = _ =>
             let E := fresh "E" in
             destruct c eqn:E;
             [ match goal with
               | |- _ = (if ?d then _ else _) =>
                   first [ replace d with true by lia
                         | replace d with false by lia ]
               end;
               try first [ rewrite Hn by lia | rewrite Hy by lia ];
               reflexivity
             | ]
         end.
  match goal with
  | |- _ = (if ?d then _ else _) => replace d with false by lia; reflexivity
  end.
Qed.

Lemma scan_grammar (rest : list Z) (foundHyphen : bool) :
  scan rest foundHyphen
  = forallb name_char rest && (foundHyphen || existsb is_hyphen rest).
Proof.
  revert foundHyphen.
  induction rest as [|code rest IH]; intros foundHyphen.
  - simpl. by rewrite orb_false_r.
  - rewrite scan_cons. cbn [forallb existsb].
    destruct (name_char code); [|reflexivity].
    rewrite IH. cbn [andb]. by rewrite orb_assoc.
Qed.

(** Over code units the source computes the grammar predicate. *)
Lemma isValidCustomElementName_units (s : jsstring) :
  isValidCustomElementName s = grammar_valid_name s.
Proof.
  unfold isValidCustomElementName, grammar_valid_name.
  destruct (is_reserved s); [reflexivity|]. cbn [negb andb].
  destruct (Z.ltb_spec (Z.of_nat (length s)) 2) as [Hlt|Hge].
  - destruct (Z.leb_spec 2 (Z.of_nat (length s))); [lia|reflexivity].
  - destruct (Z.leb_spec 2 (Z.of_nat (length s))); [|lia]. cbn [andb].
    destruct s as [|firstCode rest]; [reflexivity|].
    rewrite scan_grammar. unfold is_lower, in_range. cbn [orb].
    destruct (Z.ltb_spec firstCode 0x61), (Z.leb_spec 0x61 firstCode);
      try lia; cbn [orb andb]; [reflexivity|].
    rewrite Z.gtb_ltb.
    destruct (Z.ltb_spec 0x7A firstCode), (Z.leb_spec firstCode 0x7A);
      try lia; reflexivity.
Qed.

(** A surrogate code unit is no character of the grammar, so a string that
    holds one is never a valid name. *)
Lemma name_char_surrogate (c : Z) :
  0xD800 <= c <= 0xDFFF -> name_char c = false.
Proof.
  intros Hc.
  unfold name_char, is_lower, is_digit, is_hyphen, pcen_ranges, in_range.
  cbn [existsb fst snd]. lia.
Qed.

Lemma surrogate_unit_rejected (s : jsstring) (c : Z) :
  0xD800 <= c <= 0xDFFF -> In c s -> isValidCustomElementName s = false.
Proof.
  intros Hc Hin. rewrite isValidCustomElementName_units.
  unfold grammar_valid_name.
  destruct s as [|first rest]; [by rewrite andb_false_r|].
  destruct Hin as [->|Hin].
  - assert (is_lower c = false) as -> by (unfold is_lower, in_range; lia).
    by rewrite andb_false_r.
  - assert (forallb name_char rest = false) as ->.
    { apply not_true_is_false. intros Hall.
      rewrite forallb_forall in Hall. specialize (Hall c Hin).
      by rewrite (name_char_surrogate c Hc) in Hall. }
    by rewrite !andb_false_r.
Qed.

(** Every character outside the basic plane is stored as a pair of
    surrogates: no name that holds one is accepted. *)
Lemma supplementary_character_rejected (before after : list Z) (cp : Z) :
  0x10000 <= cp <= 0x10FFFF ->
  isValidCustomElementName (utf16 (before ++ cp :: after)) = false.
Proof.
  intros Hcp.
  apply (surrogate_unit_rejected _ (0xD800 + (cp - 0x10000) / 0x400)).
  - pose proof (Z.div_pos (cp - 0x10000) 0x400).
    pose proof (Z.div_lt_upper_bound (cp - 0x10000) 0x400 0x400).
    lia.
  - unfold utf16. rewrite flat_map_app. apply in_or_app. right.
    cbn [flat_map]. apply in_or_app. left. unfold utf16_units.
    destruct (Z.ltb_spec cp 0x10000); [lia|]. by left.
Qed.

End NameValidatorFacts.

Section NameValidatorClaim.

Local Open Scope Z_scope.

(** C5 (code defect).  The grammar admits the name made of [a], [-] and the
    code point U+10000, which lies in the last listed range; the source
    reads the string through [charCodeAt], sees the two surrogate code
    units of that character, and rejects the name.  Its own test for the
    range 0x10000-0xEFFFF can therefore never succeed. *)
Theorem isValidCustomElementName_rejects_supplementary :
  grammar_valid_name [0x61; 0x2D; 0x10000] = true
  /\ utf16 [0x61; 0x2D; 0x10000] = [0x61; 0x2D; 0xD800; 0xDC00]
  /\ isValidCustomElementName (utf16 [0x61; 0x2D; 0x10000]) = false.
Proof. vm_compute. repeat split; reflexivity. Qed.

End NameValidatorClaim.

(** ** [executeCEReactions] and [define] *)

Lemma array_pop_app {A : Type} (l : list A) (x : A) :
  array_pop (l ++ [x]) = Some (l, x).
Proof.
  induction l as [|y l IH]; [reflexivity|].
  cbn [app array_pop]. by rewrite IH.
Qed.

Section ScopeClaims.

Variable prog : Program.
Variable rec : call -> World -> result.

(** Whatever the callback throws leaves [executeCEReactions] with the world
    the callback left: nothing is popped on that path. *)
Lemma executeCEReactions_throws (callback : World -> result) (w w2 : World)
  (inst : Installation) (error : value) :
  installation w = Some inst ->
  callback (with_installation
              (Some (set_stack (customElementsReactionStack inst ++ [[]]) inst))
              w) = Throws error w2 ->
  executeCEReactions rec callback w = Throws error w2.
Proof.
  intros Hinst Hcb. unfold executeCEReactions. rewrite Hinst.
  cbv zeta. rewrite Hcb. reflexivity.
Qed.

(** On a normal return the queue on top of the stack is popped and its
    reactions are invoked before [executeCEReactions] returns. *)
Lemma executeCEReactions_returns (callback : World -> result) (w w2 : World)
  (inst inst2 : Installation) (below : list (list elem)) (queue : list elem) :
  installation w = Some inst ->
  callback (with_installation
              (Some (set_stack (customElementsReactionStack inst ++ [[]]) inst))
              w) = ret w2 ->
  installation w2 = Some inst2 ->
  customElementsReactionStack inst2 = below ++ [queue] ->
  executeCEReactions rec callback w
  = rec (InvokeReactions (PoppedQueue queue) 0)
      (with_installation (Some (set_stack below inst2)) w2).
Proof.
  intros Hinst Hcb Hinst2 Hstack. unfold executeCEReactions.
  rewrite Hinst. cbv zeta. rewrite Hcb. cbn [bind ret].
  by rewrite Hinst2, Hstack, array_pop_app.
Qed.

(** C3 (code defect).  When the work callback throws, the queue pushed at
    entry is still on the stack when the error reaches the caller: the
    stack is one deeper than before the call. *)
Theorem executeCEReactions_throw_leaves_queue (w : World)
  (inst : Installation) (error : value) :
  installation w = Some inst ->
  exists w' inst',
    executeCEReactions rec (fun w1 => Throws error w1) w = Throws error w'
    /\ installation w' = Some inst'
    /\ customElementsReactionStack inst'
       = customElementsReactionStack inst ++ [[]]
    /\ length (customElementsReactionStack inst')
       = S (length (customElementsReactionStack inst)).
Proof.
  intros Hinst.
  eexists _, _. split.
  - eapply executeCEReactions_throws; [exact Hinst|reflexivity].
  - split; [reflexivity|]. split; [reflexivity|].
    cbn [customElementsReactionStack set_stack]. rewrite length_app. cbn. lia.
Qed.

End ScopeClaims.

Lemma executeCEReactions_throw_leaves_queue_witness :
  exists w' inst',
    executeCEReactions (eval Examples.example_program 3)
      (fun w1 => Throws (VError (UserError 0)) w1) Examples.installed_world
    = Throws (VError (UserError 0)) w'
    /\ installation w' = Some inst'
    /\ customElementsReactionStack inst'
       = customElementsReactionStack Examples.fresh_installation ++ [[]]
    /\ length (customElementsReactionStack inst')
       = S (length (customElementsReactionStack Examples.fresh_installation)).
Proof.
  apply (executeCEReactions_throw_leaves_queue
           (eval Examples.example_program 3) Examples.installed_world
           Examples.fresh_installation (VError (UserError 0))).
  reflexivity.
Defined.

Section DefineClaims.

Import Examples.

(** C6 (code defect).  Two [define] calls with the same name and distinct
    constructors both succeed, and the definition table ends with two
    entries of that name. *)
Theorem define_twice_same_name :
  exists w',
    eval example_program 9
      (RunScript [Define (lit "x-a") 0 None; Define (lit "x-a") 6 None])
      installed_world = Ok tt w'
    /\ registered_names (Ok tt w') = [lit "x-a"; lit "x-a"].
Proof. eexists. split; vm_compute; reflexivity. Qed.

End DefineClaims.

Section DefineRejections.

Variable prog : Program.
Variable rec : call -> World -> result.

Lemma define_body_throws_define (name : jsstring) (constructor : classid)
  (extends : option jsstring) (w : World) (inst : Installation)
  (error : value) :
  installation w = Some inst ->
  (forall w1 inst1,
      installation w1 = Some inst1 -> registry inst1 = registry inst ->
      exists w2,
        define_body prog rec name constructor extends w1 = Throws error w2) ->
  exists w', define prog rec name constructor extends w = Throws error w'.
Proof.
  intros Hinst Hbody. unfold define.
  destruct (Hbody
              (with_installation
                 (Some (set_stack (customElementsReactionStack inst ++ [[]])
                          inst)) w)
              (set_stack (customElementsReactionStack inst ++ [[]]) inst))
    as [w2 Hw2]; [reflexivity|reflexivity|].
  exists w2. eapply executeCEReactions_throws; eauto.
Qed.

(** C7 (as amended).  With the runtime installed, [define] checks in this
    order: a constructor that is not its own prototype's constructor fails
    with [TypeError]; otherwise a name refused by the validator fails with
    the DOM exception [SyntaxError]; otherwise, when no [extends] option is
    given, a definition already running fails with [NotSupportedError]. *)
Theorem define_rejections (name : jsstring) (constructor : classid)
  (extends : option jsstring) (w : World) (inst : Installation) :
  installation w = Some inst ->
  (prototype_constructor_is_self (classes prog constructor) = false ->
   exists w',
     define prog rec name constructor extends w
     = Throws (VError TypeError) w')
  /\ (prototype_constructor_is_self (classes prog constructor) = true ->
      isValidCustomElementName name = false ->
      exists w',
        define prog rec name constructor extends w
        = Throws (VError SyntaxError) w')
  /\ (prototype_constructor_is_self (classes prog constructor) = true ->
      isValidCustomElementName name = true ->
      extends = None ->
      elementDefinitionIsRunning (registry inst) = true ->
      exists w',
        define prog rec name constructor extends w
        = Throws (VError NotSupportedError) w').
Proof.
  intros Hinst. repeat split.
  - intros Hself. eapply define_body_throws_define; [exact Hinst|].
    intros w1 inst1 H1 _. exists w1. unfold define_body.
    rewrite H1, Hself. reflexivity.
  - intros Hself Hname. eapply define_body_throws_define; [exact Hinst|].
    intros w1 inst1 H1 _. exists w1. unfold define_body.
    rewrite H1, Hself, Hname. reflexivity.
  - intros Hself Hname -> Hrun.
    eapply define_body_throws_define; [exact Hinst|].
    intros w1 inst1 H1 Hreg. exists w1.
    unfold define_body, define_registration.
    rewrite H1, Hself, Hname, Hreg, Hrun. reflexivity.
Qed.

End DefineRejections.

Section DefineRejectionExamples.

Import Examples.

Lemma define_rejections_witness :
  (exists w',
      define example_program (eval example_program 3) (lit "x-a") 4 None
        installed_world = Throws (VError TypeError) w')
  /\ (exists w',
         define example_program (eval example_program 3) (lit "x") 0 None
           installed_world = Throws (VError SyntaxError) w')
  /\ (exists w',
         define example_program (eval example_program 3) (lit "x-a") 0 None
           running_world = Throws (VError NotSupportedError) w').
Proof.
  split; [|split].
  - apply (proj1 (define_rejections example_program (eval example_program 3)
                    (lit "x-a") 4 None installed_world fresh_installation
                    eq_refl)).
    reflexivity.
  - apply (proj1 (proj2 (define_rejections example_program
                           (eval example_program 3) (lit "x") 0 None
                           installed_world fresh_installation eq_refl)));
      reflexivity.
  - apply (proj2 (proj2 (define_rejections example_program
                           (eval example_program 3) (lit "x-a") 0 None
                           running_world running_installation eq_refl)));
      reflexivity.
Defined.

(** C7 as stated fails: a name that the validator refuses, given with a
    proper constructor, does not make [define] fail with [TypeError]. *)
Lemma define_invalid_name_is_not_TypeError :
  prototype_constructor_is_self (classes example_program 0) = true
  /\ isValidCustomElementName (lit "x") = false
  /\ forall w',
       define example_program (eval example_program 3) (lit "x") 0 None
         installed_world <> Throws (VError TypeError) w'.
Proof.
  split; [reflexivity|]. split; [reflexivity|].
  intros w'. vm_compute. discriminate.
Qed.

(** The running flag is reachable: a getter of [observedAttributes] that
    calls [define] finds the flag set, and that inner call fails. *)
Example define_reentrant_from_getter :
  exists w',
    eval example_program 9 (RunScript [Define (lit "x-outer") 5 None])
      installed_world = Throws (VError NotSupportedError) w'
    /\ registered_names (Throws (VError NotSupportedError) w') = [].
Proof. eexists. split; vm_compute; reflexivity. Qed.

End DefineRejectionExamples.

(** ** Enqueuing reactions *)

Section EnqueueFacts.

Lemma getPrivateState_setPrivateState (element : elem) (st : ElementState)
  (w : World) :
  getPrivateState (setPrivateState element st w) element = Some st.
Proof. unfold getPrivateState, setPrivateState. cbn. apply lookup_insert_eq. Qed.

Lemma getPrivateState_setPrivateState_ne (element other : elem)
  (st : ElementState) (w : World) :
  element <> other ->
  getPrivateState (setPrivateState element st w) other
  = getPrivateState w other.
Proof.
  intros Hne. unfold getPrivateState, setPrivateState. cbn.
  by apply lookup_insert_ne.
Qed.

(** Placing an element on an element queue touches the installation and the
    microtask list only. *)
Lemma enqueueElement_frame (element : elem) (w : World) :
  let w' := enqueueElementOnAppropriateElementQueue element w in
  privateState w' = privateState w
  /\ nodes w' = nodes w
  /\ constructionStacks w' = constructionStacks w
  /\ reported w' = reported w
  /\ invoked w' = invoked w.
Proof.
  unfold enqueueElementOnAppropriateElementQueue.
  destruct (installation w) as [inst|]; [|done].
  destruct (array_pop _) as [[below top]|]; [done|].
  cbn. destruct (processingBackupElementQueue inst); done.
Qed.

Lemma enqueueElement_uninstalled (element : elem) (w : World) :
  installation w = None ->
  enqueueElementOnAppropriateElementQueue element w = w.
Proof.
  intros H. unfold enqueueElementOnAppropriateElementQueue. by rewrite H.
Qed.

Lemma set_reactionQueue_same (st : ElementState) (q : list Reaction) :
  reactionQueue st = Some q -> set_reactionQueue (Some q) st = st.
Proof. destruct st; cbn; by intros ->. Qed.

(** [enqueueCallbackReaction] on an element whose record names a
    definition: the reactions of [callback_reactions] go to the tail of the
    element's queue, and the element is placed on an element queue only when
    something was appended. *)
Lemma enqueueCallbackReaction_spec (element : elem)
  (callbackName : callback_name) (args : list value) (w : World)
  (st : ElementState) (definition : CustomElementDefinition) :
  getPrivateState w element = Some st ->
  customElementDefinition st = Some definition ->
  enqueueCallbackReaction element callbackName args w
  = match callback_reactions definition callbackName args with
    | [] => ret w
    | rs =>
        ret (enqueueElementOnAppropriateElementQueue element
               (setPrivateState element
                  (set_reactionQueue
                     (Some (default [] (reactionQueue st) ++ rs)) st) w))
    end.
Proof.
  intros Hst Hdef. unfold enqueueCallbackReaction, callback_reactions.
  rewrite Hst, Hdef.
  destruct (get_callback _ _); [|reflexivity].
  destruct (_ && _); reflexivity.
Qed.

Lemma enqueueCallbackReaction_pending (element : elem)
  (callbackName : callback_name) (args : list value) (w : World)
  (st : ElementState) (definition : CustomElementDefinition)
  (q : list Reaction) :
  getPrivateState w element = Some st ->
  customElementDefinition st = Some definition ->
  reactionQueue st = Some q ->
  exists w',
    enqueueCallbackReaction element callbackName args w = ret w'
    /\ getPrivateState w' element
       = Some (set_reactionQueue
                 (Some (q ++ callback_reactions definition callbackName args))
                 st)
    /\ nodes w' = nodes w
    /\ constructionStacks w' = constructionStacks w.
Proof.
  intros Hst Hdef Hq.
  rewrite (enqueueCallbackReaction_spec _ _ _ _ _ _ Hst Hdef), Hq. cbn.
  destruct (callback_reactions _ _ _) as [|r rs].
  - exists w. rewrite app_nil_r, set_reactionQueue_same by done. done.
  - eexists. split; [reflexivity|].
    pose proof (enqueueElement_frame element
                  (setPrivateState element
                     (set_reactionQueue (Some (q ++ r :: rs)) st) w))
      as (Hp & Hn & Hc & _).
    cbv zeta in Hp, Hn, Hc. unfold getPrivateState at 1.
    rewrite Hp, Hn, Hc. split; [|done].
    apply getPrivateState_setPrivateState.
Qed.

End EnqueueFacts.

(** ** The upgrade algorithm *)

Section UpgradeFacts.

Lemma attribute_reactions_filter (definition : CustomElementDefinition)
  (attrs : list Attr) :
  flat_map (fun attribute =>
              callback_reactions definition CE_CALLBACK_ATTRIBUTE_CHANGED
                (attribute_args attribute)) attrs
  = match attributeChangedCallback (lifecycleCallbacks definition) with
    | Some callback =>
        map (fun attribute =>
               CallbackReaction callback (attribute_args attribute))
          (filter (fun attribute =>
                     VStr (attr_localName attribute)
                     ∈ observedAttributes definition) attrs)
    | None => []
    end.
Proof.
  unfold callback_reactions. cbn [get_callback].
  destruct (attributeChangedCallback _) as [callback|].
  - induction attrs as [|a attrs IH]; [reflexivity|].
    cbn [flat_map]. rewrite IH, filter_cons. cbn [attribute_args first_arg].
    rewrite bool_decide_eq_true_2 by reflexivity. cbn [andb].
    destruct (decide (VStr (attr_localName a) ∈ observedAttributes definition))
      as [Hin|Hnin].
    + rewrite bool_decide_eq_true_2 by done. reflexivity.
    + rewrite bool_decide_eq_false_2 by done. reflexivity.
  - induction attrs as [|a attrs IH]; [reflexivity|]. cbn. exact IH.
Qed.

Lemma enqueue_attributes_pending (element : elem) (attrs : list Attr) :
  forall (w : World) (st : ElementState)
         (definition : CustomElementDefinition) (q : list Reaction),
    getPrivateState w element = Some st ->
    customElementDefinition st = Some definition ->
    reactionQueue st = Some q ->
    exists w',
      enqueue_attributes element attrs w = ret w'
      /\ getPrivateState w' element
         = Some (set_reactionQueue
                   (Some (q ++ flat_map
                                 (fun attribute =>
                                    callback_reactions definition
                                      CE_CALLBACK_ATTRIBUTE_CHANGED
                                      (attribute_args attribute)) attrs))
                   st)
      /\ nodes w' = nodes w
      /\ constructionStacks w' = constructionStacks w.
Proof.
  induction attrs as [|a attrs IH]; intros w st definition q Hst Hdef Hq.
  - exists w. cbn. rewrite app_nil_r, set_reactionQueue_same by done. done.
  - cbn [enqueue_attributes flat_map].
    destruct (enqueueCallbackReaction_pending element
                CE_CALLBACK_ATTRIBUTE_CHANGED (attribute_args a) w st
                definition q Hst Hdef Hq) as (w1 & -> & Hst1 & Hn1 & Hc1).
    cbn [bind ret].
    edestruct IH with (w := w1) (definition := definition)
      as (w2 & Hrun & Hst2 & Hn2 & Hc2);
      [exact Hst1|exact Hdef|reflexivity|].
    exists w2. rewrite Hrun. split; [reflexivity|].
    rewrite Hst2, Hn2, Hc2, Hn1, Hc1, <- app_assoc.
    by destruct st.
Qed.

Lemma enqueue_backlog_pending (element : elem) (w : World)
  (st : ElementState) (definition : CustomElementDefinition)
  (q : list Reaction) :
  getPrivateState w element = Some st ->
  customElementDefinition st = Some definition ->
  reactionQueue st = Some q ->
  exists w',
    enqueue_backlog element w = ret w'
    /\ getPrivateState w' element
       = Some (set_reactionQueue
                 (Some (q ++ backlog definition (node_of w element))) st)
    /\ nodes w' = nodes w
    /\ constructionStacks w' = constructionStacks w.
Proof.
  intros Hst Hdef Hq. unfold enqueue_backlog, backlog.
  destruct (enqueue_attributes_pending element
              (attributes (node_of w element)) w st definition q Hst Hdef Hq)
    as (w1 & -> & Hst1 & Hn1 & Hc1).
  cbn [bind ret]. rewrite <- attribute_reactions_filter.
  assert (Hnode : node_of w1 element = node_of w element)
    by (unfold node_of; by rewrite Hn1).
  rewrite Hnode.
  destruct (isConnected (node_of w element)).
  - edestruct enqueueCallbackReaction_pending
      with (w := w1) (definition := definition) (element := element)
           (callbackName := CE_CALLBACK_CONNECTED) (args := @nil value)
      as (w2 & -> & Hst2 & Hn2 & Hc2);
      [exact Hst1|exact Hdef|reflexivity|].
    exists w2. split; [reflexivity|].
    rewrite Hst2, Hn2, Hc2, Hn1, Hc1, <- app_assoc.
    unfold callback_reactions. cbn [get_callback].
    destruct (connectedCallback _); by destruct st.
  - exists w1. split; [reflexivity|]. rewrite Hst1, Hn1, Hc1.
    destruct (connectedCallback _); by rewrite ?app_nil_r.
Qed.

End UpgradeFacts.

Section UpgradeClaims.

Variable prog : Program.
Variable rec : call -> World -> result.

Lemma constructionStack_of_push (definition : CustomElementDefinition)
  (element : elem) (w : World) :
  constructionStack_of (constructionStack_push definition element w) definition
  = constructionStack_of w definition ++ [element].
Proof.
  unfold constructionStack_of at 1, constructionStack_push. cbn.
  by rewrite lookup_insert_eq.
Qed.

(** The failure transition of [upgradeElement], for an error that
    [if (caught)] lets through: the element becomes [failed], loses its
    definition and its whole reaction queue, the construction stack is
    popped, the error reaches the caller, and the element is never upgraded
    again. *)
Lemma upgradeElement_construction_failure (element : elem)
  (definition : CustomElementDefinition) (w w2 w3 : World) (error : value)
  (st : ElementState) (q : list Reaction) :
  upgrade_prepare element definition w = Some (ret w2) ->
  construct prog rec element definition w2 = Throws error w3 ->
  truthy error = true ->
  getPrivateState w3 element = Some st ->
  reactionQueue st = Some q ->
  exists w',
    upgradeElement prog rec element definition w = Throws error w'
    /\ getPrivateState w' element
       = Some {| customElementState := Some CE_STATE_FAILED;
                 customElementDefinition := None;
                 reactionQueue := Some []; isValue := isValue st |}
    /\ constructionStack_of w' definition
       = match array_pop (constructionStack_of w3 definition) with
         | Some (rest, _) => rest
         | None => []
         end
    /\ forall definition', upgradeElement prog rec element definition' w' = ret w'.
Proof.
  intros Hprep Hcons Htruthy Hst Hq.
  unfold upgradeElement. rewrite Hprep. cbn [bind ret]. rewrite Hcons.
  unfold upgrade_catch. rewrite Hst. cbn [reactionQueue set_customElementDefinition
    set_customElementState]. rewrite Hq. cbn [bind ret].
  unfold upgrade_finish. rewrite Htruthy. cbn [default].
  eexists. split; [reflexivity|].
  split; [|split].
  - unfold getPrivateState, constructionStack_pop, setPrivateState. cbn.
    by rewrite lookup_insert_eq.
  - unfold constructionStack_of at 1, constructionStack_pop. cbn.
    rewrite lookup_insert_eq. reflexivity.
  - intros definition'. unfold upgrade_prepare.
    unfold getPrivateState, constructionStack_pop, setPrivateState. cbn.
    rewrite lookup_insert_eq. reflexivity.
Qed.

(** The same transition for a thrown value that [if (caught)] takes for
    false ([null], [undefined], [0], the empty string): the [catch] block
    has run, but nothing is thrown again and the last assignment makes the
    element [custom]. *)
Lemma upgradeElement_falsy_throw (element : elem)
  (definition : CustomElementDefinition) (w w2 w3 : World) (error : value)
  (st : ElementState) (q : list Reaction) :
  upgrade_prepare element definition w = Some (ret w2) ->
  construct prog rec element definition w2 = Throws error w3 ->
  truthy error = false ->
  getPrivateState w3 element = Some st ->
  reactionQueue st = Some q ->
  exists w',
    upgradeElement prog rec element definition w = ret w'
    /\ getPrivateState w' element
       = Some {| customElementState := Some CE_STATE_CUSTOM;
                 customElementDefinition := None;
                 reactionQueue := Some []; isValue := isValue st |}.
Proof.
  intros Hprep Hcons Hfalsy Hst Hq.
  unfold upgradeElement. rewrite Hprep. cbn [bind ret]. rewrite Hcons.
  unfold upgrade_catch. rewrite Hst. cbn [reactionQueue set_customElementDefinition
    set_customElementState]. rewrite Hq. cbn [bind ret].
  unfold upgrade_finish. rewrite Hfalsy.
  eexists. split; [reflexivity|].
  unfold getPrivateState, constructionStack_pop, setPrivateState. cbn.
  by rewrite lookup_alter_eq, lookup_insert_eq.
Qed.

(** A constructor that returns normally but yields another object fails
    with [InvalidStateError]. *)
Lemma construct_wrong_identity (element : elem)
  (definition : CustomElementDefinition) (w w' : World) :
  rec (RunScript (construct_body (classes prog (def_constructor definition)))) w
  = ret w' ->
  construct_yield (classes prog (def_constructor definition)) element
  <> element ->
  construct prog rec element definition w = Throws (VError InvalidStateError) w'.
Proof.
  intros Hrun Hne. unfold construct. rewrite Hrun. cbn [bind ret].
  by rewrite bool_decide_eq_false_2.
Qed.

End UpgradeClaims.

Section UpgradeExamples.

Import Examples.

(** C1 (code defect).  The constructor of class 1 throws [null].  The
    [catch] block runs, but [if (caught)] then takes the thrown value for
    "nothing caught": [upgradeElement] returns normally and leaves the
    element [custom], with nothing reported to the caller. *)
Theorem upgradeElement_swallows_falsy_throw :
  construct_body (classes example_program 1) = [Throw VNull]
  /\ exists w',
       upgradeElement example_program (eval example_program 3) 5
         (x_a_definition 1) installed_world = ret w'
       /\ (getPrivateState w' 5 ≫= customElementState) = Some CE_STATE_CUSTOM
       /\ reported w' = [].
Proof.
  split; [reflexivity|].
  eexists. split; [vm_compute; reflexivity|].
  split; vm_compute; reflexivity.
Qed.

(** The same upgrade with a constructor that throws an error object, and
    one that yields a foreign object: both take the failure transition. *)
Example upgradeElement_error_object :
  exists w',
    upgradeElement example_program (eval example_program 3) 5
      (x_a_definition 2) installed_world = Throws (VError (UserError 7)) w'
    /\ getPrivateState w' 5
       = Some {| customElementState := Some CE_STATE_FAILED;
                 customElementDefinition := None;
                 reactionQueue := Some []; isValue := None |}
    /\ constructionStack_of w' (x_a_definition 2) = [].
Proof. eexists. split; [|split]; vm_compute; reflexivity. Qed.

Example upgradeElement_foreign_object :
  exists w',
    upgradeElement example_program (eval example_program 3) 5
      (x_a_definition 3) installed_world = Throws (VError InvalidStateError) w'
    /\ getPrivateState w' 5
       = Some {| customElementState := Some CE_STATE_FAILED;
                 customElementDefinition := None;
                 reactionQueue := Some []; isValue := None |}.
Proof. eexists. split; vm_compute; reflexivity. Qed.

End UpgradeExamples.


(** ** The invariants: elementary facts *)

(** What the visitor of the sweep can do. *)
Lemma sweep_visit_cases (P : result -> Prop)
  (definition : CustomElementDefinition) (extensionOf : option jsstring)
  (node : elem) (w : World) :
  P (enqueueUpgradeReaction node definition w) ->
  P (ret w) ->
  P (Throws (VError TypeError) w) ->
  P (sweep_visit definition extensionOf node w).
Proof.
  intros Henqueue Hskip Hfail. unfold sweep_visit.
  destruct (match extensionOf with
            | Some extensionOf => truthy (VStr extensionOf)
            | None => false
            end); [|done].
  destruct (getPrivateState w node) as [nodeState|]; [|done].
  by destruct (bool_decide _).
Qed.

Section InvariantBasics.

Lemma count_drains_app (l1 l2 : list Microtask) :
  count_drains (l1 ++ l2) = count_drains l1 + count_drains l2.
Proof.
  induction l1 as [|[|name|inst] l1 IH]; cbn; lia.
Qed.

Lemma evolves_refl (w : World) : evolves w w.
Proof.
  split; [done|]. split; [done|].
  intros inst Hinst. exists inst. done.
Qed.

Lemma evolves_trans (w1 w2 w3 : World) :
  evolves w1 w2 -> evolves w2 w3 -> evolves w1 w3.
Proof.
  intros (Hq1 & Hn1 & Hi1) (Hq2 & Hn2 & Hi2).
  split; [auto|]. split; [auto|].
  intros inst Hinst.
  destruct (Hi1 inst Hinst) as (inst2 & Hinst2 & Hpre2 & Hflag2).
  destruct (Hi2 inst2 Hinst2) as (inst3 & Hinst3 & Hpre3 & Hflag3).
  exists inst3. split; [done|]. split; [by etrans|].
  intros Hset. destruct (Hflag2 Hset) as [Hset2 Hc2].
  destruct (Hflag3 Hset2) as [Hset3 Hc3]. split; [done|congruence].
Qed.

Lemma step_ok_refl (w : World) : step_ok w w.
Proof. split; [apply evolves_refl|done]. Qed.

Lemma step_ok_trans (w1 w2 w3 : World) :
  step_ok w1 w2 -> step_ok w2 w3 -> step_ok w1 w3.
Proof.
  intros (He1 & Hr1 & Hd1) (He2 & Hr2 & Hd2).
  split; [by eapply evolves_trans|]. split; by auto.
Qed.

Lemma keeps_ret (w w' : World) : step_ok w w' -> keeps w (ret w').
Proof. done. Qed.

Lemma keeps_Ok {A : Type} (a : A) (w w' : World) :
  step_ok w w' -> keeps w (Ok a w').
Proof. done. Qed.

Lemma keeps_Throws {A : Type} (error : value) (w w' : World) :
  step_ok w w' -> keeps w (@Throws A error w').
Proof. done. Qed.

Lemma keeps_trans {A : Type} (w w1 : World) (r : outcome A) :
  step_ok w w1 -> keeps w1 r -> keeps w r.
Proof.
  intros H1. destruct r; cbn; [| |done]; by apply step_ok_trans.
Qed.

Lemma keeps_bind {A B : Type} (w : World) (r : outcome A)
  (k : A -> World -> outcome B) :
  keeps w r -> (forall a w1, keeps w1 (k a w1)) -> keeps w (bind r k).
Proof.
  intros Hr Hk. destruct r as [a w1|error w1|]; cbn in *; [|done|done].
  eapply keeps_trans; [exact Hr|apply Hk].
Qed.

(** *** Elementary changes of the world *)

Lemma has_queue_setPrivateState (element other : elem) (st : ElementState)
  (w : World) :
  has_queue (setPrivateState element st w) other
  <-> (element = other /\ is_Some (reactionQueue st))
      \/ (element <> other /\ has_queue w other).
Proof.
  unfold has_queue, pending.
  destruct (decide (element = other)) as [->|Hne].
  - rewrite getPrivateState_setPrivateState. cbn. split.
    + intros H. by left.
    + intros [[_ H]|[Hne _]]; [exact H|by destruct Hne].
  - rewrite getPrivateState_setPrivateState_ne by done. split.
    + intros H. by right.
    + intros [[Heq _]|[_ H]]; [by destruct Hne|exact H].
Qed.

(** A change that leaves the records, the installation and the number of
    drain tasks alone. *)
Lemma frame_step_ok (w w' : World) :
  privateState w' = privateState w ->
  installation w' = installation w ->
  count_drains (microtasks w') = count_drains (microtasks w) ->
  step_ok w w'.
Proof.
  intros Hp Hi Hm.
  assert (Hq : forall e, has_queue w' e <-> has_queue w e)
    by (intros e; unfold has_queue, pending, getPrivateState; by rewrite Hp).
  split; [|split].
  - split; [intros e; by rewrite Hq|]. split; [congruence|].
    intros inst Hinst. exists inst. rewrite Hi. done.
  - intros Hrec inst Hinst. rewrite Hi in Hinst.
    destruct (Hrec inst Hinst) as [Hb Hs]. split.
    + eapply Forall_impl; [exact Hb|]. intros e. by rewrite Hq.
    + eapply Forall_impl; [exact Hs|]. intros l Hl.
      eapply Forall_impl; [exact Hl|]. intros e. by rewrite Hq.
  - intros Hsd inst Hinst. rewrite Hi in Hinst. rewrite Hm. by apply Hsd.
Qed.

(** A change of the records that takes no reaction queue away. *)
Lemma records_step_ok (w : World) (p : gmap elem ElementState) :
  (forall e, has_queue w e -> has_queue (with_privateState p w) e) ->
  step_ok w (with_privateState p w).
Proof.
  intros Hq. split; [|split].
  - split; [done|]. split; [done|]. intros inst Hinst. by exists inst.
  - intros Hrec inst Hinst. destruct (Hrec inst Hinst) as [Hb Hs]. split.
    + eapply Forall_impl; [exact Hb|]. done.
    + eapply Forall_impl; [exact Hs|]. intros l Hl.
      eapply Forall_impl; [exact Hl|]. done.
  - intros Hsd inst Hinst. by apply Hsd.
Qed.

Lemma setPrivateState_step_ok (element : elem) (st : ElementState)
  (w : World) :
  (has_queue w element -> is_Some (reactionQueue st)) ->
  step_ok w (setPrivateState element st w).
Proof.
  intros Hst. apply records_step_ok. intros e He.
  apply has_queue_setPrivateState.
  destruct (decide (element = e)) as [->|Hne]; [left|right]; auto.
Qed.

(** A change of the installation that keeps the backup queue and the flag,
    and puts on the stack only elements that have a queue. *)
Lemma installation_step_ok (w w' : World) :
  privateState w' = privateState w ->
  count_drains (microtasks w') = count_drains (microtasks w) ->
  (installation w = None -> installation w' = None) ->
  (forall inst,
      installation w = Some inst ->
      exists inst',
        installation w' = Some inst'
        /\ backupElementQueue inst' = backupElementQueue inst
        /\ processingBackupElementQueue inst'
           = processingBackupElementQueue inst
        /\ (Forall (Forall (has_queue w)) (customElementsReactionStack inst) ->
            Forall (Forall (has_queue w)) (customElementsReactionStack inst'))) ->
  step_ok w w'.
Proof.
  intros Hp Hm Hnone Hsome.
  assert (Hq : forall e, has_queue w' e <-> has_queue w e)
    by (intros e; unfold has_queue, pending, getPrivateState; by rewrite Hp).
  split; [|split].
  - split; [intros e; by rewrite Hq|]. split; [done|].
    intros inst Hinst.
    destruct (Hsome inst Hinst) as (inst' & Hinst' & Hb & Hf & _).
    exists inst'. rewrite Hb, Hf, Hm. done.
  - intros Hrec inst' Hinst'.
    destruct (installation w) as [inst|] eqn:Hinst;
      [|rewrite Hnone in Hinst'; done].
    destruct (Hsome inst eq_refl) as (inst2 & Hinst2 & Hb & Hf & Hs).
    assert (inst2 = inst') as -> by congruence.
    destruct (Hrec inst Hinst) as [Hb0 Hs0]. split.
    + rewrite Hb. eapply Forall_impl; [exact Hb0|]. intros e. by rewrite Hq.
    + eapply Forall_impl; [exact (Hs Hs0)|]. intros l Hl.
      eapply Forall_impl; [exact Hl|]. intros e. by rewrite Hq.
  - intros Hsd inst' Hinst'.
    destruct (installation w) as [inst|] eqn:Hinst;
      [|rewrite Hnone in Hinst'; done].
    destruct (Hsome inst eq_refl) as (inst2 & Hinst2 & Hb & Hf & Hs).
    assert (inst2 = inst') as -> by congruence.
    rewrite Hm, Hf. by apply Hsd.
Qed.

Lemma array_pop_Some {A : Type} (l rest : list A) (x : A) :
  array_pop l = Some (rest, x) -> l = rest ++ [x].
Proof.
  revert rest. induction l as [|y l IH]; intros rest; [done|].
  cbn [array_pop]. destruct (array_pop l) as [[rest' z]|] eqn:Hpop.
  - intros H. inversion H; subst. cbn. f_equal. by apply IH.
  - intros H. inversion H; subst. destruct l as [|y' l]; [done|].
    cbn in Hpop. destruct (array_pop l) as [[? ?]|]; done.
Qed.

Lemma array_pop_None {A : Type} (l : list A) : array_pop l = None -> l = [].
Proof.
  destruct l as [|y l]; [done|]. cbn.
  destruct (array_pop l) as [[? ?]|]; done.
Qed.

(** [enqueueElementOnAppropriateElementQueue] for an element that has a
    queue. *)
Lemma enqueueElement_step_ok (element : elem) (w : World) :
  has_queue w element ->
  step_ok w (enqueueElementOnAppropriateElementQueue element w).
Proof.
  intros Hel. unfold enqueueElementOnAppropriateElementQueue.
  destruct (installation w) as [inst|] eqn:Hinst; [|apply step_ok_refl].
  destruct (array_pop (customElementsReactionStack inst))
    as [[below top]|] eqn:Hpop.
  - apply array_pop_Some in Hpop.
    apply installation_step_ok; try done.
    + cbn. by rewrite Hinst.
    + intros inst0 Hinst0. rewrite Hinst in Hinst0.
      injection Hinst0 as <-. eexists. split; [reflexivity|].
      split; [done|]. split; [done|]. cbn. rewrite Hpop.
      rewrite !Forall_app, !Forall_singleton, Forall_app, Forall_singleton.
      intros [Hbelow Htop]. split; [exact Hbelow|]. split; [exact Htop|].
      exact Hel.
  - apply array_pop_None in Hpop.
    destruct (processingBackupElementQueue inst) eqn:Hflag; cbn; rewrite Hflag.
    + split; [|split].
      * split; [done|]. split; [cbn; by rewrite Hinst|].
        intros inst0 Hinst0. rewrite Hinst in Hinst0. injection Hinst0 as <-.
        eexists. split; [reflexivity|]. cbn.
        split; [by apply prefix_app_r|]. done.
      * intros Hrec inst' [= <-]. destruct (Hrec inst Hinst) as [Hb Hs].
        cbn. split; [|done]. rewrite Forall_app, Forall_singleton. done.
      * intros Hsd inst' [= <-]. cbn. rewrite Hflag.
        destruct (Hsd inst Hinst) as [Hle Hz]. done.
    + split; [|split].
      * split; [done|]. split; [cbn; by rewrite Hinst|].
        intros inst0 Hinst0. rewrite Hinst in Hinst0. injection Hinst0 as <-.
        eexists. split; [reflexivity|]. cbn.
        split; [by apply prefix_app_r|]. rewrite Hflag. done.
      * intros Hrec inst' [= <-]. destruct (Hrec inst Hinst) as [Hb Hs].
        cbn. split; [|done]. rewrite Forall_app, Forall_singleton. done.
      * intros Hsd inst' [= <-]. cbn.
        destruct (Hsd inst Hinst) as [Hle Hz].
        rewrite count_drains_app, (Hz Hflag). cbn. split; [lia|done].
Qed.

End InvariantBasics.

(** ** Every function of the module keeps the invariants *)

Section Preservation.

Variable prog : Program.
Variable rec : call -> World -> result.
Hypothesis rec_keeps : forall c w, keeps w (rec c w).

Lemma has_queue_record (w : World) (element : elem) (st : ElementState) :
  getPrivateState w element = Some st ->
  has_queue w element -> is_Some (reactionQueue st).
Proof. unfold has_queue, pending. by intros ->. Qed.

Lemma place_with_state_step_ok (element : elem) (st : ElementState)
  (w : World) :
  is_Some (reactionQueue st) ->
  step_ok w (enqueueElementOnAppropriateElementQueue element
               (setPrivateState element st w)).
Proof.
  intros Hq. eapply step_ok_trans.
  - apply setPrivateState_step_ok. done.
  - apply enqueueElement_step_ok. apply has_queue_setPrivateState. by left.
Qed.

Lemma enqueueCallbackReaction_keeps (element : elem)
  (callbackName : callback_name) (args : list value) (w : World) :
  keeps w (enqueueCallbackReaction element callbackName args w).
Proof.
  unfold enqueueCallbackReaction.
  destruct (getPrivateState w element) as [st|]; [|apply step_ok_refl].
  destruct (customElementDefinition st) as [definition|];
    [|apply step_ok_refl].
  destruct (get_callback _ _); [|apply step_ok_refl].
  destruct (_ && _); [apply step_ok_refl|].
  apply keeps_ret, place_with_state_step_ok. done.
Qed.

Lemma enqueueUpgradeReaction_keeps (element : elem)
  (definition : CustomElementDefinition) (w : World) :
  keeps w (enqueueUpgradeReaction element definition w).
Proof.
  unfold enqueueUpgradeReaction.
  destruct (getPrivateState w element) as [st|] eqn:Hst.
  - cbn [reactionQueue set_customElementDefinition].
    destruct (reactionQueue st) as [q|] eqn:Hq.
    + apply keeps_ret, place_with_state_step_ok. done.
    + apply keeps_Throws, setPrivateState_step_ok. intros Hhas.
      pose proof (has_queue_record _ _ _ Hst Hhas) as Hsome.
      rewrite Hq in Hsome. by destruct Hsome.
  - cbn. apply place_with_state_step_ok. done.
Qed.

Lemma lookupCustomElementDefinition_keeps (w : World) (node : DomNode)
  (is' : option jsstring) :
  keeps w (lookupCustomElementDefinition w node is').
Proof.
  unfold lookupCustomElementDefinition.
  destruct (negb _); [apply step_ok_refl|].
  destruct (negb _); [apply step_ok_refl|].
  destruct (installation w); apply step_ok_refl.
Qed.

Lemma tryToUpgradeElement_keeps (element : elem) (w : World) :
  keeps w (tryToUpgradeElement element w).
Proof.
  unfold tryToUpgradeElement.
  match goal with |- keeps _ (if ?b then _ else _) => destruct b end;
    [apply step_ok_refl|].
  apply keeps_bind; [apply lookupCustomElementDefinition_keeps|].
  intros [definition|] w1;
    [apply enqueueUpgradeReaction_keeps|apply step_ok_refl].
Qed.

Lemma enqueue_attributes_keeps (element : elem) (attrs : list Attr)
  (w : World) :
  keeps w (enqueue_attributes element attrs w).
Proof.
  revert w. induction attrs as [|a attrs IH]; intros w;
    [apply step_ok_refl|].
  cbn [enqueue_attributes]. apply keeps_bind;
    [apply enqueueCallbackReaction_keeps|]. intros _ w1. apply IH.
Qed.

Lemma enqueue_backlog_keeps (element : elem) (w : World) :
  keeps w (enqueue_backlog element w).
Proof.
  unfold enqueue_backlog. apply keeps_bind;
    [apply enqueue_attributes_keeps|]. intros _ w1.
  destruct (isConnected _);
    [apply enqueueCallbackReaction_keeps|apply step_ok_refl].
Qed.

Lemma upgrade_prepare_keeps (element : elem)
  (definition : CustomElementDefinition) (w : World) (r : result) :
  upgrade_prepare element definition w = Some r -> keeps w r.
Proof.
  unfold upgrade_prepare.
  assert (Hrest : forall w0,
             keeps w0 (let* w1 := enqueue_backlog element w0 in
                       ret (constructionStack_push definition element w1))).
  { intros w0. apply keeps_bind; [apply enqueue_backlog_keeps|].
    intros _ w1. apply keeps_ret. by apply frame_step_ok. }
  destruct (getPrivateState w element) as [st|] eqn:Hst.
  - destruct (shouldNotUpgrade st); [done|]. intros [= <-]. apply Hrest.
  - intros [= <-]. eapply keeps_trans; [|apply Hrest].
    apply setPrivateState_step_ok. done.
Qed.

Lemma construct_keeps (element : elem)
  (definition : CustomElementDefinition) (w : World) :
  keeps w (construct prog rec element definition w).
Proof.
  unfold construct. apply keeps_bind; [apply rec_keeps|]. intros _ w1.
  destruct (bool_decide _); apply step_ok_refl.
Qed.

Lemma upgrade_catch_keeps (element : elem) (w : World) :
  keeps w (upgrade_catch element w).
Proof.
  unfold upgrade_catch.
  destruct (getPrivateState w element) as [st|] eqn:Hst;
    [|apply step_ok_refl].
  cbn [reactionQueue set_customElementDefinition set_customElementState].
  destruct (reactionQueue st) as [q|] eqn:Hq.
  - apply keeps_ret, setPrivateState_step_ok. done.
  - apply keeps_Throws, setPrivateState_step_ok. intros Hhas.
    pose proof (has_queue_record _ _ _ Hst Hhas) as Hsome.
    rewrite Hq in Hsome. by destruct Hsome.
Qed.

Lemma upgrade_finish_keeps (element : elem)
  (definition : CustomElementDefinition) (caught : option value) (w : World) :
  keeps w (upgrade_finish element definition caught w).
Proof.
  unfold upgrade_finish.
  assert (Hpop : step_ok w (constructionStack_pop definition w))
    by (by apply frame_step_ok).
  match goal with |- keeps _ (if ?b then _ else _) => destruct b end.
  - exact Hpop.
  - apply keeps_ret. eapply step_ok_trans; [exact Hpop|].
    apply records_step_ok. intros e. unfold has_queue, pending, getPrivateState.
    cbn. destruct (decide (element = e)) as [->|Hne].
    + rewrite lookup_alter_eq.
      destruct (privateState w !! e) as [st|]; cbn; done.
    + by rewrite lookup_alter_ne.
Qed.

Lemma upgradeElement_keeps (element : elem)
  (definition : CustomElementDefinition) (w : World) :
  keeps w (upgradeElement prog rec element definition w).
Proof.
  unfold upgradeElement.
  destruct (upgrade_prepare element definition w) as [prepared|] eqn:Hprep;
    [|apply step_ok_refl].
  apply keeps_bind; [by eapply upgrade_prepare_keeps|]. intros _ w2.
  pose proof (construct_keeps element definition w2) as Hc.
  destruct (construct prog rec element definition w2) as [[] w3|error w3|];
    [| |done].
  - eapply keeps_trans; [exact Hc|apply upgrade_finish_keeps].
  - eapply keeps_trans; [exact Hc|]. apply keeps_bind;
      [apply upgrade_catch_keeps|]. intros _ w4. apply upgrade_finish_keeps.
Qed.

Lemma executeCEReactions_keeps (callback : World -> result) (w : World) :
  (forall w1, keeps w1 (callback w1)) ->
  keeps w (executeCEReactions rec callback w).
Proof.
  intros Hcb. unfold executeCEReactions.
  destruct (installation w) as [inst|] eqn:Hinst; [|apply Hcb].
  eapply keeps_trans.
  { apply installation_step_ok
      with (w' := with_installation
                    (Some (set_stack (customElementsReactionStack inst ++ [[]])
                             inst)) w); try done.
    - by rewrite Hinst.
    - intros inst0 Hinst0. rewrite Hinst in Hinst0. injection Hinst0 as <-.
      eexists. split; [reflexivity|]. split; [done|]. split; [done|].
      cbn. rewrite Forall_app, Forall_singleton. intros Hs. split; [done|].
      apply Forall_nil_2. }
  apply keeps_bind; [apply Hcb|]. intros _ w2.
  destruct (installation w2) as [inst2|] eqn:Hinst2; [|apply step_ok_refl].
  destruct (array_pop _) as [[below queue]|] eqn:Hpop; [|apply step_ok_refl].
  apply array_pop_Some in Hpop.
  eapply keeps_trans; [|apply rec_keeps].
  apply installation_step_ok; try done.
  - by rewrite Hinst2.
  - intros inst0 Hinst0. rewrite Hinst2 in Hinst0. injection Hinst0 as <-.
    eexists. split; [reflexivity|]. split; [done|]. split; [done|].
    cbn. rewrite Hpop, Forall_app. tauto.
Qed.

Lemma getCallback_keeps (class : ClassDecl) (callbackName : callback_name)
  (w : World) :
  keeps w (getCallback rec class callbackName w).
Proof.
  unfold getCallback. apply keeps_bind; [apply rec_keeps|].
  intros _ w1. apply step_ok_refl.
Qed.

Lemma read_callbacks_keeps (class : ClassDecl) (names : list callback_name) :
  forall (acc : LifecycleCallbacks) (w : World),
    keeps w (snd (read_callbacks rec class names acc w)).
Proof.
  induction names as [|k names IH]; intros acc w; [apply step_ok_refl|].
  cbn [read_callbacks].
  pose proof (getCallback_keeps class k w) as Hk.
  destruct (getCallback rec class k w) as [cb w1|error w1|];
    [|exact Hk|done].
  eapply keeps_trans; [exact Hk|apply IH].
Qed.

Lemma define_try_keeps (class : ClassDecl) (w : World) :
  keeps w (snd (define_try rec class w)).
Proof.
  unfold define_try.
  destruct (negb _); [apply step_ok_refl|].
  pose proof (read_callbacks_keeps class callback_names no_callbacks w) as Hr.
  destruct (read_callbacks rec class callback_names no_callbacks w)
    as [callbacks [[] w1|error w1|]]; cbn [snd] in *; [|exact Hr|done].
  destruct (attributeChangedCallback callbacks); [|exact Hr].
  pose proof (rec_keeps (RunScript (fst (observedAttributes_get class))) w1)
    as Ho.
  destruct (rec _ w1) as [[] w2|error w2|]; cbn [snd]; [| |done];
    eapply keeps_trans; first [exact Hr|exact Ho].
Qed.

Lemma set_running_step_ok (b : bool) (w : World) :
  step_ok w (set_running b w).
Proof.
  unfold set_running.
  destruct (installation w) as [inst|] eqn:Hinst; [|apply step_ok_refl].
  apply installation_step_ok; try done.
  - by rewrite Hinst.
  - intros inst0 Hinst0. rewrite Hinst in Hinst0. injection Hinst0 as <-.
    eexists. split; [reflexivity|]. done.
Qed.

Lemma push_definition_step_ok (definition : CustomElementDefinition)
  (w : World) :
  step_ok w (push_definition definition w).
Proof.
  unfold push_definition.
  destruct (installation w) as [inst|] eqn:Hinst; [|apply step_ok_refl].
  apply installation_step_ok; try done.
  - by rewrite Hinst.
  - intros inst0 Hinst0. rewrite Hinst in Hinst0. injection Hinst0 as <-.
    eexists. split; [reflexivity|]. done.
Qed.

Lemma upgrade_sweep_keeps (definition : CustomElementDefinition)
  (extensionOf : option jsstring) (visit : list elem) (w : World) :
  keeps w (upgrade_sweep definition extensionOf visit w).
Proof.
  revert w. induction visit as [|node visit IH]; intros w;
    [apply step_ok_refl|].
  cbn [upgrade_sweep]. destruct (_ && _); [|apply IH].
  apply keeps_bind; [|intros _ w1; apply IH].
  apply sweep_visit_cases;
    [apply enqueueUpgradeReaction_keeps|apply step_ok_refl|apply step_ok_refl].
Qed.

Lemma resolve_whenDefined_step_ok (name : jsstring) (w : World) :
  step_ok w (resolve_whenDefined name w).
Proof.
  unfold resolve_whenDefined.
  destruct (installation w) as [inst|]; [|apply step_ok_refl].
  destruct (bool_decide _); [|apply step_ok_refl].
  apply frame_step_ok; [done|done|].
  cbn. rewrite count_drains_app. cbn. lia.
Qed.

Lemma define_registration_keeps (name : jsstring) (constructor : classid)
  (localName' : jsstring) (extensionOf : option jsstring) (w : World) :
  keeps w
    (define_registration prog rec name constructor localName' extensionOf w).
Proof.
  unfold define_registration.
  destruct (installation w) as [inst|]; [|apply step_ok_refl].
  destruct (elementDefinitionIsRunning _); [apply step_ok_refl|].
  pose proof (define_try_keeps (classes prog constructor) (set_running true w))
    as Htry.
  destruct (define_try rec (classes prog constructor)
              (set_running true w)) as [[callbacks observed] exit].
  cbn [snd] in Htry.
  assert (Hfin : forall caught w1,
             step_ok w w1 ->
             keeps w
               (let w2 := set_running false w1 in
                if match caught with
                   | Some error => truthy error
                   | None => false
                   end
                then Throws (default VNull caught) w2
                else
                  let address := fresh (dom (constructionStacks w2)) in
                  let definition :=
                    {| def_name := name; def_localName := localName';
                       def_constructor := constructor;
                       observedAttributes := observed;
                       lifecycleCallbacks := callbacks;
                       constructionStack := address |} in
                  let w3 :=
                    with_constructionStacks
                      (<[address := []]> (constructionStacks w2))
                      (push_definition definition w2) in
                  let* w4 :=
                    if document_loading w3 then ret w3
                    else upgrade_sweep definition extensionOf
                           (document_order w3) w3 in
                  ret (resolve_whenDefined name w4))).
  { intros caught w1 Hw1. cbv zeta.
    assert (Hw2 : step_ok w (set_running false w1))
      by (eapply step_ok_trans; [exact Hw1|apply set_running_step_ok]).
    match goal with |- keeps _ (if ?b then _ else _) => destruct b end;
      [exact Hw2|].
    eapply keeps_trans; [exact Hw2|].
    match goal with
    | |- keeps _ (bind (if _ then ret ?w3 else _) _) =>
        assert (Hw3 : step_ok (set_running false w1) w3)
    end.
    { eapply step_ok_trans; [apply push_definition_step_ok|].
      by apply frame_step_ok. }
    eapply keeps_trans; [exact Hw3|].
    apply keeps_bind.
    - destruct (document_loading _);
        [apply step_ok_refl|apply upgrade_sweep_keeps].
    - intros _ w4. apply keeps_ret, resolve_whenDefined_step_ok. }
  assert (Hrun : step_ok w (set_running true w))
    by apply set_running_step_ok.
  destruct exit as [[] w1|error w1|]; [| |done].
  - apply (Hfin None w1). eapply step_ok_trans; [exact Hrun|exact Htry].
  - apply (Hfin (Some error) w1).
    eapply step_ok_trans; [exact Hrun|exact Htry].
Qed.

Lemma define_body_keeps (name : jsstring) (constructor : classid)
  (extends : option jsstring) (w : World) :
  keeps w (define_body prog rec name constructor extends w).
Proof.
  unfold define_body.
  destruct (installation w) as [inst|]; [|apply step_ok_refl].
  destruct (negb _); [apply step_ok_refl|].
  destruct (negb _); [apply step_ok_refl|].
  destruct extends as [extensionOf|]; [|apply define_registration_keeps].
  destruct (isValidCustomElementName extensionOf); [apply step_ok_refl|].
  destruct (testElement_constructor_get prog) as [getter|];
    [|apply step_ok_refl].
  apply keeps_bind; [apply rec_keeps|].
  intros _ w0. apply define_registration_keeps.
Qed.

Lemma define_keeps (name : jsstring) (constructor : classid)
  (extends : option jsstring) (w : World) :
  keeps w (define prog rec name constructor extends w).
Proof.
  unfold define. apply executeCEReactions_keeps. intros w1.
  apply define_body_keeps.
Qed.

Lemma exec_cmd_keeps (c : cmd) (w : World) : keeps w (exec_cmd prog rec c w).
Proof.
  destruct c; cbn [exec_cmd].
  - apply step_ok_refl.
  - pose proof (rec_keeps (RunScript body) w) as Hb.
    destruct (rec (RunScript body) w) as [[] w1|error w1|]; [done| |done].
    eapply keeps_trans; [exact Hb|apply rec_keeps].
  - apply keeps_ret. by apply frame_step_ok.
  - destruct (isConnected _); [|apply step_ok_refl].
    destruct (isCustom w node);
      [apply enqueueCallbackReaction_keeps|apply tryToUpgradeElement_keeps].
  - destruct (isCustom w node);
      [apply enqueueCallbackReaction_keeps|apply step_ok_refl].
  - destruct (isCustom w node);
      [apply enqueueCallbackReaction_keeps|apply step_ok_refl].
  - apply tryToUpgradeElement_keeps.
  - destruct (isCustom w element);
      [apply enqueueCallbackReaction_keeps|apply step_ok_refl].
  - apply tryToUpgradeElement_keeps.
  - apply executeCEReactions_keeps. intros w1. apply rec_keeps.
  - apply define_keeps.
Qed.

Lemma run_script_keeps (body : list cmd) (w : World) :
  keeps w (run_script prog rec body w).
Proof.
  revert w. induction body as [|c body IH]; intros w; [apply step_ok_refl|].
  cbn [run_script]. apply keeps_bind; [apply exec_cmd_keeps|].
  intros _ w1. apply IH.
Qed.

Lemma invoke_reaction_keeps (element : elem) (reaction : Reaction)
  (w : World) :
  keeps w (invoke_reaction prog rec element reaction w).
Proof.
  destruct reaction as [definition|callback args]; cbn [invoke_reaction].
  - apply upgradeElement_keeps.
  - eapply keeps_trans; [|apply rec_keeps]. by apply frame_step_ok.
Qed.

Lemma while_reactions_keeps (element : elem) (w : World) :
  keeps w (while_reactions prog rec element w).
Proof.
  unfold while_reactions.
  destruct (getPrivateState w element) as [st|] eqn:Hst;
    [|apply step_ok_refl].
  destruct (reactionQueue st) as [[|reaction rest]|] eqn:Hq;
    [apply step_ok_refl| |apply step_ok_refl].
  match goal with
  | |- keeps _ (match invoke_reaction _ _ _ _ ?w1 with _ => _ end) =>
      assert (H1 : step_ok w w1)
        by (apply setPrivateState_step_ok; done);
      pose proof (invoke_reaction_keeps element reaction w1) as Hr;
      destruct (invoke_reaction prog rec element reaction w1)
        as [[] w2|error w2|]; [| |done]
  end.
  - eapply keeps_trans; [exact H1|]. eapply keeps_trans; [exact Hr|].
    apply rec_keeps.
  - eapply keeps_trans; [exact H1|]. eapply keeps_trans; [exact Hr|].
    eapply keeps_trans; [|apply rec_keeps]. by apply frame_step_ok.
Qed.

Lemma invokeReactions_from_keeps (queue : queue_ref) (i : nat) (w : World) :
  keeps w (invokeReactions_from rec queue i w).
Proof.
  unfold invokeReactions_from.
  destruct (read_queue queue w !! i) as [element|]; [|apply step_ok_refl].
  destruct (getPrivateState w element) as [st|]; [|apply step_ok_refl].
  destruct (reactionQueue st); [|apply step_ok_refl].
  apply keeps_bind; [apply rec_keeps|]. intros _ w1. apply rec_keeps.
Qed.

Lemma step_keeps (c : call) (w : World) : keeps w (step prog rec c w).
Proof.
  destruct c; cbn [step].
  - apply run_script_keeps.
  - apply invokeReactions_from_keeps.
  - apply while_reactions_keeps.
Qed.

End Preservation.

(** Whatever runs, for however long, keeps the invariants. *)
Lemma eval_keeps (prog : Program) (fuel : nat) :
  forall (c : call) (w : World), keeps w (eval prog fuel c w).
Proof.
  induction fuel as [|n IH]; intros c w; [done|].
  cbn [eval]. by apply step_keeps.
Qed.

(** ** The invocation loop *)

Section InvocationLoop.

Variable prog : Program.

(** The inner loop ends only by finding the queue empty: an error raised by
    a reaction never leaves it. *)
Lemma while_reactions_never_throws (fuel : nat) :
  forall (element : elem) (w : World) (error : value) (w' : World),
    eval prog fuel (WhileReactions element) w <> Throws error w'.
Proof.
  induction fuel as [|n IH]; intros element w error w'; [done|].
  cbn [eval step]. unfold while_reactions.
  destruct (getPrivateState w element) as [st|]; [|done].
  destruct (reactionQueue st) as [[|reaction rest]|]; [done| |done].
  destruct (invoke_reaction _ _ _ _ _) as [[] w2|error2 w2|];
    [apply IH|apply IH|done].
Qed.

Lemma queue_ready_evolves (queue : queue_ref) (w w' : World) :
  evolves w w' -> queue_ready queue w -> queue_ready queue w'.
Proof.
  intros (Hq & _) Hready. destruct queue as [|l]; [done|].
  eapply Forall_impl; [exact Hready|]. exact Hq.
Qed.

Lemma read_queue_has_queue (queue : queue_ref) (w : World) (i : nat)
  (element : elem) :
  queues_have_records w -> queue_ready queue w ->
  read_queue queue w !! i = Some element -> has_queue w element.
Proof.
  intros Hrec Hready Hi. destruct queue as [|l]; cbn in *.
  - destruct (installation w) as [inst|] eqn:Hinst; [|done].
    destruct (Hrec inst Hinst) as [Hb _].
    rewrite Forall_forall in Hb. apply Hb. by eapply list_elem_of_lookup_2.
  - rewrite Forall_forall in Hready. apply Hready.
    by eapply list_elem_of_lookup_2.
Qed.

(** The outer loop, over a queue whose elements have records, never throws
    either. *)
Lemma invokeReactions_from_never_throws (fuel : nat) :
  forall (queue : queue_ref) (i : nat) (w : World) (error : value)
         (w' : World),
    queues_have_records w -> queue_ready queue w ->
    eval prog fuel (InvokeReactions queue i) w <> Throws error w'.
Proof.
  induction fuel as [|n IH]; intros queue i w error w' Hrec Hready; [done|].
  cbn [eval step]. unfold invokeReactions_from.
  destruct (read_queue queue w !! i) as [element|] eqn:Hi; [|done].
  pose proof (read_queue_has_queue queue w i element Hrec Hready Hi)
    as [rs Hrs].
  unfold pending in Hrs.
  destruct (getPrivateState w element) as [st|]; [|done]. cbn in Hrs.
  rewrite Hrs.
  pose proof (eval_keeps prog n (WhileReactions element) w) as Hk.
  pose proof (while_reactions_never_throws n element w) as Hnt.
  destruct (eval prog n (WhileReactions element) w) as [[] w1|error1 w1|];
    cbn [bind]; [|by destruct (Hnt error1 w1)|done].
  destruct Hk as (Hev & Hrec1 & _).
  apply IH; [by apply Hrec1|by eapply queue_ready_evolves].
Qed.

(** *** Callbacks that only throw

    For reactions whose callbacks do nothing but (possibly) throw, the loop
    can be followed to its end. *)

Lemma run_script_throws_only (rec : call -> World -> result)
  (body : list cmd) (w : World) :
  throws_only body ->
  run_script prog rec body w
  = match script_error body with
    | [] => ret w
    | v :: _ => Throws v w
    end.
Proof.
  intros Hbody. destruct body as [|c body]; [done|].
  apply Forall_cons in Hbody as [[v ->] _]. reflexivity.
Qed.

Lemma eval_S (fuel : nat) (c : call) (w : World) :
  eval prog (S fuel) c w = step prog (eval prog fuel) c w.
Proof. reflexivity. Qed.

Lemma while_reactions_simple (rs : list Reaction) :
  forall (fuel : nat) (element : elem) (st : ElementState) (w : World),
    getPrivateState w element = Some st ->
    reactionQueue st = Some rs ->
    Forall (simple_reaction prog) rs ->
    length rs < fuel ->
    eval prog fuel (WhileReactions element) w = ret (drained prog element st rs w).
Proof.
  induction rs as [|r rs IH]; intros fuel element st w Hst Hq Hsimple Hfuel.
  - destruct fuel as [|n]; [lia|]. cbn [eval step]. unfold while_reactions.
    rewrite Hst, Hq. unfold drained. cbn [flat_map]. rewrite !app_nil_r.
    f_equal. destruct w, st; cbn in *. subst.
    unfold setPrivateState, with_privateState, with_reported, with_invoked.
    cbn. f_equal. symmetry. by apply insert_id.
  - destruct fuel as [|n]; [cbn in Hfuel; lia|]. rewrite eval_S. cbn [step].
    unfold while_reactions. rewrite Hst, Hq.
    apply Forall_cons in Hsimple as [Hr Hrs].
    destruct r as [definition|callback args]; [done|].
    cbn [invoke_reaction]. cbn in Hr, Hfuel.
    destruct n as [|n]; [lia|].
    rewrite (eval_S n (RunScript _)). cbn [step].
    rewrite (run_script_throws_only _ _ _ Hr).
    set (st1 := set_reactionQueue (Some rs) st).
    assert (Hfinal : forall w2,
               getPrivateState w2 element = Some st1 ->
               eval prog (S n) (WhileReactions element) w2
               = ret (drained prog element st1 rs w2)).
    { intros w2 Hw2. apply IH; [done|done|done|lia]. }
    assert (Hmerge : set_reactionQueue (Some []) st1
                     = set_reactionQueue (Some []) st) by done.
    cbn [reaction_errors flat_map reaction_calls].
    destruct (script_error (functions prog callback)) as [|v vs] eqn:Herr.
    + unfold ret at 1. cbv iota.
      rewrite Hfinal by apply getPrivateState_setPrivateState.
      f_equal. unfold drained. rewrite Hmerge.
      unfold setPrivateState, with_reported, with_invoked, with_privateState.
      cbn. rewrite Herr, insert_insert_eq, <- !app_assoc. reflexivity.
    + assert (vs = []) as ->.
      { unfold script_error in Herr.
        destruct (functions prog callback) as [|[] ?]; by inversion Herr. }
      cbv iota.
      rewrite Hfinal by apply getPrivateState_setPrivateState.
      f_equal. unfold drained, reportError. rewrite Hmerge.
      unfold setPrivateState, with_reported, with_invoked, with_privateState.
      cbn. rewrite Herr, insert_insert_eq, <- !app_assoc. reflexivity.
Qed.

Lemma pending_drain_element (element other : elem) (w : World) :
  has_queue w element ->
  pending (drain_element prog element w) other
  = if decide (element = other) then Some [] else pending w other.
Proof.
  intros [rs Hrs]. unfold drain_element, pending in *.
  destruct (getPrivateState w element) as [st|] eqn:Hst; [|done].
  cbn in Hrs. rewrite Hrs. unfold drained, getPrivateState. cbn.
  destruct (decide (element = other)) as [->|Hne].
  - by rewrite lookup_insert_eq.
  - by rewrite lookup_insert_ne.
Qed.

Lemma simple_queue_drain_element (bound : nat) (element : elem)
  (elements : list elem) (w : World) :
  has_queue w element ->
  simple_queue prog bound elements w ->
  simple_queue prog bound elements (drain_element prog element w).
Proof.
  intros Hel Hsimple. eapply Forall_impl; [exact Hsimple|].
  intros e (rs & Hrs & Hall & Hlen).
  rewrite pending_drain_element by done.
  destruct (decide (element = e)); [|by exists rs].
  exists []. split; [done|]. split; [done|]. cbn. lia.
Qed.

Lemma read_queue_drain_element (queue : queue_ref) (element : elem)
  (w : World) :
  read_queue queue (drain_element prog element w) = read_queue queue w.
Proof.
  destruct queue as [|l]; [|done]. cbn. unfold drain_element.
  destruct (getPrivateState w element) as [st|]; [|done].
  destruct (reactionQueue st); done.
Qed.

Lemma invokeReactions_from_simple (bound : nat) (queue : queue_ref) :
  forall (remaining : list elem) (i fuel : nat) (w : World),
    drop i (read_queue queue w) = remaining ->
    simple_queue prog bound remaining w ->
    length remaining + bound + 1 < fuel ->
    eval prog fuel (InvokeReactions queue i) w = ret (batch prog remaining w).
Proof.
  induction remaining as [|element remaining IH];
    intros i fuel w Hdrop Hsimple Hfuel.
  - destruct fuel as [|n]; [lia|]. cbn [eval step]. unfold invokeReactions_from.
    assert (read_queue queue w !! i = None) as ->; [|done].
    apply lookup_ge_None. apply (f_equal length) in Hdrop.
    rewrite length_drop in Hdrop. cbn in Hdrop. lia.
  - destruct fuel as [|n]; [lia|]. cbn [eval step]. unfold invokeReactions_from.
    assert (Hi : read_queue queue w !! i = Some element).
    { rewrite <- (Nat.add_0_r i), <- lookup_drop, Hdrop. done. }
    rewrite Hi.
    pose proof Hsimple as Hall.
    apply Forall_cons in Hall as [(rs & Hrs & Hrs_simple & Hlen) Hrest].
    unfold pending in Hrs.
    destruct (getPrivateState w element) as [st|] eqn:Hst; [|done].
    cbn in Hrs. rewrite Hrs. cbn in Hfuel.
    rewrite (while_reactions_simple rs n element st w Hst Hrs Hrs_simple)
      by lia.
    cbn [bind ret].
    assert (Hdrain : drained prog element st rs w = drain_element prog element w).
    { unfold drain_element. by rewrite Hst, Hrs. }
    rewrite Hdrain. cbn [batch]. apply IH.
    + rewrite read_queue_drain_element.
      replace (S i) with (i + 1) by lia. by rewrite <- drop_drop, Hdrop.
    + apply simple_queue_drain_element; [|done].
      exists rs. unfold pending. by rewrite Hst.
    + lia.
Qed.

(** What a batch leaves behind. *)
Lemma batch_frame (elements : list elem) :
  forall w : World,
    installation (batch prog elements w) = installation w
    /\ microtasks (batch prog elements w) = microtasks w.
Proof.
  induction elements as [|e elements IH]; intros w; [done|].
  cbn [batch]. destruct (IH (drain_element prog e w)) as [Hi Hm].
  rewrite Hi, Hm. unfold drain_element.
  destruct (getPrivateState w e) as [st|]; [|done].
  destruct (reactionQueue st); done.
Qed.

Lemma drain_element_logs (element : elem) (w : World) :
  exists calls errors,
    invoked (drain_element prog element w) = invoked w ++ calls
    /\ reported (drain_element prog element w) = reported w ++ errors
    /\ forall rs,
         pending w element = Some rs ->
         calls = flat_map (reaction_calls element) rs
         /\ errors = flat_map (reaction_errors prog) rs.
Proof.
  unfold drain_element, pending.
  destruct (getPrivateState w element) as [st|]; cbn.
  - destruct (reactionQueue st) as [rs|].
    + eexists _, _. split; [reflexivity|]. split; [reflexivity|].
      by intros ? [= <-].
    + exists [], []. rewrite !app_nil_r. done.
  - exists [], []. rewrite !app_nil_r. done.
Qed.

Lemma batch_logs_grow (elements : list elem) :
  forall w : World,
    exists calls errors,
      invoked (batch prog elements w) = invoked w ++ calls
      /\ reported (batch prog elements w) = reported w ++ errors.
Proof.
  induction elements as [|e elements IH]; intros w.
  - exists [], []. cbn. by rewrite !app_nil_r.
  - cbn [batch].
    destruct (IH (drain_element prog e w)) as (calls2 & errors2 & Hc2 & He2).
    destruct (drain_element_logs e w) as (calls1 & errors1 & Hc1 & He1 & _).
    exists (calls1 ++ calls2), (errors1 ++ errors2).
    rewrite Hc2, He2, Hc1, He1, !app_assoc. done.
Qed.

Lemma batch_invokes_all (bound : nat) (elements : list elem) :
  forall w : World,
    simple_queue prog bound elements w ->
    forall element rs reaction,
      element ∈ elements ->
      pending w element = Some rs ->
      reaction ∈ rs ->
      pending (batch prog elements w) element = Some []
      /\ (forall call, call ∈ reaction_calls element reaction ->
                       call ∈ invoked (batch prog elements w))
      /\ (forall error, error ∈ reaction_errors prog reaction ->
                        error ∈ reported (batch prog elements w)).
Proof.
  induction elements as [|e elements IH];
    intros w Hsimple element rs reaction Hin Hrs Hr;
    [by apply elem_of_nil in Hin|].
  cbn [batch].
  pose proof Hsimple as Hall.
  apply Forall_cons in Hall as [(rs0 & Hrs0 & _) Hrest].
  assert (Hhas : has_queue w e) by (by exists rs0).
  pose proof (simple_queue_drain_element bound e elements w Hhas Hrest)
    as Hsimple'.
  destruct (batch_logs_grow elements (drain_element prog e w))
    as (calls2 & errors2 & Hc2 & He2).
  destruct (decide (e = element)) as [->|Hne].
  - (* this visit consumes the reaction *)
    destruct (drain_element_logs element w)
      as (calls1 & errors1 & Hc1 & He1 & Hlogs).
    destruct (Hlogs rs Hrs) as [-> ->].
    assert (Hempty : pending (batch prog elements (drain_element prog element w)) element
                     = Some []).
    { clear -Hhas Hsimple'. revert Hsimple' .
      assert (Hstart : pending (drain_element prog element w) element = Some [])
        by (rewrite pending_drain_element by done; by rewrite decide_True).
      revert Hstart. generalize (drain_element prog element w) as w0.
      induction elements as [|e elements IHl]; intros w0 Hstart Hs; [done|].
      cbn [batch]. apply Forall_cons in Hs as [(rs1 & Hrs1 & _) Hs].
      assert (has_queue w0 e) by (by exists rs1).
      apply IHl.
      - rewrite pending_drain_element by done. by destruct (decide _).
      - by apply simple_queue_drain_element. }
    split; [exact Hempty|]. split.
    + intros call Hcall. rewrite Hc2, Hc1.
      apply elem_of_app. left. apply elem_of_app. right.
      apply list_elem_of_In, in_flat_map. exists reaction.
      split; by apply list_elem_of_In.
    + intros error Herror. rewrite He2, He1.
      apply elem_of_app. left. apply elem_of_app. right.
      apply list_elem_of_In, in_flat_map. exists reaction.
      split; by apply list_elem_of_In.
  - apply elem_of_cons in Hin as [->|Hin]; [done|].
    apply (IH (drain_element prog e w) Hsimple' element rs reaction Hin);
      [|done].
    rewrite pending_drain_element by done. by rewrite decide_False.
Qed.

End InvocationLoop.

Section InvocationExamples.

Import Examples.

Lemma batch_world_records : queues_have_records batch_world.
Proof. intros inst [= <-]. split; apply Forall_nil_2. Qed.

Lemma batch_world_ready : queue_ready (PoppedQueue [5; 6]) batch_world.
Proof.
  cbn. repeat apply Forall_cons_2; try apply Forall_nil_2;
    eexists; vm_compute; reflexivity.
Qed.

Lemma batch_world_simple :
  simple_queue example_program 2 [5; 6] batch_world.
Proof.
  repeat apply Forall_cons_2; try apply Forall_nil_2.
  - eexists. split; [vm_compute; reflexivity|]. split; [|cbn; lia].
    repeat apply Forall_cons_2; try apply Forall_nil_2; cbn;
      repeat apply Forall_cons_2; try apply Forall_nil_2; by eexists.
  - eexists. split; [vm_compute; reflexivity|]. split; [|cbn; lia].
    repeat apply Forall_cons_2; try apply Forall_nil_2; cbn;
      repeat apply Forall_cons_2; try apply Forall_nil_2; by eexists.
Qed.

(** A failing upgrade inside a batch: the error is reported, the element
    becomes [failed] and loses the callback queued behind the upgrade, and
    the loop goes on to the next element. *)
Example invokeReactions_failed_upgrade_continues :
  exists w',
    invokeReactions example_program 9 (PoppedQueue [5; 6])
      failing_upgrade_world = ret w'
    /\ reported w' = [VError (UserError 7)]
    /\ (getPrivateState w' 5 ≫= customElementState) = Some CE_STATE_FAILED
    /\ pending w' 5 = Some []
    /\ pending w' 6 = Some []
    /\ invoked w' = [(6, 1, [])].
Proof. eexists. split; [vm_compute; reflexivity|]. repeat split. Qed.

End InvocationExamples.

(** ** The backup element queue *)

Section BackupQueue.

Variable prog : Program.

Lemma eval_backup_kept (fuel : nat) (c : call) (w : World)
  (inst : Installation) :
  installation w = Some inst -> backup_kept inst (eval prog fuel c w).
Proof.
  intros Hinst. pose proof (eval_keeps prog fuel c w) as Hk.
  destruct (eval prog fuel c w) as [[] w'|error w'|]; [| |done];
    destruct Hk as ((_ & _ & Hi) & _);
    destruct (Hi inst Hinst) as (inst' & Hinst' & Hpre & _);
    by exists inst'.
Qed.

Lemma run_task_backup_kept (fuel : nat) (task : Microtask) (w : World)
  (inst : Installation) :
  installation w = Some inst -> backup_kept inst (run_task prog fuel task w).
Proof.
  intros Hinst. destruct task as [|name|detached]; cbn [run_task].
  - unfold invokeReactions.
    pose proof (eval_backup_kept fuel (InvokeReactions BackupQueue 0) w inst
                  Hinst) as Hk.
    destruct (eval prog fuel (InvokeReactions BackupQueue 0) w)
      as [[] w'|error w'|]; cbn in *; [|done|done].
    destruct Hk as (inst' & Hinst' & Hpre).
    unfold set_processingBackupElementQueue. rewrite Hinst'.
    eexists. split; [reflexivity|]. done.
  - cbn. unfold clear_whenDefined. rewrite Hinst.
    eexists. split; [reflexivity|]. done.
  - by apply eval_backup_kept.
Qed.

Lemma run_microtask_backup_kept (fuel : nat) (w : World)
  (inst : Installation) :
  installation w = Some inst -> backup_kept inst (run_microtask prog fuel w).
Proof.
  intros Hinst. unfold run_microtask.
  destruct (microtasks w) as [|task rest].
  - by exists inst.
  - by apply run_task_backup_kept.
Qed.

(** A drain over a backup queue whose elements have nothing pending still
    walks the whole queue: it returns the world unchanged, and needs one
    step per entry to do so. *)
Lemma invokeReactions_rescan (w : World) (inst : Installation) :
  installation w = Some inst ->
  Forall (fun element => pending w element = Some [])
    (backupElementQueue inst) ->
  forall fuel i,
    eval prog fuel (InvokeReactions BackupQueue i) w
    = if decide (length (backupElementQueue inst) - i < fuel)
      then ret w else Diverges.
Proof.
  intros Hinst Hempty fuel.
  induction fuel as [|n IH]; intros i.
  - by rewrite decide_False by lia.
  - cbn [eval step]. unfold invokeReactions_from. cbn [read_queue].
    rewrite Hinst.
    destruct (backupElementQueue inst !! i) as [element|] eqn:Hi.
    + pose proof (lookup_lt_Some _ _ _ Hi) as Hlt.
      rewrite Forall_forall in Hempty.
      pose proof (Hempty element (list_elem_of_lookup_2 _ _ _ Hi)) as Hel.
      unfold pending in Hel.
      destruct (getPrivateState w element) as [st|] eqn:Hst; [|done].
      cbn in Hel. rewrite Hel.
      destruct n as [|m].
      * cbn. by rewrite decide_False by lia.
      * rewrite (eval_S prog m (WhileReactions element)). cbn [step].
        unfold while_reactions. rewrite Hst, Hel. cbn [bind ret].
        rewrite IH. destruct (decide _), (decide _); try done; lia.
    + apply lookup_ge_None in Hi. by rewrite decide_True by lia.
Qed.

(** C9.  Nothing takes an element out of the backup element queue: after
    whatever the module runs, and after the drain task itself, the queue
    still starts with all the elements it held; an element enqueued while
    the stack is empty is appended to it; and a later drain visits every
    entry again, also when no reaction is pending on any of them. *)
Theorem backupElementQueue_never_emptied (w : World) (inst : Installation) :
  installation w = Some inst ->
  (forall fuel c, backup_kept inst (eval prog fuel c w))
  /\ (forall fuel, backup_kept inst (run_microtask prog fuel w))
  /\ (forall element,
         customElementsReactionStack inst = [] ->
         exists inst',
           installation (enqueueElementOnAppropriateElementQueue element w)
           = Some inst'
           /\ backupElementQueue inst' = backupElementQueue inst ++ [element])
  /\ (Forall (fun element => pending w element = Some [])
        (backupElementQueue inst) ->
      forall fuel,
        invokeReactions prog fuel BackupQueue w
        = if decide (length (backupElementQueue inst) < fuel)
          then ret w else Diverges).
Proof.
  intros Hinst. split; [|split; [|split]].
  - intros fuel c. by apply eval_backup_kept.
  - intros fuel. by apply run_microtask_backup_kept.
  - intros element Hstack. unfold enqueueElementOnAppropriateElementQueue.
    rewrite Hinst, Hstack. cbn.
    destruct (processingBackupElementQueue inst); eexists; done.
  - intros Hempty fuel. unfold invokeReactions.
    rewrite (invokeReactions_rescan w inst Hinst Hempty fuel 0).
    by rewrite Nat.sub_0_r.
Qed.

End BackupQueue.

Section BackupQueueExamples.

Import Examples.

Lemma backupElementQueue_never_emptied_witness :
  backup_kept settled_installation
    (eval example_program 9 (RunScript [AttributeChangeSteps 5
                                          (VStr (lit "a")) VNull
                                          (VStr (lit "2")) VNull])
       settled_world)
  /\ backup_kept settled_installation
       (run_microtask example_program 9 settled_world)
  /\ (exists inst',
         installation (enqueueElementOnAppropriateElementQueue 5 settled_world)
         = Some inst'
         /\ backupElementQueue inst' = [5; 5] ++ [5])
  /\ invokeReactions example_program 3 BackupQueue settled_world
     = ret settled_world
  /\ invokeReactions example_program 2 BackupQueue settled_world = Diverges.
Proof.
  destruct (backupElementQueue_never_emptied example_program settled_world
              settled_installation eq_refl) as (Heval & Htask & Henq & Hscan).
  split; [apply Heval|]. split; [apply Htask|].
  split; [apply (Henq 5 eq_refl)|].
  assert (Hempty : Forall (fun element => pending settled_world element = Some [])
                     (backupElementQueue settled_installation))
    by (repeat apply Forall_cons_2; try apply Forall_nil_2; reflexivity).
  split; [exact (Hscan Hempty 3)|exact (Hscan Hempty 2)].
Defined.

(** The drain task of the running example leaves the backup queue as it
    was: nothing is removed from it. *)
Example drain_keeps_backup_queue :
  exists w1 w2 inst2,
    eval example_program 9 (RunScript [Define (lit "x-a") 0 None])
      installed_world = ret w1
    /\ run_microtask example_program 9 w1 = ret w2
    /\ installation w2 = Some inst2
    /\ backupElementQueue inst2 = [5; 5]
    /\ microtasks w2 = []
    /\ pending w2 5 = Some [].
Proof.
  eexists _, _, _. split; [vm_compute; reflexivity|].
  split; [vm_compute; reflexivity|]. repeat split.
Qed.

End BackupQueueExamples.

(** ** Without an installation *)

Section Uninstalled.

Variable prog : Program.

Lemma quiet_refl (w : World) : installation w = None -> quiet w w.
Proof. done. Qed.

Lemma stays_quiet_bind {A B : Type} (w : World) (r : outcome A)
  (k : A -> World -> outcome B) :
  stays_quiet w r ->
  (forall a w1, installation w1 = None -> stays_quiet w1 (k a w1)) ->
  stays_quiet w (bind r k).
Proof.
  intros Hr Hk. destruct r as [a w1|error w1|]; cbn in *; [|done|done].
  destruct Hr as (Hi & Hm & Hv & Hr).
  specialize (Hk a w1 Hi).
  destruct (k a w1) as [b w2|error w2|]; cbn in *; [| |done];
    destruct Hk as (Hi2 & Hm2 & Hv2 & Hr2); repeat split; congruence.
Qed.

Lemma enqueueCallbackReaction_quiet (element : elem)
  (callbackName : callback_name) (args : list value) (w : World) :
  installation w = None ->
  stays_quiet w (enqueueCallbackReaction element callbackName args w).
Proof.
  intros Hnone. unfold enqueueCallbackReaction.
  destruct (getPrivateState w element) as [st|]; [|done].
  destruct (customElementDefinition st); [|done].
  destruct (get_callback _ _); [|done].
  destruct (_ && _); [done|].
  rewrite enqueueElement_uninstalled by done. done.
Qed.

Lemma enqueueUpgradeReaction_quiet (element : elem)
  (definition : CustomElementDefinition) (w : World) :
  installation w = None ->
  stays_quiet w (enqueueUpgradeReaction element definition w).
Proof.
  intros Hnone. unfold enqueueUpgradeReaction.
  match goal with |- context [reactionQueue ?s] => destruct (reactionQueue s) end;
    [|done].
  rewrite enqueueElement_uninstalled by done. done.
Qed.

Lemma tryToUpgradeElement_quiet (element : elem) (w : World) :
  installation w = None -> stays_quiet w (tryToUpgradeElement element w).
Proof.
  intros Hnone. unfold tryToUpgradeElement.
  match goal with |- stays_quiet _ (if ?b then _ else _) => destruct b end;
    [done|].
  unfold lookupCustomElementDefinition. rewrite Hnone.
  destruct (negb _); [done|]. destruct (negb _); done.
Qed.

Section QuietStep.

Variable rec : call -> World -> result.
Hypothesis rec_quiet :
  forall body w, installation w = None -> stays_quiet w (rec (RunScript body) w).

Lemma exec_cmd_quiet (c : cmd) (w : World) :
  installation w = None -> stays_quiet w (exec_cmd prog rec c w).
Proof.
  intros Hnone. destruct c; cbn [exec_cmd].
  - done.
  - pose proof (rec_quiet body w Hnone) as Hb.
    destruct (rec (RunScript body) w) as [[] w1|error w1|]; [done| |done].
    destruct Hb as (Hi & Hm & Hv & Hr).
    pose proof (rec_quiet handler w1 Hi) as Hh.
    destruct (rec (RunScript handler) w1) as [[] w2|error2 w2|]; [| |done];
      destruct Hh as (Hi2 & Hm2 & Hv2 & Hr2); repeat split; congruence.
  - done.
  - destruct (isConnected _); [|done].
    destruct (isCustom w node);
      [by apply enqueueCallbackReaction_quiet
      |by apply tryToUpgradeElement_quiet].
  - destruct (isCustom w node); [by apply enqueueCallbackReaction_quiet|done].
  - destruct (isCustom w node); [by apply enqueueCallbackReaction_quiet|done].
  - by apply tryToUpgradeElement_quiet.
  - destruct (isCustom w element);
      [by apply enqueueCallbackReaction_quiet|done].
  - by apply tryToUpgradeElement_quiet.
  - unfold executeCEReactions. rewrite Hnone. by apply rec_quiet.
  - unfold define, executeCEReactions, define_body. rewrite Hnone. done.
Qed.

Lemma run_script_quiet (body : list cmd) (w : World) :
  installation w = None -> stays_quiet w (run_script prog rec body w).
Proof.
  revert w. induction body as [|c body IH]; intros w Hnone; [done|].
  cbn [run_script]. apply stays_quiet_bind; [by apply exec_cmd_quiet|].
  intros _ w1 Hw1. by apply IH.
Qed.

End QuietStep.

Lemma eval_quiet (fuel : nat) :
  forall (body : list cmd) (w : World),
    installation w = None ->
    stays_quiet w (eval prog fuel (RunScript body) w).
Proof.
  induction fuel as [|n IH]; intros body w Hnone; [done|].
  cbn [eval step]. by apply run_script_quiet.
Qed.

End Uninstalled.

Section UninstalledExamples.

Import Examples.

(** The reaction stays where it was appended: user code that reports a
    connection and a removal leaves both reactions pending, uncalled. *)
Example uninstalled_reactions_stay_pending :
  exists w',
    eval example_program 9
      (RunScript [InsertingSteps 5; ExecuteCEReactions [InsertingSteps 5]])
      orphan_world = ret w'
    /\ pending w' 5 = Some [CallbackReaction 1 []; CallbackReaction 1 []]
    /\ invoked w' = []
    /\ microtasks w' = [].
Proof. eexists. split; [vm_compute; reflexivity|]. repeat split. Qed.

End UninstalledExamples.


(** ** Scheduling: elementary facts *)

Section TrackingBasics.

Lemma grows_refl (w : World) : grows w w.
Proof. done. Qed.

Lemma grows_trans (w1 w2 w3 : World) : grows w1 w2 -> grows w2 w3 -> grows w1 w3.
Proof.
  intros (Hi1 & Hb1 & Hs1) (Hi2 & Hb2 & Hs2).
  split; [auto|]. split; [by etrans|auto].
Qed.

Lemma elem_of_drop_prefix (i : nat) (l l' : list elem) (element : elem) :
  l `prefix_of` l' -> element ∈ drop i l -> element ∈ drop i l'.
Proof.
  intros [k ->] Hin. rewrite drop_app. apply elem_of_app. by left.
Qed.

Lemma scheduled_grows (frames : list elem) (i : nat) (w w' : World)
  (element : elem) :
  grows w w' -> scheduled frames i w element -> scheduled frames i w' element.
Proof.
  intros (_ & Hb & Hs) [Hf|[Hd|Ho]].
  - by left.
  - right; left. by eapply elem_of_drop_prefix.
  - right; right. by apply Hs.
Qed.

Lemma tracked_grows (frames : list elem) (i : nat) (w w' : World) :
  grows w w' ->
  (forall element,
      waiting w' element -> waiting w element \/ scheduled frames i w' element) ->
  tracked frames i w -> tracked frames i w'.
Proof.
  intros Hg Hw (Hinst & Hi & Ht). pose proof Hg as (Hi' & Hb & _).
  split; [by apply Hi'|]. split.
  - apply prefix_length in Hb. lia.
  - intros element Hel. destruct (Hw element Hel) as [Hold|Hnew]; [|done].
    eapply scheduled_grows; [exact Hg|by apply Ht].
Qed.

Lemma tracked_frame (frames : list elem) (i : nat) (w w' : World) :
  privateState w' = privateState w ->
  installation w' = installation w ->
  tracked frames i w -> tracked frames i w'.
Proof.
  intros Hp Hi. apply tracked_grows.
  - unfold grows, backup_of, on_stack, read_queue. rewrite Hi. done.
  - intros element Hel. left.
    unfold waiting, pending, getPrivateState in *. by rewrite <- Hp.
Qed.

Lemma waiting_setPrivateState (element other : elem) (st : ElementState)
  (w : World) :
  waiting (setPrivateState element st w) other
  <-> (element = other /\ queue_waiting st)
      \/ (element <> other /\ waiting w other).
Proof.
  unfold waiting, queue_waiting, pending.
  destruct (decide (element = other)) as [->|Hne].
  - rewrite getPrivateState_setPrivateState. cbn. split.
    + intros H. by left.
    + intros [[_ H]|[Hne _]]; [exact H|by destruct Hne].
  - rewrite getPrivateState_setPrivateState_ne by done. split.
    + intros H. by right.
    + intros [[Heq _]|[_ H]]; [by destruct Hne|exact H].
Qed.

Lemma grows_setPrivateState (element : elem) (st : ElementState) (w : World) :
  grows w (setPrivateState element st w).
Proof. done. Qed.

Lemma tracked_setPrivateState (frames : list elem) (i : nat) (element : elem)
  (st : ElementState) (w : World) :
  (queue_waiting st -> waiting w element \/ scheduled frames i w element) ->
  tracked frames i w -> tracked frames i (setPrivateState element st w).
Proof.
  intros Hst. apply tracked_grows; [apply grows_setPrivateState|].
  intros other Hother. apply waiting_setPrivateState in Hother.
  destruct Hother as [[<- Hq]|[_ Hw]]; [|by left].
  destruct (Hst Hq) as [Hw|Hs]; [by left|right].
  eapply scheduled_grows; [apply grows_setPrivateState|done].
Qed.

Lemma enqueueElement_grows (element : elem) (w : World) :
  grows w (enqueueElementOnAppropriateElementQueue element w).
Proof.
  unfold enqueueElementOnAppropriateElementQueue.
  destruct (installation w) as [inst|] eqn:Hinst; [|apply grows_refl].
  destruct (array_pop (customElementsReactionStack inst))
    as [[below top]|] eqn:Hpop.
  - apply array_pop_Some in Hpop. split; [done|]. split.
    + unfold backup_of. cbn. by rewrite Hinst.
    + intros e (inst0 & q & Hinst0 & Hq & He).
      rewrite Hinst in Hinst0. injection Hinst0 as <-.
      rewrite Hpop in Hq. apply elem_of_app in Hq as [Hq|Hq].
      * exists (set_stack (below ++ [top ++ [element]]) inst), q.
        split; [done|]. split; [|done]. cbn. apply elem_of_app. by left.
      * apply list_elem_of_singleton in Hq as ->.
        exists (set_stack (below ++ [top ++ [element]]) inst),
          (top ++ [element]).
        split; [done|]. split.
        -- cbn. apply elem_of_app. right. by apply list_elem_of_singleton.
        -- apply elem_of_app. by left.
  - assert (Hon : forall b w0 e,
               installation w0
               = Some (set_processing b
                         (set_backup (backupElementQueue inst ++ [element])
                            inst)) ->
               on_stack w e -> on_stack w0 e).
    { intros b w0 e Hw0 (inst0 & q & Hinst0 & Hq & He).
      rewrite Hinst in Hinst0. injection Hinst0 as <-.
      eexists _, q. split; [exact Hw0|]. done. }
    destruct (processingBackupElementQueue inst) eqn:Hflag; cbn; rewrite Hflag.
    + split; [done|]. split.
      * unfold backup_of. cbn. rewrite Hinst. by apply prefix_app_r.
      * intros e. apply (Hon true). cbn. do 2 f_equal.
        destruct inst; cbn in *. by subst.
    + split; [done|]. split.
      * unfold backup_of. cbn. rewrite Hinst. by apply prefix_app_r.
      * intros e. by apply (Hon true).
Qed.

Lemma enqueueElement_schedules (frames : list elem) (i : nat)
  (element : elem) (w : World) :
  is_Some (installation w) ->
  i <= length (backup_of w) ->
  scheduled frames i (enqueueElementOnAppropriateElementQueue element w)
    element.
Proof.
  intros [inst Hinst] Hi. unfold enqueueElementOnAppropriateElementQueue.
  rewrite Hinst. unfold backup_of in Hi. cbn in Hi. rewrite Hinst in Hi.
  destruct (array_pop (customElementsReactionStack inst))
    as [[below top]|] eqn:Hpop.
  - right; right. eexists _, (top ++ [element]). split; [reflexivity|].
    cbn. split; apply elem_of_app; right; by apply list_elem_of_singleton.
  - right; left.
    assert (Hin : element ∈ drop i (backupElementQueue inst ++ [element])).
    { rewrite drop_app. apply elem_of_app. right.
      replace (i - length (backupElementQueue inst)) with 0 by lia.
      by apply list_elem_of_singleton. }
    destruct (processingBackupElementQueue inst) eqn:Hflag; cbn; rewrite Hflag;
      unfold backup_of; cbn; exact Hin.
Qed.

Lemma enqueueElement_waiting (element other : elem) (w : World) :
  waiting (enqueueElementOnAppropriateElementQueue element w) other
  <-> waiting w other.
Proof.
  unfold waiting, pending, getPrivateState.
  destruct (enqueueElement_frame element w) as (-> & _). done.
Qed.

Lemma place_with_state_tracked (frames : list elem) (i : nat)
  (element : elem) (st : ElementState) (w : World) :
  tracked frames i w ->
  tracked frames i
    (enqueueElementOnAppropriateElementQueue element
       (setPrivateState element st w)).
Proof.
  intros Ht. pose proof Ht as (Hinst & Hi & _). revert Ht.
  apply tracked_grows.
  - eapply grows_trans; [apply grows_setPrivateState|apply enqueueElement_grows].
  - intros other Hother. apply enqueueElement_waiting in Hother.
    apply waiting_setPrivateState in Hother.
    destruct Hother as [[<- _]|[_ Hw]]; [right|by left].
    by apply enqueueElement_schedules.
Qed.

(** A change of the installation that leaves the queues alone. *)
Lemma tracked_installation (frames : list elem) (i : nat) (w w' : World) :
  privateState w' = privateState w ->
  (is_Some (installation w) -> is_Some (installation w')) ->
  backup_of w' = backup_of w ->
  (forall element, on_stack w element -> on_stack w' element) ->
  tracked frames i w -> tracked frames i w'.
Proof.
  intros Hp Hi Hb Hs. apply tracked_grows.
  - split; [done|]. split; [by rewrite Hb|done].
  - intros element Hel. left.
    unfold waiting, pending, getPrivateState in *. by rewrite <- Hp.
Qed.

Lemma tracked_drop_frame (frames : list elem) (i : nat) (element : elem)
  (w : World) :
  ~ waiting w element ->
  tracked (element :: frames) i w -> tracked frames i w.
Proof.
  intros Hnot (Hinst & Hi & Ht). split; [done|]. split; [done|].
  intros e He. destruct (Ht e He) as [Hf|Hrest]; [|by right].
  apply elem_of_cons in Hf as [->|Hf]; [done|by left].
Qed.

Lemma tracked_more_frames (frames frames' : list elem) (i : nat) (w : World) :
  (forall element, element ∈ frames -> element ∈ frames') ->
  tracked frames i w -> tracked frames' i w.
Proof.
  intros Hsub (Hinst & Hi & Ht). split; [done|]. split; [done|].
  intros e He. destruct (Ht e He) as [Hf|Hrest]; [left; auto|by right].
Qed.

End TrackingBasics.

(** ** Every function of the module keeps pending reactions scheduled *)

Section TrackingPreservation.

Variable prog : Program.
Variable rec : call -> World -> result.
Hypothesis rec_keeps : forall c w, keeps w (rec c w).
Hypothesis rec_tracks :
  forall c frames i w,
    queues_have_records w -> call_pre frames i c w ->
    call_post frames i c (rec c w).

Lemma keeps_records {A : Type} (w : World) (r : outcome A) :
  keeps w r -> queues_have_records w ->
  match r with
  | Ok _ w' | Throws _ w' => queues_have_records w'
  | Diverges => True
  end.
Proof. destruct r; cbn; [| |done]; intros (_ & Hr & _); exact Hr. Qed.

Lemma tracks_same {A : Type} (frames : list elem) (i : nat) (w : World)
  (r : outcome A) :
  match r with
  | Ok _ w' | Throws _ w' => w' = w
  | Diverges => True
  end ->
  tracks frames i w r.
Proof. intros Hr _ Ht. destruct r; cbn in *; by subst. Qed.

Lemma tracks_bind {A B : Type} (frames : list elem) (i : nat) (w : World)
  (r : outcome A) (k : A -> World -> outcome B) :
  keeps w r -> tracks frames i w r ->
  (forall a w1, tracks frames i w1 (k a w1)) ->
  tracks frames i w (bind r k).
Proof.
  intros Hk Hr Hcont Hrec Ht. specialize (Hr Hrec Ht).
  pose proof (keeps_records w r Hk Hrec) as Hrec1.
  destruct r as [a w1|error w1|]; cbn in *; [|done|done].
  by apply Hcont.
Qed.

Lemma tracks_trans {A : Type} (frames : list elem) (i : nat) (w w0 : World)
  (r : outcome A) :
  step_ok w w0 -> (tracked frames i w -> tracked frames i w0) ->
  tracks frames i w0 r -> tracks frames i w r.
Proof.
  intros (_ & Hrec0 & _) Ht0 Hr Hrec Ht. apply Hr; auto.
Qed.

Lemma tracks_after {A : Type} (frames : list elem) (i : nat) (w : World)
  (r : outcome A) (f : World -> World) :
  tracks frames i w r ->
  (forall w1, tracked frames i w1 -> tracked frames i (f w1)) ->
  tracks frames i w
    match r with
    | Ok a w1 => Ok a (f w1)
    | Throws error w1 => Throws error (f w1)
    | Diverges => Diverges
    end.
Proof.
  intros Hr Hf Hrec Ht. specialize (Hr Hrec Ht).
  destruct r; cbn in *; auto.
Qed.

Lemma rec_script_tracks (frames : list elem) (i : nat) (body : list cmd)
  (w : World) :
  tracks frames i w (rec (RunScript body) w).
Proof.
  intros Hrec Ht.
  pose proof (rec_tracks (RunScript body) frames i w Hrec Ht) as Hpost.
  by destruct (rec (RunScript body) w).
Qed.

Section FixedContext.

Variable frames : list elem.
Variable i : nat.

Lemma enqueueCallbackReaction_tracks (element : elem)
  (callbackName : callback_name) (args : list value) (w : World) :
  tracks frames i w (enqueueCallbackReaction element callbackName args w).
Proof.
  unfold enqueueCallbackReaction.
  destruct (getPrivateState w element) as [st|]; [|by apply tracks_same].
  destruct (customElementDefinition st); [|by apply tracks_same].
  destruct (get_callback _ _); [|by apply tracks_same].
  destruct (_ && _); [by apply tracks_same|].
  intros _ Ht. by apply place_with_state_tracked.
Qed.

Lemma enqueueUpgradeReaction_tracks (element : elem)
  (definition : CustomElementDefinition) (w : World) :
  tracks frames i w (enqueueUpgradeReaction element definition w).
Proof.
  unfold enqueueUpgradeReaction.
  match goal with |- context [reactionQueue ?s] =>
    destruct (reactionQueue s) as [q|] eqn:Hq end.
  - intros _ Ht. by apply place_with_state_tracked.
  - intros _ Ht. cbn. apply tracked_setPrivateState; [|done].
    intros (r & rs & Hrs). rewrite Hq in Hrs. done.
Qed.

Lemma tryToUpgradeElement_tracks (element : elem) (w : World) :
  tracks frames i w (tryToUpgradeElement element w).
Proof.
  unfold tryToUpgradeElement.
  match goal with |- tracks _ _ _ (if ?b then _ else _) => destruct b end;
    [by apply tracks_same|].
  apply tracks_bind; [apply lookupCustomElementDefinition_keeps| |].
  - apply tracks_same. unfold lookupCustomElementDefinition.
    destruct (negb _); [done|]. destruct (negb _); [done|].
    by destruct (installation w).
  - intros [definition|] w1;
      [apply enqueueUpgradeReaction_tracks|by apply tracks_same].
Qed.

Lemma enqueue_attributes_tracks (element : elem) (attrs : list Attr)
  (w : World) :
  tracks frames i w (enqueue_attributes element attrs w).
Proof.
  revert w. induction attrs as [|a attrs IH]; intros w;
    [by apply tracks_same|].
  cbn [enqueue_attributes]. apply tracks_bind;
    [apply enqueueCallbackReaction_keeps
    |apply enqueueCallbackReaction_tracks|].
  intros _ w1. apply IH.
Qed.

Lemma enqueue_backlog_tracks (element : elem) (w : World) :
  tracks frames i w (enqueue_backlog element w).
Proof.
  unfold enqueue_backlog. apply tracks_bind;
    [apply enqueue_attributes_keeps|apply enqueue_attributes_tracks|].
  intros _ w1. destruct (isConnected _);
    [apply enqueueCallbackReaction_tracks|by apply tracks_same].
Qed.

Lemma upgrade_prepare_tracks (element : elem)
  (definition : CustomElementDefinition) (w : World) (r : result) :
  upgrade_prepare element definition w = Some r -> tracks frames i w r.
Proof.
  unfold upgrade_prepare.
  assert (Hrest : forall w0,
             tracks frames i w0
               (let* w1 := enqueue_backlog element w0 in
                ret (constructionStack_push definition element w1))).
  { intros w0. apply tracks_bind;
      [apply enqueue_backlog_keeps|apply enqueue_backlog_tracks|].
    intros _ w1 _ Ht. cbn. by apply (tracked_frame frames i w1). }
  destruct (getPrivateState w element) as [st|] eqn:Hst.
  - destruct (shouldNotUpgrade st); [done|]. intros [= <-]. apply Hrest.
  - intros [= <-]. eapply tracks_trans; [| |apply Hrest].
    + apply setPrivateState_step_ok. done.
    + apply tracked_setPrivateState. by intros (r & rs & Hrs).
Qed.

Lemma construct_tracks (element : elem)
  (definition : CustomElementDefinition) (w : World) :
  tracks frames i w (construct prog rec element definition w).
Proof.
  unfold construct. apply tracks_bind;
    [apply rec_keeps|apply rec_script_tracks|].
  intros _ w1. destruct (bool_decide _); by apply tracks_same.
Qed.

Lemma upgrade_catch_tracks (element : elem) (w : World) :
  tracks frames i w (upgrade_catch element w).
Proof.
  unfold upgrade_catch.
  destruct (getPrivateState w element) as [st|]; [|by apply tracks_same].
  cbn [reactionQueue set_customElementDefinition set_customElementState].
  destruct (reactionQueue st) as [q|] eqn:Hq; intros _ Ht; cbn;
    (apply tracked_setPrivateState; [|done]);
    intros (r & rs & Hrs); cbn in Hrs; [done|].
  rewrite Hq in Hrs. done.
Qed.

Lemma upgrade_finish_tracks (element : elem)
  (definition : CustomElementDefinition) (caught : option value) (w : World) :
  tracks frames i w (upgrade_finish element definition caught w).
Proof.
  unfold upgrade_finish. intros _ Ht.
  assert (Hpop : tracked frames i (constructionStack_pop definition w))
    by (by apply (tracked_frame frames i w)).
  match goal with |- match (if ?b then _ else _) with _ => _ end =>
    destruct b end; cbn; [exact Hpop|].
  revert Hpop. apply tracked_grows; [done|].
  intros e (r & rs & He). left. exists r, rs.
  unfold pending, getPrivateState in *. cbn in He.
  destruct (decide (element = e)) as [->|Hne].
  - rewrite lookup_alter_eq in He.
    change (privateState (constructionStack_pop definition w))
      with (privateState w).
    destruct (privateState w !! e) as [st|]; [|done]. by destruct st.
  - by rewrite lookup_alter_ne in He.
Qed.

Lemma upgradeElement_tracks (element : elem)
  (definition : CustomElementDefinition) (w : World) :
  tracks frames i w (upgradeElement prog rec element definition w).
Proof.
  unfold upgradeElement.
  destruct (upgrade_prepare element definition w) as [prepared|] eqn:Hprep;
    [|by apply tracks_same].
  apply tracks_bind;
    [by eapply upgrade_prepare_keeps|by eapply upgrade_prepare_tracks|].
  intros _ w2 Hrec2 Ht2.
  pose proof (construct_keeps prog rec rec_keeps element definition w2) as Hk.
  pose proof (construct_tracks element definition w2 Hrec2 Ht2) as Hc.
  pose proof (keeps_records _ _ Hk Hrec2) as Hrec3.
  destruct (construct prog rec element definition w2) as [[] w3|error w3|];
    [| |done].
  - by apply upgrade_finish_tracks.
  - apply (tracks_bind frames i w3 (upgrade_catch element w3));
      [apply upgrade_catch_keeps|apply upgrade_catch_tracks| |done|done].
    intros _ w4. apply upgrade_finish_tracks.
Qed.

Lemma pop_step_ok (w : World) (inst : Installation)
  (below : list (list elem)) (queue : list elem) :
  installation w = Some inst ->
  customElementsReactionStack inst = below ++ [queue] ->
  step_ok w (with_installation (Some (set_stack below inst)) w).
Proof.
  intros Hinst Hstack. apply installation_step_ok; try done.
  - by rewrite Hinst.
  - intros inst0 Hinst0. rewrite Hinst in Hinst0. injection Hinst0 as <-.
    eexists. split; [reflexivity|]. split; [done|]. split; [done|].
    cbn. rewrite Hstack, Forall_app. tauto.
Qed.

Lemma executeCEReactions_tracks (callback : World -> result) (w : World) :
  (forall w1, keeps w1 (callback w1)) ->
  (forall w1, tracks frames i w1 (callback w1)) ->
  tracks frames i w (executeCEReactions rec callback w).
Proof.
  intros Hck Hct. unfold executeCEReactions.
  destruct (installation w) as [inst|] eqn:Hinst; [|apply Hct].
  set (w1 := with_installation
               (Some (set_stack (customElementsReactionStack inst ++ [[]]) inst))
               w).
  assert (Hstep1 : step_ok w w1).
  { apply installation_step_ok; try done.
    - by rewrite Hinst.
    - intros inst0 Hinst0. rewrite Hinst in Hinst0. injection Hinst0 as <-.
      eexists. split; [reflexivity|]. split; [done|]. split; [done|].
      cbn. rewrite Forall_app, Forall_singleton. intros Hs. split; [done|].
      apply Forall_nil_2. }
  eapply tracks_trans; [exact Hstep1| |].
  { apply tracked_installation; try done.
    - unfold backup_of. cbn. by rewrite Hinst.
    - intros e (inst0 & q & Hinst0 & Hq & He).
      rewrite Hinst in Hinst0. injection Hinst0 as <-.
      eexists _, q. split; [reflexivity|]. split; [|done].
      cbn. apply elem_of_app. by left. }
  apply tracks_bind; [apply Hck|apply Hct|]. intros _ w2 Hrec2 Ht2.
  destruct (installation w2) as [inst2|] eqn:Hinst2; [|done].
  destruct (array_pop _) as [[below queue]|] eqn:Hpop; [|done].
  apply array_pop_Some in Hpop.
  set (w3 := with_installation (Some (set_stack below inst2)) w2).
  pose proof (pop_step_ok w2 inst2 below queue Hinst2 Hpop) as (_ & Hrec3 & _).
  assert (Hpre : call_pre frames i (InvokeReactions (PoppedQueue queue) 0) w3).
  { split.
    - destruct (Hrec2 inst2 Hinst2) as [_ Hs].
      rewrite Hpop, Forall_app, Forall_singleton in Hs. by destruct Hs.
    - cbn [drop]. destruct Ht2 as (_ & Hi2 & Ht2).
      split; [done|]. split.
      + unfold backup_of in *. cbn in *. by rewrite Hinst2 in Hi2.
      + intros e He. destruct (Ht2 e He) as [Hf|[Hd|Ho]].
        * left. apply elem_of_app. by right.
        * right; left. unfold backup_of in *. cbn in *.
          by rewrite Hinst2 in Hd.
        * destruct Ho as (inst0 & q & Hinst0 & Hq & Hin).
          rewrite Hinst2 in Hinst0. injection Hinst0 as <-.
          rewrite Hpop in Hq. apply elem_of_app in Hq as [Hq|Hq].
          -- right; right. by eexists _, q.
          -- apply list_elem_of_singleton in Hq as ->.
             left. apply elem_of_app. by left. }
  pose proof (rec_tracks _ frames i w3 (Hrec3 Hrec2) Hpre) as Hpost.
  fold w3. by destruct (rec (InvokeReactions (PoppedQueue queue) 0) w3).
Qed.

Lemma getCallback_tracks (class : ClassDecl) (callbackName : callback_name)
  (w : World) :
  tracks frames i w (getCallback rec class callbackName w).
Proof.
  unfold getCallback. apply tracks_bind;
    [apply rec_keeps|apply rec_script_tracks|].
  intros _ w1. by apply tracks_same.
Qed.

Lemma read_callbacks_tracks (class : ClassDecl) (names : list callback_name) :
  forall (acc : LifecycleCallbacks) (w : World),
    tracks frames i w (snd (read_callbacks rec class names acc w)).
Proof.
  induction names as [|k names IH]; intros acc w; [by apply tracks_same|].
  cbn [read_callbacks]. intros Hrec Ht.
  pose proof (getCallback_keeps rec rec_keeps class k w) as Hk.
  pose proof (getCallback_tracks class k w Hrec Ht) as Hg.
  pose proof (keeps_records _ _ Hk Hrec) as Hrec1.
  destruct (getCallback rec class k w) as [cb w1|error w1|];
    [|exact Hg|done].
  by apply IH.
Qed.

Lemma define_try_tracks (class : ClassDecl) (w : World) :
  tracks frames i w (snd (define_try rec class w)).
Proof.
  unfold define_try. destruct (negb _); [by apply tracks_same|].
  intros Hrec Ht.
  pose proof (read_callbacks_keeps rec rec_keeps class callback_names
                no_callbacks w) as Hk.
  pose proof (read_callbacks_tracks class callback_names no_callbacks w
                Hrec Ht) as Hr.
  pose proof (keeps_records _ _ Hk Hrec) as Hrec1.
  destruct (read_callbacks rec class callback_names no_callbacks w)
    as [callbacks [[] w1|error w1|]]; cbn [snd] in *; [|exact Hr|done].
  destruct (attributeChangedCallback callbacks); [|exact Hr].
  pose proof (rec_script_tracks frames i (fst (observedAttributes_get class))
                w1 Hrec1 Hr) as Ho.
  by destruct (rec _ w1) as [[] w2|error w2|].
Qed.

Lemma set_running_tracked (b : bool) (w : World) :
  tracked frames i w -> tracked frames i (set_running b w).
Proof.
  unfold set_running. destruct (installation w) as [inst|] eqn:Hinst; [|done].
  apply tracked_installation; try done.
  - unfold backup_of. cbn. by rewrite Hinst.
  - intros e (inst0 & q & Hinst0 & Hq & He).
    rewrite Hinst in Hinst0. injection Hinst0 as <-. by eexists _, q.
Qed.

Lemma push_definition_tracked (definition : CustomElementDefinition)
  (w : World) :
  tracked frames i w -> tracked frames i (push_definition definition w).
Proof.
  unfold push_definition.
  destruct (installation w) as [inst|] eqn:Hinst; [|done].
  apply tracked_installation; try done.
  - unfold backup_of. cbn. by rewrite Hinst.
  - intros e (inst0 & q & Hinst0 & Hq & He).
    rewrite Hinst in Hinst0. injection Hinst0 as <-. by eexists _, q.
Qed.

Lemma upgrade_sweep_tracks (definition : CustomElementDefinition)
  (extensionOf : option jsstring) (visit : list elem) (w : World) :
  tracks frames i w (upgrade_sweep definition extensionOf visit w).
Proof.
  revert w. induction visit as [|node visit IH]; intros w;
    [by apply tracks_same|].
  cbn [upgrade_sweep]. destruct (_ && _); [|apply IH].
  apply tracks_bind; [| |intros _ w1; apply IH].
  - apply sweep_visit_cases;
      [apply enqueueUpgradeReaction_keeps|apply step_ok_refl
      |apply step_ok_refl].
  - apply sweep_visit_cases;
      [apply enqueueUpgradeReaction_tracks|by apply tracks_same
      |by apply tracks_same].
Qed.

Lemma resolve_whenDefined_tracked (name : jsstring) (w : World) :
  tracked frames i w -> tracked frames i (resolve_whenDefined name w).
Proof.
  unfold resolve_whenDefined.
  destruct (installation w) as [inst|]; [|done].
  destruct (bool_decide _); [|done]. by apply tracked_frame.
Qed.

Lemma define_registration_tracks (name : jsstring) (constructor : classid)
  (localName' : jsstring) (extensionOf : option jsstring) (w : World) :
  tracks frames i w
    (define_registration prog rec name constructor localName' extensionOf w).
Proof.
  unfold define_registration.
  destruct (installation w) as [inst|]; [|by apply tracks_same].
  destruct (elementDefinitionIsRunning _); [by apply tracks_same|].
  intros Hrec Ht.
  pose proof (set_running_step_ok true w) as (_ & Hrec0 & _).
  pose proof (define_try_keeps rec rec_keeps (classes prog constructor)
                (set_running true w)) as Hk.
  pose proof (define_try_tracks (classes prog constructor)
                (set_running true w) (Hrec0 Hrec)
                (set_running_tracked true w Ht)) as Htry.
  pose proof (keeps_records _ _ Hk (Hrec0 Hrec)) as Hrec1.
  destruct (define_try rec (classes prog constructor) (set_running true w))
    as [[callbacks observed] exit].
  cbn [snd] in *.
  assert (Hfin : forall caught w1,
             queues_have_records w1 -> tracked frames i w1 ->
             match
               (let w2 := set_running false w1 in
                if match caught with
                   | Some error => truthy error
                   | None => false
                   end
                then Throws (default VNull caught) w2
                else
                  let address := fresh (dom (constructionStacks w2)) in
                  let definition :=
                    {| def_name := name; def_localName := localName';
                       def_constructor := constructor;
                       observedAttributes := observed;
                       lifecycleCallbacks := callbacks;
                       constructionStack := address |} in
                  let w3 :=
                    with_constructionStacks
                      (<[address := []]> (constructionStacks w2))
                      (push_definition definition w2) in
                  let* w4 :=
                    if document_loading w3 then ret w3
                    else upgrade_sweep definition extensionOf
                           (document_order w3) w3 in
                  ret (resolve_whenDefined name w4))
             with
             | Ok _ w' | Throws _ w' => tracked frames i w'
             | Diverges => True
             end).
  { intros caught w1 Hrec_1 Ht1. cbv zeta.
    pose proof (set_running_step_ok false w1) as (_ & Hrec2 & _).
    pose proof (set_running_tracked false w1 Ht1) as Ht2.
    match goal with |- match (if ?b then _ else _) with _ => _ end =>
      destruct b end; [exact Ht2|].
    assert (Hw3 : forall definition m,
               queues_have_records
                 (with_constructionStacks m
                    (push_definition definition (set_running false w1)))
               /\ tracked frames i
                    (with_constructionStacks m
                       (push_definition definition (set_running false w1)))).
    { intros definition m. split.
      - destruct (frame_step_ok
                    (push_definition definition (set_running false w1))
                    (with_constructionStacks m
                       (push_definition definition (set_running false w1))))
          as (_ & Hframe & _); try done.
        apply Hframe.
        destruct (push_definition_step_ok definition (set_running false w1))
          as (_ & Hpush & _).
        by apply Hpush, Hrec2.
      - eapply tracked_frame; [| |apply push_definition_tracked; exact Ht2];
          done. }
    match goal with
    | |- match bind (if _ then ret (with_constructionStacks ?m
                                      (push_definition ?d _)) else _) _
         with _ => _ end =>
        destruct (Hw3 d m) as [Hrec3 Ht3]
    end.
    match goal with
    | |- match bind (if ?b then ret ?w3 else ?sweep) ?k with _ => _ end =>
        refine (tracks_bind frames i w3 (if b then ret w3 else sweep) k
                  _ _ _ Hrec3 Ht3)
    end.
    - destruct (document_loading _);
        [apply step_ok_refl|apply upgrade_sweep_keeps].
    - destruct (document_loading _);
        [by apply tracks_same|apply upgrade_sweep_tracks].
    - intros _ w4 _ Ht4. cbn. by apply resolve_whenDefined_tracked. }
  destruct exit as [[] w1|error w1|]; [| |done].
  - by apply (Hfin None w1).
  - by apply (Hfin (Some error) w1).
Qed.

Lemma define_body_tracks (name : jsstring) (constructor : classid)
  (extends : option jsstring) (w : World) :
  tracks frames i w (define_body prog rec name constructor extends w).
Proof.
  unfold define_body.
  destruct (installation w) as [inst|]; [|by apply tracks_same].
  destruct (negb _); [by apply tracks_same|].
  destruct (negb _); [by apply tracks_same|].
  destruct extends as [extensionOf|]; [|apply define_registration_tracks].
  destruct (isValidCustomElementName extensionOf); [by apply tracks_same|].
  destruct (testElement_constructor_get prog) as [getter|];
    [|by apply tracks_same].
  apply tracks_bind; [apply rec_keeps|apply rec_script_tracks|].
  intros _ w0. apply define_registration_tracks.
Qed.

Lemma define_tracks (name : jsstring) (constructor : classid)
  (extends : option jsstring) (w : World) :
  tracks frames i w (define prog rec name constructor extends w).
Proof.
  unfold define. apply executeCEReactions_tracks; intros w1.
  - by apply define_body_keeps.
  - apply define_body_tracks.
Qed.

Lemma exec_cmd_tracks (c : cmd) (w : World) :
  tracks frames i w (exec_cmd prog rec c w).
Proof.
  destruct c; cbn [exec_cmd].
  - by apply tracks_same.
  - intros Hrec Ht.
    pose proof (rec_keeps (RunScript body) w) as Hk.
    pose proof (rec_script_tracks frames i body w Hrec Ht) as Hb.
    pose proof (keeps_records _ _ Hk Hrec) as Hrec1.
    destruct (rec (RunScript body) w) as [[] w1|error w1|]; [done| |done].
    by apply rec_script_tracks.
  - intros _ Ht. cbn. by apply (tracked_frame frames i w).
  - destruct (isConnected _); [|by apply tracks_same].
    destruct (isCustom w node);
      [apply enqueueCallbackReaction_tracks|apply tryToUpgradeElement_tracks].
  - destruct (isCustom w node);
      [apply enqueueCallbackReaction_tracks|by apply tracks_same].
  - destruct (isCustom w node);
      [apply enqueueCallbackReaction_tracks|by apply tracks_same].
  - apply tryToUpgradeElement_tracks.
  - destruct (isCustom w element);
      [apply enqueueCallbackReaction_tracks|by apply tracks_same].
  - apply tryToUpgradeElement_tracks.
  - apply executeCEReactions_tracks; intros w1;
      [apply rec_keeps|apply rec_script_tracks].
  - apply define_tracks.
Qed.

Lemma run_script_tracks (body : list cmd) (w : World) :
  tracks frames i w (run_script prog rec body w).
Proof.
  revert w. induction body as [|c body IH]; intros w;
    [by apply tracks_same|].
  cbn [run_script]. apply tracks_bind;
    [by apply exec_cmd_keeps|apply exec_cmd_tracks|].
  intros _ w1. apply IH.
Qed.

Lemma invoke_reaction_tracks (element : elem) (reaction : Reaction)
  (w : World) :
  tracks frames i w (invoke_reaction prog rec element reaction w).
Proof.
  destruct reaction as [definition|callback args]; cbn [invoke_reaction].
  - apply upgradeElement_tracks.
  - eapply tracks_trans; [| |apply rec_script_tracks].
    + by apply frame_step_ok.
    + by apply tracked_frame.
Qed.

End FixedContext.

Lemma while_reactions_post (frames : list elem) (i : nat) (element : elem)
  (w : World) :
  queues_have_records w ->
  tracked (element :: frames) i w ->
  call_post frames i (WhileReactions element)
    (while_reactions prog rec element w).
Proof.
  intros Hrec Ht. unfold while_reactions.
  destruct (getPrivateState w element) as [st|] eqn:Hst.
  2:{ cbn. eapply tracked_drop_frame; [|done].
      intros (r & rs & Hp). unfold pending in Hp. by rewrite Hst in Hp. }
  destruct (reactionQueue st) as [[|reaction rest]|] eqn:Hq.
  1,3: cbn; (eapply tracked_drop_frame; [|done]);
    intros (r & rs & Hp); unfold pending in Hp; rewrite Hst in Hp;
    cbn in Hp; rewrite Hq in Hp; done.
  set (w1 := setPrivateState element (set_reactionQueue (Some rest) st) w).
  assert (Hstep1 : step_ok w w1) by (by apply setPrivateState_step_ok).
  assert (Ht1 : tracked (element :: frames) i w1).
  { apply tracked_setPrivateState; [|done].
    intros _. right. left. by apply list_elem_of_here. }
  destruct Hstep1 as (_ & Hrec1 & _).
  pose proof (invoke_reaction_keeps prog rec rec_keeps element reaction w1)
    as Hk.
  pose proof (invoke_reaction_tracks (element :: frames) i element reaction w1
                (Hrec1 Hrec) Ht1) as Hr.
  pose proof (keeps_records _ _ Hk (Hrec1 Hrec)) as Hrec2.
  destruct (invoke_reaction prog rec element reaction w1)
    as [[] w2|error w2|]; [| |done].
  - by apply rec_tracks.
  - apply rec_tracks.
    + by apply (frame_step_ok w2 (reportError error w2)).
    + by apply (tracked_frame _ _ w2).
Qed.

Lemma invokeReactions_from_post (frames : list elem) (i : nat)
  (queue : queue_ref) (j : nat) (w : World) :
  queues_have_records w ->
  call_pre frames i (InvokeReactions queue j) w ->
  call_post frames i (InvokeReactions queue j)
    (invokeReactions_from rec queue j w).
Proof.
  intros Hrec Hpre. unfold invokeReactions_from.
  destruct queue as [|queue].
  - (* the backup queue, read from the world *)
    cbn in Hpre. pose proof Hpre as (Hinst & Hj & Ht).
    destruct (read_queue BackupQueue w !! j) as [element|] eqn:Hi.
    + assert (Hhas : has_queue w element).
      { apply (read_queue_has_queue BackupQueue w j); done. }
      destruct Hhas as [rs Hrs]. unfold pending in Hrs.
      destruct (getPrivateState w element) as [st|]; [|done].
      cbn in Hrs. rewrite Hrs.
      assert (Hdrop : drop j (backup_of w) = element :: drop (S j) (backup_of w)).
      { unfold backup_of. by apply drop_S. }
      assert (Hwhile : call_pre frames (S j) (WhileReactions element) w).
      { cbn. split; [done|]. split.
        - apply lookup_lt_Some in Hi. unfold backup_of. lia.
        - intros e He. destruct (Ht e He) as [Hf|[Hd|Ho]].
          + left. by apply list_elem_of_further.
          + rewrite Hdrop in Hd. apply elem_of_cons in Hd as [->|Hd].
            * left. by apply list_elem_of_here.
            * right; left. done.
          + by right; right. }
      pose proof (rec_keeps (WhileReactions element) w) as Hk.
      pose proof (rec_tracks _ frames (S j) w Hrec Hwhile) as Hpost.
      pose proof (keeps_records _ _ Hk Hrec) as Hrec1.
      destruct (rec (WhileReactions element) w) as [[] w1|error w1|];
        cbn [bind]; [|done|done].
      by apply (rec_tracks (InvokeReactions BackupQueue (S j)) frames i w1).
    + unfold ret, call_post. apply lookup_ge_None in Hi.
      assert (j = length (backup_of w)) as <- by (unfold backup_of in *; lia).
      done.
  - (* a popped queue *)
    destruct Hpre as [Hall Ht]. cbn [read_queue].
    destruct (queue !! j) as [element|] eqn:Hi.
    + assert (Hhas : has_queue w element).
      { rewrite Forall_forall in Hall. apply Hall.
        by eapply list_elem_of_lookup_2. }
      destruct Hhas as [rs Hrs]. unfold pending in Hrs.
      destruct (getPrivateState w element) as [st|]; [|done].
      cbn in Hrs. rewrite Hrs.
      rewrite (drop_S _ _ _ Hi) in Ht.
      pose proof (rec_keeps (WhileReactions element) w) as Hk.
      pose proof (rec_tracks (WhileReactions element)
                    (drop (S j) queue ++ frames) i w Hrec Ht) as Hpost.
      pose proof (keeps_records _ _ Hk Hrec) as Hrec1.
      destruct (rec (WhileReactions element) w) as [[] w1|error w1|];
        cbn [bind]; [|done|done].
      apply (rec_tracks (InvokeReactions (PoppedQueue queue) (S j)) frames i
               w1 Hrec1).
      split; [|done].
      destruct Hk as ((Hq & _) & _).
      eapply Forall_impl; [exact Hall|]. exact Hq.
    + cbn. apply lookup_ge_None in Hi. by rewrite drop_ge in Ht.
Qed.

Lemma step_post (frames : list elem) (i : nat) (c : call) (w : World) :
  queues_have_records w ->
  call_pre frames i c w ->
  call_post frames i c (step prog rec c w).
Proof.
  intros Hrec Hpre. destruct c as [body|queue j|element]; cbn [step].
  - pose proof (run_script_tracks frames i body w Hrec Hpre) as Hr.
    by destruct (run_script prog rec body w).
  - by apply invokeReactions_from_post.
  - by apply while_reactions_post.
Qed.

End TrackingPreservation.

Lemma eval_tracks (prog : Program) (fuel : nat) :
  forall (c : call) (frames : list elem) (i : nat) (w : World),
    queues_have_records w -> call_pre frames i c w ->
    call_post frames i c (eval prog fuel c w).
Proof.
  induction fuel as [|n IH]; intros c frames i w Hrec Hpre; [done|].
  cbn [eval]. apply step_post; try done. apply eval_keeps.
Qed.

(** ** The drain of the backup element queue *)

Section DrainClaims.

Variable prog : Program.

Lemma eval_single_drain (fuel : nat) (c : call) (w : World) :
  single_drain w -> keeps_single_drain (eval prog fuel c w).
Proof.
  intros Hsd. pose proof (eval_keeps prog fuel c w) as Hk.
  destruct (eval prog fuel c w) as [[] w'|error w'|]; [| |done];
    destruct Hk as (_ & _ & Hd); by apply Hd.
Qed.

Lemma run_microtask_single_drain (fuel : nat) (w : World) :
  single_drain w -> keeps_single_drain (run_microtask prog fuel w).
Proof.
  intros Hsd. unfold run_microtask.
  destruct (microtasks w) as [|task rest] eqn:Htasks; [done|].
  destruct task as [|name|detached]; cbn [run_task].
  - (* the drain task *)
    assert (Hsd0 : single_drain (with_microtasks rest w)).
    { intros inst Hinst. destruct (Hsd inst Hinst) as [Hle _].
      rewrite Htasks in Hle. cbn in *. lia. }
    assert (Hflag : forall inst,
               installation w = Some inst ->
               processingBackupElementQueue inst = true
               /\ count_drains rest = 0).
    { intros inst Hinst. destruct (Hsd inst Hinst) as [Hle Hz].
      rewrite Htasks in Hle, Hz. cbn in *.
      destruct (processingBackupElementQueue inst); [lia|].
      specialize (Hz eq_refl). lia. }
    unfold invokeReactions.
    pose proof (eval_keeps prog fuel (InvokeReactions BackupQueue 0)
                  (with_microtasks rest w)) as Hk.
    destruct (eval prog fuel (InvokeReactions BackupQueue 0)
                (with_microtasks rest w)) as [[] w1|error w1|];
      cbn [bind ret keeps keeps_single_drain] in *; [| |done].
    + destruct Hk as ((_ & Hnone & Hev) & _ & _).
      unfold set_processingBackupElementQueue.
      destruct (installation w1) as [inst1|] eqn:Hinst1;
        [|intros inst' Hinst'; congruence].
      intros inst' [= <-]. cbn.
      destruct (installation w) as [inst|] eqn:Hinst.
      * destruct (Hev inst Hinst) as (inst1' & Hinst1' & _ & Hkeep).
        destruct (Hflag inst eq_refl) as [Hset Hzero].
        destruct (Hkeep Hset) as [_ Hcount]. cbn in Hcount.
        rewrite Hcount, Hzero. split; [lia|done].
      * by specialize (Hnone Hinst).
    + destruct Hk as (_ & _ & Hd). by apply Hd.
  - (* a whenDefined resolution *)
    cbn. unfold clear_whenDefined. cbn.
    destruct (installation w) as [inst|] eqn:Hinst.
    + intros inst' [= <-]. cbn. destruct (Hsd inst Hinst) as [Hle Hz].
      rewrite Htasks in Hle, Hz. cbn in *. done.
    + intros inst' Hinst'. cbn in Hinst'. congruence.
  - (* the drain task of a detached installation *)
    unfold invokeReactions. apply eval_single_drain.
    intros inst' Hinst'. cbn in Hinst'. destruct (Hsd inst' Hinst') as [Hle Hz].
    rewrite Htasks in Hle, Hz. cbn in *. done.
Qed.

(** The drain task leaves nothing behind: an element that still has a
    pending reaction when the task returns sits in a queue of the element
    queue stack. *)
Lemma drain_task_complete (fuel : nat) (w w' : World) :
  queues_have_records w ->
  tracked [] 0 w ->
  run_task prog fuel DrainBackupElementQueue w = ret w' ->
  (exists inst',
      installation w' = Some inst'
      /\ processingBackupElementQueue inst' = false)
  /\ forall element, waiting w' element -> on_stack w' element.
Proof.
  intros Hrec Ht. cbn [run_task]. unfold invokeReactions.
  pose proof (eval_tracks prog fuel (InvokeReactions BackupQueue 0) [] 0 w
                Hrec Ht) as Hpost.
  destruct (eval prog fuel (InvokeReactions BackupQueue 0) w)
    as [[] w1|error w1|]; cbn [bind ret call_post] in *; [|done|done].
  intros [= <-]. destruct Hpost as ([inst1 Hinst1] & _ & Hall).
  unfold set_processingBackupElementQueue. rewrite Hinst1. split.
  - eexists. split; [reflexivity|done].
  - intros element Hel.
    assert (Hw1 : waiting w1 element) by exact Hel.
    destruct (Hall element Hw1) as [Hf|[Hd|Ho]].
    + by apply elem_of_nil in Hf.
    + rewrite drop_all in Hd. by apply elem_of_nil in Hd.
    + destruct Ho as (inst0 & q & Hinst0 & Hq & Hin).
      rewrite Hinst1 in Hinst0. injection Hinst0 as <-.
      by eexists _, q.
Qed.

End DrainClaims.

Section DrainExamples.

Import Examples.

Lemma drain_world_records : queues_have_records drain_world.
Proof.
  intros inst [= <-]. split; [|apply Forall_nil_2].
  apply Forall_cons_2; [|apply Forall_nil_2]. by eexists.
Qed.

Lemma drain_world_tracked : tracked [] 0 drain_world.
Proof.
  split; [by eexists|]. split; [cbn; lia|].
  intros element (r & rs & Hp). right; left.
  unfold pending, getPrivateState in Hp. cbn in Hp.
  destruct (decide (element = 5)) as [->|Hne5];
    [cbn; apply list_elem_of_here|].
  rewrite lookup_insert_ne in Hp by done.
  destruct (decide (element = 6)) as [->|Hne6].
  - by rewrite lookup_insert_eq in Hp.
  - rewrite lookup_insert_ne in Hp by done. by rewrite lookup_empty in Hp.
Qed.

Lemma scheduled_world_single_drain : single_drain scheduled_world.
Proof. intros inst [= <-]. cbn. split; [lia|done]. Qed.

(** The element appended during the drain is processed in the same pass:
    the callback of element 5 puts element 6 on the backup queue, and the
    drain goes on to call the connected callback of element 6. *)
Example drain_processes_appended_element :
  exists w' inst',
    run_task example_program 9 DrainBackupElementQueue drain_world = ret w'
    /\ installation w' = Some inst'
    /\ backupElementQueue inst' = [5; 6]
    /\ processingBackupElementQueue inst' = false
    /\ invoked w' = [(5, 3, []); (6, 1, [])]
    /\ pending w' 5 = Some []
    /\ pending w' 6 = Some []
    /\ microtasks w' = [].
Proof.
  eexists _, _. split; [vm_compute; reflexivity|]. repeat split.
Qed.

End DrainExamples.

(** ** The invariants hold in every reachable world *)

Section ReachableWorlds.

Variable prog : Program.

Lemma tracked_earlier (frames : list elem) (i j : nat) (w : World) :
  j <= i -> tracked frames i w -> tracked frames j w.
Proof.
  intros Hle (Hinst & Hi & Ht). split; [done|]. split; [lia|].
  intros e He. destruct (Ht e He) as [Hf|[Hd|Ho]]; [by left| |by right; right].
  right; left. replace i with (j + (i - j)) in Hd by lia.
  rewrite <- drop_drop in Hd. by apply (subseteq_drop (i - j)) in Hd.
Qed.

(** The drain of a detached queue walks elements the installation on the
    global object need not know; whatever it meets, what is scheduled there
    stays scheduled. *)
Lemma detached_drain_tracked (fuel : nat) (queue : list elem) :
  forall (j : nat) (w : World),
    queues_have_records w ->
    tracked [] 0 w ->
    match eval prog fuel (InvokeReactions (PoppedQueue queue) j) w with
    | Ok _ w' | Throws _ w' => tracked [] 0 w'
    | Diverges => True
    end.
Proof.
  induction fuel as [|n IH]; intros j w Hrec Ht; [done|].
  cbn [eval step]. unfold invokeReactions_from. cbn [read_queue].
  destruct (queue !! j) as [element|]; [|done].
  destruct (getPrivateState w element) as [st|]; [|done].
  destruct (reactionQueue st); [|done].
  assert (Hpre : call_pre [] 0 (WhileReactions element) w).
  { cbn. revert Ht. apply tracked_more_frames. intros e He.
    by apply elem_of_nil in He. }
  pose proof (eval_tracks prog n (WhileReactions element) [] 0 w Hrec Hpre)
    as Hpost.
  pose proof (eval_keeps prog n (WhileReactions element) w) as Hk.
  destruct (eval prog n (WhileReactions element) w) as [[] w1|error w1|];
    cbn [bind call_post keeps] in *; [|done|done].
  apply IH; [|done]. destruct Hk as (_ & Hrec1 & _). by apply Hrec1.
Qed.

Lemma run_microtask_records (fuel : nat) (w : World) :
  queues_have_records w ->
  match run_microtask prog fuel w with
  | Ok _ w' | Throws _ w' => queues_have_records w'
  | Diverges => True
  end.
Proof.
  intros Hrec. unfold run_microtask.
  destruct (microtasks w) as [|task rest]; [done|].
  assert (Hrec0 : queues_have_records (with_microtasks rest w)) by done.
  destruct task as [|name|detached]; cbn [run_task].
  - unfold invokeReactions.
    pose proof (eval_keeps prog fuel (InvokeReactions BackupQueue 0)
                  (with_microtasks rest w)) as Hk.
    destruct (eval prog fuel (InvokeReactions BackupQueue 0)
                (with_microtasks rest w)) as [[] w1|error w1|];
      cbn [bind ret keeps] in *; [| |done];
      destruct Hk as (_ & Hrec1 & _); [|by apply Hrec1].
    specialize (Hrec1 Hrec0). unfold set_processingBackupElementQueue.
    destruct (installation w1) as [inst1|] eqn:Hinst1; [|done].
    intros inst' Hinst'. injection Hinst' as <-. exact (Hrec1 inst1 Hinst1).
  - cbn. unfold clear_whenDefined. cbn.
    destruct (installation w) as [inst|] eqn:Hinst; [|done].
    intros inst' Hinst'. injection Hinst' as <-. exact (Hrec inst Hinst).
  - unfold invokeReactions.
    pose proof (eval_keeps prog fuel
                  (InvokeReactions (PoppedQueue (backupElementQueue detached)) 0)
                  (with_microtasks rest w)) as Hk.
    destruct (eval prog fuel _ (with_microtasks rest w))
      as [[] w1|error w1|]; cbn [keeps] in *; [| |done];
      destruct Hk as (_ & Hrec1 & _); by apply Hrec1.
Qed.

Lemma run_microtask_tracked (fuel : nat) (w : World) :
  queues_have_records w ->
  tracked [] 0 w ->
  match run_microtask prog fuel w with
  | Ok _ w' | Throws _ w' => tracked [] 0 w'
  | Diverges => True
  end.
Proof.
  intros Hrec Ht. unfold run_microtask.
  destruct (microtasks w) as [|task rest]; [done|].
  assert (Hrec0 : queues_have_records (with_microtasks rest w)) by done.
  assert (Ht0 : tracked [] 0 (with_microtasks rest w)) by done.
  destruct task as [|name|detached]; cbn [run_task].
  - unfold invokeReactions.
    pose proof (eval_tracks prog fuel (InvokeReactions BackupQueue 0) [] 0
                  (with_microtasks rest w) Hrec0 Ht0) as Hpost.
    destruct (eval prog fuel (InvokeReactions BackupQueue 0)
                (with_microtasks rest w)) as [[] w1|error w1|];
      cbn [bind ret call_post] in *; [|done|done].
    apply (tracked_earlier [] (length (backup_of w1)) 0); [lia|].
    unfold set_processingBackupElementQueue.
    destruct (installation w1) as [inst1|] eqn:Hinst1; [|done].
    revert Hpost. apply tracked_installation; try done.
    + unfold backup_of. cbn. by rewrite Hinst1.
    + intros e (inst0 & q & Hinst0 & Hq & He).
      rewrite Hinst1 in Hinst0. injection Hinst0 as <-. by eexists _, q.
  - unfold ret, clear_whenDefined.
    change (installation (with_microtasks rest w)) with (installation w).
    destruct (installation w) as [inst|] eqn:Hinst; [|exact Ht0].
    revert Ht0. apply tracked_installation; try done.
    + unfold backup_of. cbn. by rewrite Hinst.
    + intros e (inst0 & q & Hinst0 & Hq & He). cbn in Hinst0.
      rewrite Hinst in Hinst0. injection Hinst0 as <-. by eexists _, q.
  - unfold invokeReactions. by apply detached_drain_tracked.
Qed.

(** In every reachable world the elements in the queues have records, at
    most one drain task is pending, and every element with a pending
    reaction is scheduled. *)
Lemma reachable_invariants (w : World) :
  reachable prog w ->
  queues_have_records w /\ single_drain w /\ tracked [] 0 w.
Proof.
  induction 1 as [w Hfresh|w w' fuel body _ (Hrec & Hsd & Ht) Hend
                 |w w' fuel _ (Hrec & Hsd & Ht) Hend].
  - destruct Hfresh as (inst & Hinst & Hstack & Hbackup & Hflag & Hcount & Hw).
    split; [|split].
    + intros inst' Hinst'. rewrite Hinst in Hinst'. injection Hinst' as <-.
      rewrite Hbackup, Hstack. split; apply Forall_nil_2.
    + intros inst' Hinst'. rewrite Hcount. split; [lia|done].
    + split; [by eexists|]. split; [lia|]. intros e He. by destruct (Hw e).
  - pose proof (eval_keeps prog fuel (RunScript body) w) as Hk.
    pose proof (eval_tracks prog fuel (RunScript body) [] 0 w Hrec Ht) as Hpost.
    destruct Hend as [Hend|[error Hend]]; rewrite Hend in Hk, Hpost;
      destruct Hk as (_ & Hrec' & Hsd'); auto.
  - pose proof (run_microtask_records fuel w Hrec) as Hrec'.
    pose proof (run_microtask_single_drain prog fuel w Hsd) as Hsd'.
    pose proof (run_microtask_tracked fuel w Hrec Ht) as Ht'.
    destruct Hend as [Hend|[error Hend]]; rewrite Hend in Hrec', Hsd', Ht';
      auto.
Qed.

End ReachableWorlds.

(** * Further properties of the module *)

(** ** The history of a world: elementary facts *)

Section HistoryBasics.

Lemma record_kept_refl (st : ElementState) : record_kept st st.
Proof. done. Qed.

Lemma record_kept_trans (st1 st2 st3 : ElementState) :
  record_kept st1 st2 -> record_kept st2 st3 -> record_kept st1 st3.
Proof. intros [H1 H2] [H3 H4]. split; auto. Qed.

Lemma records_kept_refl (w : World) : records_kept w w.
Proof.
  split.
  - intros element st Hst. by exists st.
  - intros element st' Hst' Hnone. congruence.
Qed.

Lemma records_kept_trans (w1 w2 w3 : World) :
  records_kept w1 w2 -> records_kept w2 w3 -> records_kept w1 w3.
Proof.
  intros [Hold1 Hnew1] [Hold2 Hnew2]. split.
  - intros element st Hst.
    destruct (Hold1 element st Hst) as (st2 & Hst2 & Hk2).
    destruct (Hold2 element st2 Hst2) as (st3 & Hst3 & Hk3).
    exists st3. split; [done|]. by eapply record_kept_trans.
  - intros element st3 Hst3 Hnone.
    destruct (getPrivateState w2 element) as [st2|] eqn:Hst2.
    + destruct (Hold2 element st2 Hst2) as (st3' & Hst3' & _ & Hq).
      assert (st3' = st3) as -> by congruence.
      apply Hq. by eapply Hnew1.
    + by eapply Hnew2.
Qed.

Lemma records_kept_same (w w' : World) :
  privateState w' = privateState w -> records_kept w w'.
Proof.
  intros Hp. unfold records_kept, getPrivateState. rewrite Hp.
  apply records_kept_refl.
Qed.

(** Soundness of the records is handed on. *)
Lemma sound_records_kept (w w' : World) :
  records_kept w w' -> sound w -> sound w'.
Proof.
  intros [Hold Hnew] Hsound element st' Hst' Hq.
  destruct (getPrivateState w element) as [st|] eqn:Hst.
  - destruct (Hold element st Hst) as (st2 & Hst2 & Hs & Hk).
    assert (st2 = st') as -> by congruence.
    apply Hs, (Hsound element st Hst).
    destruct (reactionQueue st) as [q|] eqn:Hq0; [|done].
    destruct Hk as [q' Hq']; [by eexists|congruence].
  - destruct (Hnew element st' Hst' Hst) as [q' Hq']. congruence.
Qed.

Lemma core_refl (w : World) : core w w.
Proof.
  split; [done|]. split; [exists []; by rewrite app_nil_r|].
  split; [done|]. split; [done|]. apply records_kept_refl.
Qed.

Lemma core_trans (w1 w2 w3 : World) : core w1 w2 -> core w2 w3 -> core w1 w3.
Proof.
  intros (Hi1 & (a1 & Hd1) & He1 & Hm1 & Hr1)
         (Hi2 & (a2 & Hd2) & He2 & Hm2 & Hr2).
  split; [by rewrite Hi1|]. split.
  { exists (a1 ++ a2). by rewrite Hd2, Hd1, app_assoc. }
  split; [congruence|]. split; [by etrans|].
  by eapply records_kept_trans.
Qed.

Lemma guarded_refl (w : World) : guarded w w.
Proof. done. Qed.

Lemma guarded_trans (w1 w2 w3 : World) :
  guarded w1 w2 -> guarded w2 w3 -> guarded w1 w3.
Proof.
  intros [Hf1 Hd1] [Hf2 Hd2]. split; [congruence|].
  intros Hrun. rewrite Hd2, Hd1; [done|done|congruence].
Qed.

Lemma depth_refl (w : World) : depth w w.
Proof. done. Qed.

Lemma stack_nonempty_le (w w' : World) :
  length (stack_of w) <= length (stack_of w') ->
  stack_of w <> [] -> stack_of w' <> [].
Proof.
  intros Hle Hne Heq. rewrite Heq in Hle.
  destruct (stack_of w); [done|]. cbn in Hle. lia.
Qed.

Lemma depth_trans (w1 w2 w3 : World) : depth w1 w2 -> depth w2 w3 -> depth w1 w3.
Proof.
  intros [Hl1 Hb1] [Hl2 Hb2]. split; [lia|].
  intros Hne. destruct (Hb1 Hne) as (Hq1 & Hf1 & Hc1).
  destruct (Hb2 (stack_nonempty_le _ _ Hl1 Hne)) as (Hq2 & Hf2 & Hc2).
  split; [congruence|]. split; congruence.
Qed.

Lemma balanced_refl (w : World) : balanced w w.
Proof. by intros _ address l. Qed.

Lemma balanced_trans (w1 w2 w3 : World) :
  records_kept w1 w2 -> balanced w1 w2 -> balanced w2 w3 -> balanced w1 w3.
Proof.
  intros Hk H1 H2 Hsound address l Hl.
  apply H2; [by eapply sound_records_kept|]. by apply H1.
Qed.

Lemma part_refl (g d b : bool) (w : World) : part g d b w w.
Proof.
  split; [apply core_refl|]. split; [intros _; apply guarded_refl|].
  split; [intros _; apply depth_refl|intros _; apply balanced_refl].
Qed.

Lemma part_trans (g d b : bool) (w1 w2 w3 : World) :
  part g d b w1 w2 -> part g d b w2 w3 -> part g d b w1 w3.
Proof.
  intros (Hc1 & Hg1 & Hd1 & Hb1) (Hc2 & Hg2 & Hd2 & Hb2).
  split; [by eapply core_trans|].
  split; [intros ->; by eapply guarded_trans; auto|].
  split; [intros ->; by eapply depth_trans; auto|].
  intros ->. eapply balanced_trans; [apply Hc1|by auto|by auto].
Qed.

(** The whole history gives every part of it. *)
Lemma history_part (g d b : bool) (w w' : World) :
  history w w' -> part g d b w w'.
Proof.
  intros (Hc & Hg & Hd & Hb). split; [done|]. split; [auto|]. split; auto.
Qed.

Lemma history_core (w w' : World) : history w w' -> core w w'.
Proof. by intros (H & _). Qed.

Lemma history_guarded (w w' : World) : history w w' -> guarded w w'.
Proof. intros (_ & H & _). by apply H. Qed.

Lemma history_depth (w w' : World) : history w w' -> depth w w'.
Proof. intros (_ & _ & H & _). by apply H. Qed.

Lemma history_balanced (w w' : World) : history w w' -> balanced w w'.
Proof. intros (_ & _ & _ & H). by apply H. Qed.

Lemma part_history (w w' : World) :
  core w w' -> guarded w w' -> depth w w' -> balanced w w' -> history w w'.
Proof. intros. split; [done|]. split; [done|]. split; done. Qed.

Lemma respects_history_part {A : Type} (g d b : bool) (w : World)
  (r : outcome A) :
  respects w r -> respects_part g d b w r.
Proof. destruct r; cbn; [| |done]; apply history_part. Qed.

Lemma respects_part_trans {A : Type} (g d b : bool) (w w1 : World)
  (r : outcome A) :
  part g d b w w1 -> respects_part g d b w1 r -> respects_part g d b w r.
Proof. intros H1. destruct r; cbn; [| |done]; by apply part_trans. Qed.

Lemma respects_part_bind {A B : Type} (g d b : bool) (w : World)
  (r : outcome A) (k : A -> World -> outcome B) :
  respects_part g d b w r ->
  (forall a w1, respects_part g d b w1 (k a w1)) ->
  respects_part g d b w (bind r k).
Proof.
  intros Hr Hk. destruct r as [a w1|error w1|]; cbn in *; [|done|done].
  eapply respects_part_trans; [exact Hr|apply Hk].
Qed.

Lemma respects_trans {A : Type} (w w1 : World) (r : outcome A) :
  history w w1 -> respects w1 r -> respects w r.
Proof. apply respects_part_trans. Qed.

Lemma respects_bind {A B : Type} (w : World) (r : outcome A)
  (k : A -> World -> outcome B) :
  respects w r -> (forall a w1, respects w1 (k a w1)) -> respects w (bind r k).
Proof. apply respects_part_bind. Qed.

Lemma history_refl (w : World) : history w w.
Proof. apply part_refl. Qed.

Lemma history_trans (w1 w2 w3 : World) :
  history w1 w2 -> history w2 w3 -> history w1 w3.
Proof. apply part_trans. Qed.

(** *** Elementary changes of the world *)

(** A change that leaves the installation, the records and the construction
    stacks alone, and drops no microtask and adds no drain. *)
Lemma frame_history (w w' : World) :
  installation w' = installation w ->
  privateState w' = privateState w ->
  constructionStacks w' = constructionStacks w ->
  microtasks w `prefix_of` microtasks w' ->
  count_drains (microtasks w') = count_drains (microtasks w) ->
  history w w'.
Proof.
  intros Hi Hp Hc Hm Hn.
  apply part_history.
  - split; [by rewrite Hi|].
    split; [exists []; unfold definitions_of; by rewrite Hi, app_nil_r|].
    split; [unfold entries_of; by rewrite Hi|]. split; [done|].
    by apply records_kept_same.
  - unfold guarded, running_of, definitions_of. by rewrite Hi.
  - unfold depth, stack_of, backup_of, flag_of, read_queue. by rewrite Hi, Hn.
  - intros _ address l. by rewrite Hc.
Qed.

(** A change of the records alone. *)
Lemma records_history (w : World) (p : gmap elem ElementState) :
  records_kept w (with_privateState p w) ->
  history w (with_privateState p w).
Proof.
  intros Hk. apply part_history; [|done|done|by intros _ address l].
  split; [done|]. split; [exists []; by rewrite app_nil_r|]. done.
Qed.

Lemma setPrivateState_history (element : elem) (st : ElementState)
  (w : World) :
  match getPrivateState w element with
  | Some st0 => record_kept st0 st
  | None => is_Some (reactionQueue st)
  end ->
  history w (setPrivateState element st w).
Proof.
  intros Hst. apply records_history. split.
  - intros e st0 Hst0. destruct (decide (element = e)) as [->|Hne].
    + setoid_rewrite getPrivateState_setPrivateState.
      exists st. split; [done|]. by rewrite Hst0 in Hst.
    + setoid_rewrite getPrivateState_setPrivateState_ne; [|done].
      by exists st0.
  - intros e st' Hst' Hnone. destruct (decide (element = e)) as [->|Hne].
    + rewrite Hnone in Hst.
      change (with_privateState _ w) with (setPrivateState e st w) in Hst'.
      rewrite getPrivateState_setPrivateState in Hst'. congruence.
    + change (with_privateState _ w) with (setPrivateState element st w) in Hst'.
      rewrite getPrivateState_setPrivateState_ne in Hst' by done. congruence.
Qed.

(** A change of the installation that keeps the registry. *)
Lemma installation_core (w : World) (inst inst' : Installation) :
  installation w = Some inst ->
  registry inst' = registry inst ->
  core w (with_installation (Some inst') w).
Proof.
  intros Hinst Hreg. split; [cbn; by rewrite Hinst|].
  split; [exists []; unfold definitions_of; cbn;
          by rewrite Hinst, Hreg, app_nil_r|].
  split; [unfold entries_of; cbn; by rewrite Hinst, Hreg|].
  split; [done|]. by apply records_kept_same.
Qed.

Lemma installation_guarded (w : World) (inst inst' : Installation) :
  installation w = Some inst ->
  registry inst' = registry inst ->
  guarded w (with_installation (Some inst') w).
Proof.
  intros Hinst Hreg. unfold guarded, running_of, definitions_of. cbn.
  by rewrite Hinst, Hreg.
Qed.

Lemma enqueueElement_history (element : elem) (w : World) :
  history w (enqueueElementOnAppropriateElementQueue element w).
Proof.
  unfold enqueueElementOnAppropriateElementQueue.
  destruct (installation w) as [inst|] eqn:Hinst; [|apply history_refl].
  destruct (array_pop (customElementsReactionStack inst))
    as [[below top]|] eqn:Hpop.
  - apply array_pop_Some in Hpop.
    apply part_history;
      [eapply installation_core; [exact Hinst|done]
      |eapply installation_guarded; [exact Hinst|done]
      | |by intros _ a l].
    unfold depth, stack_of, backup_of, flag_of, read_queue. cbn.
    rewrite Hinst, Hpop, !length_app. cbn. done.
  - apply array_pop_None in Hpop.
    assert (Hdepth : forall w', stack_of w' = [] -> depth w w').
    { intros w' Hw'. unfold depth. unfold stack_of at 1 3. rewrite Hinst, Hpop.
      split; [cbn; lia|done]. }
    cbn. destruct (processingBackupElementQueue inst) eqn:Hflag.
    + apply part_history;
        [eapply installation_core; [exact Hinst|done]
        |eapply installation_guarded; [exact Hinst|done]
        | |by intros _ a l].
      apply Hdepth. unfold stack_of. cbn. done.
    + apply part_history; [| | |by intros _ a l].
      * eapply core_trans.
        { apply (installation_core w inst
                   (set_processing true
                      (set_backup (backupElementQueue inst ++ [element]) inst)));
            done. }
        split; [done|]. split; [exists []; by rewrite app_nil_r|].
        split; [done|]. split; [by apply prefix_app_r|].
        by apply records_kept_same.
      * unfold guarded, running_of, definitions_of. cbn. by rewrite Hinst.
      * apply Hdepth. unfold stack_of. cbn. done.
Qed.

End HistoryBasics.

(** ** Every function of the module respects the history *)

Section EndsBasics.

Lemma ends_impl {A : Type} (P Q : World -> Prop) (r : outcome A) :
  (forall w, P w -> Q w) -> ends P r -> ends Q r.
Proof. intros H. destruct r; cbn; auto. Qed.

Lemma ends_bind {A B : Type} (P : World -> Prop) (r : outcome A)
  (k : A -> World -> outcome B) :
  ends (fun w1 => P w1 /\ forall a, ends P (k a w1)) r -> ends P (bind r k).
Proof. destruct r as [a w1|error w1|]; cbn; [|tauto|done]. intros [_ H]. apply H. Qed.

Lemma respects_join {A : Type} (g d b : bool) (w : World) (r : outcome A) :
  respects_part g d b w r ->
  (g = false -> ends (guarded w) r) ->
  (d = false -> ends (depth w) r) ->
  (b = false -> ends (balanced w) r) ->
  respects w r.
Proof.
  destruct r as [a w'|error w'|]; cbn; [| |done];
    intros (Hc & Hg & Hd & Hb) Hg' Hd' Hb';
    (split; [done|]; split; [|split]; intros _;
     [destruct g|destruct d|destruct b]; auto).
Qed.

End EndsBasics.

Section HistoryPreservation.

Variable prog : Program.
Variable rec : call -> World -> result.
Hypothesis rec_respects : forall c w, respects w (rec c w).

Lemma respects_refl {A : Type} (a : A) (w : World) : respects w (Ok a w).
Proof. apply history_refl. Qed.

Lemma respects_throw {A : Type} (error : value) (w : World) :
  respects w (@Throws A error w).
Proof. apply history_refl. Qed.

Lemma place_with_state_history (element : elem) (st : ElementState)
  (w : World) :
  match getPrivateState w element with
  | Some st0 => record_kept st0 st
  | None => is_Some (reactionQueue st)
  end ->
  history w (enqueueElementOnAppropriateElementQueue element
               (setPrivateState element st w)).
Proof.
  intros Hst. eapply history_trans;
    [by apply setPrivateState_history|apply enqueueElement_history].
Qed.

Lemma enqueueCallbackReaction_respects (element : elem)
  (callbackName : callback_name) (args : list value) (w : World) :
  respects w (enqueueCallbackReaction element callbackName args w).
Proof.
  unfold enqueueCallbackReaction.
  destruct (getPrivateState w element) as [st|] eqn:Hst;
    [|apply history_refl].
  destruct (customElementDefinition st) as [definition|];
    [|apply history_refl].
  destruct (get_callback _ _); [|apply history_refl].
  destruct (_ && _); [apply history_refl|].
  apply place_with_state_history. rewrite Hst. split; [done|]. by eexists.
Qed.

Lemma enqueueUpgradeReaction_respects (element : elem)
  (definition : CustomElementDefinition) (w : World) :
  respects w (enqueueUpgradeReaction element definition w).
Proof.
  unfold enqueueUpgradeReaction.
  destruct (getPrivateState w element) as [st|] eqn:Hst.
  - cbn [reactionQueue set_customElementDefinition].
    destruct (reactionQueue st) as [q|] eqn:Hq.
    + apply place_with_state_history. rewrite Hst. split; [done|].
      by eexists.
    + apply setPrivateState_history. rewrite Hst. split; [done|]. cbn.
      by rewrite Hq.
  - cbn. apply place_with_state_history. rewrite Hst. by eexists.
Qed.

Lemma lookupCustomElementDefinition_respects (w : World) (node : DomNode)
  (is' : option jsstring) :
  respects w (lookupCustomElementDefinition w node is').
Proof.
  unfold lookupCustomElementDefinition.
  destruct (negb _); [apply history_refl|].
  destruct (negb _); [apply history_refl|].
  destruct (installation w); apply history_refl.
Qed.

Lemma tryToUpgradeElement_respects (element : elem) (w : World) :
  respects w (tryToUpgradeElement element w).
Proof.
  unfold tryToUpgradeElement.
  match goal with |- respects _ (if ?b then _ else _) => destruct b end;
    [apply history_refl|].
  apply respects_bind; [apply lookupCustomElementDefinition_respects|].
  intros [definition|] w1;
    [apply enqueueUpgradeReaction_respects|apply history_refl].
Qed.

Lemma enqueue_attributes_respects (element : elem) (attrs : list Attr)
  (w : World) :
  respects w (enqueue_attributes element attrs w).
Proof.
  revert w. induction attrs as [|a attrs IH]; intros w;
    [apply history_refl|].
  cbn [enqueue_attributes]. apply respects_bind;
    [apply enqueueCallbackReaction_respects|]. intros _ w1. apply IH.
Qed.

Lemma enqueue_backlog_respects (element : elem) (w : World) :
  respects w (enqueue_backlog element w).
Proof.
  unfold enqueue_backlog. apply respects_bind;
    [apply enqueue_attributes_respects|]. intros _ w1.
  destruct (isConnected _);
    [apply enqueueCallbackReaction_respects|apply history_refl].
Qed.

Lemma construct_respects (element : elem)
  (definition : CustomElementDefinition) (w : World) :
  respects w (construct prog rec element definition w).
Proof.
  unfold construct. apply respects_bind; [apply rec_respects|]. intros _ w1.
  destruct (bool_decide _); apply history_refl.
Qed.

(** *** The construction stack of [upgradeElement] *)

(** A change of the construction stacks alone keeps everything but their
    balance. *)
Lemma constructionStacks_part (c : gmap nat (list elem)) (w : World) :
  part true true false w (with_constructionStacks c w).
Proof.
  split; [|done].
  split; [done|]. split; [exists []; by rewrite app_nil_r|].
  split; [done|]. split; [done|]. by apply records_kept_same.
Qed.

Lemma upgrade_catch_respects (element : elem) (w : World) :
  respects w (upgrade_catch element w).
Proof.
  unfold upgrade_catch.
  destruct (getPrivateState w element) as [st|] eqn:Hst;
    [|apply history_refl].
  cbn [reactionQueue set_customElementDefinition set_customElementState].
  destruct (reactionQueue st) as [q|] eqn:Hq.
  - apply setPrivateState_history. rewrite Hst. split; [done|]. by eexists.
  - apply setPrivateState_history. rewrite Hst. split; [done|]. cbn.
    by rewrite Hq.
Qed.

Lemma set_custom_history (element : elem) (w : World) :
  history w
    (with_privateState
       (alter (set_customElementState (Some CE_STATE_CUSTOM)) element
          (privateState w)) w).
Proof.
  apply records_history. split.
  - intros e st Hst. unfold getPrivateState in *. cbn.
    destruct (decide (element = e)) as [->|Hne].
    + rewrite lookup_alter_eq, Hst. cbn. eexists. split; [done|]. done.
    + rewrite lookup_alter_ne by done. by exists st.
  - intros e st' Hst' Hnone. unfold getPrivateState in *. cbn in Hst'.
    destruct (decide (element = e)) as [->|Hne].
    + rewrite lookup_alter_eq, Hnone in Hst'. done.
    + rewrite lookup_alter_ne in Hst' by done. congruence.
Qed.

Lemma upgrade_finish_part (element : elem)
  (definition : CustomElementDefinition) (caught : option value) (w : World) :
  respects_part true true false w
    (upgrade_finish element definition caught w).
Proof.
  unfold upgrade_finish.
  assert (Hpop : part true true false w (constructionStack_pop definition w))
    by apply constructionStacks_part.
  match goal with
  | |- respects_part _ _ _ _ (if ?b then _ else _) => destruct b
  end; [exact Hpop|].
  eapply part_trans; [exact Hpop|]. apply history_part, set_custom_history.
Qed.

Lemma upgrade_prepare_part (element : elem)
  (definition : CustomElementDefinition) (w : World) (r : result) :
  upgrade_prepare element definition w = Some r ->
  respects_part true true false w r.
Proof.
  unfold upgrade_prepare.
  assert (Hrest : forall w0,
             respects_part true true false w0
               (let* w1 := enqueue_backlog element w0 in
                ret (constructionStack_push definition element w1))).
  { intros w0. apply respects_part_bind.
    - apply respects_history_part, enqueue_backlog_respects.
    - intros _ w1. apply constructionStacks_part. }
  destruct (getPrivateState w element) as [st|] eqn:Hst.
  - destruct (shouldNotUpgrade st); [done|]. intros [= <-]. apply Hrest.
  - intros [= <-]. eapply respects_part_trans; [|apply Hrest].
    apply history_part, setPrivateState_history. rewrite Hst. by eexists.
Qed.

Lemma upgradeElement_part (element : elem)
  (definition : CustomElementDefinition) (w : World) :
  respects_part true true false w
    (upgradeElement prog rec element definition w).
Proof.
  unfold upgradeElement.
  destruct (upgrade_prepare element definition w) as [prepared|] eqn:Hprep;
    [|apply part_refl].
  apply respects_part_bind; [by eapply upgrade_prepare_part|]. intros _ w2.
  pose proof (respects_history_part true true false _ _
                (construct_respects element definition w2)) as Hc.
  destruct (construct prog rec element definition w2) as [[] w3|error w3|];
    [| |done].
  - eapply respects_part_trans; [exact Hc|apply upgrade_finish_part].
  - eapply respects_part_trans; [exact Hc|]. apply respects_part_bind.
    + apply respects_history_part, upgrade_catch_respects.
    + intros _ w4. apply upgrade_finish_part.
Qed.

Lemma has_queue_kept (w w' : World) (element : elem) :
  records_kept w w' -> has_queue w element -> has_queue w' element.
Proof.
  intros [Hold _]. unfold has_queue, pending.
  destruct (getPrivateState w element) as [st|] eqn:Hst; [|by intros [? ?]].
  destruct (Hold element st Hst) as (st' & -> & _ & Hq). cbn. exact Hq.
Qed.

Lemma constructionStack_of_lookup (w : World)
  (definition : CustomElementDefinition) (l : list elem) :
  constructionStacks w !! constructionStack definition = Some l ->
  constructionStack_of w definition = l.
Proof. unfold constructionStack_of. by intros ->. Qed.

(** The element pushed before construction is popped after it, whether the
    constructor returned or threw. *)
Lemma upgradeElement_balanced (element : elem)
  (definition : CustomElementDefinition) (w : World) :
  ends (balanced w) (upgradeElement prog rec element definition w).
Proof.
  unfold upgradeElement, upgrade_prepare.
  set (a := constructionStack definition).
  (* the world in which the backlog is enqueued *)
  assert (Hstart : forall w0,
             history w w0 -> (sound w -> has_queue w0 element) ->
             constructionStacks w0 = constructionStacks w ->
             ends (balanced w)
               (let* w2 := (let* w1 := enqueue_backlog element w0 in
                            ret (constructionStack_push definition element w1)) in
                match construct prog rec element definition w2 with
                | Diverges => Diverges
                | Ok _ w3 => upgrade_finish element definition None w3
                | Throws error w3 =>
                    let* w4 := upgrade_catch element w3 in
                    upgrade_finish element definition (Some error) w4
                end)).
  { intros w0 Hw0 Hq0 Hc0.
    pose proof (enqueue_backlog_respects element w0) as Hb.
    destruct (enqueue_backlog element w0) as [[] w1|error w1|];
      cbn [bind ret ends]; [| |done].
    2:{ intros Hsound address l Hl.
        destruct Hb as (Hcore & _ & _ & Hbal).
        apply Hbal; [done| |by rewrite Hc0].
        eapply sound_records_kept; [|exact Hsound]. apply Hw0. }
    set (w2 := constructionStack_push definition element w1).
    assert (Hw1 : history w w1) by (by eapply history_trans).
    assert (Hpush : part true true false w w2).
    { eapply part_trans; [apply history_part, Hw1|].
      apply constructionStacks_part. }
    assert (Hq2 : sound w -> has_queue w2 element).
    { intros Hsound.
      eapply has_queue_kept; [apply (records_kept_same w1 w2); done|].
      eapply has_queue_kept; [apply Hb|by apply Hq0]. }
    (* what the stacks hold while the constructor runs *)
    assert (Hduring : sound w ->
              forall address l,
                constructionStacks w !! address = Some l ->
                constructionStacks w2 !! address
                = Some (if decide (address = a) then l ++ [element] else l)).
    { intros Hsound address l Hl.
      assert (Hl1 : constructionStacks w1 !! address = Some l).
      { destruct Hb as (_ & _ & _ & Hbal).
        apply Hbal; [done| |by rewrite Hc0].
        eapply sound_records_kept; [|exact Hsound]. apply Hw0. }
      unfold w2, constructionStack_push. cbn.
      destruct (decide (address = a)) as [->|Hne].
      - rewrite lookup_insert_eq.
        by rewrite (constructionStack_of_lookup w1 definition l).
      - by rewrite lookup_insert_ne. }
    assert (Hfinish : forall caught w4,
              part true true false w2 w4 ->
              (sound w -> forall address l,
                  constructionStacks w2 !! address = Some l ->
                  constructionStacks w4 !! address = Some l) ->
              ends (balanced w) (upgrade_finish element definition caught w4)).
    { intros caught w4 Hw4 Hkeep.
      assert (Hpop : balanced w (constructionStack_pop definition w4)).
      { intros Hsound address l Hl.
        pose proof (Hkeep Hsound address _ (Hduring Hsound address l Hl))
          as Hl4.
        unfold constructionStack_pop. cbn.
        destruct (decide (address = a)) as [->|Hne].
        - rewrite lookup_insert_eq.
          rewrite (constructionStack_of_lookup w4 definition (l ++ [element]))
            by done.
          by rewrite array_pop_app.
        - by rewrite lookup_insert_ne. }
      unfold upgrade_finish.
      match goal with |- ends _ (if ?b then _ else _) => destruct b end;
        [exact Hpop|]. exact Hpop. }
    pose proof (construct_respects element definition w2) as Hc.
    destruct (construct prog rec element definition w2) as [[] w3|error w3|];
      [| |done].
    - apply Hfinish; [apply history_part, Hc|].
      intros Hsound address l Hl. destruct Hc as (_ & _ & _ & Hbal).
      apply Hbal; [done| |done].
      eapply sound_records_kept; [|exact Hsound]. apply Hpush.
    - pose proof (upgrade_catch_respects element w3) as Hcatch.
      assert (Hkeep3 : sound w -> forall address l,
                 constructionStacks w2 !! address = Some l ->
                 constructionStacks w3 !! address = Some l).
      { intros Hsound address l Hl. destruct Hc as (_ & _ & _ & Hbal).
        apply Hbal; [done| |done].
        eapply sound_records_kept; [|exact Hsound]. apply Hpush. }
      unfold upgrade_catch in *.
      destruct (getPrivateState w3 element) as [st|] eqn:Hst3.
      + cbn [reactionQueue set_customElementDefinition set_customElementState]
          in *.
        destruct (reactionQueue st) as [q|] eqn:Hq; cbn [bind ret ends].
        * apply Hfinish.
          -- eapply part_trans; apply history_part; [exact Hc|exact Hcatch].
          -- intros Hsound address l Hl. by apply Hkeep3.
        * (* the record lost its queue: excluded for a sound world *)
          intros Hsound. exfalso.
          assert (Hhas : has_queue w3 element)
            by (eapply has_queue_kept; [apply Hc|by apply Hq2]).
          unfold has_queue, pending in Hhas. rewrite Hst3 in Hhas.
          cbn in Hhas. rewrite Hq in Hhas. by destruct Hhas.
      + cbn [bind ends]. intros Hsound. exfalso.
        assert (Hhas : has_queue w3 element)
          by (eapply has_queue_kept; [apply Hc|by apply Hq2]).
        unfold has_queue, pending in Hhas. rewrite Hst3 in Hhas.
        by destruct Hhas. }
  destruct (getPrivateState w element) as [st|] eqn:Hst.
  - destruct (shouldNotUpgrade st) eqn:Hsettled; [apply balanced_refl|].
    apply Hstart; [apply history_refl| |done].
    intros Hsound. unfold has_queue, pending. rewrite Hst. cbn.
    destruct (reactionQueue st) as [q|] eqn:Hq; [by eexists|].
    specialize (Hsound element st Hst Hq). congruence.
  - apply Hstart; [| |done].
    + apply setPrivateState_history. rewrite Hst. by eexists.
    + intros _. unfold has_queue, pending.
      rewrite getPrivateState_setPrivateState. by eexists.
Qed.

Lemma upgradeElement_respects (element : elem)
  (definition : CustomElementDefinition) (w : World) :
  respects w (upgradeElement prog rec element definition w).
Proof.
  eapply respects_join; [apply upgradeElement_part|done|done|].
  intros _. apply upgradeElement_balanced.
Qed.

(** *** The element queue of [executeCEReactions] *)

Lemma stack_part (w : World) (inst : Installation) (s : list (list elem)) :
  installation w = Some inst ->
  part true false true w (with_installation (Some (set_stack s inst)) w).
Proof.
  intros Hinst. split; [by eapply installation_core|].
  split; [intros _; by eapply installation_guarded|].
  split; [done|]. intros _ _ address l. done.
Qed.

Lemma executeCEReactions_part (callback : World -> result) (w : World) :
  (forall w1, respects w1 (callback w1)) ->
  respects_part true false true w (executeCEReactions rec callback w).
Proof.
  intros Hcb. unfold executeCEReactions.
  destruct (installation w) as [inst|] eqn:Hinst;
    [|apply respects_history_part, Hcb].
  eapply respects_part_trans; [by apply stack_part|].
  apply respects_part_bind; [apply respects_history_part, Hcb|].
  intros _ w2.
  destruct (installation w2) as [inst2|] eqn:Hinst2; [|apply part_refl].
  destruct (array_pop _) as [[below queue]|] eqn:Hpop; [|apply part_refl].
  eapply respects_part_trans; [by apply stack_part|].
  apply respects_history_part, rec_respects.
Qed.

Lemma executeCEReactions_depth (callback : World -> result) (w : World) :
  (forall w1, respects w1 (callback w1)) ->
  ends (depth w) (executeCEReactions rec callback w).
Proof.
  intros Hcb. unfold executeCEReactions.
  destruct (installation w) as [inst|] eqn:Hinst.
  2:{ pose proof (Hcb w) as H. destruct (callback w); cbn in *; [| |done];
        by apply history_depth. }
  set (w1 := with_installation
               (Some (set_stack (customElementsReactionStack inst ++ [[]]) inst))
               w).
  assert (Hpush : depth w w1).
  { unfold depth, stack_of, backup_of, flag_of, read_queue, w1. cbn.
    rewrite Hinst, length_app. cbn. split; [lia|done]. }
  assert (Hlen1 : length (stack_of w1) = S (length (stack_of w))).
  { unfold stack_of, w1. cbn. rewrite Hinst, length_app. cbn. lia. }
  pose proof (Hcb w1) as H.
  destruct (callback w1) as [[] w2|error w2|]; cbn [bind ends]; [| |done].
  2:{ eapply depth_trans; [exact Hpush|by apply history_depth]. }
  assert (H12 : depth w1 w2) by (by apply history_depth).
  assert (Hthrow : depth w w2) by (by eapply depth_trans).
  destruct (installation w2) as [inst2|] eqn:Hinst2; [|exact Hthrow].
  destruct (array_pop _) as [[below queue]|] eqn:Hpop; [|exact Hthrow].
  apply array_pop_Some in Hpop.
  set (w3 := with_installation (Some (set_stack below inst2)) w2).
  assert (Hlen3 : length (stack_of w) <= length (stack_of w3)).
  { destruct H12 as [Hle _]. rewrite Hlen1 in Hle.
    unfold stack_of at 2 in Hle. rewrite Hinst2, Hpop, length_app in Hle.
    cbn in Hle. unfold stack_of at 2, w3. cbn. lia. }
  assert (Hpop3 : depth w w3).
  { split; [exact Hlen3|]. intros Hne.
    destruct Hthrow as [_ Hsame]. destruct (Hsame Hne) as (Hb & Hf & Hc).
    unfold backup_of, flag_of, read_queue, w3 in *. cbn.
    rewrite Hinst2 in Hb, Hf. done. }
  pose proof (rec_respects (InvokeReactions (PoppedQueue queue) 0) w3) as Hr.
  destruct (rec _ w3) as [[] w4|error w4|]; cbn [ends]; [| |done];
    (eapply depth_trans; [exact Hpop3|by apply history_depth]).
Qed.

Lemma executeCEReactions_respects (callback : World -> result) (w : World) :
  (forall w1, respects w1 (callback w1)) ->
  respects w (executeCEReactions rec callback w).
Proof.
  intros Hcb. eapply respects_join;
    [by apply executeCEReactions_part|done| |done].
  intros _. by apply executeCEReactions_depth.
Qed.

(** *** The running flag of [define] *)

Lemma getCallback_respects (class : ClassDecl) (callbackName : callback_name)
  (w : World) :
  respects w (getCallback rec class callbackName w).
Proof.
  unfold getCallback. apply respects_bind; [apply rec_respects|].
  intros _ w1. apply history_refl.
Qed.

Lemma read_callbacks_respects (class : ClassDecl)
  (names : list callback_name) :
  forall (acc : LifecycleCallbacks) (w : World),
    respects w (snd (read_callbacks rec class names acc w)).
Proof.
  induction names as [|k names IH]; intros acc w; [apply history_refl|].
  cbn [read_callbacks].
  pose proof (getCallback_respects class k w) as Hk.
  destruct (getCallback rec class k w) as [cb w1|error w1|];
    [|exact Hk|done].
  eapply respects_trans; [exact Hk|apply IH].
Qed.

Lemma define_try_respects (class : ClassDecl) (w : World) :
  respects w (snd (define_try rec class w)).
Proof.
  unfold define_try.
  destruct (negb _); [apply history_refl|].
  pose proof (read_callbacks_respects class callback_names no_callbacks w)
    as Hr.
  destruct (read_callbacks rec class callback_names no_callbacks w)
    as [callbacks [[] w1|error w1|]]; cbn [snd] in *; [|exact Hr|done].
  destruct (attributeChangedCallback callbacks); [|exact Hr].
  pose proof (rec_respects (RunScript (fst (observedAttributes_get class))) w1)
    as Ho.
  destruct (rec _ w1) as [[] w2|error w2|]; cbn [snd]; [| |done];
    eapply respects_trans; first [exact Hr|exact Ho].
Qed.

Lemma set_running_part (b : bool) (w : World) :
  part false true true w (set_running b w).
Proof.
  unfold set_running.
  destruct (installation w) as [inst|] eqn:Hinst; [|apply part_refl].
  split; [|split; [done|]; split; [intros _|by intros _ _ address l]].
  - split; [cbn; by rewrite Hinst|].
    split; [exists []; unfold definitions_of; cbn;
            by rewrite Hinst, app_nil_r|].
    split; [unfold entries_of; cbn; by rewrite Hinst|].
    split; [done|]. by apply records_kept_same.
  - unfold depth, stack_of, backup_of, flag_of, read_queue. cbn.
    by rewrite Hinst.
Qed.

Lemma running_of_set_running (b : bool) (w : World) :
  is_Some (installation w) -> running_of (set_running b w) = b.
Proof.
  intros [inst Hinst]. unfold running_of, set_running. by rewrite Hinst.
Qed.

Lemma definitions_of_set_running (b : bool) (w : World) :
  definitions_of (set_running b w) = definitions_of w.
Proof.
  unfold definitions_of, set_running.
  destruct (installation w) as [inst|] eqn:Hinst; cbn; [done|by rewrite Hinst].
Qed.

Lemma installed_core (w w' : World) :
  core w w' -> is_Some (installation w) -> is_Some (installation w').
Proof.
  intros (Hi & _) Hsome. destruct (installation w') eqn:H'; [done|].
  destruct Hi as [_ Hi]. rewrite Hi in Hsome; [by destruct Hsome|done].
Qed.

(** Registering a definition made without [extends]. *)
Lemma push_definition_part (definition : CustomElementDefinition)
  (address : nat) (w : World) :
  constructionStacks w !! address = None ->
  part false true true w
    (with_constructionStacks (<[address := []]> (constructionStacks w))
       (push_definition definition w)).
Proof.
  intros Hfresh. unfold push_definition.
  destruct (installation w) as [inst|] eqn:Hinst.
  - split; [|split; [done|]; split; [intros _|intros _ _ a l Hl]].
    + split; [cbn; by rewrite Hinst|].
      split; [exists [definition]; unfold definitions_of; cbn;
              by rewrite Hinst|].
      split; [unfold entries_of; cbn; by rewrite Hinst|].
      split; [done|]. by apply records_kept_same.
    + unfold depth, stack_of, backup_of, flag_of, read_queue. cbn.
      by rewrite Hinst.
    + cbn. rewrite lookup_insert_ne; [done|]. intros ->. congruence.
  - split; [|split; [done|]; split; [intros _|intros _ _ a l Hl]].
    + split; [cbn; by rewrite Hinst|].
      split; [exists []; unfold definitions_of; cbn;
              by rewrite Hinst|].
      split; [unfold entries_of; cbn; by rewrite Hinst|].
      split; [done|]. by apply records_kept_same.
    + unfold depth, stack_of, backup_of, flag_of, read_queue. cbn.
      by rewrite Hinst.
    + cbn. rewrite lookup_insert_ne; [done|]. intros ->. congruence.
Qed.

Lemma fresh_address (w : World) :
  constructionStacks w !! fresh (dom (constructionStacks w)) = None.
Proof. apply not_elem_of_dom, is_fresh. Qed.

Lemma upgrade_sweep_respects (definition : CustomElementDefinition)
  (extensionOf : option jsstring) (visit : list elem) (w : World) :
  respects w (upgrade_sweep definition extensionOf visit w).
Proof.
  revert w. induction visit as [|node visit IH]; intros w;
    [apply history_refl|].
  cbn [upgrade_sweep]. destruct (_ && _); [|apply IH].
  apply respects_bind; [|intros _ w1; apply IH].
  apply sweep_visit_cases;
    [apply enqueueUpgradeReaction_respects|apply history_refl
    |apply history_refl].
Qed.

Lemma resolve_whenDefined_history (name : jsstring) (w : World) :
  history w (resolve_whenDefined name w).
Proof.
  unfold resolve_whenDefined.
  destruct (installation w) as [inst|]; [|apply history_refl].
  destruct (bool_decide _); [|apply history_refl].
  apply frame_history; [done|done|done|by apply prefix_app_r|].
  cbn. rewrite count_drains_app. cbn. lia.
Qed.

(** The flag is false once the [try] block is left, and nothing was
    registered while it was set. *)
Lemma define_registration_parts (name : jsstring) (constructor : classid)
  (localName' : jsstring) (extensionOf : option jsstring) (w : World) :
  respects_part false true true w
    (define_registration prog rec name constructor localName' extensionOf w)
  /\ ends (guarded w)
       (define_registration prog rec name constructor localName' extensionOf
          w).
Proof.
  unfold define_registration.
  assert (Hstay : forall error,
             respects_part false true true w (@Throws unit error w)
             /\ ends (guarded w) (@Throws unit error w))
    by (intros error; split; [apply part_refl|apply guarded_refl]).
  destruct (installation w) as [inst|] eqn:Hinst; [|apply Hstay].
  destruct (elementDefinitionIsRunning _) eqn:Hrun; [apply Hstay|].
  assert (Hrun0 : running_of w = false)
    by (unfold running_of; by rewrite Hinst).
  pose proof (define_try_respects (classes prog constructor)
                (set_running true w)) as Htry.
  destruct (define_try rec (classes prog constructor)
              (set_running true w)) as [[callbacks observed] exit].
  cbn [snd] in Htry.
  assert (Hfin : forall caught w1,
             history (set_running true w) w1 ->
             let r :=
               (let w2 := set_running false w1 in
                if match caught with
                   | Some error => truthy error
                   | None => false
                   end
                then Throws (default VNull caught) w2
                else
                  let address := fresh (dom (constructionStacks w2)) in
                  let definition :=
                    {| def_name := name; def_localName := localName';
                       def_constructor := constructor;
                       observedAttributes := observed;
                       lifecycleCallbacks := callbacks;
                       constructionStack := address |} in
                  let w3 :=
                    with_constructionStacks
                      (<[address := []]> (constructionStacks w2))
                      (push_definition definition w2) in
                  let* w4 :=
                    if document_loading w3 then ret w3
                    else upgrade_sweep definition extensionOf
                           (document_order w3) w3 in
                  ret (resolve_whenDefined name w4)) in
             respects_part false true true w r /\ ends (guarded w) r).
  { intros caught w1 Hw1. cbv zeta.
    set (w2 := set_running false w1).
    assert (Hinst1 : is_Some (installation w1)).
    { eapply installed_core; [apply Hw1|].
      unfold set_running. rewrite Hinst. by eexists. }
    assert (Hp2 : part false true true w w2).
    { eapply part_trans; [apply set_running_part|].
      eapply part_trans; [apply history_part, Hw1|apply set_running_part]. }
    assert (Hrun2 : running_of w2 = false)
      by (by apply running_of_set_running).
    assert (Hg2 : guarded w w2).
    { split; [congruence|]. intros Hr. congruence. }
    match goal with |- context [if ?b then _ else _] => destruct b end;
      [by split|].
    set (address := fresh (dom (constructionStacks w2))).
    set (definition := {| def_name := name; def_localName := localName';
                          def_constructor := constructor;
                          observedAttributes := observed;
                          lifecycleCallbacks := callbacks;
                          constructionStack := address |}).
    set (w3 := with_constructionStacks _ (push_definition definition w2)).
    assert (Hp3 : part false true true w w3).
    { eapply part_trans; [exact Hp2|].
      apply push_definition_part, fresh_address. }
    assert (Hrun3 : running_of w3 = false).
    { unfold w3, running_of, push_definition in *.
      destruct (installation w2) as [inst2|] eqn:Hinst2; cbn;
        [done|by rewrite Hinst2]. }
    assert (Hrest : forall r : result,
               respects w3 r ->
               respects_part false true true w r /\ ends (guarded w) r).
    { intros r Hr. split.
      - eapply respects_part_trans; [exact Hp3|].
        by apply respects_history_part.
      - destruct r as [[] w5|error w5|]; cbn in *; [| |done];
          destruct Hr as (_ & Hg & _); destruct (Hg eq_refl) as [Hf _];
          (split; [congruence|intros Hr'; congruence]). }
    apply Hrest. apply respects_bind.
    - destruct (document_loading _);
        [apply history_refl|apply upgrade_sweep_respects].
    - intros _ w4. apply resolve_whenDefined_history. }
  destruct exit as [[] w1|error w1|]; [| |done].
  - apply (Hfin None w1), Htry.
  - apply (Hfin (Some error) w1), Htry.
Qed.

Lemma define_registration_respects (name : jsstring) (constructor : classid)
  (localName' : jsstring) (extensionOf : option jsstring) (w : World) :
  respects w
    (define_registration prog rec name constructor localName' extensionOf w).
Proof.
  destruct (define_registration_parts name constructor localName' extensionOf
              w) as [Hp Hg].
  eapply respects_join; [exact Hp|by intros _|done|done].
Qed.

Lemma define_body_respects (name : jsstring) (constructor : classid)
  (extends : option jsstring) (w : World) :
  respects w (define_body prog rec name constructor extends w).
Proof.
  unfold define_body.
  destruct (installation w) as [inst|]; [|apply history_refl].
  destruct (negb _); [apply history_refl|].
  destruct (negb _); [apply history_refl|].
  destruct extends as [extensionOf|]; [|apply define_registration_respects].
  destruct (isValidCustomElementName extensionOf); [apply history_refl|].
  destruct (testElement_constructor_get prog) as [getter|];
    [|apply history_refl].
  apply respects_bind; [apply rec_respects|].
  intros _ w0. apply define_registration_respects.
Qed.

Lemma define_respects (name : jsstring) (constructor : classid)
  (extends : option jsstring) (w : World) :
  respects w (define prog rec name constructor extends w).
Proof.
  unfold define. apply executeCEReactions_respects. intros w1.
  apply define_body_respects.
Qed.

(** *** User code and the invocation loop *)

Lemma exec_cmd_respects (c : cmd) (w : World) :
  respects w (exec_cmd prog rec c w).
Proof.
  destruct c; cbn [exec_cmd].
  - apply history_refl.
  - pose proof (rec_respects (RunScript body) w) as Hb.
    destruct (rec (RunScript body) w) as [[] w1|error w1|]; [done| |done].
    eapply respects_trans; [exact Hb|apply rec_respects].
  - by apply frame_history.
  - destruct (isConnected _); [|apply history_refl].
    destruct (isCustom w node);
      [apply enqueueCallbackReaction_respects
      |apply tryToUpgradeElement_respects].
  - destruct (isCustom w node);
      [apply enqueueCallbackReaction_respects|apply history_refl].
  - destruct (isCustom w node);
      [apply enqueueCallbackReaction_respects|apply history_refl].
  - apply tryToUpgradeElement_respects.
  - destruct (isCustom w element);
      [apply enqueueCallbackReaction_respects|apply history_refl].
  - apply tryToUpgradeElement_respects.
  - apply executeCEReactions_respects. intros w1. apply rec_respects.
  - apply define_respects.
Qed.

Lemma run_script_respects (body : list cmd) (w : World) :
  respects w (run_script prog rec body w).
Proof.
  revert w. induction body as [|c body IH]; intros w; [apply history_refl|].
  cbn [run_script]. apply respects_bind; [apply exec_cmd_respects|].
  intros _ w1. apply IH.
Qed.

Lemma invoke_reaction_respects (element : elem) (reaction : Reaction)
  (w : World) :
  respects w (invoke_reaction prog rec element reaction w).
Proof.
  destruct reaction as [definition|callback args]; cbn [invoke_reaction].
  - apply upgradeElement_respects.
  - eapply respects_trans; [|apply rec_respects]. by apply frame_history.
Qed.

Lemma while_reactions_respects (element : elem) (w : World) :
  respects w (while_reactions prog rec element w).
Proof.
  unfold while_reactions.
  destruct (getPrivateState w element) as [st|] eqn:Hst;
    [|apply history_refl].
  destruct (reactionQueue st) as [[|reaction rest]|] eqn:Hq;
    [apply history_refl| |apply history_refl].
  match goal with
  | |- respects _ (match invoke_reaction _ _ _ _ ?w1 with _ => _ end) =>
      assert (H1 : history w w1);
      [|pose proof (invoke_reaction_respects element reaction w1) as Hr;
        destruct (invoke_reaction prog rec element reaction w1)
          as [[] w2|error w2|]; [| |done]]
  end.
  - apply setPrivateState_history. rewrite Hst. split; [done|]. by eexists.
  - eapply respects_trans; [exact H1|]. eapply respects_trans; [exact Hr|].
    apply rec_respects.
  - eapply respects_trans; [exact H1|]. eapply respects_trans; [exact Hr|].
    eapply respects_trans; [|apply rec_respects]. by apply frame_history.
Qed.

Lemma invokeReactions_from_respects (queue : queue_ref) (i : nat)
  (w : World) :
  respects w (invokeReactions_from rec queue i w).
Proof.
  unfold invokeReactions_from.
  destruct (read_queue queue w !! i) as [element|]; [|apply history_refl].
  destruct (getPrivateState w element) as [st|]; [|apply history_refl].
  destruct (reactionQueue st); [|apply history_refl].
  apply respects_bind; [apply rec_respects|]. intros _ w1.
  apply rec_respects.
Qed.

Lemma step_respects (c : call) (w : World) : respects w (step prog rec c w).
Proof.
  destruct c; cbn [step].
  - apply run_script_respects.
  - apply invokeReactions_from_respects.
  - apply while_reactions_respects.
Qed.

(** *** The initial upgrade *)

Lemma tryToUpgradeElementSync_respects (element : elem) (w : World) :
  respects w (tryToUpgradeElementSync prog rec element w).
Proof.
  unfold tryToUpgradeElementSync.
  match goal with |- respects _ (if ?b then _ else _) => destruct b end;
    [apply history_refl|].
  apply respects_bind; [apply lookupCustomElementDefinition_respects|].
  intros [definition|] w1;
    [apply upgradeElement_respects|apply history_refl].
Qed.

Lemma forEach_tryToUpgradeElementSync_respects (elements : list elem) :
  forall w : World,
    respects w (forEach_tryToUpgradeElementSync prog rec elements w).
Proof.
  induction elements as [|element elements IH]; intros w;
    [apply history_refl|].
  cbn [forEach_tryToUpgradeElementSync]. apply respects_bind;
    [apply tryToUpgradeElementSync_respects|]. intros _ w1. apply IH.
Qed.

End HistoryPreservation.

(** Whatever runs, for however long, respects the history of the world. *)
Lemma eval_respects (prog : Program) (fuel : nat) :
  forall (c : call) (w : World), respects w (eval prog fuel c w).
Proof.
  induction fuel as [|n IH]; intros c w; [done|].
  cbn [eval]. by apply step_respects.
Qed.

(** ** What lasts while the page lives *)

Ltac installation_frame H :=
  try done;
  unfold definitions_of, running_of, stack_of, backup_of, read_queue;
  cbn; rewrite ?H; try done; try (split; done).

Section Lasting.

Import CustomElementRegistry.

Lemma lasting_refl (w : World) : lasting w w.
Proof.
  split; [done|]. split; [exists []; by rewrite app_nil_r|].
  split; [done|]. split; [apply records_kept_refl|]. split; [done|].
  split; [done|]. apply balanced_refl.
Qed.

Lemma lasting_trans (w1 w2 w3 : World) :
  lasting w1 w2 -> lasting w2 w3 -> lasting w1 w3.
Proof.
  intros (Hi1 & (a1 & Hd1) & Hf1 & Hr1 & Hl1 & Hb1 & Hc1)
         (Hi2 & (a2 & Hd2) & Hf2 & Hr2 & Hl2 & Hb2 & Hc2).
  split; [by rewrite Hi1|]. split.
  { exists (a1 ++ a2). by rewrite Hd2, Hd1, app_assoc. }
  split; [congruence|]. split; [by eapply records_kept_trans|].
  split; [lia|]. split.
  - intros Hne. destruct (Hb1 Hne) as [Hq1 Hn1].
    destruct (Hb2 (stack_nonempty_le _ _ Hl1 Hne)) as [Hq2 Hn2].
    split; [congruence|lia].
  - by eapply balanced_trans.
Qed.

Lemma history_lasting (w w' : World) : history w w' -> lasting w w'.
Proof.
  intros H.
  destruct (history_core _ _ H) as (Hi & Hd & _ & _ & Hr).
  destruct (history_guarded _ _ H) as [Hf _].
  destruct (history_depth _ _ H) as [Hl Hb].
  split; [done|]. split; [done|]. split; [done|]. split; [done|].
  split; [done|]. split; [|by apply history_balanced].
  intros Hne. destruct (Hb Hne) as (Hq & _ & Hn). split; [done|lia].
Qed.

Lemma respects_ends_in (w w' : World) (r : result) :
  respects w r -> ends_in r w' -> history w w'.
Proof. intros Hr [->|[error ->]]; exact Hr. Qed.

(** A change that leaves the definitions, the flag of [define], the
    records, the element queues and the construction stacks alone, and
    schedules no drain. *)
Lemma frame_lasting (w w' : World) :
  (installation w = None <-> installation w' = None) ->
  definitions_of w' = definitions_of w ->
  running_of w' = running_of w ->
  privateState w' = privateState w ->
  stack_of w' = stack_of w ->
  backup_of w' = backup_of w ->
  count_drains (microtasks w') <= count_drains (microtasks w) ->
  constructionStacks w' = constructionStacks w ->
  lasting w w'.
Proof.
  intros Hi Hd Hf Hp Hs Hb Hn Hc.
  split; [done|]. split; [exists []; by rewrite app_nil_r|].
  split; [done|]. split; [by apply records_kept_same|].
  split; [by rewrite Hs|]. split; [done|].
  intros _ address l. by rewrite Hc.
Qed.

Lemma run_task_lasting (prog : Program) (fuel : nat) (task : Microtask)
  (w w' : World) :
  ends_in (run_task prog fuel task w) w' -> lasting w w'.
Proof.
  destruct task as [|name|detached]; cbn [run_task].
  - unfold invokeReactions.
    pose proof (eval_respects prog fuel (InvokeReactions BackupQueue 0) w)
      as Hr.
    destruct (eval prog fuel (InvokeReactions BackupQueue 0) w)
      as [[] w1|error w1|]; cbn [bind ret].
    + intros [[= <-]|[error [=]]].
      eapply lasting_trans; [by apply history_lasting|].
      unfold set_processingBackupElementQueue.
      destruct (installation w1) as [inst1|] eqn:Hinst1;
        [|apply lasting_refl].
      apply frame_lasting; installation_frame Hinst1.
    + intros [[=]|[error' [= _ <-]]]. by apply history_lasting.
    + intros [[=]|[error' [=]]].
  - intros [[= <-]|[error [=]]].
    unfold clear_whenDefined.
    destruct (installation w) as [inst|] eqn:Hinst; [|apply lasting_refl].
    apply frame_lasting; installation_frame Hinst.
  - intros H. apply history_lasting.
    eapply respects_ends_in; [apply eval_respects|exact H].
Qed.

Lemma run_microtask_lasting (prog : Program) (fuel : nat) (w w' : World) :
  ends_in (run_microtask prog fuel w) w' -> lasting w w'.
Proof.
  unfold run_microtask.
  destruct (microtasks w) as [|task rest] eqn:Htasks.
  { intros [[= <-]|[error [=]]]. apply lasting_refl. }
  intros H. eapply lasting_trans; [|by eapply run_task_lasting].
  apply frame_lasting; try done. cbn. rewrite Htasks.
  destruct task; cbn; lia.
Qed.

Lemma whenDefined_lasting (promisesSupported : bool) (fresh : nat)
  (name : jsstring) (promise : DefinedPromise) (w w' : World) :
  whenDefined promisesSupported fresh name w = Ok promise w' -> lasting w w'.
Proof.
  unfold whenDefined.
  destruct (installation w) as [inst|] eqn:Hinst; [|done].
  destruct (negb promisesSupported); [done|].
  destruct (negb _); [done|].
  destruct (existsb _ _); [intros [= _ <-]; apply lasting_refl|].
  destruct (bool_decide _); intros [= _ <-]; [apply lasting_refl|].
  apply frame_lasting; installation_frame Hinst.
Qed.

Lemma host_step_lasting (prog : Program) (promisesSupported : bool)
  (w w' : World) :
  host_step prog promisesSupported w w' -> lasting w w'.
Proof.
  intros [fuel body H|fuel H|fuel H|fresh name promise H].
  - apply history_lasting.
    eapply respects_ends_in; [apply eval_respects|exact H].
  - by eapply run_microtask_lasting.
  - apply history_lasting.
    eapply respects_ends_in; [|exact H].
    apply forEach_tryToUpgradeElementSync_respects, eval_respects.
  - by eapply whenDefined_lasting.
Qed.

Lemma runs_lasting (prog : Program) (promisesSupported : bool)
  (w w' : World) :
  runs prog promisesSupported w w' -> lasting w w'.
Proof.
  induction 1 as [w|w1 w2 w3 Hstep _ IH]; [apply lasting_refl|].
  eapply lasting_trans; [by eapply host_step_lasting|exact IH].
Qed.

End Lasting.

Section RegistryFacts.

Import CustomElementRegistry.

Lemma find_app_l {A : Type} (f : A -> bool) (l l' : list A) (x : A) :
  find f l = Some x -> find f (l ++ l') = Some x.
Proof.
  induction l as [|y l IH]; [done|]. cbn. destruct (f y); [done|]. exact IH.
Qed.

Lemma find_app_r {A : Type} (f : A -> bool) (l l' : list A) :
  find f l = None -> find f (l ++ l') = find f l'.
Proof.
  induction l as [|y l IH]; [done|]. cbn. destruct (f y); [done|]. exact IH.
Qed.

Lemma get_app_l (r r' : Registry) (added : list CustomElementDefinition)
  (name : jsstring) (constructor : classid) :
  definitions r' = definitions r ++ added ->
  get r name = Some constructor -> get r' name = Some constructor.
Proof.
  unfold get. intros ->.
  destruct (find _ (definitions r)) as [d|] eqn:Hfind; [|done].
  intros [= <-]. by rewrite (find_app_l _ _ _ _ Hfind).
Qed.

Lemma registry_of_definitions (w : World) (r : Registry) :
  registry_of w = Some r -> definitions_of w = definitions r.
Proof.
  unfold registry_of, definitions_of.
  destruct (installation w); cbn; [by intros [= <-]|done].
Qed.

Lemma registry_of_lasting (w w' : World) (r : Registry) :
  lasting w w' -> registry_of w = Some r ->
  exists r' added,
    registry_of w' = Some r'
    /\ definitions r' = definitions r ++ added.
Proof.
  intros (Hi & (added & Hd) & _) Hr.
  unfold registry_of in *.
  destruct (installation w) as [inst|] eqn:Hinst; [|done].
  destruct (installation w') as [inst'|] eqn:Hinst'.
  - cbn in *. injection Hr as <-. exists (registry inst'), added.
    unfold definitions_of in Hd. by rewrite Hinst, Hinst' in Hd.
  - destruct Hi as [_ Hi]. discriminate (Hi eq_refl).
Qed.

End RegistryFacts.

Section LastingTheorems.

Import CustomElementRegistry.

Variable prog : Program.
Variable promisesSupported : bool.

(** X1.  Whatever the page does (scripts, microtasks, the initial upgrade,
    [whenDefined]), the definition table only grows at its end; so a name
    for which [get] once returned a constructor keeps that constructor. *)
Theorem get_is_stable (w w' : World) (r : Registry) (name : jsstring)
  (constructor : classid) :
  runs prog promisesSupported w w' ->
  registry_of w = Some r ->
  get r name = Some constructor ->
  exists r',
    registry_of w' = Some r'
    /\ definitions r `prefix_of` definitions r'
    /\ get r' name = Some constructor.
Proof.
  intros Hruns Hr Hget.
  destruct (registry_of_lasting w w' r (runs_lasting _ _ _ _ Hruns) Hr)
    as (r' & added & Hr' & Hd).
  exists r'. split; [done|]. split; [by exists added|].
  by eapply get_app_l.
Qed.

(** X3.  An element that is custom or failed stays custom or failed
    whatever the page does, and every later [upgradeElement],
    [tryToUpgradeElementSync] and [tryToUpgradeElement] for it returns at
    once and changes nothing. *)
Theorem upgrade_is_final (w w' : World) (element : elem) (st : ElementState) :
  runs prog promisesSupported w w' ->
  getPrivateState w element = Some st ->
  shouldNotUpgrade st = true ->
  exists st',
    getPrivateState w' element = Some st'
    /\ shouldNotUpgrade st' = true
    /\ (forall rec definition,
           upgradeElement prog rec element definition w' = ret w')
    /\ (forall rec, tryToUpgradeElementSync prog rec element w' = ret w')
    /\ tryToUpgradeElement element w' = ret w'.
Proof.
  intros Hruns Hst Hsettled.
  destruct (runs_lasting _ _ _ _ Hruns) as (_ & _ & _ & [Hold _] & _).
  destruct (Hold element st Hst) as (st' & Hst' & Hs & _).
  exists st'. split; [done|]. split; [by apply Hs|].
  split; [|split].
  - intros rec definition. unfold upgradeElement, upgrade_prepare.
    by rewrite Hst', (Hs Hsettled).
  - intros rec. unfold tryToUpgradeElementSync. by rewrite Hst', (Hs Hsettled).
  - unfold tryToUpgradeElement. by rewrite Hst', (Hs Hsettled).
Qed.

(** X5.  The flag that guards [define] against re-entrance is found as it
    was left, whether the getters that [define] called returned or threw. *)
Theorem definition_flag_restored (w w' : World) :
  runs prog promisesSupported w w' ->
  running_of w' = running_of w.
Proof.
  intros Hruns. by destruct (runs_lasting _ _ _ _ Hruns) as (_ & _ & Hf & _).
Qed.


End LastingTheorems.

(** ** [define], [get] and [whenDefined] *)

Section RegistryFrame.

Lemma registry_of_enqueueElement (element : elem) (w : World) :
  registry_of (enqueueElementOnAppropriateElementQueue element w)
  = registry_of w.
Proof.
  unfold enqueueElementOnAppropriateElementQueue, registry_of.
  destruct (installation w) as [inst|] eqn:Hinst; [|by rewrite Hinst].
  destruct (array_pop _) as [[below top]|]; [done|].
  cbn. destruct (processingBackupElementQueue inst); done.
Qed.

Lemma enqueueUpgradeReaction_registry (element : elem)
  (definition : CustomElementDefinition) (w : World) :
  ends (fun w' => registry_of w' = registry_of w)
    (enqueueUpgradeReaction element definition w).
Proof.
  unfold enqueueUpgradeReaction.
  match goal with
  | |- ends _ (match reactionQueue ?st with _ => _ end) =>
      destruct (reactionQueue st)
  end; cbn [ends ret]; [|done].
  by rewrite registry_of_enqueueElement.
Qed.

Lemma upgrade_sweep_registry (definition : CustomElementDefinition)
  (extensionOf : option jsstring) (visit : list elem) :
  forall w : World,
    ends (fun w' => registry_of w' = registry_of w)
      (upgrade_sweep definition extensionOf visit w).
Proof.
  induction visit as [|node visit IH]; intros w; [done|].
  cbn [upgrade_sweep]. destruct (_ && _); [|apply IH].
  assert (H1 : ends (fun w' => registry_of w' = registry_of w)
                 (sweep_visit definition extensionOf node w))
    by (apply sweep_visit_cases;
        [apply enqueueUpgradeReaction_registry|done|done]).
  destruct (sweep_visit definition extensionOf node w) as [[] w1|error w1|];
    cbn [bind ends] in *; [|done|done].
  pose proof (IH w1) as H2.
  destruct (upgrade_sweep definition extensionOf visit w1); cbn [ends] in *;
    [congruence|congruence|done].
Qed.

Lemma definitions_of_registry (w w' : World) :
  registry_of w' = registry_of w -> definitions_of w' = definitions_of w.
Proof.
  unfold registry_of, definitions_of.
  destruct (installation w), (installation w'); cbn; congruence.
Qed.

Lemma entries_of_registry (w w' : World) :
  registry_of w' = registry_of w -> entries_of w' = entries_of w.
Proof.
  unfold registry_of, entries_of.
  destruct (installation w), (installation w'); cbn; congruence.
Qed.

End RegistryFrame.

Section DefineRegisters.

Variable prog : Program.
Variable rec : call -> World -> result.
Hypothesis rec_respects : forall c w, respects w (rec c w).

(** When the second half of [define] returns, it has appended one
    definition of that name and constructor, and it has scheduled the
    resolution of the entry of the name, if there was one. *)
Lemma define_registration_registers (name : jsstring) (constructor : classid)
  (localName' : jsstring) (extensionOf : option jsstring) (w w' : World) :
  define_registration prog rec name constructor localName' extensionOf w
  = Ok tt w' ->
  exists definition,
    definitions_of w' = definitions_of w ++ [definition]
    /\ def_name definition = name
    /\ def_constructor definition = constructor
    /\ def_localName definition = localName'
    /\ (name ∈ entries_of w -> ResolveWhenDefined name ∈ microtasks w').
Proof.
  unfold define_registration.
  destruct (installation w) as [inst|] eqn:Hinst; [|done].
  destruct (elementDefinitionIsRunning _) eqn:Hrun; [done|].
  pose proof (define_try_respects rec rec_respects
                (classes prog constructor) (set_running true w)) as Htry.
  destruct (define_try rec (classes prog constructor)
              (set_running true w)) as [[callbacks observed] exit].
  cbn [snd] in Htry.
  assert (Hfin : forall caught w1,
             history (set_running true w) w1 ->
             (let w2 := set_running false w1 in
              if match caught with
                 | Some error => truthy error
                 | None => false
                 end
              then Throws (default VNull caught) w2
              else
                let address := fresh (dom (constructionStacks w2)) in
                let definition :=
                  {| def_name := name; def_localName := localName';
                     def_constructor := constructor;
                     observedAttributes := observed;
                     lifecycleCallbacks := callbacks;
                     constructionStack := address |} in
                let w3 :=
                  with_constructionStacks
                    (<[address := []]> (constructionStacks w2))
                    (push_definition definition w2) in
                let* w4 :=
                  if document_loading w3 then ret w3
                  else upgrade_sweep definition extensionOf
                         (document_order w3) w3 in
                ret (resolve_whenDefined name w4)) = Ok tt w' ->
             exists definition,
               definitions_of w' = definitions_of w ++ [definition]
               /\ def_name definition = name
               /\ def_constructor definition = constructor
               /\ def_localName definition = localName'
               /\ (name ∈ entries_of w ->
                   ResolveWhenDefined name ∈ microtasks w')).
  { intros caught w1 Hw1. cbv zeta.
    assert (Hinst_t : is_Some (installation (set_running true w)))
      by (unfold set_running; rewrite Hinst; by eexists).
    assert (Hd1 : definitions_of w1 = definitions_of w).
    { destruct (history_guarded _ _ Hw1) as [_ Hd].
      rewrite Hd by (by apply running_of_set_running).
      apply definitions_of_set_running. }
    assert (He1 : entries_of w1 = entries_of w).
    { destruct (history_core _ _ Hw1) as (_ & _ & He & _). rewrite He.
      unfold entries_of, set_running. by rewrite Hinst. }
    destruct (installed_core _ _ (history_core _ _ Hw1) Hinst_t)
      as [inst1 Hinst1].
    match goal with |- context [if ?b then _ else _] => destruct b end;
      [done|].
    set (w2 := set_running false w1).
    set (address := fresh (dom (constructionStacks w2))).
    set (definition := {| def_name := name; def_localName := localName';
                          def_constructor := constructor;
                          observedAttributes := observed;
                          lifecycleCallbacks := callbacks;
                          constructionStack := address |}).
    set (w3 := with_constructionStacks _ (push_definition definition w2)).
    assert (Hd3 : definitions_of w3 = definitions_of w ++ [definition]).
    { rewrite <- Hd1. unfold w3, w2, definitions_of, push_definition,
        set_running. rewrite Hinst1. done. }
    assert (He3 : entries_of w3 = entries_of w).
    { rewrite <- He1. unfold w3, w2, entries_of, push_definition,
        set_running. rewrite Hinst1. done. }
    match goal with
    | |- bind ?r4 _ = _ -> _ =>
        assert (H4 : ends (fun w4 => registry_of w4 = registry_of w3) r4)
          by (destruct (document_loading w3);
              [done|apply upgrade_sweep_registry]);
        destruct r4 as [[] w4|error w4|]; cbn [bind ret ends] in *;
        [|done|done]
    end.
    intros [= <-]. exists definition.
    assert (Hreg : registry_of (resolve_whenDefined name w4) = registry_of w4).
    { unfold resolve_whenDefined.
      destruct (installation w4) as [inst4|]; [|done].
      by destruct (bool_decide _). }
    split.
    { rewrite <- Hd3. apply definitions_of_registry. congruence. }
    split; [done|]. split; [done|]. split; [done|].
    intros Hentry. rewrite <- He3, <- (entries_of_registry _ _ H4) in Hentry.
    unfold resolve_whenDefined, entries_of in *.
    destruct (installation w4) as [inst4|]; [|by apply elem_of_nil in Hentry].
    rewrite bool_decide_eq_true_2 by done. cbn.
    apply elem_of_app. right. by apply list_elem_of_singleton. }
  destruct exit as [[] w1|error w1|]; [| |done].
  - intros H. by apply (Hfin None w1 Htry).
  - intros H. by apply (Hfin (Some error) w1 Htry).
Qed.

(** The function that [define] hands to [executeCEReactions]: with
    [extends], the code that runs when [testElement] is read may register
    definitions of its own first. *)
Lemma define_body_registers (name : jsstring) (constructor : classid)
  (extends : option jsstring) (w w' : World) :
  define_body prog rec name constructor extends w = Ok tt w' ->
  isValidCustomElementName name = true
  /\ exists before definition,
       definitions_of w' = definitions_of w ++ before ++ [definition]
       /\ (reads_nothing prog rec extends -> before = [])
       /\ def_name definition = name
       /\ def_constructor definition = constructor
       /\ def_localName definition = default name extends
       /\ (name ∈ entries_of w -> ResolveWhenDefined name ∈ microtasks w').
Proof.
  unfold define_body.
  destruct (installation w) as [inst|] eqn:Hinst; [|done].
  destruct (negb (prototype_constructor_is_self _)); [done|].
  destruct (isValidCustomElementName name) eqn:Hvalid; cbn [negb]; [|done].
  destruct extends as [extensionOf|].
  - destruct (isValidCustomElementName extensionOf); [done|].
    destruct (testElement_constructor_get prog) as [getter|] eqn:Hget;
      [|done].
    pose proof (rec_respects (RunScript getter) w) as Hr.
    destruct (rec (RunScript getter) w) as [[] w0|error w0|] eqn:Hrun;
      cbn [bind]; [|done|done].
    intros Hreg. split; [done|].
    destruct (define_registration_registers _ _ _ _ _ _ Hreg)
      as (definition & Hd & Hname & Hctor & Hlocal & Hres).
    destruct (history_core _ _ Hr) as (_ & (before & Hb) & He & Hm & _).
    exists before, definition. split; [by rewrite Hd, Hb, app_assoc|].
    split.
    { intros [Hnone|Hsame]; [done|].
      rewrite (Hsame getter w w0 Hget Hrun) in Hb.
      by apply (inj (app (definitions_of w))); rewrite <- Hb, app_nil_r. }
    split; [done|]. split; [done|]. split; [done|].
    intros Hentry. apply Hres. by rewrite He.
  - intros Hreg. split; [done|].
    destruct (define_registration_registers _ _ _ _ _ _ Hreg)
      as (definition & Hd & Hname & Hctor & Hlocal & Hres).
    by exists [], definition.
Qed.

Lemma define_registers (name : jsstring) (constructor : classid)
  (extends : option jsstring) (w w' : World) :
  define prog rec name constructor extends w = Ok tt w' ->
  isValidCustomElementName name = true
  /\ exists before definition added,
       definitions_of w' = definitions_of w ++ before ++ definition :: added
       /\ (reads_nothing prog rec extends -> before = [])
       /\ def_name definition = name
       /\ def_constructor definition = constructor
       /\ def_localName definition = default name extends
       /\ (name ∈ entries_of w -> ResolveWhenDefined name ∈ microtasks w').
Proof.
  unfold define, executeCEReactions.
  destruct (installation w) as [inst|] eqn:Hinst.
  2:{ unfold define_body. by rewrite Hinst. }
  set (w1 := with_installation _ w).
  assert (Hd1 : definitions_of w1 = definitions_of w)
    by (unfold w1, definitions_of; cbn; by rewrite Hinst).
  assert (He1 : entries_of w1 = entries_of w)
    by (unfold w1, entries_of; cbn; by rewrite Hinst).
  destruct (define_body prog rec name constructor extends w1)
    as [[] w2|error w2|] eqn:Hbody; cbn [bind]; [|done|done].
  destruct (define_body_registers _ _ _ _ _ Hbody)
    as (Hvalid & before & definition & Hd2 & Hbefore & Hname & Hctor & Hlocal
        & Hres).
  destruct (installation w2) as [inst2|] eqn:Hinst2; [|done].
  destruct (array_pop _) as [[below queue]|]; [|done].
  set (w3 := with_installation _ w2).
  pose proof (rec_respects (InvokeReactions (PoppedQueue queue) 0) w3) as Hr.
  intros Hrec. rewrite Hrec in Hr.
  destruct (history_core _ _ Hr) as (_ & (added & Hd) & _ & Hm & _).
  split; [done|]. exists before, definition, added.
  split.
  { rewrite Hd. unfold w3, definitions_of at 1. cbn.
    unfold definitions_of in Hd2 at 1. rewrite Hinst2 in Hd2.
    rewrite Hd2, Hd1, <- !app_assoc. done. }
  split; [done|]. split; [done|]. split; [done|]. split; [done|].
  intros Hentry. rewrite <- He1 in Hentry.
  eapply elem_of_prefix; [|exact Hm]. unfold w3. cbn. by apply Hres.
Qed.

End DefineRegisters.

Section RegistryTheorems.

Import CustomElementRegistry.

Variable prog : Program.

Lemma eval_define_inv (fuel : nat) (name : jsstring) (constructor : classid)
  (extends : option jsstring) (w w' : World) :
  eval prog fuel (RunScript [Define name constructor extends]) w = ret w' ->
  exists n, define prog (eval prog n) name constructor extends w = Ok tt w'.
Proof.
  destruct fuel as [|n]; [done|]. cbn [eval step run_script exec_cmd].
  intros H. exists n.
  destruct (define prog (eval prog n) name constructor extends w)
    as [[] w1|error w1|]; cbn in H; [|done|done].
  by injection H as ->.
Qed.

(** X7.  After a [define] that returns, [get] answers with the constructor
    just registered, provided the name was not registered before and the
    call ran no code of the page that could register it first: a [define]
    without [extends], or one on a page whose [testElement] is read without
    an accessor. *)
Theorem define_then_get (fuel : nat) (name : jsstring) (constructor : classid)
  (extends : option jsstring) (w w' : World) (r : Registry) :
  registry_of w = Some r ->
  get r name = None ->
  extends = None \/ testElement_constructor_get prog = Some [] ->
  eval prog fuel (RunScript [Define name constructor extends]) w = ret w' ->
  exists r', registry_of w' = Some r' /\ get r' name = Some constructor.
Proof.
  intros Hr Hget Hplain Hrun.
  destruct (eval_define_inv _ _ _ _ _ _ Hrun) as [n Hdef].
  destruct (define_registers prog (eval prog n) (eval_respects prog n)
              _ _ _ _ _ Hdef)
    as (_ & before & definition & added & Hd & Hbefore & Hname & Hctor & _).
  rewrite Hbefore in Hd.
  2:{ destruct Hplain as [->|Hplain]; [by left|right].
      intros getter w1 w0 Hgetter Hread.
      rewrite Hplain in Hgetter. injection Hgetter as <-.
      destruct n as [|m]; [done|]. cbn in Hread. by injection Hread. }
  pose proof (eval_respects prog fuel
                (RunScript [Define name constructor extends]) w) as Hh.
  rewrite Hrun in Hh.
  destruct (registry_of_lasting w w' r (history_lasting _ _ Hh) Hr)
    as (r' & _ & Hr' & _).
  exists r'. split; [done|].
  rewrite (registry_of_definitions _ _ Hr),
    (registry_of_definitions _ _ Hr') in Hd.
  unfold get in *. rewrite Hd.
  destruct (find _ (definitions r)) eqn:Hfind; [done|].
  rewrite (find_app_r _ _ _ Hfind). cbn.
  unfold jsstring_eqb. rewrite Hname, bool_decide_eq_true_2 by done.
  cbn. by rewrite Hctor.
Qed.

Lemma existsb_name (name : jsstring) (l : list CustomElementDefinition)
  (definition : CustomElementDefinition) :
  definition ∈ l -> def_name definition = name ->
  existsb (fun d => jsstring_eqb name (def_name d)) l = true.
Proof.
  intros Hin Hname. apply existsb_exists. exists definition.
  split; [by apply list_elem_of_In|].
  unfold jsstring_eqb. by rewrite Hname, bool_decide_eq_true_2.
Qed.

(** X8.  A promise that [whenDefined] handed out for a name not yet
    defined is resolved by a microtask that the [define] of that name
    schedules, and after that [define], [whenDefined] answers with a
    resolved promise and changes nothing. *)
Theorem whenDefined_resolved_by_define (fuel : nat) (name : jsstring)
  (constructor : classid) (extends : option jsstring) (fresh : nat)
  (promise : DefinedPromise) (w w1 w2 : World) :
  whenDefined true fresh name w = Ok promise w1 ->
  eval prog fuel (RunScript [Define name constructor extends]) w1 = ret w2 ->
  (promise = EntryPromise name ->
   ResolveWhenDefined name ∈ microtasks w2)
  /\ forall fresh',
       whenDefined true fresh' name w2 = Ok (ResolvedPromise fresh') w2.
Proof.
  intros Hwhen Hrun.
  destruct (eval_define_inv _ _ _ _ _ _ Hrun) as [n Hdef].
  destruct (define_registers prog (eval prog n) (eval_respects prog n)
              _ _ _ _ _ Hdef)
    as (Hvalid & before & definition & added & Hd & _ & Hname & Hctor & _
        & Hres).
  split.
  - intros ->. apply Hres. revert Hwhen. unfold whenDefined, entries_of.
    destruct (installation w) as [inst|] eqn:Hinst; [|done]. cbn [negb].
    destruct (negb _); [done|]. destruct (existsb _ _); [done|].
    destruct (bool_decide _) eqn:Hin; intros [= <-].
    + rewrite Hinst. by apply bool_decide_eq_true_1 in Hin.
    + cbn. apply elem_of_app. right. by apply list_elem_of_singleton.
  - intros fresh'.
    pose proof (eval_respects prog fuel
                  (RunScript [Define name constructor extends]) w1) as Hh.
    rewrite Hrun in Hh.
    unfold whenDefined. rewrite Hvalid. cbn [negb].
    unfold definitions_of in Hd.
    destruct (installation w2) as [inst2|] eqn:Hinst2.
    + rewrite (existsb_name name _ definition); [done| |done].
      rewrite Hd. apply elem_of_app. right. apply elem_of_app. right.
      by apply list_elem_of_here.
    + apply (f_equal length) in Hd. rewrite !length_app in Hd.
      cbn in Hd. lia.
Qed.

(** X9.  Asking [whenDefined] again for a name that is not defined gives
    the promise of the entry of the name, the one the first call gave, and
    changes nothing; for a defined name every call makes a promise of its
    own, already resolved, and changes nothing either. *)
Theorem whenDefined_twice (promisesSupported : bool) (fresh fresh' : nat)
  (name : jsstring) (promise : DefinedPromise) (w w1 : World) :
  whenDefined promisesSupported fresh name w = Ok promise w1 ->
  fresh' <> fresh ->
  match promise with
  | EntryPromise _ =>
      whenDefined promisesSupported fresh' name w1 = Ok promise w1
  | ResolvedPromise _ =>
      w1 = w
      /\ exists promise',
           whenDefined promisesSupported fresh' name w1 = Ok promise' w1
           /\ promise' <> promise
  end.
Proof.
  unfold whenDefined. intros Hfirst Hfresh. revert Hfirst.
  destruct (installation w) as [inst|] eqn:Hinst; [|done].
  destruct promisesSupported; cbn [negb]; [|done].
  destruct (isValidCustomElementName name); cbn [negb]; [|done].
  destruct (existsb _ _) eqn:He.
  { intros [= <- <-]. split; [done|]. rewrite Hinst, He.
    eexists. split; [reflexivity|]. by intros [= ->]. }
  destruct (bool_decide _) eqn:Hin; intros [= <- <-].
  - by rewrite Hinst, He, Hin.
  - cbn. rewrite He. rewrite bool_decide_eq_true_2; [done|].
    apply elem_of_app. right. by apply list_elem_of_singleton.
Qed.

End RegistryTheorems.

(** ** Looking a definition up *)

Section LookupTheorems.

Import CustomElementRegistry.

Lemma find_ext_Forall {A : Type} (f g : A -> bool) (P : A -> Prop)
  (l : list A) :
  Forall P l -> (forall x, P x -> f x = g x) -> find f l = find g l.
Proof.
  intros Hall Hfg. induction Hall as [|x l Hx _ IH]; [done|].
  cbn. rewrite (Hfg x Hx), IH. done.
Qed.

Lemma definition_matches_autonomous (localName' : jsstring)
  (is' : option jsstring) (definition : CustomElementDefinition) :
  autonomous definition ->
  definition_matches localName' is' definition
  = jsstring_eqb (def_name definition) localName'.
Proof.
  unfold autonomous, definition_matches. intros ->.
  destruct (jsstring_eqb (def_name definition) localName'); done.
Qed.

(** X10.  In a registry that holds autonomous definitions only, the [is]
    value of an element plays no part in [lookupCustomElementDefinition]:
    for an HTML element of a document with a view, the definition found is
    the first that bears the element's local name, the one whose
    constructor [get] returns for that name. *)
Theorem lookup_agrees_with_get (w : World) (inst : Installation)
  (node : DomNode) (is' : option jsstring) :
  installation w = Some inst ->
  Forall autonomous (definitions (registry inst)) ->
  namespaceURI node = Some htmlNamespace ->
  has_defaultView node = true ->
  exists found,
    lookupCustomElementDefinition w node is' = Ok found w
    /\ lookupCustomElementDefinition w node None = Ok found w
    /\ def_constructor <$> found = get (registry inst) (localName node).
Proof.
  intros Hinst Hall Hns Hview.
  exists (find (fun d => jsstring_eqb (def_name d) (localName node))
            (definitions (registry inst))).
  unfold lookupCustomElementDefinition.
  rewrite Hns, Hview, Hinst, bool_decide_eq_true_2 by done. cbn [negb].
  split; [|split; [|done]]; f_equal;
    (eapply find_ext_Forall; [exact Hall|]); intros d Hd;
    by apply definition_matches_autonomous.
Qed.

End LookupTheorems.

(** ** The initial upgrade *)

Section InitialUpgradeTheorems.

Variable prog : Program.
Variable rec : call -> World -> result.

Lemma tryToUpgradeElementSync_no_definition (element : elem) (w : World)
  (inst : Installation) :
  installation w = Some inst ->
  definitions (registry inst) = [] ->
  tryToUpgradeElementSync prog rec element w = ret w.
Proof.
  intros Hinst Hnone. unfold tryToUpgradeElementSync.
  match goal with |- (if ?b then _ else _) = _ => destruct b end; [done|].
  unfold lookupCustomElementDefinition.
  destruct (negb (bool_decide _)); [done|].
  destruct (negb (has_defaultView _)); [done|].
  by rewrite Hinst, Hnone.
Qed.

(** X11.  With nothing defined, [performInitialUpgrades] touches nothing
    and raises nothing, whatever the document holds. *)
Theorem performInitialUpgrades_without_definitions (w : World)
  (inst : Installation) :
  installation w = Some inst ->
  definitions (registry inst) = [] ->
  performInitialUpgrades prog rec w = ret w.
Proof.
  intros Hinst Hnone. unfold performInitialUpgrades.
  induction (document_order w) as [|element elements IH]; [done|].
  cbn [forEach_tryToUpgradeElementSync].
  by rewrite (tryToUpgradeElementSync_no_definition element w inst).
Qed.

End InitialUpgradeTheorems.

(** ** The order of the calls *)

Section CallOrder.

Variable prog : Program.

Lemma batch_invoked (bound : nat) (elements : list elem) :
  forall w : World,
    NoDup elements ->
    simple_queue prog bound elements w ->
    invoked (batch prog elements w)
    = invoked w
      ++ flat_map (fun element =>
                     flat_map (reaction_calls element)
                       (default [] (pending w element))) elements.
Proof.
  induction elements as [|e elements IH]; intros w Hnodup Hsimple.
  - cbn. by rewrite app_nil_r.
  - apply NoDup_cons in Hnodup as [Hnotin Hnodup].
    pose proof Hsimple as Hall.
    apply Forall_cons in Hall as [(rs & Hrs & _) Hrest].
    assert (Hhas : has_queue w e) by (by exists rs).
    cbn [batch flat_map].
    rewrite (IH (drain_element prog e w) Hnodup
               (simple_queue_drain_element prog bound e elements w Hhas Hrest)).
    destruct (drain_element_logs prog e w) as (calls & errors & -> & _ & Hlogs).
    destruct (Hlogs rs Hrs) as [-> _]. rewrite Hrs. cbn [default].
    rewrite <- app_assoc. do 2 f_equal.
    clear -Hnotin Hhas. induction elements as [|e' elements IH]; [done|].
    apply not_elem_of_cons in Hnotin as [Hne Hnotin].
    cbn [flat_map]. rewrite IH by done.
    by rewrite pending_drain_element, decide_False.
Qed.

(** X12.  [invokeReactions] on a queue without repetition, for callbacks
    that at most throw: the callbacks are called element by element in the
    order of the element queue, and for each element in the order in which
    its reactions were enqueued. *)
Theorem reactions_are_invoked_in_order (bound fuel : nat)
  (queue : list elem) (w : World) :
  NoDup queue ->
  simple_queue prog bound queue w ->
  length queue + bound + 1 < fuel ->
  exists w',
    invokeReactions prog fuel (PoppedQueue queue) w = ret w'
    /\ invoked w'
       = invoked w
         ++ flat_map (fun element =>
                        flat_map (reaction_calls element)
                          (default [] (pending w element))) queue.
Proof.
  intros Hnodup Hsimple Hfuel. exists (batch prog queue w). split.
  - unfold invokeReactions.
    by apply (invokeReactions_from_simple prog bound (PoppedQueue queue)).
  - by eapply batch_invoked.
Qed.

End CallOrder.

(** ** The name validator on the basic plane *)

Section NameValidatorTheorems.

Local Open Scope Z_scope.

Lemma utf16_basic_plane (cps : list Z) :
  Forall (fun cp => cp < 0x10000) cps -> utf16 cps = cps.
Proof.
  induction 1 as [|cp cps Hcp _ IH]; [done|].
  unfold utf16 in *. cbn [flat_map]. rewrite IH. unfold utf16_units.
  destruct (Z.ltb_spec cp 0x10000); [done|lia].
Qed.

(** X13.  For a name whose characters all lie in the basic plane,
    [isValidCustomElementName] decides exactly the grammar: not reserved,
    a lower-case ASCII letter first, name characters after it, one of them a
    hyphen. *)
Theorem isValidCustomElementName_basic_plane (cps : list Z) :
  Forall (fun cp => cp < 0x10000) cps ->
  isValidCustomElementName (utf16 cps) = grammar_valid_name cps.
Proof.
  intros Hcps. rewrite (utf16_basic_plane cps Hcps).
  apply isValidCustomElementName_units.
Qed.

Lemma name_char_shape (c : Z) :
  name_char c = true -> ~ (0x41 <= c <= 0x5A) /\ 0x2D <= c.
Proof.
  unfold name_char, is_lower, is_digit, is_hyphen, pcen_ranges, in_range.
  cbn [existsb fst snd]. lia.
Qed.

(** X14.  What every name accepted by [isValidCustomElementName] looks
    like: it starts with a lower-case ASCII letter, it holds a hyphen after
    that, and it holds no upper-case ASCII letter and no code unit below
    the hyphen (no white space, no control character). *)
Theorem valid_name_shape (s : jsstring) :
  isValidCustomElementName s = true ->
  exists first rest,
    s = first :: rest
    /\ 0x61 <= first <= 0x7A
    /\ 0x2D ∈ rest
    /\ Forall (fun c => ~ (0x41 <= c <= 0x5A) /\ 0x2D <= c) s.
Proof.
  rewrite isValidCustomElementName_units. unfold grammar_valid_name.
  destruct s as [|first rest]; [by rewrite andb_false_r|].
  rewrite !andb_true_iff. intros (_ & (Hfirst & Hall) & Hhyphen).
  exists first, rest. split; [done|].
  assert (Hlower : 0x61 <= first <= 0x7A)
    by (unfold is_lower, in_range in Hfirst; lia).
  split; [done|]. split.
  - apply existsb_exists in Hhyphen as (c & Hin & Hc).
    unfold is_hyphen in Hc. assert (c = 0x2D) as -> by lia.
    by apply list_elem_of_In.
  - apply Forall_cons. split; [lia|].
    apply Forall_forall. intros c Hc. apply name_char_shape.
    rewrite forallb_forall in Hall. by apply Hall, list_elem_of_In.
Qed.

End NameValidatorTheorems.

(** ** Upgrades and callbacks from end to end *)

Section LogsFrame.

Lemma enqueueCallbackReaction_logs (element : elem)
  (callbackName : callback_name) (args : list value) (w : World) :
  ends (fun w' => invoked w' = invoked w /\ reported w' = reported w)
    (enqueueCallbackReaction element callbackName args w).
Proof.
  unfold enqueueCallbackReaction.
  destruct (getPrivateState w element) as [st|]; [|done].
  destruct (customElementDefinition st); [|done].
  destruct (get_callback _ _); [|done].
  destruct (_ && _); [done|]. cbn [ends ret].
  match goal with
  | |- context [enqueueElementOnAppropriateElementQueue ?e ?w0] =>
      destruct (enqueueElement_frame e w0) as (_ & _ & _ & Hr & Hi)
  end.
  cbv zeta in Hr, Hi. by rewrite Hr, Hi.
Qed.

Lemma enqueue_attributes_logs (element : elem) (attrs : list Attr) :
  forall w : World,
    ends (fun w' => invoked w' = invoked w /\ reported w' = reported w)
      (enqueue_attributes element attrs w).
Proof.
  induction attrs as [|a attrs IH]; intros w; [done|].
  cbn [enqueue_attributes].
  pose proof (enqueueCallbackReaction_logs element
                CE_CALLBACK_ATTRIBUTE_CHANGED (attribute_args a) w) as H1.
  destruct (enqueueCallbackReaction _ _ _ w) as [[] w1|error w1|];
    cbn [bind ends] in *; [|done|done].
  pose proof (IH w1) as H2.
  destruct (enqueue_attributes element attrs w1); cbn [ends] in *;
    [| |done]; destruct H1 as [Hi Hr]; rewrite <- Hi, <- Hr; exact H2.
Qed.

Lemma enqueue_backlog_logs (element : elem) (w : World) :
  ends (fun w' => invoked w' = invoked w /\ reported w' = reported w)
    (enqueue_backlog element w).
Proof.
  unfold enqueue_backlog.
  pose proof (enqueue_attributes_logs element
                (attributes (node_of w element)) w) as H1.
  destruct (enqueue_attributes _ _ w) as [[] w1|error w1|];
    cbn [bind ends] in *; [|done|done].
  destruct (isConnected _); [|done].
  pose proof (enqueueCallbackReaction_logs element CE_CALLBACK_CONNECTED []
                w1) as H2.
  destruct (enqueueCallbackReaction _ _ _ w1); cbn [ends] in *;
    [| |done]; destruct H1 as [Hi Hr]; rewrite <- Hi, <- Hr; exact H2.
Qed.

End LogsFrame.

Section SynchronousUpgrade.

Variable prog : Program.

(** X15.  [tryToUpgradeElementSync] for an element that has no record yet
    and a definition whose constructor does nothing but return the element:
    when the call returns the element is custom, and its attribute and
    connection callbacks wait in its reaction queue, in that order, none of
    them called yet. *)
Theorem tryToUpgradeElementSync_upgrades (fuel : nat) (element : elem)
  (definition : CustomElementDefinition) (w : World) (inst : Installation) :
  installation w = Some inst ->
  getPrivateState w element = None ->
  namespaceURI (node_of w element) = Some htmlNamespace ->
  has_defaultView (node_of w element) = true ->
  find (definition_matches (localName (node_of w element)) None)
    (definitions (registry inst)) = Some definition ->
  construct_body (classes prog (def_constructor definition)) = [] ->
  construct_yield (classes prog (def_constructor definition)) element
  = element ->
  exists w',
    tryToUpgradeElementSync prog (eval prog (S fuel)) element w = ret w'
    /\ getPrivateState w' element
       = Some {| customElementState := Some CE_STATE_CUSTOM;
                 customElementDefinition := Some definition;
                 reactionQueue :=
                   Some (backlog definition (node_of w element));
                 isValue := None |}
    /\ invoked w' = invoked w.
Proof.
  intros Hinst Hnone Hns Hview Hfind Hbody Hyield.
  unfold tryToUpgradeElementSync. rewrite Hnone.
  unfold lookupCustomElementDefinition.
  rewrite Hns, Hview, Hinst, bool_decide_eq_true_2 by done. cbn [negb bind].
  rewrite Hfind.
  unfold upgradeElement, upgrade_prepare. rewrite Hnone.
  set (st0 := {| customElementState := None;
                 customElementDefinition := Some definition;
                 reactionQueue := Some []; isValue := None |}).
  set (w0 := setPrivateState element st0 w).
  destruct (enqueue_backlog_pending element w0 st0 definition []
              (getPrivateState_setPrivateState element st0 w)
              eq_refl eq_refl)
    as (w1 & Hrun & Hst1 & Hn1 & Hc1).
  pose proof (enqueue_backlog_logs element w0) as Hlogs.
  rewrite Hrun in *. cbn [bind ret ends] in *.
  unfold construct. rewrite Hbody, Hyield, bool_decide_eq_true_2 by done.
  cbn [eval step run_script bind ret].
  unfold upgrade_finish. cbn [ret].
  eexists. split; [reflexivity|]. split.
  - unfold getPrivateState in *. cbn. rewrite lookup_alter_eq, Hst1. done.
  - cbn. by destruct Hlogs as [-> _].
Qed.

End SynchronousUpgrade.

Section SynchronousCallback.

Variable prog : Program.

Lemma set_stack_same (inst : Installation) (s1 s2 : list (list elem)) :
  set_stack (customElementsReactionStack inst) (set_stack s1 (set_stack s2 inst))
  = inst.
Proof. by destruct inst. Qed.

Lemma enqueueElement_on_stack (element : elem) (w : World)
  (inst : Installation) (below : list (list elem)) (top : list elem) :
  installation w = Some inst ->
  customElementsReactionStack inst = below ++ [top] ->
  enqueueElementOnAppropriateElementQueue element w
  = with_installation (Some (set_stack (below ++ [top ++ [element]]) inst)) w.
Proof.
  intros Hinst Hstack. unfold enqueueElementOnAppropriateElementQueue.
  by rewrite Hinst, Hstack, array_pop_app.
Qed.

(** X16.  An attribute change reported inside [executeCEReactions] for a
    custom element that observes the attribute and has nothing pending, the
    callback at most throwing: the callback is called once, with the name,
    the old value, the new value and the namespace, before
    [executeCEReactions] returns; what it throws is reported; nothing is
    left pending and nothing is scheduled. *)
Theorem attribute_change_is_synchronous (fuel : nat) (element : elem)
  (st : ElementState) (definition : CustomElementDefinition)
  (callback : fnid) (attrName oldValue newValue nameSpace : value)
  (w : World) (inst : Installation) :
  installation w = Some inst ->
  is_element (node_of w element) = true ->
  getPrivateState w element = Some st ->
  customElementState st = Some CE_STATE_CUSTOM ->
  customElementDefinition st = Some definition ->
  reactionQueue st = Some [] ->
  attributeChangedCallback (lifecycleCallbacks definition) = Some callback ->
  attrName ∈ observedAttributes definition ->
  throws_only (functions prog callback) ->
  4 < fuel ->
  exists w',
    eval prog fuel
      (RunScript
         [ExecuteCEReactions
            [AttributeChangeSteps element attrName oldValue newValue
               nameSpace]]) w = ret w'
    /\ invoked w'
       = invoked w
         ++ [(element, callback, [attrName; oldValue; newValue; nameSpace])]
    /\ reported w' = reported w ++ script_error (functions prog callback)
    /\ getPrivateState w' element = Some st
    /\ installation w' = Some inst
    /\ microtasks w' = microtasks w.
Proof.
  intros Hinst Helem Hst Hcustom Hdef Hq Hcb Hobs Hbody Hfuel.
  destruct fuel as [|n1]; [lia|]. rewrite eval_S.
  cbn [step run_script exec_cmd]. unfold executeCEReactions.
  rewrite Hinst. cbv zeta.
  set (w1 := with_installation _ w).
  destruct n1 as [|n2]; [lia|]. rewrite (eval_S prog n2 (RunScript _)).
  cbn [step run_script exec_cmd].
  assert (Hcustom1 : isCustom w1 element = true).
  { unfold isCustom. change (node_of w1 element) with (node_of w element).
    rewrite Helem. change (getPrivateState w1 element)
      with (getPrivateState w element). by rewrite Hst, Hcustom. }
  rewrite Hcustom1.
  set (args := [attrName; oldValue; newValue; nameSpace]).
  assert (Hreact : callback_reactions definition
                     CE_CALLBACK_ATTRIBUTE_CHANGED args
                   = [CallbackReaction callback args]).
  { unfold callback_reactions. cbn [get_callback]. rewrite Hcb.
    rewrite bool_decide_eq_true_2 by done.
    rewrite (bool_decide_eq_true_2 (first_arg args ∈ _)) by done. done. }
  rewrite (enqueueCallbackReaction_spec element CE_CALLBACK_ATTRIBUTE_CHANGED
             args w1 st definition Hst Hdef), Hreact, Hq.
  cbn [default from_option id app bind ret].
  set (st1 := set_reactionQueue (Some [CallbackReaction callback args]) st).
  rewrite (enqueueElement_on_stack element (setPrivateState element st1 w1)
             (set_stack (customElementsReactionStack inst ++ [[]]) inst)
             (customElementsReactionStack inst) []) by done.
  cbn [app installation with_installation customElementsReactionStack
         set_stack].
  rewrite array_pop_app.
  match goal with
  | |- context [eval prog (S n2) (InvokeReactions (PoppedQueue _) 0) ?w3] =>
      set (w3' := w3)
  end.
  assert (Hst3 : getPrivateState w3' element = Some st1).
  { unfold w3', getPrivateState. cbn. by rewrite lookup_insert_eq. }
  rewrite (invokeReactions_from_simple prog 1 (PoppedQueue [element])
             [element] 0 (S n2) w3').
  2:{ done. }
  2:{ apply Forall_singleton. exists [CallbackReaction callback args].
      unfold pending. rewrite Hst3. split; [done|].
      split; [by apply Forall_singleton|cbn; lia]. }
  2:{ cbn. lia. }
  cbn [bind ret batch]. eexists. split; [reflexivity|].
  unfold drain_element. rewrite Hst3. cbn [reactionQueue st1 set_reactionQueue].
  unfold drained. cbn [flat_map reaction_calls reaction_errors app].
  rewrite !app_nil_r.
  split; [done|]. split; [done|]. split.
  { unfold getPrivateState, setPrivateState. cbn.
    rewrite lookup_insert_eq. f_equal. destruct st; cbn in *. by subst. }
  split; [|done].
  cbn. f_equal. apply set_stack_same.
Qed.

End SynchronousCallback.

Section Lifecycle.

Variable prog : Program.

(** An element queue that holds one element whose only pending reaction is
    its upgrade: the constructor runs, the element becomes custom, and the
    callbacks that the upgrade enqueued are called in the same visit. *)
Lemma upgrade_reaction_runs (n : nat) (element : elem)
  (definition : CustomElementDefinition) (w : World) (st : ElementState) :
  getPrivateState w element = Some st ->
  shouldNotUpgrade st = false ->
  customElementDefinition st = Some definition ->
  reactionQueue st = Some [UpgradeReaction definition] ->
  construct_body (classes prog (def_constructor definition)) = [] ->
  construct_yield (classes prog (def_constructor definition)) element
  = element ->
  Forall (simple_reaction prog) (backlog definition (node_of w element)) ->
  length (backlog definition (node_of w element)) < n ->
  exists w',
    eval prog (S (S (S n))) (InvokeReactions (PoppedQueue [element]) 0) w
    = ret w'
    /\ getPrivateState w' element
       = Some (set_reactionQueue (Some [])
                 (set_customElementState (Some CE_STATE_CUSTOM) st))
    /\ invoked w'
       = invoked w
         ++ flat_map (reaction_calls element)
              (backlog definition (node_of w element))
    /\ reported w'
       = reported w
         ++ flat_map (reaction_errors prog)
              (backlog definition (node_of w element)).
Proof.
  intros Hst Hnot Hdef Hq Hbody Hyield Hsimple Hlen.
  rewrite eval_S. cbn [step]. unfold invokeReactions_from.
  cbn [read_queue lookup list_lookup]. rewrite Hst, Hq.
  rewrite (eval_S prog (S n) (WhileReactions element)). cbn [step].
  unfold while_reactions at 1. rewrite Hst, Hq. cbn [invoke_reaction].
  set (st_b := set_reactionQueue (Some []) st).
  set (w_a := setPrivateState element st_b w).
  assert (Hst_a : getPrivateState w_a element = Some st_b)
    by apply getPrivateState_setPrivateState.
  assert (Hnode_a : node_of w_a element = node_of w element) by done.
  destruct (enqueue_backlog_pending element w_a st_b definition []
              Hst_a Hdef eq_refl)
    as (w_b & Hrun & Hst_bk & Hn_b & Hc_b).
  rewrite Hnode_a in Hst_bk. cbn [app] in Hst_bk.
  pose proof (enqueue_backlog_logs element w_a) as Hlogs.
  rewrite Hrun in Hlogs. cbn [ends] in Hlogs. destruct Hlogs as [Hinv Hrep].
  assert (Hup : upgradeElement prog (eval prog (S n)) element definition w_a
                = ret (with_privateState
                         (alter (set_customElementState (Some CE_STATE_CUSTOM))
                            element
                            (privateState
                               (constructionStack_pop definition
                                  (constructionStack_push definition element
                                     w_b))))
                         (constructionStack_pop definition
                            (constructionStack_push definition element w_b)))).
  { unfold upgradeElement, upgrade_prepare. rewrite Hst_a.
    assert (shouldNotUpgrade st_b = false) as -> by (by destruct st).
    rewrite Hrun. cbn [bind ret].
    unfold construct. rewrite Hbody, Hyield, bool_decide_eq_true_2 by done.
    cbn [eval step run_script bind ret]. reflexivity. }
  rewrite Hup. unfold ret at 1. cbv iota.
  match goal with
  | |- context [eval prog (S n) (WhileReactions element) ?w0] =>
      set (w_c := w0)
  end.
  set (st_c := set_customElementState (Some CE_STATE_CUSTOM)
                 (set_reactionQueue
                    (Some (backlog definition (node_of w element))) st_b)).
  assert (Hst_c : getPrivateState w_c element = Some st_c).
  { unfold w_c, getPrivateState in *. cbn.
    rewrite lookup_alter_eq, Hst_bk. done. }
  rewrite (while_reactions_simple prog
             (backlog definition (node_of w element)) (S n) element st_c w_c
             Hst_c eq_refl Hsimple) by lia.
  cbn [bind ret].
  rewrite (eval_S prog (S n) (InvokeReactions _ 1)). cbn [step].
  unfold invokeReactions_from. cbn [read_queue lookup list_lookup].
  eexists. split; [reflexivity|].
  unfold drained. split; [|split].
  - unfold getPrivateState, setPrivateState. cbn. rewrite lookup_insert_eq.
    by destruct st.
  - cbn. by rewrite Hinv.
  - cbn. by rewrite Hrep.
Qed.

(** X17.  Reporting, inside [executeCEReactions], the insertion of a
    connected element that has no record yet and a definition whose
    constructor does nothing but return the element, the callbacks at most
    throwing: before [executeCEReactions] returns the element is custom and
    its callbacks were called, [attributeChangedCallback] for every
    observed attribute in attribute order first, [connectedCallback]
    last. *)
Theorem insertion_runs_the_lifecycle (fuel : nat) (element : elem)
  (definition : CustomElementDefinition) (w : World) (inst : Installation) :
  installation w = Some inst ->
  getPrivateState w element = None ->
  isConnected (node_of w element) = true ->
  namespaceURI (node_of w element) = Some htmlNamespace ->
  has_defaultView (node_of w element) = true ->
  find (definition_matches (localName (node_of w element)) None)
    (definitions (registry inst)) = Some definition ->
  construct_body (classes prog (def_constructor definition)) = [] ->
  construct_yield (classes prog (def_constructor definition)) element
  = element ->
  Forall (simple_reaction prog) (backlog definition (node_of w element)) ->
  length (backlog definition (node_of w element)) + 4 < fuel ->
  exists w',
    eval prog fuel (RunScript [ExecuteCEReactions [InsertingSteps element]]) w
    = ret w'
    /\ getPrivateState w' element
       = Some {| customElementState := Some CE_STATE_CUSTOM;
                 customElementDefinition := Some definition;
                 reactionQueue := Some []; isValue := None |}
    /\ invoked w'
       = invoked w
         ++ flat_map (reaction_calls element)
              (backlog definition (node_of w element))
    /\ reported w'
       = reported w
         ++ flat_map (reaction_errors prog)
              (backlog definition (node_of w element)).
Proof.
  intros Hinst Hnone Hconn Hns Hview Hfind Hbody Hyield Hsimple Hfuel.
  destruct fuel as [|n1]; [lia|]. rewrite eval_S.
  cbn [step run_script exec_cmd]. unfold executeCEReactions.
  rewrite Hinst. cbv zeta.
  set (w1 := with_installation _ w).
  destruct n1 as [|n2]; [lia|]. rewrite (eval_S prog n2 (RunScript _)).
  cbn [step run_script exec_cmd].
  change (node_of w1 element) with (node_of w element). rewrite Hconn.
  assert (Hnot : isCustom w1 element = false).
  { unfold isCustom. change (getPrivateState w1 element)
      with (getPrivateState w element). rewrite Hnone.
    by destruct (negb _). }
  rewrite Hnot. unfold tryToUpgradeElement.
  change (getPrivateState w1 element) with (getPrivateState w element).
  rewrite Hnone. unfold lookupCustomElementDefinition.
  change (node_of w1 element) with (node_of w element).
  rewrite Hns, Hview, bool_decide_eq_true_2 by done.
  cbn [negb installation w1 with_installation registry set_stack bind].
  rewrite Hfind. unfold enqueueUpgradeReaction.
  change (getPrivateState w1 element) with (getPrivateState w element).
  rewrite Hnone. cbn [set_customElementDefinition reactionQueue app
                        set_reactionQueue customElementState isValue
                        customElementDefinition].
  set (st_a := {| customElementState := None;
                  customElementDefinition := Some definition;
                  reactionQueue := Some [UpgradeReaction definition];
                  isValue := None |}).
  change (set_reactionQueue _ (set_customElementDefinition _ _)) with st_a.
  rewrite (enqueueElement_on_stack element (setPrivateState element st_a w1)
             (set_stack (customElementsReactionStack inst ++ [[]]) inst)
             (customElementsReactionStack inst) []) by done.
  cbn [app bind ret installation with_installation
         customElementsReactionStack set_stack].
  rewrite array_pop_app.
  match goal with
  | |- context [eval prog (S n2) (InvokeReactions (PoppedQueue _) 0) ?w3] =>
      set (w3' := w3)
  end.
  assert (Hst3 : getPrivateState w3' element = Some st_a).
  { unfold w3', getPrivateState. cbn. by rewrite lookup_insert_eq. }
  assert (Hnode3 : node_of w3' element = node_of w element) by done.
  destruct n2 as [|n3]; [lia|]. destruct n3 as [|n4]; [lia|].
  destruct (upgrade_reaction_runs n4 element definition w3' st_a Hst3
              eq_refl eq_refl eq_refl Hbody Hyield)
    as (w' & Hrun & Hst' & Hinv & Hrep).
  { by rewrite Hnode3. }
  { rewrite Hnode3. lia. }
  rewrite Hrun. cbn [bind ret]. exists w'. split; [done|].
  rewrite Hnode3 in Hinv, Hrep. done.
Qed.

End Lifecycle.

Section DefineUpgrades.

Variable prog : Program.

Lemma define_try_plain (n : nat) (class : ClassDecl) (w : World) :
  plain_class class ->
  define_try (eval prog (S n)) class w
  = (callbacks_of class,
     match attributeChangedCallback (callbacks_of class) with
     | Some _ => default [] (snd (observedAttributes_get class))
     | None => []
     end,
     ret w).
Proof.
  intros (_ & Hobj & Hget & Hobs & _). unfold define_try.
  rewrite Hobj. cbn [negb]. unfold callback_names.
  repeat (cbn [read_callbacks]; unfold getCallback; rewrite Hget;
          cbn [eval step run_script bind ret]).
  cbn [read_callbacks set_callback no_callbacks connectedCallback
         disconnectedCallback adoptedCallback attributeChangedCallback].
  unfold ret at 1. cbv iota. unfold callbacks_of.
  cbn [attributeChangedCallback].
  destruct (snd (prototype_get class CE_CALLBACK_ATTRIBUTE_CHANGED));
    [|reflexivity].
  rewrite Hobs. cbn [eval step run_script ret]. reflexivity.
Qed.

Lemma set_running_restore (w : World) (inst : Installation) :
  installation w = Some inst ->
  elementDefinitionIsRunning (registry inst) = false ->
  set_running false (set_running true w) = w.
Proof.
  intros Hinst Hrun. unfold set_running. rewrite Hinst. cbn.
  destruct w as [i p nd o ld cs m rp iv]. cbn in *. subst i.
  destruct inst as [[ds run entries] s b f]. cbn in *. by subst run.
Qed.

Lemma upgrade_sweep_skips (definition : CustomElementDefinition)
  (extensionOf : option jsstring) (visit : list elem) (w : World) :
  Forall (fun node =>
            is_candidate (def_localName definition) (node_of w node) = false)
    visit ->
  upgrade_sweep definition extensionOf visit w = ret w.
Proof.
  induction 1 as [|node visit Hnode _ IH]; [done|].
  cbn [upgrade_sweep]. unfold is_candidate in Hnode. by rewrite Hnode.
Qed.

Lemma upgrade_sweep_app_skips (definition : CustomElementDefinition)
  (extensionOf : option jsstring) (before rest : list elem) (w : World) :
  Forall (fun node =>
            is_candidate (def_localName definition) (node_of w node) = false)
    before ->
  upgrade_sweep definition extensionOf (before ++ rest) w
  = upgrade_sweep definition extensionOf rest w.
Proof.
  induction 1 as [|node visit Hnode _ IH]; [done|].
  cbn [app upgrade_sweep]. unfold is_candidate in Hnode. by rewrite Hnode.
Qed.

Lemma resolve_whenDefined_microtasks (name : jsstring) (w : World) :
  exists m, resolve_whenDefined name w = with_microtasks m w.
Proof.
  unfold resolve_whenDefined.
  destruct (installation w); [destruct (bool_decide _)|]; [by eexists| |];
    exists (microtasks w); by destruct w.
Qed.

(** The function [define] hands to [executeCEReactions], for a plain class
    and a loaded document that holds one element of the name: the element
    gets its upgrade reaction and is placed on the current element queue. *)
Lemma define_body_plain (n : nat) (name : jsstring) (constructor : classid)
  (element : elem) (before after : list elem) (w : World)
  (inst : Installation) (below : list (list elem)) (top : list elem) :
  installation w = Some inst ->
  customElementsReactionStack inst = below ++ [top] ->
  elementDefinitionIsRunning (registry inst) = false ->
  document_loading w = false ->
  document_order w = before ++ element :: after ->
  Forall (fun node => is_candidate name (node_of w node) = false)
    (before ++ after) ->
  is_candidate name (node_of w element) = true ->
  getPrivateState w element = None ->
  isValidCustomElementName name = true ->
  plain_class (classes prog constructor) ->
  exists w' inst',
    define_body prog (eval prog (S n)) name constructor None w = ret w'
    /\ installation w' = Some inst'
    /\ customElementsReactionStack inst' = below ++ [top ++ [element]]
    /\ getPrivateState w' element
       = Some {| customElementState := None;
                 customElementDefinition :=
                   Some (definition_of prog name constructor
                           (fresh (dom (constructionStacks w))));
                 reactionQueue :=
                   Some [UpgradeReaction
                           (definition_of prog name constructor
                              (fresh (dom (constructionStacks w))))];
                 isValue := None |}
    /\ nodes w' = nodes w
    /\ invoked w' = invoked w
    /\ reported w' = reported w.
Proof.
  intros Hinst Hstack Hrun Hload Hdoc Hothers Hcand Hnone Hvalid Hplain.
  apply Forall_app in Hothers as [Hbefore Hafter].
  pose proof Hplain as (Hself & _).
  unfold define_body, define_registration.
  rewrite Hinst, Hself, Hvalid, Hrun. cbn [negb].
  rewrite (define_try_plain n _ _ Hplain).
  change (ret (set_running true w)) with (Ok tt (set_running true w)).
  cbv iota beta.
  rewrite (set_running_restore w inst Hinst Hrun). cbv zeta.
  change {| def_name := name; def_localName := name;
            def_constructor := constructor;
            observedAttributes := _;
            lifecycleCallbacks := callbacks_of (classes prog constructor);
            constructionStack := fresh (dom (constructionStacks w)) |}
    with (definition_of prog name constructor
            (fresh (dom (constructionStacks w)))).
  set (definition := definition_of prog name constructor _).
  set (w3 := with_constructionStacks _ (push_definition definition w)).
  assert (Hinst3 : installation w3
                   = Some (set_registry
                             {| definitions :=
                                  definitions (registry inst) ++ [definition];
                                elementDefinitionIsRunning :=
                                  elementDefinitionIsRunning (registry inst);
                                whenDefinedPromiseMap :=
                                  whenDefinedPromiseMap (registry inst) |}
                             inst)).
  { unfold w3, push_definition. by rewrite Hinst. }
  assert (Hnodes3 : nodes w3 = nodes w)
    by (unfold w3, push_definition; by rewrite Hinst).
  assert (Hpriv3 : privateState w3 = privateState w)
    by (unfold w3, push_definition; by rewrite Hinst).
  assert (Hload3 : document_loading w3 = false)
    by (unfold w3, push_definition; by rewrite Hinst).
  assert (Hdoc3 : document_order w3 = before ++ element :: after)
    by (unfold w3, push_definition; by rewrite Hinst).
  assert (Hlogs3 : invoked w3 = invoked w /\ reported w3 = reported w)
    by (unfold w3, push_definition; by rewrite Hinst).
  rewrite Hload3, Hdoc3.
  rewrite upgrade_sweep_app_skips
    by (unfold node_of; rewrite Hnodes3; exact Hbefore).
  cbn [upgrade_sweep].
  assert (Hcand3 : is_candidate name (node_of w3 element) = true)
    by (unfold node_of; rewrite Hnodes3; exact Hcand).
  unfold is_candidate in Hcand3.
  change (def_localName definition) with name. rewrite Hcand3.
  unfold sweep_visit, enqueueUpgradeReaction.
  assert (getPrivateState w3 element = None) as ->
    by (unfold getPrivateState; by rewrite Hpriv3).
  cbn [reactionQueue set_customElementDefinition].
  set (st_a := {| customElementState := None;
                  customElementDefinition := Some definition;
                  reactionQueue := Some [UpgradeReaction definition];
                  isValue := None |}).
  change (set_reactionQueue _ (set_customElementDefinition _ _)) with st_a.
  erewrite (enqueueElement_on_stack element (setPrivateState element st_a w3))
    by (first [exact Hinst3|exact Hstack]).
  cbn [bind ret].
  set (w5 := with_installation _ (setPrivateState element st_a w3)).
  rewrite upgrade_sweep_skips
    by (unfold node_of; change (nodes w5) with (nodes w3); rewrite Hnodes3;
        exact Hafter).
  cbn [bind ret].
  destruct (resolve_whenDefined_microtasks name w5) as [m ->].
  eexists _, _. split; [reflexivity|].
  split; [reflexivity|]. split; [reflexivity|].
  split; [|split; [|split]].
  - unfold getPrivateState. cbn. by rewrite lookup_insert_eq.
  - cbn. exact Hnodes3.
  - cbn. apply Hlogs3.
  - cbn. apply Hlogs3.
Qed.

(** X18.  [define] with a plain class whose callbacks at most throw, in a
    loaded document that holds one element of the name, not yet looked at:
    before [define] returns the element is custom with the new definition
    and its callbacks were called, [attributeChangedCallback] for every
    observed attribute in attribute order first, [connectedCallback]
    last. *)
Theorem define_upgrades_the_document (fuel : nat) (name : jsstring)
  (constructor : classid) (element : elem) (before after : list elem)
  (w : World) (inst : Installation) :
  installation w = Some inst ->
  elementDefinitionIsRunning (registry inst) = false ->
  document_loading w = false ->
  document_order w = before ++ element :: after ->
  Forall (fun node => is_candidate name (node_of w node) = false)
    (before ++ after) ->
  is_candidate name (node_of w element) = true ->
  getPrivateState w element = None ->
  isValidCustomElementName name = true ->
  plain_class (classes prog constructor) ->
  Forall (simple_reaction prog)
    (backlog (definition_of prog name constructor
                (fresh (dom (constructionStacks w))))
       (node_of w element)) ->
  length (backlog (definition_of prog name constructor
                     (fresh (dom (constructionStacks w))))
            (node_of w element)) + 4 < fuel ->
  exists w',
    eval prog fuel (RunScript [Define name constructor None]) w = ret w'
    /\ getPrivateState w' element
       = Some {| customElementState := Some CE_STATE_CUSTOM;
                 customElementDefinition :=
                   Some (definition_of prog name constructor
                           (fresh (dom (constructionStacks w))));
                 reactionQueue := Some []; isValue := None |}
    /\ invoked w'
       = invoked w
         ++ flat_map (reaction_calls element)
              (backlog (definition_of prog name constructor
                          (fresh (dom (constructionStacks w))))
                 (node_of w element))
    /\ reported w'
       = reported w
         ++ flat_map (reaction_errors prog)
              (backlog (definition_of prog name constructor
                          (fresh (dom (constructionStacks w))))
                 (node_of w element)).
Proof.
  intros Hinst Hrun Hload Hdoc Hothers Hcand Hnone Hvalid Hplain Hsimple
    Hfuel.
  set (definition := definition_of prog name constructor _) in *.
  destruct fuel as [|n1]; [lia|]. rewrite eval_S.
  cbn [step run_script exec_cmd]. unfold define, executeCEReactions.
  rewrite Hinst. cbv zeta.
  set (w1 := with_installation _ w).
  destruct n1 as [|n2]; [lia|].
  destruct (define_body_plain n2 name constructor element before after w1
              (set_stack (customElementsReactionStack inst ++ [[]]) inst)
              (customElementsReactionStack inst) [])
    as (w6 & inst6 & Hbody & Hinst6 & Hstack6 & Hst6 & Hnodes6 & Hinv6 & Hrep6);
    try done.
  change ([] ++ [element]) with [element] in Hstack6.
  rewrite Hbody. cbn [bind ret]. rewrite Hinst6, Hstack6, array_pop_app.
  set (w7 := with_installation _ w6).
  assert (Hnode7 : node_of w7 element = node_of w element)
    by (unfold node_of; change (nodes w7) with (nodes w6); by rewrite Hnodes6).
  destruct n2 as [|n3]; [lia|]. destruct n3 as [|n4]; [lia|].
  destruct Hplain as (_ & _ & _ & _ & Hctor & Hyield).
  destruct (upgrade_reaction_runs prog n4 element definition w7 _ Hst6
              eq_refl eq_refl eq_refl Hctor (Hyield element))
    as (w' & Hrun' & Hst' & Hinv & Hrep).
  { by rewrite Hnode7. }
  { rewrite Hnode7. cbn [app] in Hfuel. lia. }
  rewrite Hrun'. cbn [bind ret]. exists w'. split; [done|].
  rewrite Hnode7 in Hinv, Hrep. split; [exact Hst'|].
  split; [rewrite Hinv|rewrite Hrep]; f_equal; assumption.
Qed.

End DefineUpgrades.

Section DefineWhileLoading.

Variable prog : Program.

(** X19.  While the document is still loading, [define] with a plain class
    registers the definition (and schedules the resolution of a waiting
    promise), and that is all: no element gets a record or a reaction, no
    callback is called, no element queue changes and no drain is
    scheduled. *)
Theorem define_while_loading_upgrades_nothing (fuel : nat) (name : jsstring)
  (constructor : classid) (w : World) (inst : Installation) :
  installation w = Some inst ->
  elementDefinitionIsRunning (registry inst) = false ->
  document_loading w = true ->
  isValidCustomElementName name = true ->
  plain_class (classes prog constructor) ->
  2 < fuel ->
  exists w',
    eval prog fuel (RunScript [Define name constructor None]) w = ret w'
    /\ definitions_of w'
       = definitions_of w
         ++ [definition_of prog name constructor
               (fresh (dom (constructionStacks w)))]
    /\ privateState w' = privateState w
    /\ stack_of w' = stack_of w
    /\ backup_of w' = backup_of w
    /\ invoked w' = invoked w
    /\ count_drains (microtasks w') = count_drains (microtasks w).
Proof.
  intros Hinst Hrun Hload Hvalid Hplain Hfuel.
  pose proof Hplain as (Hself & _).
  destruct fuel as [|n1]; [lia|]. rewrite eval_S.
  cbn [step run_script exec_cmd]. unfold define, executeCEReactions.
  rewrite Hinst. cbv zeta.
  set (inst1 := set_stack (customElementsReactionStack inst ++ [[]]) inst).
  set (w1 := with_installation (Some inst1) w).
  destruct n1 as [|n2]; [lia|].
  unfold define_body, define_registration.
  cbn [installation w1 with_installation registry inst1 set_stack].
  rewrite Hself, Hvalid, Hrun. cbn [negb].
  rewrite (define_try_plain prog n2 _ _ Hplain).
  change (ret (set_running true w1)) with (Ok tt (set_running true w1)).
  cbv iota beta.
  rewrite (set_running_restore w1 inst1 eq_refl Hrun). cbv zeta.
  change {| def_name := name; def_localName := name;
            def_constructor := constructor;
            observedAttributes := _;
            lifecycleCallbacks := callbacks_of (classes prog constructor);
            constructionStack := fresh (dom (constructionStacks w1)) |}
    with (definition_of prog name constructor
            (fresh (dom (constructionStacks w)))).
  set (definition := definition_of prog name constructor _).
  change (constructionStacks w1) with (constructionStacks w).
  unfold push_definition. cbn [installation w1 with_installation].
  cbn [document_loading with_constructionStacks with_installation w1].
  rewrite Hload. cbn [bind ret].
  match goal with
  | |- context [resolve_whenDefined name ?w3] =>
      destruct (resolve_whenDefined_microtasks name w3) as [m Hm];
      assert (Hcount : count_drains m = count_drains (microtasks w));
      [|rewrite Hm]
  end.
  { revert Hm. unfold resolve_whenDefined.
    cbn [installation with_constructionStacks with_installation].
    destruct (bool_decide _); intros Hm; apply (f_equal microtasks) in Hm;
      cbn in Hm; rewrite <- Hm; [|done].
    rewrite count_drains_app. cbn. lia. }
  cbn [installation with_microtasks with_constructionStacks with_installation
         customElementsReactionStack set_registry inst1 set_stack].
  rewrite array_pop_app.
  rewrite (eval_S prog n2 (InvokeReactions _ 0)). cbn [step].
  unfold invokeReactions_from. cbn [read_queue lookup list_lookup bind ret].
  eexists. split; [reflexivity|].
  unfold definitions_of, stack_of, backup_of, read_queue. cbn.
  rewrite Hinst. done.
Qed.

End DefineWhileLoading.

Section HookCallbacks.

Variable prog : Program.

(** A hook that enqueues one callback reaction for an element that has
    nothing pending, inside [executeCEReactions]: the callback is called
    before [executeCEReactions] returns. *)
Lemma hook_callback_runs (fuel : nat) (c : cmd) (element : elem)
  (st : ElementState) (definition : CustomElementDefinition)
  (callbackName : callback_name) (callback : fnid) (args : list value)
  (w : World) (inst : Installation) :
  installation w = Some inst ->
  getPrivateState w element = Some st ->
  customElementDefinition st = Some definition ->
  reactionQueue st = Some [] ->
  callback_reactions definition callbackName args
  = [CallbackReaction callback args] ->
  throws_only (functions prog callback) ->
  (forall rec w1,
      privateState w1 = privateState w -> nodes w1 = nodes w ->
      exec_cmd prog rec c w1
      = enqueueCallbackReaction element callbackName args w1) ->
  4 < fuel ->
  delivered prog fuel c element callback args w.
Proof.
  intros Hinst Hst Hdef Hq Hreact Hbody Hcmd Hfuel. unfold delivered.
  destruct fuel as [|n1]; [lia|]. rewrite eval_S.
  cbn [step run_script exec_cmd]. unfold executeCEReactions.
  rewrite Hinst. cbv zeta.
  set (w1 := with_installation _ w).
  destruct n1 as [|n2]; [lia|]. rewrite (eval_S prog n2 (RunScript _)).
  cbn [step run_script]. rewrite (Hcmd _ w1) by done.
  rewrite (enqueueCallbackReaction_spec element callbackName args w1 st
             definition Hst Hdef), Hreact, Hq.
  cbn [default from_option id app bind ret].
  set (st1 := set_reactionQueue (Some [CallbackReaction callback args]) st).
  rewrite (enqueueElement_on_stack element (setPrivateState element st1 w1)
             (set_stack (customElementsReactionStack inst ++ [[]]) inst)
             (customElementsReactionStack inst) []) by done.
  cbn [app installation with_installation customElementsReactionStack
         set_stack].
  rewrite array_pop_app.
  match goal with
  | |- context [eval prog (S n2) (InvokeReactions (PoppedQueue _) 0) ?w3] =>
      set (w3' := w3)
  end.
  assert (Hst3 : getPrivateState w3' element = Some st1).
  { unfold w3', getPrivateState. cbn. by rewrite lookup_insert_eq. }
  rewrite (invokeReactions_from_simple prog 1 (PoppedQueue [element])
             [element] 0 (S n2) w3').
  2:{ done. }
  2:{ apply Forall_singleton. exists [CallbackReaction callback args].
      unfold pending. rewrite Hst3. split; [done|].
      split; [by apply Forall_singleton|cbn; lia]. }
  2:{ cbn. lia. }
  cbn [bind ret batch]. eexists. split; [reflexivity|].
  unfold drain_element. rewrite Hst3. cbn [reactionQueue st1 set_reactionQueue].
  unfold drained. cbn [flat_map reaction_calls reaction_errors app].
  rewrite !app_nil_r.
  split; [done|]. split; [done|]. split.
  { rewrite Hst. unfold getPrivateState, setPrivateState. cbn.
    rewrite lookup_insert_eq. f_equal. destruct st; cbn in *. by subst. }
  split; [|done].
  transitivity (Some inst); [|done]. cbn. f_equal. apply set_stack_same.
Qed.

Lemma isCustom_frame (w w1 : World) (element : elem) :
  privateState w1 = privateState w -> nodes w1 = nodes w ->
  isCustom w1 element = isCustom w element.
Proof.
  intros Hp Hn. unfold isCustom, node_of, getPrivateState. by rewrite Hp, Hn.
Qed.

(** X20.  The hooks for insertion, removal and adoption, reported inside
    [executeCEReactions] for a custom element that has nothing pending, the
    callbacks at most throwing: the insertion of the connected element
    calls [connectedCallback] without arguments, a removal calls
    [disconnectedCallback] without arguments, and an adoption calls
    [adoptedCallback] with the old and the new document; each is called
    once, before [executeCEReactions] returns, and nothing is left pending
    or scheduled. *)
Theorem connection_callbacks_are_synchronous (fuel : nat) (element : elem)
  (st : ElementState) (definition : CustomElementDefinition) (w : World)
  (inst : Installation) :
  installation w = Some inst ->
  isCustom w element = true ->
  getPrivateState w element = Some st ->
  customElementDefinition st = Some definition ->
  reactionQueue st = Some [] ->
  4 < fuel ->
  (forall callback,
      connectedCallback (lifecycleCallbacks definition) = Some callback ->
      throws_only (functions prog callback) ->
      isConnected (node_of w element) = true ->
      delivered prog fuel (InsertingSteps element) element callback [] w)
  /\ (forall callback,
         disconnectedCallback (lifecycleCallbacks definition) = Some callback ->
         throws_only (functions prog callback) ->
         delivered prog fuel (RemovingSteps element) element callback [] w)
  /\ (forall callback oldDocument newDocument,
         adoptedCallback (lifecycleCallbacks definition) = Some callback ->
         throws_only (functions prog callback) ->
         delivered prog fuel (AdoptingSteps element oldDocument newDocument)
           element callback [oldDocument; newDocument] w).
Proof.
  intros Hinst Hcustom Hst Hdef Hq Hfuel.
  assert (Hhook : forall hook callback args report,
             hook <> CE_CALLBACK_ATTRIBUTE_CHANGED ->
             get_callback (lifecycleCallbacks definition) hook = Some callback ->
             throws_only (functions prog callback) ->
             (forall rec w1,
                 privateState w1 = privateState w -> nodes w1 = nodes w ->
                 exec_cmd prog rec report w1
                 = enqueueCallbackReaction element hook args w1) ->
             delivered prog fuel report element callback args w).
  { intros hook callback args report Hne Hcb Hbody Hcmd.
    apply (hook_callback_runs fuel report element st definition hook callback
             args w inst); try done.
    unfold callback_reactions. rewrite Hcb.
    by rewrite (bool_decide_eq_false_2 (hook = _)). }
  split; [|split].
  - intros callback Hcb Hbody Hconn.
    apply (Hhook CE_CALLBACK_CONNECTED); try done.
    intros rec w1 Hp Hn. cbn [exec_cmd].
    rewrite (isCustom_frame w w1 element Hp Hn), Hcustom.
    unfold node_of. rewrite Hn. fold (node_of w element). by rewrite Hconn.
  - intros callback Hcb Hbody.
    apply (Hhook CE_CALLBACK_DISCONNECTED); try done.
    intros rec w1 Hp Hn. cbn [exec_cmd].
    by rewrite (isCustom_frame w w1 element Hp Hn), Hcustom.
  - intros callback oldDocument newDocument Hcb Hbody.
    apply (Hhook CE_CALLBACK_ADOPTED); try done.
    intros rec w1 Hp Hn. cbn [exec_cmd].
    by rewrite (isCustom_frame w w1 element Hp Hn), Hcustom.
Qed.

(** X21.  An attribute change of a custom element that does not observe the
    attribute, or has no [attributeChangedCallback], leaves no trace:
    reported inside [executeCEReactions], the world is afterwards what it
    was before. *)
Theorem unobserved_attribute_change_is_ignored (fuel : nat) (element : elem)
  (st : ElementState) (definition : CustomElementDefinition)
  (attrName oldValue newValue nameSpace : value) (w : World)
  (inst : Installation) :
  installation w = Some inst ->
  isCustom w element = true ->
  getPrivateState w element = Some st ->
  customElementDefinition st = Some definition ->
  attributeChangedCallback (lifecycleCallbacks definition) = None
  \/ attrName ∉ observedAttributes definition ->
  1 < fuel ->
  eval prog fuel
    (RunScript
       [ExecuteCEReactions
          [AttributeChangeSteps element attrName oldValue newValue nameSpace]])
    w = ret w.
Proof.
  intros Hinst Hcustom Hst Hdef Hnot Hfuel.
  destruct fuel as [|n1]; [lia|]. rewrite eval_S.
  cbn [step run_script exec_cmd]. unfold executeCEReactions.
  rewrite Hinst. cbv zeta.
  set (w1 := with_installation _ w).
  destruct n1 as [|n2]; [lia|]. rewrite (eval_S prog n2 (RunScript _)).
  cbn [step run_script exec_cmd].
  rewrite (isCustom_frame w w1 element) by done. rewrite Hcustom.
  rewrite (enqueueCallbackReaction_spec element CE_CALLBACK_ATTRIBUTE_CHANGED
             _ w1 st definition Hst Hdef).
  assert (callback_reactions definition CE_CALLBACK_ATTRIBUTE_CHANGED
            [attrName; oldValue; newValue; nameSpace] = []) as ->.
  { unfold callback_reactions. cbn [get_callback first_arg].
    destruct Hnot as [->|Hnot]; [done|].
    destruct (attributeChangedCallback _); [|done].
    by rewrite bool_decide_eq_true_2, (bool_decide_eq_false_2 (_ ∈ _)). }
  cbn [bind ret installation w1 with_installation customElementsReactionStack
         set_stack].
  rewrite array_pop_app.
  rewrite (eval_S prog n2 (InvokeReactions _ 0)). cbn [step].
  unfold invokeReactions_from. cbn [read_queue lookup list_lookup bind ret].
  f_equal. unfold w1.
  destruct w as [i p nd o ld cs m rp iv]. cbn in *. subst i.
  unfold with_installation. cbn. f_equal. f_equal. by destruct inst.
Qed.

End HookCallbacks.

(** ** The theorems at work *)

Section TheoremsAtWork.

Import Examples Runs CustomElementRegistry.

Lemma sound_from_list (w : World) :
  Forall (fun p => reactionQueue p.2 = None -> shouldNotUpgrade p.2 = true)
    (map_to_list (privateState w)) ->
  sound w.
Proof.
  intros Hall element st Hst. rewrite Forall_forall in Hall.
  apply (Hall (element, st)). by apply elem_of_map_to_list.
Qed.

Lemma defined_world_sound : sound defined_world.
Proof.
  apply sound_from_list. vm_compute.
  apply Forall_cons_2; [|apply Forall_nil_2]. intros _. reflexivity.
Qed.

Lemma runs_script (body : list cmd) (w : World) :
  eval example_program 9 (RunScript body) w <> Diverges ->
  runs example_program true w (after body w).
Proof.
  intros Hruns. apply rtc_once, (host_script _ _ _ _ 9 body).
  unfold after, outcome_world, ends_in.
  destruct (eval example_program 9 (RunScript body) w) as [[] w'|error w'|];
    [by left|right; by eexists|done].
Qed.

Lemma get_is_stable_witness :
  exists r',
    registry_of redefined_world = Some r'
    /\ definitions defined_registry `prefix_of` definitions r'
    /\ get r' (lit "x-a") = Some 0.
Proof.
  apply (get_is_stable example_program true defined_world redefined_world
           defined_registry (lit "x-a") 0).
  - by apply runs_script.
  - vm_compute. reflexivity.
  - vm_compute. reflexivity.
Defined.

Lemma upgrade_is_final_witness :
  exists st',
    getPrivateState redefined_world 5 = Some st'
    /\ shouldNotUpgrade st' = true
    /\ (forall rec definition,
           upgradeElement example_program rec 5 definition redefined_world
           = ret redefined_world)
    /\ (forall rec,
           tryToUpgradeElementSync example_program rec 5 redefined_world
           = ret redefined_world)
    /\ tryToUpgradeElement 5 redefined_world = ret redefined_world.
Proof.
  apply (upgrade_is_final example_program true defined_world redefined_world
           5 (custom_record [])).
  - by apply runs_script.
  - vm_compute. reflexivity.
  - reflexivity.
Defined.

Lemma definition_flag_restored_witness :
  running_of failed_define_world = running_of installed_world.
Proof.
  apply (definition_flag_restored example_program true installed_world
           failed_define_world).
  by apply runs_script.
Defined.


Lemma define_then_get_witness :
  exists r',
    registry_of defined_world = Some r' /\ get r' (lit "x-a") = Some 0.
Proof.
  apply (define_then_get example_program 9 (lit "x-a") 0 None installed_world
           defined_world empty_registry).
  - reflexivity.
  - reflexivity.
  - by left.
  - vm_compute. reflexivity.
Defined.

Lemma whenDefined_resolved_by_define_witness :
  (EntryPromise (lit "x-a") = EntryPromise (lit "x-a") ->
   ResolveWhenDefined (lit "x-a") ∈ microtasks announced_world)
  /\ forall fresh',
       whenDefined true fresh' (lit "x-a") announced_world
       = Ok (ResolvedPromise fresh') announced_world.
Proof.
  apply (whenDefined_resolved_by_define example_program 9 (lit "x-a") 0 None
           7 (EntryPromise (lit "x-a")) installed_world waiting_world
           announced_world).
  - vm_compute. reflexivity.
  - vm_compute. reflexivity.
Defined.

Lemma whenDefined_twice_witness :
  whenDefined true 8 (lit "x-a") waiting_world
  = Ok (EntryPromise (lit "x-a")) waiting_world
  /\ defined_world = defined_world
  /\ exists promise',
       whenDefined true 8 (lit "x-a") defined_world = Ok promise' defined_world
       /\ promise' <> ResolvedPromise 7.
Proof.
  split.
  - apply (whenDefined_twice true 7 8 (lit "x-a") (EntryPromise (lit "x-a"))
             installed_world waiting_world); [vm_compute; reflexivity|lia].
  - apply (whenDefined_twice true 7 8 (lit "x-a") (ResolvedPromise 7)
             defined_world defined_world); [vm_compute; reflexivity|lia].
Defined.

Lemma lookup_agrees_with_get_witness :
  exists found,
    lookupCustomElementDefinition registered_world x_a_node
      (Some (lit "x-b")) = Ok found registered_world
    /\ lookupCustomElementDefinition registered_world x_a_node None
       = Ok found registered_world
    /\ def_constructor <$> found
       = get (registry (set_registry defined_registry fresh_installation))
           (localName x_a_node).
Proof.
  apply (lookup_agrees_with_get registered_world
           (set_registry defined_registry fresh_installation) x_a_node
           (Some (lit "x-b"))).
  - reflexivity.
  - apply Forall_cons_2; [reflexivity|apply Forall_nil_2].
  - reflexivity.
  - reflexivity.
Defined.

Lemma performInitialUpgrades_without_definitions_witness :
  performInitialUpgrades example_program (eval example_program 3)
    installed_world = ret installed_world.
Proof.
  apply (performInitialUpgrades_without_definitions example_program
           (eval example_program 3) installed_world fresh_installation);
    reflexivity.
Defined.

Lemma reactions_are_invoked_in_order_witness :
  exists w',
    invokeReactions example_program 6 (PoppedQueue [5; 6]) batch_world = ret w'
    /\ invoked w'
       = invoked batch_world
         ++ flat_map (fun element =>
                        flat_map (reaction_calls element)
                          (default [] (pending batch_world element))) [5; 6].
Proof.
  apply (reactions_are_invoked_in_order example_program 2 6 [5; 6]
           batch_world).
  - apply (bool_decide_unpack _). by vm_compute.
  - exact batch_world_simple.
  - cbn. lia.
Defined.

Lemma isValidCustomElementName_basic_plane_witness :
  isValidCustomElementName (utf16 (lit "x-a")) = grammar_valid_name (lit "x-a").
Proof.
  apply (isValidCustomElementName_basic_plane (lit "x-a")).
  repeat (apply Forall_cons_2; [reflexivity|]). apply Forall_nil_2.
Defined.

Lemma valid_name_shape_witness :
  exists first rest,
    lit "x-a" = first :: rest
    /\ (0x61 <= first <= 0x7A)%Z
    /\ 0x2D%Z ∈ rest
    /\ Forall (fun c => ~ (0x41 <= c <= 0x5A)%Z /\ (0x2D <= c)%Z) (lit "x-a").
Proof.
  apply (valid_name_shape (lit "x-a")). reflexivity.
Defined.

Lemma tryToUpgradeElementSync_upgrades_witness :
  exists w',
    tryToUpgradeElementSync example_program (eval example_program 1) 5
      registered_world = ret w'
    /\ getPrivateState w' 5
       = Some {| customElementState := Some CE_STATE_CUSTOM;
                 customElementDefinition := Some (x_a_definition 0);
                 reactionQueue :=
                   Some (backlog (x_a_definition 0)
                           (node_of registered_world 5));
                 isValue := None |}
    /\ invoked w' = invoked registered_world.
Proof.
  apply (tryToUpgradeElementSync_upgrades example_program 0 5
           (x_a_definition 0) registered_world
           (set_registry defined_registry fresh_installation));
    reflexivity.
Defined.

Lemma attribute_change_is_synchronous_witness :
  exists w',
    eval example_program 5
      (RunScript
         [ExecuteCEReactions
            [AttributeChangeSteps 5 (VStr (lit "a")) VNull (VStr (lit "9"))
               VNull]]) settled_world = ret w'
    /\ invoked w'
       = invoked settled_world
         ++ [(5, 2, [VStr (lit "a"); VNull; VStr (lit "9"); VNull])]
    /\ reported w'
       = reported settled_world ++ script_error (functions example_program 2)
    /\ getPrivateState w' 5 = Some (custom_record [])
    /\ installation w' = Some settled_installation
    /\ microtasks w' = microtasks settled_world.
Proof.
  apply (attribute_change_is_synchronous example_program 5 5
           (custom_record []) (x_a_definition 0) 2 (VStr (lit "a")) VNull
           (VStr (lit "9")) VNull settled_world settled_installation);
    try reflexivity.
  - apply list_elem_of_here.
  - apply Forall_cons_2; [by eexists|apply Forall_nil_2].
  - lia.
Defined.

Lemma example_backlog_simple :
  Forall (simple_reaction example_program)
    (backlog (x_a_definition 0) x_a_node).
Proof.
  apply Forall_cons_2.
  - apply Forall_cons_2; [by eexists|apply Forall_nil_2].
  - apply Forall_cons_2; [apply Forall_nil_2|apply Forall_nil_2].
Qed.

Lemma insertion_runs_the_lifecycle_witness :
  exists w',
    eval example_program 7
      (RunScript [ExecuteCEReactions [InsertingSteps 5]]) registered_world
    = ret w'
    /\ getPrivateState w' 5
       = Some {| customElementState := Some CE_STATE_CUSTOM;
                 customElementDefinition := Some (x_a_definition 0);
                 reactionQueue := Some []; isValue := None |}
    /\ invoked w'
       = invoked registered_world
         ++ flat_map (reaction_calls 5)
              (backlog (x_a_definition 0) (node_of registered_world 5))
    /\ reported w'
       = reported registered_world
         ++ flat_map (reaction_errors example_program)
              (backlog (x_a_definition 0) (node_of registered_world 5)).
Proof.
  apply (insertion_runs_the_lifecycle example_program 7 5 (x_a_definition 0)
           registered_world
           (set_registry defined_registry fresh_installation));
    try reflexivity.
  - exact example_backlog_simple.
  - vm_compute. lia.
Defined.

Lemma example_class_plain : plain_class (classes example_program 0).
Proof.
  split; [reflexivity|]. split; [reflexivity|].
  split; [by intros []|]. split; [reflexivity|]. split; [reflexivity|].
  by intros element.
Qed.

Lemma define_upgrades_the_document_witness :
  exists w',
    eval example_program 7 (RunScript [Define (lit "x-a") 0 None])
      installed_world = ret w'
    /\ getPrivateState w' 5
       = Some {| customElementState := Some CE_STATE_CUSTOM;
                 customElementDefinition :=
                   Some (definition_of example_program (lit "x-a") 0
                           (fresh (dom (constructionStacks installed_world))));
                 reactionQueue := Some []; isValue := None |}
    /\ invoked w'
       = invoked installed_world
         ++ flat_map (reaction_calls 5)
              (backlog (definition_of example_program (lit "x-a") 0
                          (fresh (dom (constructionStacks installed_world))))
                 (node_of installed_world 5))
    /\ reported w'
       = reported installed_world
         ++ flat_map (reaction_errors example_program)
              (backlog (definition_of example_program (lit "x-a") 0
                          (fresh (dom (constructionStacks installed_world))))
                 (node_of installed_world 5)).
Proof.
  apply (define_upgrades_the_document example_program 7 (lit "x-a") 0 5 [] []
           installed_world fresh_installation); try reflexivity.
  - apply Forall_nil_2.
  - exact example_class_plain.
  - exact example_backlog_simple.
  - vm_compute. lia.
Defined.

Lemma define_while_loading_upgrades_nothing_witness :
  exists w',
    eval example_program 3 (RunScript [Define (lit "x-a") 0 None])
      loading_world = ret w'
    /\ definitions_of w'
       = definitions_of loading_world
         ++ [definition_of example_program (lit "x-a") 0
               (fresh (dom (constructionStacks loading_world)))]
    /\ privateState w' = privateState loading_world
    /\ stack_of w' = stack_of loading_world
    /\ backup_of w' = backup_of loading_world
    /\ invoked w' = invoked loading_world
    /\ count_drains (microtasks w') = count_drains (microtasks loading_world).
Proof.
  apply (define_while_loading_upgrades_nothing example_program 3 (lit "x-a") 0
           loading_world fresh_installation); try reflexivity.
  - exact example_class_plain.
  - lia.
Defined.

Lemma connection_callbacks_are_synchronous_witness :
  delivered example_program 5 (InsertingSteps 5) 5 1 [] settled_world.
Proof.
  apply (proj1 (connection_callbacks_are_synchronous example_program 5 5
                  (custom_record []) (x_a_definition 0) settled_world
                  settled_installation eq_refl eq_refl eq_refl eq_refl eq_refl
                  ltac:(lia))).
  - reflexivity.
  - apply Forall_nil_2.
  - reflexivity.
Defined.

Lemma unobserved_attribute_change_is_ignored_witness :
  eval example_program 2
    (RunScript
       [ExecuteCEReactions
          [AttributeChangeSteps 5 (VStr (lit "b")) VNull (VStr (lit "9"))
             VNull]]) settled_world = ret settled_world.
Proof.
  apply (unobserved_attribute_change_is_ignored example_program 2 5
           (custom_record []) (x_a_definition 0) (VStr (lit "b")) VNull
           (VStr (lit "9")) VNull settled_world settled_installation);
    try reflexivity.
  - right. intros Hin. apply list_elem_of_singleton in Hin. discriminate Hin.
  - lia.
Defined.

End TheoremsAtWork.

(** * The order of reactions *)

(** ** The order of reactions: elementary facts *)

Section OrderBasics.

Lemma calls_on_app (element : elem) (l1 l2 : list (elem * fnid * list value)) :
  calls_on element (l1 ++ l2) = calls_on element l1 ++ calls_on element l2.
Proof. apply filter_app. Qed.

Lemma calls_on_reaction (element : elem) (reaction : Reaction) :
  calls_on element (reaction_calls element reaction)
  = reaction_calls element reaction.
Proof.
  destruct reaction as [definition|callback args]; [done|].
  unfold calls_on, reaction_calls. by rewrite filter_cons_True.
Qed.

Lemma calls_on_other (element other : elem) (reaction : Reaction) :
  element <> other -> calls_on element (reaction_calls other reaction) = [].
Proof.
  intros Hne. destruct reaction as [definition|callback args]; [done|].
  unfold calls_on, reaction_calls. rewrite filter_cons_False; [done|].
  cbn. congruence.
Qed.

Lemma ordered_trans (element : elem) (w1 w2 w3 : World)
  (t1 a1 t2 a2 : list Reaction) (n1 n2 : list (elem * fnid * list value)) :
  ordered element w1 w2 t1 a1 n1 -> ordered element w2 w3 t2 a2 n2 ->
  ordered element w1 w3 (t1 ++ t2) (a1 ++ a2) (n1 ++ n2).
Proof.
  intros (Hq1 & Hi1 & Hs1 & Hd1) (Hq2 & Hi2 & Hs2 & Hd2).
  split; [|split; [|split]].
  - by rewrite app_assoc, Hq1, <- !app_assoc, Hq2.
  - by rewrite Hi2, Hi1, app_assoc.
  - rewrite calls_on_app, flat_map_app. by apply sublist_app.
  - auto.
Qed.

Lemma fifo_loose (element : elem) (w w' : World) :
  fifo element w w' -> loose element w w'.
Proof. intros (t & a & n & H & _). by exists t, a, n. Qed.

Lemma loose_refl (element : elem) (w : World) : loose element w w.
Proof.
  exists [], [], []. split; [by rewrite app_nil_r|].
  split; [by rewrite app_nil_r|]. done.
Qed.

Lemma loose_trans (element : elem) (w1 w2 w3 : World) :
  loose element w1 w2 -> loose element w2 w3 -> loose element w1 w3.
Proof.
  intros (t1 & a1 & n1 & H1) (t2 & a2 & n2 & H2).
  exists (t1 ++ t2), (a1 ++ a2), (n1 ++ n2). by eapply ordered_trans.
Qed.

(** An element that was not custom or failed before and is so now: nothing
    is said about the calls. *)
Lemma loose_settles (element : elem) (w w' : World) :
  loose element w w' ->
  settled w element = false -> settled w' element = true ->
  fifo element w w'.
Proof.
  intros (t & a & n & H) Hbefore Hafter. exists t, a, n. split; [done|].
  intros [Hs|Hs]; congruence.
Qed.

Lemma fifo_refl (element : elem) (w : World) : fifo element w w.
Proof.
  exists [], [], []. split; [|done]. split; [by rewrite app_nil_r|].
  split; [by rewrite app_nil_r|]. done.
Qed.

Lemma fifo_trans (element : elem) (w1 w2 w3 : World) :
  fifo element w1 w2 -> fifo element w2 w3 -> fifo element w1 w3.
Proof.
  intros (t1 & a1 & n1 & H1 & He1) (t2 & a2 & n2 & H2 & He2).
  exists (t1 ++ t2), (a1 ++ a2), (n1 ++ n2).
  split; [by eapply ordered_trans|].
  destruct H1 as (_ & _ & _ & Hd1). destruct H2 as (_ & _ & _ & Hd2).
  intros Hs. rewrite calls_on_app, flat_map_app.
  destruct (settled w2 element) eqn:Hmid.
  - destruct Hs as [Hs|Hs].
    + rewrite He1, He2 by auto. done.
    + specialize (Hd2 eq_refl). congruence.
  - destruct Hs as [Hs|Hs].
    + specialize (Hd1 Hs). congruence.
    + rewrite He1, He2 by auto. done.
Qed.

(** The queue of the element is as it was, and no call was made on it. *)
Lemma fifo_same (element : elem) (w w' : World)
  (new : list (elem * fnid * list value)) :
  queue_of w' element = queue_of w element ->
  invoked w' = invoked w ++ new ->
  calls_on element new = [] ->
  (settled w element = true -> settled w' element = true) ->
  fifo element w w'.
Proof.
  intros Hq Hi Hc Hs. exists [], [], new. unfold ordered. rewrite Hc, Hq.
  split; [|done]. split; [by rewrite app_nil_r|]. done.
Qed.

(** Reactions were appended. *)
Lemma fifo_append (element : elem) (w w' : World) (added : list Reaction) :
  queue_of w' element = queue_of w element ++ added ->
  invoked w' = invoked w ->
  (settled w element = true -> settled w' element = true) ->
  fifo element w w'.
Proof.
  intros Hq Hi Hs. exists [], added, []. unfold ordered. rewrite Hq, Hi.
  split; [|done]. split; [done|]. split; [by rewrite app_nil_r|]. done.
Qed.

(** The first reaction was taken, and called if it is a callback. *)
Lemma fifo_take (element : elem) (w w' : World) (reaction : Reaction)
  (rest : list Reaction) :
  queue_of w element = reaction :: rest ->
  queue_of w' element = rest ->
  invoked w' = invoked w ++ reaction_calls element reaction ->
  (settled w element = true -> settled w' element = true) ->
  fifo element w w'.
Proof.
  intros Hq Hq' Hi Hs. exists [reaction], [], (reaction_calls element reaction).
  unfold ordered. rewrite Hq, Hq', Hi, calls_on_reaction. cbn.
  rewrite !app_nil_r. split; [|done]. done.
Qed.

(** The queue was discarded. *)
Lemma loose_discard (element : elem) (w w' : World) :
  queue_of w' element = [] ->
  invoked w' = invoked w ->
  (settled w element = true -> settled w' element = true) ->
  loose element w w'.
Proof.
  intros Hq Hi Hs. exists (queue_of w element), [], []. unfold ordered.
  rewrite Hq, Hi, !app_nil_r. split; [done|]. split; [done|].
  split; [apply sublist_nil_l|done].
Qed.

Lemma order_refl (w : World) : order w w.
Proof. intros element. apply fifo_refl. Qed.

Lemma order_trans (w1 w2 w3 : World) : order w1 w2 -> order w2 w3 -> order w1 w3.
Proof. intros H1 H2 element. by eapply fifo_trans. Qed.

Lemma queue_of_frame (w w' : World) (element : elem) :
  privateState w' = privateState w ->
  queue_of w' element = queue_of w element.
Proof. intros H. unfold queue_of, pending, getPrivateState. by rewrite H. Qed.

Lemma settled_frame (w w' : World) (element : elem) :
  privateState w' = privateState w ->
  settled w' element = settled w element.
Proof. intros H. unfold settled, getPrivateState. by rewrite H. Qed.

(** A change that leaves the records and the invocation log alone. *)
Lemma order_frame (w w' : World) :
  privateState w' = privateState w -> invoked w' = invoked w -> order w w'.
Proof.
  intros Hp Hi element. apply (fifo_same element w w' []).
  - by apply queue_of_frame.
  - by rewrite app_nil_r.
  - done.
  - by rewrite (settled_frame w w').
Qed.

Lemma order_loose (w w' : World) (element : elem) :
  order w w' -> loose element w w'.
Proof. intros H. apply fifo_loose, H. Qed.

Lemma orders_ret (w w' : World) : order w w' -> orders w (ret w').
Proof. done. Qed.

Lemma orders_trans {A : Type} (w w0 : World) (r : outcome A) :
  order w w0 -> orders w0 r -> orders w r.
Proof.
  intros H0 Hr. destruct r as [a w1|error w1|]; cbn in *; [| |done];
    by eapply order_trans.
Qed.

Lemma orders_bind {A B : Type} (w : World) (r : outcome A)
  (k : A -> World -> outcome B) :
  orders w r -> (forall a w1, orders w1 (k a w1)) -> orders w (bind r k).
Proof.
  intros Hr Hk. destruct r as [a w1|error w1|]; cbn in *; [|done|done].
  eapply orders_trans; [exact Hr|apply Hk].
Qed.

Lemma queue_of_setPrivateState (element : elem) (st : ElementState)
  (w : World) :
  queue_of (setPrivateState element st w) element
  = default [] (reactionQueue st).
Proof.
  unfold queue_of, pending. by rewrite getPrivateState_setPrivateState.
Qed.

Lemma queue_of_setPrivateState_ne (element other : elem) (st : ElementState)
  (w : World) :
  element <> other ->
  queue_of (setPrivateState element st w) other = queue_of w other.
Proof.
  intros Hne. unfold queue_of, pending.
  by rewrite getPrivateState_setPrivateState_ne.
Qed.

Lemma settled_setPrivateState (element : elem) (st : ElementState)
  (w : World) :
  settled (setPrivateState element st w) element = shouldNotUpgrade st.
Proof. unfold settled. by rewrite getPrivateState_setPrivateState. Qed.

Lemma settled_setPrivateState_ne (element other : elem) (st : ElementState)
  (w : World) :
  element <> other ->
  settled (setPrivateState element st w) other = settled w other.
Proof.
  intros Hne. unfold settled. by rewrite getPrivateState_setPrivateState_ne.
Qed.

(** The record of one element is replaced by one that holds the reactions
    it held and [added] behind them, and is custom or failed if it was. *)
Lemma order_setPrivateState (element : elem) (st : ElementState) (w : World)
  (added : list Reaction) :
  default [] (reactionQueue st) = queue_of w element ++ added ->
  (settled w element = true -> shouldNotUpgrade st = true) ->
  order w (setPrivateState element st w).
Proof.
  intros Hq Hs other. destruct (decide (element = other)) as [<-|Hne].
  - apply (fifo_append element _ _ added); [|done|].
    + by rewrite queue_of_setPrivateState.
    + by rewrite settled_setPrivateState.
  - apply (fifo_same other _ _ []); [|by rewrite app_nil_r|done|].
    + by apply queue_of_setPrivateState_ne.
    + by rewrite settled_setPrivateState_ne.
Qed.

End OrderBasics.

(** ** Every function of the module takes reactions in order *)

Section OrderPreservation.

Variable prog : Program.
Variable rec : call -> World -> result.
Hypothesis rec_orders : forall c w, orders w (rec c w).

Lemma enqueueElement_order (element : elem) (w : World) :
  order w (enqueueElementOnAppropriateElementQueue element w).
Proof.
  destruct (enqueueElement_frame element w) as (Hp & _ & _ & _ & Hi).
  by apply order_frame.
Qed.

Lemma enqueueCallbackReaction_orders (element : elem)
  (callbackName : callback_name) (args : list value) (w : World) :
  orders w (enqueueCallbackReaction element callbackName args w).
Proof.
  unfold enqueueCallbackReaction.
  destruct (getPrivateState w element) as [st|] eqn:Hst; [|apply order_refl].
  destruct (customElementDefinition st); [|apply order_refl].
  destruct (get_callback _ _) as [callback|]; [|apply order_refl].
  destruct (_ && _); [apply order_refl|].
  apply orders_ret. eapply order_trans; [|apply enqueueElement_order].
  apply (order_setPrivateState element _ w [CallbackReaction callback args]).
  - cbn. unfold queue_of, pending. by rewrite Hst.
  - unfold settled. by rewrite Hst.
Qed.

Lemma enqueueUpgradeReaction_orders (element : elem)
  (definition : CustomElementDefinition) (w : World) :
  orders w (enqueueUpgradeReaction element definition w).
Proof.
  unfold enqueueUpgradeReaction.
  destruct (getPrivateState w element) as [st|] eqn:Hst.
  - cbn [reactionQueue set_customElementDefinition].
    destruct (reactionQueue st) as [queue|] eqn:Hq.
    + apply orders_ret. eapply order_trans; [|apply enqueueElement_order].
      apply (order_setPrivateState element _ w [UpgradeReaction definition]).
      * cbn. unfold queue_of, pending. by rewrite Hst; cbn; rewrite Hq.
      * unfold settled. by rewrite Hst.
    + apply (order_setPrivateState element _ w []).
      * cbn. unfold queue_of, pending. rewrite Hst. cbn. by rewrite Hq.
      * unfold settled. by rewrite Hst.
  - cbn [reactionQueue set_customElementDefinition].
    apply orders_ret. eapply order_trans; [|apply enqueueElement_order].
    apply (order_setPrivateState element _ w [UpgradeReaction definition]).
    + cbn. unfold queue_of, pending. by rewrite Hst.
    + unfold settled. by rewrite Hst.
Qed.

Lemma lookupCustomElementDefinition_orders (w : World) (node : DomNode)
  (is' : option jsstring) :
  orders w (lookupCustomElementDefinition w node is').
Proof.
  unfold lookupCustomElementDefinition.
  destruct (negb _); [apply order_refl|].
  destruct (negb _); [apply order_refl|].
  destruct (installation w); apply order_refl.
Qed.

Lemma tryToUpgradeElement_orders (element : elem) (w : World) :
  orders w (tryToUpgradeElement element w).
Proof.
  unfold tryToUpgradeElement.
  match goal with |- orders _ (if ?b then _ else _) => destruct b end;
    [apply order_refl|].
  apply orders_bind; [apply lookupCustomElementDefinition_orders|].
  intros [definition|] w1;
    [apply enqueueUpgradeReaction_orders|apply order_refl].
Qed.

Lemma enqueue_attributes_orders (element : elem) (attrs : list Attr)
  (w : World) :
  orders w (enqueue_attributes element attrs w).
Proof.
  revert w. induction attrs as [|a attrs IH]; intros w; [apply order_refl|].
  cbn [enqueue_attributes].
  apply orders_bind; [apply enqueueCallbackReaction_orders|].
  intros _ w1. apply IH.
Qed.

Lemma enqueue_backlog_orders (element : elem) (w : World) :
  orders w (enqueue_backlog element w).
Proof.
  unfold enqueue_backlog.
  apply orders_bind; [apply enqueue_attributes_orders|].
  intros _ w1. destruct (isConnected _);
    [apply enqueueCallbackReaction_orders|apply order_refl].
Qed.

Lemma upgrade_prepare_orders (element : elem)
  (definition : CustomElementDefinition) (w : World) :
  match upgrade_prepare element definition w with
  | Some prepared => orders w prepared /\ settled w element = false
  | None => True
  end.
Proof.
  unfold upgrade_prepare.
  destruct (getPrivateState w element) as [st|] eqn:Hst.
  - destruct (shouldNotUpgrade st) eqn:Hnot; [done|].
    split; [|unfold settled; by rewrite Hst].
    apply orders_bind; [apply enqueue_backlog_orders|].
    intros _ w1. by apply order_frame.
  - split; [|unfold settled; by rewrite Hst].
    eapply orders_trans; cycle 1.
    { apply orders_bind; [apply enqueue_backlog_orders|].
      intros _ w1. by apply order_frame. }
    apply order_setPrivateState with (added := []).
    + cbn. unfold queue_of, pending. by rewrite Hst.
    + unfold settled. by rewrite Hst.
Qed.

Lemma construct_orders (element : elem) (definition : CustomElementDefinition)
  (w : World) :
  orders w (construct prog rec element definition w).
Proof.
  unfold construct. apply orders_bind; [apply rec_orders|].
  intros _ w1. destruct (bool_decide _); apply order_refl.
Qed.

(** The [catch] block discards the reactions of the element it is about,
    which is failed from then on, and leaves the others alone. *)
Lemma upgrade_catch_other (element other : elem) (w : World) :
  element <> other ->
  ends (fifo other w) (upgrade_catch element w).
Proof.
  intros Hne. unfold upgrade_catch.
  destruct (getPrivateState w element) as [st|]; [|apply fifo_refl].
  cbn [reactionQueue set_customElementDefinition set_customElementState].
  destruct (reactionQueue st); cbn [ends ret];
    (apply (fifo_same other _ _ []); [|by rewrite app_nil_r|done|]);
    first [by apply queue_of_setPrivateState_ne
          |by rewrite settled_setPrivateState_ne].
Qed.

Lemma upgrade_catch_loose (element : elem) (w : World) :
  ends (fun w' =>
          loose element w w'
          /\ (is_Some (getPrivateState w element) -> settled w' element = true))
    (upgrade_catch element w).
Proof.
  unfold upgrade_catch.
  destruct (getPrivateState w element) as [st|] eqn:Hst.
  2:{ cbn. split; [apply loose_refl|]. by intros [? ?]. }
  cbn [reactionQueue set_customElementDefinition set_customElementState].
  destruct (reactionQueue st) eqn:Hq; cbn [ends ret].
  - split; [|intros _; by rewrite settled_setPrivateState].
    apply loose_discard; [by rewrite queue_of_setPrivateState|done|].
    intros _. by rewrite settled_setPrivateState.
  - split; [|intros _; by rewrite settled_setPrivateState].
    apply loose_discard; [|done|].
    + rewrite queue_of_setPrivateState. cbn. by rewrite Hq.
    + intros _. by rewrite settled_setPrivateState.
Qed.

Lemma settled_alter (element other : elem) (w : World) :
  settled w other = true ->
  settled
    (with_privateState
       (alter (set_customElementState (Some CE_STATE_CUSTOM)) element
          (privateState w)) w) other = true.
Proof.
  unfold settled, getPrivateState. cbn.
  destruct (decide (element = other)) as [<-|Hne].
  - rewrite lookup_alter_eq. by destruct (privateState w !! element).
  - by rewrite lookup_alter_ne.
Qed.

Lemma queue_of_alter (element other : elem) (w : World) :
  queue_of
    (with_privateState
       (alter (set_customElementState (Some CE_STATE_CUSTOM)) element
          (privateState w)) w) other = queue_of w other.
Proof.
  unfold queue_of, pending, getPrivateState. cbn.
  destruct (decide (element = other)) as [<-|Hne].
  - rewrite lookup_alter_eq. by destruct (privateState w !! element).
  - by rewrite lookup_alter_ne.
Qed.

Lemma upgrade_finish_orders (element : elem)
  (definition : CustomElementDefinition) (caught : option value) (w : World) :
  orders w (upgrade_finish element definition caught w).
Proof.
  unfold upgrade_finish.
  match goal with |- orders _ (if ?b then _ else _) => destruct b end.
  - by apply order_frame.
  - apply orders_ret.
    apply (order_trans _ (constructionStack_pop definition w));
      [by apply order_frame|].
    intros other. apply (fifo_same other _ _ []).
    + apply queue_of_alter.
    + by rewrite app_nil_r.
    + done.
    + apply settled_alter.
Qed.

Lemma upgradeElement_orders (element : elem)
  (definition : CustomElementDefinition) (w : World) :
  orders w (upgradeElement prog rec element definition w).
Proof.
  unfold upgradeElement.
  pose proof (upgrade_prepare_orders element definition w) as Hprep.
  destruct (upgrade_prepare element definition w) as [prepared|];
    [|apply order_refl].
  destruct Hprep as [Hprep Hunsettled].
  destruct prepared as [[] w2|error w2|]; cbn [bind]; [|exact Hprep|done].
  pose proof (construct_orders element definition w2) as Hcons.
  destruct (construct prog rec element definition w2) as [[] w3|error w3|];
    [| |done].
  { eapply orders_trans; [exact Hprep|].
    eapply orders_trans; [exact Hcons|]. apply upgrade_finish_orders. }
  assert (H3 : order w w3) by (eapply order_trans; [exact Hprep|exact Hcons]).
  pose proof (upgrade_catch_loose element w3) as Hloose.
  pose proof (fun other => upgrade_catch_other element other w3) as Hother.
  destruct (getPrivateState w3 element) as [st3|] eqn:Hst3.
  2:{ unfold upgrade_catch. by rewrite Hst3. }
  assert (Hrest : forall w4,
             loose element w3 w4 -> settled w4 element = true ->
             (forall other, element <> other -> fifo other w3 w4) ->
             order w w4).
  { intros w4 Hl Hs Ho other.
    destruct (decide (element = other)) as [<-|Hne].
    - apply loose_settles; [|done|done].
      eapply loose_trans; [apply order_loose, H3|exact Hl].
    - eapply fifo_trans; [apply H3|by apply Ho]. }
  destruct (upgrade_catch element w3) as [[] w4|error4 w4|];
    cbn [bind ends] in *; [| |done].
  - destruct Hloose as [Hl Hs]. specialize (Hs ltac:(by eexists)).
    pose proof (upgrade_finish_orders element definition (Some error) w4)
      as Hfin.
    destruct (upgrade_finish element definition (Some error) w4)
      as [[] w5|error5 w5|]; cbn [orders] in *; [| |done];
      (apply Hrest;
       [eapply loose_trans; [exact Hl|apply order_loose, Hfin]
       |destruct (Hfin element) as (_ & _ & _ & (_ & _ & _ & Hmono) & _);
        by apply Hmono
       |intros other Hne; eapply fifo_trans; [by apply Hother|apply Hfin]]).
  - destruct Hloose as [Hl Hs]. specialize (Hs ltac:(by eexists)).
    by apply Hrest.
Qed.

(** [executeCEReactions], for a callback that takes reactions in order. *)
Lemma executeCEReactions_orders (callback : World -> result) (w : World) :
  (forall w1, orders w1 (callback w1)) ->
  orders w (executeCEReactions rec callback w).
Proof.
  intros Hcb. unfold executeCEReactions.
  destruct (installation w) as [inst|]; [|apply Hcb]. cbv zeta.
  eapply orders_trans; cycle 1.
  { apply orders_bind; [apply Hcb|]. intros _ w2.
    destruct (installation w2) as [inst2|]; [|apply order_refl].
    destruct (array_pop _) as [[below queue]|]; [|apply order_refl].
    eapply orders_trans; [|apply rec_orders]. by apply order_frame. }
  by apply order_frame.
Qed.

Lemma getCallback_orders (class : ClassDecl) (callbackName : callback_name)
  (w : World) :
  orders w (getCallback rec class callbackName w).
Proof.
  unfold getCallback. apply orders_bind; [apply rec_orders|].
  intros _ w1. apply order_refl.
Qed.

Lemma read_callbacks_orders (class : ClassDecl) (names : list callback_name) :
  forall (acc : LifecycleCallbacks) (w : World),
    orders w (snd (read_callbacks rec class names acc w)).
Proof.
  induction names as [|k names IH]; intros acc w; [apply order_refl|].
  cbn [read_callbacks].
  pose proof (getCallback_orders class k w) as Hk.
  destruct (getCallback rec class k w) as [cb w1|error w1|];
    [|exact Hk|done].
  eapply orders_trans; [exact Hk|apply IH].
Qed.

Lemma define_try_orders (class : ClassDecl) (w : World) :
  orders w (snd (define_try rec class w)).
Proof.
  unfold define_try.
  destruct (negb _); [apply order_refl|].
  pose proof (read_callbacks_orders class callback_names no_callbacks w) as Hr.
  destruct (read_callbacks rec class callback_names no_callbacks w)
    as [callbacks [[] w1|error w1|]]; cbn [snd] in *; [|exact Hr|done].
  destruct (attributeChangedCallback callbacks); [|exact Hr].
  pose proof (rec_orders (RunScript (fst (observedAttributes_get class))) w1)
    as Ho.
  destruct (rec _ w1) as [[] w2|error w2|]; cbn [snd]; [| |done];
    eapply orders_trans; first [exact Hr|exact Ho].
Qed.

Lemma set_running_order (b : bool) (w : World) : order w (set_running b w).
Proof.
  unfold set_running. destruct (installation w); [|apply order_refl].
  by apply order_frame.
Qed.

Lemma push_definition_order (definition : CustomElementDefinition) (w : World) :
  order w (push_definition definition w).
Proof.
  unfold push_definition. destruct (installation w); [|apply order_refl].
  by apply order_frame.
Qed.

Lemma upgrade_sweep_orders (definition : CustomElementDefinition)
  (extensionOf : option jsstring) (visit : list elem) (w : World) :
  orders w (upgrade_sweep definition extensionOf visit w).
Proof.
  revert w. induction visit as [|node visit IH]; intros w;
    [apply order_refl|].
  cbn [upgrade_sweep]. destruct (_ && _); [|apply IH].
  apply orders_bind; [|intros _ w1; apply IH].
  apply sweep_visit_cases;
    [apply enqueueUpgradeReaction_orders|apply order_refl|apply order_refl].
Qed.

Lemma resolve_whenDefined_order (name : jsstring) (w : World) :
  order w (resolve_whenDefined name w).
Proof.
  unfold resolve_whenDefined.
  destruct (installation w); [|apply order_refl].
  destruct (bool_decide _); [|apply order_refl]. by apply order_frame.
Qed.

Lemma define_registration_orders (name : jsstring) (constructor : classid)
  (localName' : jsstring) (extensionOf : option jsstring) (w : World) :
  orders w
    (define_registration prog rec name constructor localName' extensionOf w).
Proof.
  unfold define_registration.
  destruct (installation w) as [inst|]; [|apply order_refl].
  destruct (elementDefinitionIsRunning _); [apply order_refl|].
  pose proof (define_try_orders (classes prog constructor) (set_running true w))
    as Htry.
  destruct (define_try rec (classes prog constructor)
              (set_running true w)) as [[callbacks observed] exit].
  cbn [snd] in Htry.
  assert (Hfin : forall caught w1,
             order w w1 ->
             orders w
               (let w2 := set_running false w1 in
                if match caught with
                   | Some error => truthy error
                   | None => false
                   end
                then Throws (default VNull caught) w2
                else
                  let address := fresh (dom (constructionStacks w2)) in
                  let definition :=
                    {| def_name := name; def_localName := localName';
                       def_constructor := constructor;
                       observedAttributes := observed;
                       lifecycleCallbacks := callbacks;
                       constructionStack := address |} in
                  let w3 :=
                    with_constructionStacks
                      (<[address := []]> (constructionStacks w2))
                      (push_definition definition w2) in
                  let* w4 :=
                    if document_loading w3 then ret w3
                    else upgrade_sweep definition extensionOf
                           (document_order w3) w3 in
                  ret (resolve_whenDefined name w4))).
  { intros caught w1 Hw1. cbv zeta.
    assert (Hw2 : order w (set_running false w1))
      by (eapply order_trans; [exact Hw1|apply set_running_order]).
    match goal with |- orders _ (if ?b then _ else _) => destruct b end;
      [exact Hw2|].
    eapply orders_trans; [exact Hw2|].
    match goal with
    | |- orders _ (bind (if _ then ret ?w3 else _) _) =>
        assert (Hw3 : order (set_running false w1) w3)
    end.
    { eapply order_trans; [apply push_definition_order|].
      by apply order_frame. }
    eapply orders_trans; [exact Hw3|].
    apply orders_bind.
    - destruct (document_loading _);
        [apply order_refl|apply upgrade_sweep_orders].
    - intros _ w4. apply orders_ret, resolve_whenDefined_order. }
  assert (Hrun : order w (set_running true w)) by apply set_running_order.
  destruct exit as [[] w1|error w1|]; [| |done].
  - apply (Hfin None w1). eapply order_trans; [exact Hrun|exact Htry].
  - apply (Hfin (Some error) w1).
    eapply order_trans; [exact Hrun|exact Htry].
Qed.

Lemma define_body_orders (name : jsstring) (constructor : classid)
  (extends : option jsstring) (w : World) :
  orders w (define_body prog rec name constructor extends w).
Proof.
  unfold define_body.
  destruct (installation w) as [inst|]; [|apply order_refl].
  destruct (negb _); [apply order_refl|].
  destruct (negb _); [apply order_refl|].
  destruct extends as [extensionOf|]; [|apply define_registration_orders].
  destruct (isValidCustomElementName extensionOf); [apply order_refl|].
  destruct (testElement_constructor_get prog) as [getter|];
    [|apply order_refl].
  apply orders_bind; [apply rec_orders|].
  intros _ w0. apply define_registration_orders.
Qed.

Lemma define_orders (name : jsstring) (constructor : classid)
  (extends : option jsstring) (w : World) :
  orders w (define prog rec name constructor extends w).
Proof.
  unfold define. apply executeCEReactions_orders. intros w1.
  apply define_body_orders.
Qed.

Lemma exec_cmd_orders (c : cmd) (w : World) : orders w (exec_cmd prog rec c w).
Proof.
  destruct c; cbn [exec_cmd].
  - apply order_refl.
  - pose proof (rec_orders (RunScript body) w) as Hb.
    destruct (rec (RunScript body) w) as [[] w1|error w1|]; [done| |done].
    eapply orders_trans; [exact Hb|apply rec_orders].
  - apply orders_ret. by apply order_frame.
  - destruct (isConnected _); [|apply order_refl].
    destruct (isCustom w node);
      [apply enqueueCallbackReaction_orders|apply tryToUpgradeElement_orders].
  - destruct (isCustom w node);
      [apply enqueueCallbackReaction_orders|apply order_refl].
  - destruct (isCustom w node);
      [apply enqueueCallbackReaction_orders|apply order_refl].
  - apply tryToUpgradeElement_orders.
  - destruct (isCustom w element);
      [apply enqueueCallbackReaction_orders|apply order_refl].
  - apply tryToUpgradeElement_orders.
  - apply executeCEReactions_orders. intros w1. apply rec_orders.
  - apply define_orders.
Qed.

Lemma run_script_orders (body : list cmd) (w : World) :
  orders w (run_script prog rec body w).
Proof.
  revert w. induction body as [|c body IH]; intros w; [apply order_refl|].
  cbn [run_script]. apply orders_bind; [apply exec_cmd_orders|].
  intros _ w1. apply IH.
Qed.

(** The loop takes the first reaction of the element and invokes it. *)
Lemma take_reaction_orders (element : elem) (st : ElementState)
  (reaction : Reaction) (rest : list Reaction) (w : World) :
  getPrivateState w element = Some st ->
  reactionQueue st = Some (reaction :: rest) ->
  orders w
    (invoke_reaction prog rec element reaction
       (setPrivateState element (set_reactionQueue (Some rest) st) w)).
Proof.
  intros Hst Hq.
  set (w1 := setPrivateState element (set_reactionQueue (Some rest) st) w).
  assert (Hqueue : queue_of w element = reaction :: rest)
    by (unfold queue_of, pending; rewrite Hst; cbn; by rewrite Hq).
  assert (Hsettled : forall other, settled w1 other = settled w other).
  { intros other. unfold w1. destruct (decide (element = other)) as [<-|Hne].
    - rewrite settled_setPrivateState. unfold settled. by rewrite Hst.
    - by apply settled_setPrivateState_ne. }
  destruct reaction as [definition|callback args]; cbn [invoke_reaction].
  - eapply orders_trans; [|apply upgradeElement_orders].
    intros other. destruct (decide (element = other)) as [<-|Hne].
    + apply (fifo_take element w w1 (UpgradeReaction definition) rest);
        [done|by apply queue_of_setPrivateState|by rewrite app_nil_r|].
      by rewrite Hsettled.
    + apply (fifo_same other w w1 []);
        [by apply queue_of_setPrivateState_ne|by rewrite app_nil_r|done|].
      by rewrite Hsettled.
  - eapply orders_trans; [|apply rec_orders].
    intros other. destruct (decide (element = other)) as [<-|Hne].
    + apply (fifo_take element w _ (CallbackReaction callback args) rest);
        [done|by apply queue_of_setPrivateState|done|].
      intros Hs. change (settled w1 element = true). by rewrite Hsettled.
    + apply (fifo_same other w _ (reaction_calls element
                                     (CallbackReaction callback args)));
        [by apply queue_of_setPrivateState_ne|done
        |by apply calls_on_other|].
      intros Hs. change (settled w1 other = true). by rewrite Hsettled.
Qed.

Lemma while_reactions_orders (element : elem) (w : World) :
  orders w (while_reactions prog rec element w).
Proof.
  unfold while_reactions.
  destruct (getPrivateState w element) as [st|] eqn:Hst; [|apply order_refl].
  destruct (reactionQueue st) as [[|reaction rest]|] eqn:Hq;
    [apply order_refl| |apply order_refl].
  pose proof (take_reaction_orders element st reaction rest w Hst Hq) as Hr.
  destruct (invoke_reaction prog rec element reaction _)
    as [[] w2|error w2|]; [| |done].
  - eapply orders_trans; [exact Hr|apply rec_orders].
  - eapply orders_trans; [exact Hr|].
    eapply orders_trans; [|apply rec_orders]. by apply order_frame.
Qed.

Lemma invokeReactions_from_orders (queue : queue_ref) (i : nat) (w : World) :
  orders w (invokeReactions_from rec queue i w).
Proof.
  unfold invokeReactions_from.
  destruct (read_queue queue w !! i) as [element|]; [|apply order_refl].
  destruct (getPrivateState w element) as [st|]; [|apply order_refl].
  destruct (reactionQueue st); [|apply order_refl].
  apply orders_bind; [apply rec_orders|]. intros _ w1. apply rec_orders.
Qed.

Lemma step_orders (c : call) (w : World) : orders w (step prog rec c w).
Proof.
  destruct c; cbn [step].
  - apply run_script_orders.
  - apply invokeReactions_from_orders.
  - apply while_reactions_orders.
Qed.

Lemma tryToUpgradeElementSync_orders (element : elem) (w : World) :
  orders w (tryToUpgradeElementSync prog rec element w).
Proof.
  unfold tryToUpgradeElementSync.
  match goal with |- orders _ (if ?b then _ else _) => destruct b end;
    [apply order_refl|].
  apply orders_bind; [apply lookupCustomElementDefinition_orders|].
  intros [definition|] w1; [apply upgradeElement_orders|apply order_refl].
Qed.

Lemma forEach_tryToUpgradeElementSync_orders (elements : list elem)
  (w : World) :
  orders w (forEach_tryToUpgradeElementSync prog rec elements w).
Proof.
  revert w. induction elements as [|element elements IH]; intros w;
    [apply order_refl|].
  cbn [forEach_tryToUpgradeElementSync].
  apply orders_bind; [apply tryToUpgradeElementSync_orders|].
  intros _ w1. apply IH.
Qed.

End OrderPreservation.

(** ** Runs of the module *)

(** Whatever runs, for however long, takes reactions in order. *)
Lemma eval_orders (prog : Program) (fuel : nat) :
  forall (c : call) (w : World), orders w (eval prog fuel c w).
Proof.
  induction fuel as [|n IH]; intros c w; [done|].
  cbn [eval]. by apply step_orders.
Qed.

Section OrderOfRuns.

Variable prog : Program.

Lemma orders_ends_in (w w' : World) (r : result) :
  orders w r -> ends_in r w' -> order w w'.
Proof. intros Hr [->|[error ->]]; exact Hr. Qed.

Lemma run_task_orders (fuel : nat) (task : Microtask) (w : World) :
  orders w (run_task prog fuel task w).
Proof.
  destruct task as [|name|detached]; cbn [run_task].
  - apply orders_bind; [apply eval_orders|]. intros _ w1.
    unfold set_processingBackupElementQueue.
    destruct (installation w1); [|apply order_refl]. by apply order_frame.
  - unfold clear_whenDefined.
    destruct (installation w); [|apply order_refl]. by apply order_frame.
  - apply eval_orders.
Qed.

Lemma run_microtask_orders (fuel : nat) (w : World) :
  orders w (run_microtask prog fuel w).
Proof.
  unfold run_microtask. destruct (microtasks w) as [|task rest];
    [apply order_refl|].
  eapply orders_trans; [|apply run_task_orders]. by apply order_frame.
Qed.

Lemma call_step_order (w w' : World) : call_step prog w w' -> order w w'.
Proof.
  intros [fuel c H|fuel e d H|e k args H|e d H|fuel H|fuel H|Hp Hi].
  - eapply orders_ends_in; [apply eval_orders|exact H].
  - eapply orders_ends_in; [|exact H].
    apply upgradeElement_orders, eval_orders.
  - eapply orders_ends_in; [apply enqueueCallbackReaction_orders|exact H].
  - eapply orders_ends_in; [apply enqueueUpgradeReaction_orders|exact H].
  - eapply orders_ends_in; [apply run_microtask_orders|exact H].
  - eapply orders_ends_in; [|exact H].
    apply forEach_tryToUpgradeElementSync_orders, eval_orders.
  - by apply order_frame.
Qed.

Lemma afterwards_order (w w' : World) : afterwards prog w w' -> order w w'.
Proof.
  induction 1 as [w|w1 w2 w3 Hstep _ IH]; [apply order_refl|].
  eapply order_trans; [by apply call_step_order|exact IH].
Qed.

Lemma module_step_loose (w w' : World) (element : elem) :
  module_step prog w w' -> loose element w w'.
Proof.
  intros [H|e H|e d caught H].
  - by apply order_loose, call_step_order.
  - destruct (decide (e = element)) as [->|Hne].
    + pose proof (upgrade_catch_loose element w) as Hl.
      destruct H as [H|[error H]]; rewrite H in Hl; apply Hl.
    + pose proof (upgrade_catch_other e element w Hne) as Hl.
      destruct H as [H|[error H]]; rewrite H in Hl; apply fifo_loose, Hl.
  - eapply order_loose, orders_ends_in; [apply upgrade_finish_orders|exact H].
Qed.

Lemma later_loose (w w' : World) (element : elem) :
  later prog w w' -> loose element w w'.
Proof.
  induction 1 as [w|w1 w2 w3 Hstep _ IH]; [apply loose_refl|].
  eapply loose_trans; [by apply module_step_loose|exact IH].
Qed.

(** The inner loop returns only when nothing is pending on the element. *)
Lemma while_reactions_empties (fuel : nat) (element : elem) :
  forall w w' : World,
    eval prog fuel (WhileReactions element) w = Ok tt w' ->
    queue_of w' element = [].
Proof.
  induction fuel as [|n IH]; intros w w'; [done|].
  cbn [eval step]. unfold while_reactions, queue_of, pending.
  destruct (getPrivateState w element) as [st|] eqn:Hst.
  2:{ intros [= <-]. by rewrite Hst. }
  destruct (reactionQueue st) as [[|reaction rest]|] eqn:Hq.
  - intros [= <-]. rewrite Hst. cbn. by rewrite Hq.
  - destruct (invoke_reaction _ _ _ _ _) as [[] w2|error w2|]; [| |done];
      apply IH.
  - intros [= <-]. rewrite Hst. cbn. by rewrite Hq.
Qed.

Lemma processed_after (element : elem) (w w1 w' : World) :
  fifo element w w1 -> queue_of w1 element = [] -> fifo element w1 w' ->
  processed element w w'.
Proof.
  intros (t1 & a1 & n1 & H1 & He1) Hempty (t2 & a2 & n2 & H2 & He2).
  exists (t1 ++ t2), (a1 ++ a2), (n1 ++ n2).
  split; [by eapply ordered_trans|]. split.
  - destruct H1 as (_ & _ & _ & Hd1). destruct H2 as (_ & _ & _ & Hd2).
    intros Hs. rewrite calls_on_app, flat_map_app.
    destruct (settled w1 element) eqn:Hmid.
    + destruct Hs as [Hs|Hs].
      * rewrite He1, He2 by auto. done.
      * specialize (Hd2 eq_refl). congruence.
    + destruct Hs as [Hs|Hs].
      * specialize (Hd1 Hs). congruence.
      * rewrite He1, He2 by auto. done.
  - destruct H1 as (Hq1 & _). rewrite Hempty, app_nil_r in Hq1.
    rewrite <- Hq1, <- app_assoc. by apply prefix_app_r.
Qed.

Lemma processed_before (element : elem) (w w1 w' : World) :
  fifo element w w1 -> processed element w1 w' -> processed element w w'.
Proof.
  intros (t1 & a1 & n1 & H1 & He1) (t2 & a2 & n2 & H2 & He2 & Hpre).
  exists (t1 ++ t2), (a1 ++ a2), (n1 ++ n2).
  split; [by eapply ordered_trans|]. split.
  - destruct H1 as (_ & _ & _ & Hd1). destruct H2 as (_ & _ & _ & Hd2).
    intros Hs. rewrite calls_on_app, flat_map_app.
    destruct (settled w1 element) eqn:Hmid.
    + destruct Hs as [Hs|Hs].
      * rewrite He1, He2 by auto. done.
      * specialize (Hd2 eq_refl). congruence.
    + destruct Hs as [Hs|Hs].
      * specialize (Hd1 Hs). congruence.
      * rewrite He1, He2 by auto. done.
  - destruct H1 as (Hq1 & _). destruct Hpre as [more ->].
    rewrite app_assoc, <- Hq1, <- !app_assoc. by apply prefix_app_r.
Qed.

(** The outer loop visits every element of the queue it is given, also
    those appended while it runs: when it returns, whatever was pending on
    an element of the queue when the loop was entered has been taken. *)
Lemma invokeReactions_processes (fuel : nat) (queue : queue_ref) :
  forall (i : nat) (w w' : World),
    eval prog fuel (InvokeReactions queue i) w = Ok tt w' ->
    forall j element,
      i <= j -> read_queue queue w' !! j = Some element ->
      processed element w w'.
Proof.
  induction fuel as [|n IH]; intros i w w' Hrun j element Hle Hj; [done|].
  cbn [eval step] in Hrun. unfold invokeReactions_from in Hrun.
  destruct (read_queue queue w !! i) as [visited|] eqn:Hi.
  2:{ injection Hrun as <-. apply lookup_ge_None in Hi.
      apply lookup_lt_Some in Hj. lia. }
  destruct (getPrivateState w visited) as [st|]; [|done].
  destruct (reactionQueue st); [|done].
  pose proof (eval_orders prog n (WhileReactions visited) w) as H1.
  destruct (eval prog n (WhileReactions visited) w) as [[] w1|error w1|]
    eqn:Hwhile; cbn [bind orders] in *; [|done|done].
  pose proof (eval_orders prog n (InvokeReactions queue (S i)) w1) as H2.
  rewrite Hrun in H2. cbn in H2.
  destruct (decide (i = j)) as [<-|Hne].
  - assert (visited = element) as ->.
    { assert (Hpre : read_queue queue w `prefix_of` read_queue queue w').
      { destruct queue as [|popped]; [|done]. cbn [read_queue].
        destruct (installation w) as [inst|] eqn:Hinst;
          [|apply prefix_nil].
        pose proof (eval_backup_kept prog n (WhileReactions visited) w inst
                      Hinst) as Hk1.
        rewrite Hwhile in Hk1. destruct Hk1 as (inst1 & Hinst1 & Hp1).
        pose proof (eval_backup_kept prog n (InvokeReactions BackupQueue (S i))
                      w1 inst1 Hinst1) as Hk2.
        rewrite Hrun in Hk2. destruct Hk2 as (inst2 & Hinst2 & Hp2).
        rewrite Hinst2. by etrans. }
      pose proof (prefix_lookup_Some _ _ _ _ Hi Hpre) as Hi'. congruence. }
    eapply processed_after; [apply H1| |apply H2].
    by eapply while_reactions_empties.
  - eapply processed_before; [apply H1|].
    apply (IH (S i) w1 w' Hrun j); [lia|done].
Qed.

End OrderOfRuns.

(** * The claims on the order and the completeness of reactions *)

Section FailedUpgradeVisit.

Variable prog : Program.

Lemma enqueueCallbackReaction_others (element : elem)
  (callbackName : callback_name) (args : list value) (w : World) :
  ends (fun w' => forall x, x <> element ->
                            getPrivateState w' x = getPrivateState w x)
    (enqueueCallbackReaction element callbackName args w).
Proof.
  unfold enqueueCallbackReaction.
  destruct (getPrivateState w element) as [st|]; [|done].
  destruct (customElementDefinition st); [|done].
  destruct (get_callback _ _); [|done].
  destruct (_ && _); [done|]. cbn [ends ret]. intros x Hx.
  match goal with
  | |- context [enqueueElementOnAppropriateElementQueue ?e ?w0] =>
      destruct (enqueueElement_frame e w0) as (Hp & _)
  end.
  cbv zeta in Hp. unfold getPrivateState at 1. rewrite Hp.
  by apply getPrivateState_setPrivateState_ne.
Qed.

Lemma enqueue_attributes_others (element : elem) (attrs : list Attr) :
  forall w : World,
    ends (fun w' => forall x, x <> element ->
                              getPrivateState w' x = getPrivateState w x)
      (enqueue_attributes element attrs w).
Proof.
  induction attrs as [|a attrs IH]; intros w; [done|].
  cbn [enqueue_attributes].
  pose proof (enqueueCallbackReaction_others element
                CE_CALLBACK_ATTRIBUTE_CHANGED (attribute_args a) w) as H1.
  destruct (enqueueCallbackReaction _ _ _ w) as [[] w1|error w1|];
    cbn [bind ends] in *; [|done|done].
  pose proof (IH w1) as H2.
  destruct (enqueue_attributes element attrs w1); cbn [ends] in *;
    [| |done]; intros x Hx; by rewrite H2, H1.
Qed.

Lemma enqueue_backlog_others (element : elem) (w : World) :
  ends (fun w' => forall x, x <> element ->
                            getPrivateState w' x = getPrivateState w x)
    (enqueue_backlog element w).
Proof.
  unfold enqueue_backlog.
  pose proof (enqueue_attributes_others element
                (attributes (node_of w element)) w) as H1.
  destruct (enqueue_attributes _ _ w) as [[] w1|error w1|];
    cbn [bind ends] in *; [|done|done].
  destruct (isConnected _); [|done].
  pose proof (enqueueCallbackReaction_others element CE_CALLBACK_CONNECTED []
                w1) as H2.
  destruct (enqueueCallbackReaction _ _ _ w1); cbn [ends] in *;
    [| |done]; intros x Hx; by rewrite H2, H1.
Qed.

(** One visit of the inner loop to an element whose next reaction is an
    upgrade with a constructor that throws: the upgrade fails, the error is
    reported, the queue has been discarded and the loop returns. *)
Lemma failed_upgrade_visit (n : nat) (element : elem)
  (definition recorded : CustomElementDefinition) (w : World)
  (st : ElementState) (rest : list Reaction) (v : value) (more : list cmd) :
  getPrivateState w element = Some st ->
  shouldNotUpgrade st = false ->
  customElementDefinition st = Some recorded ->
  reactionQueue st = Some (UpgradeReaction definition :: rest) ->
  construct_body (classes prog (def_constructor definition)) = Throw v :: more ->
  truthy v = true ->
  exists w',
    eval prog (S (S (S n))) (WhileReactions element) w = ret w'
    /\ getPrivateState w' element
       = Some {| customElementState := Some CE_STATE_FAILED;
                 customElementDefinition := None;
                 reactionQueue := Some []; isValue := isValue st |}
    /\ (forall x, x <> element -> getPrivateState w' x = getPrivateState w x)
    /\ invoked w' = invoked w
    /\ reported w' = reported w ++ [v].
Proof.
  intros Hst Hnot Hdef Hq Hbody Htruthy.
  rewrite eval_S. cbn [step]. unfold while_reactions at 1. rewrite Hst, Hq.
  cbn [invoke_reaction].
  set (st1 := set_reactionQueue (Some rest) st).
  set (w1 := setPrivateState element st1 w).
  assert (Hst1 : getPrivateState w1 element = Some st1)
    by apply getPrivateState_setPrivateState.
  destruct (enqueue_backlog_pending element w1 st1 recorded rest Hst1)
    as (w_b & Hrun & Hst_b & Hn_b & Hc_b); [by destruct st|done|].
  pose proof (enqueue_backlog_logs element w1) as Hlogs.
  rewrite Hrun in Hlogs. cbn [ends] in Hlogs. destruct Hlogs as [Hinv Hrep].
  pose proof (enqueue_backlog_others element w1) as Hothers.
  rewrite Hrun in Hothers. cbn [ends] in Hothers.
  set (w2 := constructionStack_push definition element w_b).
  assert (Hprep : upgrade_prepare element definition w1 = Some (ret w2)).
  { unfold upgrade_prepare. rewrite Hst1.
    assert (shouldNotUpgrade st1 = false) as -> by (by destruct st).
    by rewrite Hrun. }
  assert (Hcons : construct prog (eval prog (S (S n))) element definition w2
                  = Throws v w2).
  { unfold construct. rewrite Hbody. reflexivity. }
  set (st_f := {| customElementState := Some CE_STATE_FAILED;
                  customElementDefinition := None;
                  reactionQueue := Some []; isValue := isValue st |}).
  set (w4 := constructionStack_pop definition (setPrivateState element st_f w2)).
  assert (Hup : upgradeElement prog (eval prog (S (S n))) element definition w1
                = Throws v w4).
  { unfold upgradeElement. rewrite Hprep. cbn [bind ret]. rewrite Hcons.
    unfold upgrade_catch.
    assert (Hst2 : getPrivateState w2 element = Some _) by exact Hst_b.
    rewrite Hst2.
    cbn [reactionQueue set_customElementDefinition set_customElementState
           set_reactionQueue bind ret].
    unfold upgrade_finish. rewrite Htruthy. cbn [default].
    by destruct st. }
  rewrite Hup.
  assert (Hst4 : getPrivateState (reportError v w4) element = Some st_f).
  { unfold w4, reportError, getPrivateState, constructionStack_pop,
      setPrivateState. cbn. by rewrite lookup_insert_eq. }
  rewrite eval_S. cbn [step]. unfold while_reactions. rewrite Hst4.
  cbn [reactionQueue st_f].
  exists (reportError v w4). split; [reflexivity|]. split; [exact Hst4|].
  split; [|split].
  - intros x Hx.
    transitivity (getPrivateState w2 x).
    { unfold w4, reportError, getPrivateState, constructionStack_pop,
        setPrivateState. cbn. by rewrite lookup_insert_ne. }
    transitivity (getPrivateState w_b x); [done|].
    rewrite (Hothers x Hx). unfold w1.
    by apply getPrivateState_setPrivateState_ne.
  - cbn. by rewrite Hinv.
  - cbn. by rewrite Hrep.
Qed.

End FailedUpgradeVisit.

Section ProcessedFacts.

Lemma processed_then (element : elem) (w w1 w' : World) :
  processed element w w1 -> fifo element w1 w' -> processed element w w'.
Proof.
  intros (t1 & a1 & n1 & H1 & He1 & Hpre) (t2 & a2 & n2 & H2 & He2).
  exists (t1 ++ t2), (a1 ++ a2), (n1 ++ n2).
  split; [by eapply ordered_trans|]. split.
  - destruct H1 as (_ & _ & _ & Hd1). destruct H2 as (_ & _ & _ & Hd2).
    intros Hs. rewrite calls_on_app, flat_map_app.
    destruct (settled w1 element) eqn:Hmid.
    + destruct Hs as [Hs|Hs].
      * rewrite He1, He2 by auto. done.
      * specialize (Hd2 eq_refl). congruence.
    + destruct Hs as [Hs|Hs].
      * specialize (Hd1 Hs). congruence.
      * rewrite He1, He2 by auto. done.
  - by apply prefix_app_r.
Qed.

(** What was pending on a custom or failed element that has been processed
    was called. *)
Lemma processed_calls (element : elem) (w w' : World) :
  processed element w w' ->
  settled w element = true ->
  forall reaction call,
    reaction ∈ queue_of w element ->
    call ∈ reaction_calls element reaction ->
    call ∈ invoked w'.
Proof.
  intros (taken & added & new & (_ & Hlog & _) & Hexact & Hpre) Hs
    reaction call Hr Hc.
  rewrite Hlog. apply elem_of_app. right.
  assert (Hin : call ∈ calls_on element new).
  { rewrite Hexact by auto. apply list_elem_of_In, in_flat_map.
    exists reaction. split; apply list_elem_of_In; [|done].
    destruct Hpre as [more ->]. apply elem_of_app. by left. }
  unfold calls_on in Hin. by apply list_elem_of_filter in Hin as [_ Hin].
Qed.

End ProcessedFacts.

Section InvocationClaims.

Variable prog : Program.


End InvocationClaims.

Section InvocationClaimExamples.

Import Examples.

Lemma failing_upgrade_world_records : queues_have_records failing_upgrade_world.
Proof. intros inst [= <-]. split; apply Forall_nil_2. Qed.

Lemma failing_upgrade_world_ready :
  queue_ready (PoppedQueue [5; 6]) failing_upgrade_world.
Proof.
  cbn. repeat apply Forall_cons_2; try apply Forall_nil_2;
    eexists; vm_compute; reflexivity.
Qed.


End InvocationClaimExamples.

(** ** The drain of the backup element queue, to its end *)

Section DrainClaim.

Variable prog : Program.

Lemma not_waiting_queue_of (w : World) (element : elem) :
  ~ waiting w element -> queue_of w element = [].
Proof.
  intros Hn. unfold queue_of.
  destruct (pending w element) as [[|r rs]|] eqn:Hp; [done| |done].
  exfalso. apply Hn. by exists r, rs.
Qed.


End DrainClaim.

Section DrainClaimExamples.

Import Examples.


End DrainClaimExamples.

(** ** The backlog of an upgrade *)

Section UpgradeClaim.

Variable prog : Program.
Variable rec : call -> World -> result.


End UpgradeClaim.

Section UpgradeClaimExamples.

Import Examples Runs.



End UpgradeClaimExamples.

(** ** Drains that outlive their installation *)

Section DetachedDrains.

Variable prog : Program.

Lemma quiet_confined (elements : list elem) (w w' : World) :
  quiet w w' -> confined elements w w'.
Proof.
  intros (Hi & Hm & Hv & _). split; [done|]. split.
  - exists []. by rewrite Hm.
  - exists []. rewrite app_nil_r. split; [done|apply Forall_nil_2].
Qed.

Lemma stays_quiet_confined {A : Type} (elements : list elem) (w : World)
  (r : outcome A) :
  stays_quiet w r -> stays_confined elements w r.
Proof. destruct r; cbn; [apply quiet_confined|apply quiet_confined|done]. Qed.

Lemma confined_trans (elements : list elem) (w1 w2 w3 : World) :
  confined elements w1 w2 -> confined elements w2 w3 ->
  confined elements w1 w3.
Proof.
  intros (_ & [r1 Hm1] & n1 & Hv1 & Hf1) (Hi & [r2 Hm2] & n2 & Hv2 & Hf2).
  split; [done|]. split.
  - exists (r1 ++ r2). by rewrite Hm1, Hm2, app_assoc.
  - exists (n1 ++ n2). rewrite Hv2, Hv1, app_assoc. split; [done|].
    by apply Forall_app.
Qed.

Lemma confined_mono (l l' : list elem) (w w' : World) :
  l ⊆ l' -> confined l w w' -> confined l' w w'.
Proof.
  intros Hsub (Hi & Hm & new & Hv & Hf). split; [done|]. split; [done|].
  exists new. split; [done|].
  eapply Forall_impl; [exact Hf|]. intros entry Hin. by apply Hsub.
Qed.

Lemma enqueue_attributes_quiet (element : elem) (attrs : list Attr) :
  forall w, installation w = None ->
            stays_quiet w (enqueue_attributes element attrs w).
Proof.
  induction attrs as [|attribute rest IH]; intros w Hnone; [done|].
  cbn [enqueue_attributes]. apply stays_quiet_bind.
  - by apply enqueueCallbackReaction_quiet.
  - intros _ w1 Hw1. by apply IH.
Qed.

Lemma enqueue_backlog_quiet (element : elem) (w : World) :
  installation w = None -> stays_quiet w (enqueue_backlog element w).
Proof.
  intros Hnone. unfold enqueue_backlog. apply stays_quiet_bind.
  - by apply enqueue_attributes_quiet.
  - intros _ w1 Hw1. destruct (isConnected _); [|done].
    by apply enqueueCallbackReaction_quiet.
Qed.

Lemma upgradeElement_quiet (fuel : nat) (element : elem)
  (definition : CustomElementDefinition) (w : World) :
  installation w = None ->
  stays_quiet w (upgradeElement prog (eval prog fuel) element definition w).
Proof.
  intros Hnone. unfold upgradeElement, upgrade_prepare.
  assert (Hgo : forall w0,
             installation w0 = None -> quiet w w0 ->
             stays_quiet w
               (let* w2 := (let* w1 := enqueue_backlog element w0 in
                            ret (constructionStack_push definition element w1))
                in
                match construct prog (eval prog fuel) element definition w2 with
                | Diverges => Diverges
                | Ok _ w3 => upgrade_finish element definition None w3
                | Throws error w3 =>
                    let* w4 := upgrade_catch element w3 in
                    upgrade_finish element definition (Some error) w4
                end)).
  { intros w0 Hnone0 Hq0.
    pose proof (enqueue_backlog_quiet element w0 Hnone0) as Hb.
    destruct (enqueue_backlog element w0) as [[] w1|error w1|];
      cbn [bind ret stays_quiet] in *; [| |done].
    2:{ destruct Hq0 as (? & ? & ? & ?), Hb as (? & ? & ? & ?).
        repeat split; congruence. }
    assert (Hq2 : quiet w (constructionStack_push definition element w1)).
    { destruct Hq0 as (? & ? & ? & ?), Hb as (? & ? & ? & ?).
      repeat split; cbn; congruence. }
    set (w2 := constructionStack_push definition element w1) in *.
    unfold construct.
    pose proof (eval_quiet prog fuel
                  (construct_body (classes prog (def_constructor definition)))
                  w2 (proj1 Hq2)) as Hc.
    assert (Hfinish : forall caught w4,
               quiet w w4 ->
               stays_quiet w (upgrade_finish element definition caught w4)).
    { intros caught w4 (? & ? & ? & ?). unfold upgrade_finish.
      destruct (match caught with Some e => truthy e | None => false end);
        repeat split; cbn; congruence. }
    assert (Hcatch : forall error w3,
               quiet w w3 ->
               stays_quiet w
                 (let* w4 := upgrade_catch element w3 in
                  upgrade_finish element definition (Some error) w4)).
    { intros error w3 Hq3. unfold upgrade_catch.
      destruct (getPrivateState w3 element) as [st|]; [|done].
      cbn [reactionQueue set_customElementDefinition set_customElementState].
      destruct (reactionQueue _); cbn [bind].
      - apply Hfinish. destruct Hq3 as (? & ? & ? & ?).
        repeat split; cbn; congruence.
      - destruct Hq3 as (? & ? & ? & ?). repeat split; cbn; congruence. }
    destruct (eval prog fuel (RunScript _) w2) as [[] w3|error w3|];
      cbn [bind ret stays_quiet] in *; [| |done].
    - assert (Hq3 : quiet w w3).
      { destruct Hq2 as (? & ? & ? & ?), Hc as (? & ? & ? & ?).
        repeat split; congruence. }
      destruct (bool_decide _); [by apply Hfinish|by apply Hcatch].
    - apply Hcatch.
      destruct Hq2 as (? & ? & ? & ?), Hc as (? & ? & ? & ?).
      repeat split; congruence. }
  destruct (getPrivateState w element) as [st|].
  - destruct (shouldNotUpgrade st); [done|]. by apply Hgo.
  - apply Hgo; [done|]. repeat split; cbn; congruence.
Qed.

Lemma eval_confined (fuel : nat) :
  forall (c : call) (w : World),
    installation w = None ->
    stays_confined (call_elements c w) w (eval prog fuel c w).
Proof.
  induction fuel as [|n IH]; intros c w Hnone; [done|].
  destruct c as [body|queue i|element].
  - apply stays_quiet_confined. by apply eval_quiet.
  - cbn [eval step call_elements]. unfold invokeReactions_from.
    destruct (read_queue queue w !! i) as [element|] eqn:Hi;
      [|by apply quiet_confined].
    destruct (getPrivateState w element); [|by apply quiet_confined].
    destruct (reactionQueue _); [|by apply quiet_confined].
    pose proof (IH (WhileReactions element) w Hnone) as H1.
    destruct (eval prog n (WhileReactions element) w) as [[] w1|error w1|];
      cbn [bind stays_confined call_elements] in *; [| |done].
    + assert (Hsame : read_queue queue w1 = read_queue queue w).
      { destruct queue as [|popped]; [|done]. cbn.
        destruct H1 as (-> & _). by rewrite Hnone. }
      pose proof (IH (InvokeReactions queue (S i)) w1 (proj1 H1)) as H2.
      cbn [call_elements] in H2. rewrite Hsame in H2.
      assert (H1' : confined (read_queue queue w) w w1).
      { eapply confined_mono; [|exact H1]. intros x Hx.
        apply list_elem_of_singleton in Hx as ->.
        by eapply list_elem_of_lookup_2. }
      destruct (eval prog n (InvokeReactions queue (S i)) w1)
        as [[] w2|error w2|]; cbn [stays_confined] in *; [| |done];
        by eapply confined_trans.
    + eapply confined_mono; [|exact H1]. intros x Hx.
      apply list_elem_of_singleton in Hx as ->.
      by eapply list_elem_of_lookup_2.
  - cbn [eval step call_elements]. unfold while_reactions.
    destruct (getPrivateState w element) as [st|]; [|by apply quiet_confined].
    destruct (reactionQueue st) as [[|reaction rest]|];
      [by apply quiet_confined| |by apply quiet_confined].
    set (w1 := setPrivateState element (set_reactionQueue (Some rest) st) w).
    assert (Hq1 : quiet w w1) by done.
    assert (Hinv : stays_confined [element] w
                     (invoke_reaction prog (eval prog n) element reaction w1)).
    { destruct reaction as [definition|callback args]; cbn [invoke_reaction].
      - pose proof (upgradeElement_quiet n element definition w1 Hnone) as Hu.
        destruct (upgradeElement _ _ _ _ _) as [[] w2|error w2|];
          cbn in *; [| |done]; apply quiet_confined;
          destruct Hq1 as (? & ? & ? & ?), Hu as (? & ? & ? & ?);
          repeat split; congruence.
      - pose proof (eval_quiet prog n (functions prog callback)
                      (with_invoked (invoked w1 ++ [(element, callback, args)])
                         w1) Hnone) as Hb.
        assert (Hgo : forall w2,
                   quiet (with_invoked
                            (invoked w1 ++ [(element, callback, args)]) w1) w2 ->
                   confined [element] w w2).
        { intros w2 (Hi2 & Hm2 & Hv2 & _). split; [done|]. split.
          - exists []. by rewrite Hm2.
          - exists [(element, callback, args)]. split; [by rewrite Hv2|].
            apply Forall_cons_2; [|apply Forall_nil_2]. cbn.
            apply list_elem_of_here. }
        destruct (eval prog n (RunScript _) _) as [[] w2|error w2|];
          cbn in *; [| |done]; by apply Hgo. }
    destruct (invoke_reaction _ _ _ _ _) as [[] w2|error w2|];
      cbn [stays_confined] in *; [| |done].
    + pose proof (IH (WhileReactions element) w2 (proj1 Hinv)) as H2.
      destruct (eval prog n (WhileReactions element) w2)
        as [[] w3|error3 w3|]; cbn [stays_confined call_elements] in *;
        [| |done]; by eapply confined_trans.
    + assert (Hr : confined [element] w (reportError error w2)).
      { destruct Hinv as (? & ? & ?). done. }
      pose proof (IH (WhileReactions element) (reportError error w2)
                    (proj1 Hr)) as H2.
      destruct (eval prog n (WhileReactions element) (reportError error w2))
        as [[] w3|error3 w3|]; cbn [stays_confined call_elements] in *;
        [| |done]; by eapply confined_trans.
Qed.

Lemma run_task_confined (fuel : nat) (task : Microtask) (w : World) :
  installation w = None ->
  stays_confined (detached_queue task) w (run_task prog fuel task w).
Proof.
  intros Hnone. destruct task as [|name|inst]; cbn [run_task detached_queue].
  - unfold invokeReactions.
    pose proof (eval_confined fuel (InvokeReactions BackupQueue 0) w Hnone)
      as H1.
    cbn [call_elements read_queue] in H1. rewrite Hnone in H1.
    destruct (eval prog fuel (InvokeReactions BackupQueue 0) w)
      as [[] w1|error w1|]; cbn [bind stays_confined] in *; [|done|done].
    unfold set_processingBackupElementQueue.
    destruct H1 as (Hi & ?). by rewrite Hi.
  - unfold clear_whenDefined. rewrite Hnone. by apply quiet_confined.
  - unfold invokeReactions.
    apply (eval_confined fuel (InvokeReactions
                                 (PoppedQueue (backupElementQueue inst)) 0) w
             Hnone).
Qed.

Lemma run_microtask_confined (fuel : nat) (w : World) :
  installation w = None ->
  stays_confined (detached_elements (microtasks w)) w
    (run_microtask prog fuel w).
Proof.
  intros Hnone. unfold run_microtask.
  destruct (microtasks w) as [|task rest] eqn:Htasks;
    [by apply quiet_confined|].
  pose proof (run_task_confined fuel task (with_microtasks rest w) Hnone)
    as H1.
  assert (Hgo : forall w', confined (detached_queue task)
                             (with_microtasks rest w) w' ->
                           confined (detached_elements (task :: rest)) w w').
  { intros w' (Hi & [ran Hm] & new & Hv & Hf). split; [done|]. split.
    - exists (task :: ran). rewrite Htasks. cbn in Hm. by rewrite Hm.
    - exists new. split; [done|].
      eapply Forall_impl; [exact Hf|]. intros entry Hin. cbn.
      apply elem_of_app. by left. }
  destruct (run_task prog fuel task (with_microtasks rest w))
    as [[] w'|error w'|]; cbn [stays_confined] in *; [| |done]; by apply Hgo.
Qed.

Lemma forEach_tryToUpgradeElementSync_quiet (rec : call -> World -> result)
  (elements : list elem) :
  forall w, installation w = None ->
            stays_quiet w (forEach_tryToUpgradeElementSync prog rec elements w).
Proof.
  induction elements as [|element rest IH]; intros w Hnone; [done|].
  cbn [forEach_tryToUpgradeElementSync]. apply stays_quiet_bind.
  - unfold tryToUpgradeElementSync.
    match goal with |- stays_quiet _ (if ?b then _ else _) => destruct b end;
      [done|].
    unfold lookupCustomElementDefinition. rewrite Hnone.
    destruct (negb _); [done|]. destruct (negb _); done.
  - intros _ w1 Hw1. by apply IH.
Qed.

Lemma host_step_confined (promisesSupported : bool) (w w' : World) :
  installation w = None ->
  host_step prog promisesSupported w w' ->
  confined (detached_elements (microtasks w)) w w'.
Proof.
  intros Hnone [fuel body H|fuel H|fuel H|fresh name promise H].
  - pose proof (eval_quiet prog fuel body w Hnone) as Hq.
    destruct H as [H|[error H]]; rewrite H in Hq; by apply quiet_confined.
  - pose proof (run_microtask_confined fuel w Hnone) as Hq.
    destruct H as [H|[error H]]; by rewrite H in Hq.
  - pose proof (forEach_tryToUpgradeElementSync_quiet (eval prog fuel)
                  (document_order w) w Hnone) as Hq.
    unfold performInitialUpgrades in H.
    destruct H as [H|[error H]]; rewrite H in Hq; by apply quiet_confined.
  - unfold CustomElementRegistry.whenDefined in H. by rewrite Hnone in H.
Qed.

Lemma runs_confined (promisesSupported : bool) (w w' : World) :
  installation w = None ->
  runs prog promisesSupported w w' ->
  confined (detached_elements (microtasks w)) w w'.
Proof.
  intros Hnone Hruns. induction Hruns as [w|w1 w2 w3 Hstep _ IH].
  - by apply quiet_confined.
  - pose proof (host_step_confined promisesSupported w1 w2 Hnone Hstep) as H1.
    eapply confined_trans; [exact H1|].
    eapply confined_mono; [|apply IH, H1].
    destruct H1 as (_ & [ran ->] & _). intros x Hx.
    unfold detached_elements. rewrite flat_map_app. apply elem_of_app.
    by right.
Qed.

End DetachedDrains.

Section UninstalledClaim.

Variable prog : Program.

Lemma confined_calls_on (elements : list elem) (element : elem)
  (new : list (elem * fnid * list value)) :
  Forall (fun entry => entry.1.1 ∈ elements) new ->
  element ∉ elements ->
  calls_on element new = [].
Proof.
  intros Hf Hnot. unfold calls_on.
  induction Hf as [|entry new Hentry _ IH]; [done|].
  rewrite filter_cons_False; [done|]. intros Heq. apply Hnot. by rewrite <- Heq.
Qed.

(** C10 (as amended).  Without an installation both enqueue operations
    still append their reaction to the element's own queue, but the element
    is placed on no element queue and no task is scheduled.  Whatever user
    code is run
    afterwards, as long as nothing is installed, no script calls a callback;
    and whatever the page does from there (scripts, microtasks), the only
    callbacks called are called on elements that a drain task scheduled
    before [uninstall] still holds in the backup queue of its installation:
    a reaction appended to any other element is never invoked.  (A scope of
    [executeCEReactions] that was open when [uninstall] was called is not
    part of this: [uninstall] is taken between two scripts.) *)
Theorem enqueue_without_installation (element : elem) (w : World) :
  installation w = None ->
  enqueueElementOnAppropriateElementQueue element w = w
  /\ (forall definition,
         getPrivateState w element = None ->
         exists w',
           enqueueUpgradeReaction element definition w = ret w'
           /\ pending w' element = Some [UpgradeReaction definition]
           /\ quiet w w')
  /\ (forall definition st q,
         getPrivateState w element = Some st ->
         reactionQueue st = Some q ->
         exists w',
           enqueueUpgradeReaction element definition w = ret w'
           /\ pending w' element = Some (q ++ [UpgradeReaction definition])
           /\ quiet w w')
  /\ (forall callbackName args st definition callback,
         getPrivateState w element = Some st ->
         customElementDefinition st = Some definition ->
         callback_reactions definition callbackName args
         = [CallbackReaction callback args] ->
         exists w',
           enqueueCallbackReaction element callbackName args w = ret w'
           /\ pending w' element
              = Some (default [] (reactionQueue st)
                      ++ [CallbackReaction callback args])
           /\ quiet w w')
  /\ (forall fuel body, stays_quiet w (eval prog fuel (RunScript body) w))
  /\ (forall promisesSupported w',
         runs prog promisesSupported w w' ->
         confined (detached_elements (microtasks w)) w w'
         /\ (element ∉ detached_elements (microtasks w) ->
             exists new,
               invoked w' = invoked w ++ new /\ calls_on element new = [])).
Proof.
  intros Hnone. split; [by apply enqueueElement_uninstalled|].
  split; [|split; [|split; [|split]]].
  - intros definition Hst. unfold enqueueUpgradeReaction. rewrite Hst. cbn.
    rewrite enqueueElement_uninstalled by done.
    eexists. split; [reflexivity|]. split; [|done].
    unfold pending. by rewrite getPrivateState_setPrivateState.
  - intros definition st q Hst Hq. unfold enqueueUpgradeReaction.
    rewrite Hst. cbn. rewrite Hq.
    rewrite enqueueElement_uninstalled by done.
    eexists. split; [reflexivity|]. split; [|done].
    unfold pending. by rewrite getPrivateState_setPrivateState.
  - intros callbackName args st definition callback Hst Hdef Hcb.
    rewrite (enqueueCallbackReaction_spec _ _ _ _ _ _ Hst Hdef), Hcb.
    rewrite enqueueElement_uninstalled by done.
    eexists. split; [reflexivity|]. split; [|done].
    unfold pending. by rewrite getPrivateState_setPrivateState.
  - intros fuel body. by apply eval_quiet.
  - intros promisesSupported w' Hruns.
    pose proof (runs_confined prog promisesSupported w w' Hnone Hruns) as Hc.
    split; [done|]. intros Hnot.
    destruct Hc as (_ & _ & new & Hv & Hf). exists new. split; [done|].
    by eapply confined_calls_on.
Qed.

End UninstalledClaim.

Section UninstalledClaimExamples.

Import Examples.

Lemma enqueue_without_installation_witness :
  (enqueueElementOnAppropriateElementQueue 5 orphan_world = orphan_world
   /\ (exists w',
          enqueueUpgradeReaction 6 (x_a_definition 0) orphan_world = ret w'
          /\ pending w' 6 = Some [UpgradeReaction (x_a_definition 0)]
          /\ quiet orphan_world w')
   /\ (exists w',
          enqueueUpgradeReaction 5 (x_a_definition 0) orphan_world = ret w'
          /\ pending w' 5 = Some ([] ++ [UpgradeReaction (x_a_definition 0)])
          /\ quiet orphan_world w')
   /\ (exists w',
          enqueueCallbackReaction 5 CE_CALLBACK_CONNECTED [] orphan_world
          = ret w'
          /\ pending w' 5 = Some ([] ++ [CallbackReaction 1 []])
          /\ quiet orphan_world w')
   /\ stays_quiet orphan_world
        (eval example_program 9
           (RunScript [InsertingSteps 5; ExecuteCEReactions [RemovingSteps 5]])
           orphan_world))
  /\ exists w',
       run_microtask example_program 9 (uninstall scheduled_world) = ret w'
       /\ pending w' 6 = Some [CallbackReaction 1 []]
       /\ confined [5] (uninstall scheduled_world) w'
       /\ exists new,
            invoked w' = invoked (uninstall scheduled_world) ++ new
            /\ calls_on 6 new = [].
Proof.
  split.
  - destruct (enqueue_without_installation example_program 5 orphan_world
                eq_refl) as (Hplace & _ & Hup & Hcb & Hrun & _).
    destruct (enqueue_without_installation example_program 6 orphan_world
                eq_refl) as (_ & Hnew & _).
    split; [exact Hplace|].
    split; [apply Hnew; reflexivity|].
    split; [apply (Hup (x_a_definition 0) (custom_record []) []); reflexivity|].
    split; [|apply Hrun].
    apply (Hcb CE_CALLBACK_CONNECTED [] (custom_record []) (x_a_definition 0)
             1); reflexivity.
  - destruct (enqueue_without_installation example_program 6
                (uninstall scheduled_world) eq_refl)
      as (_ & _ & _ & _ & _ & Hruns).
    eexists. split; [vm_compute; reflexivity|]. split; [reflexivity|].
    match goal with |- confined _ _ ?W /\ _ => set (w' := W) end.
    assert (Hstep : runs example_program true (uninstall scheduled_world) w').
    { apply rtc_once. apply (host_microtask _ _ _ _ 9). left.
      vm_compute. reflexivity. }
    destruct (Hruns true w' Hstep) as [Hconfined Hnone].
    split; [exact Hconfined|]. apply Hnone.
    cbn. intros Hin. apply list_elem_of_singleton in Hin. discriminate Hin.
Defined.

(** A drain task scheduled before [uninstall] keeps its installation: the
    page defines [x-a], which upgrades element 5 and leaves the drain task
    pending, and uninstalls the runtime; a connected callback reaction
    enqueued afterwards is appended to the queue of element 5, which is
    placed on no queue, and no task is scheduled; and the pending drain
    invokes it. *)
Lemma detached_drain_invokes_appended_reaction :
  exists w1 w2 w3,
    eval example_program 9 (RunScript [Define (lit "x-a") 0 None])
      installed_world = ret w1
    /\ installation (uninstall w1) = None
    /\ pending (uninstall w1) 5 = Some []
    /\ enqueueCallbackReaction 5 CE_CALLBACK_CONNECTED [] (uninstall w1)
       = ret w2
    /\ pending w2 5 = Some [CallbackReaction 1 []]
    /\ installation w2 = None
    /\ microtasks w2 = microtasks (uninstall w1)
    /\ run_microtask example_program 9 w2 = ret w3
    /\ invoked w3 = invoked w2 ++ [(5, 1, [])]
    /\ pending w3 5 = Some [].
Proof.
  eexists _, _, _. split; [vm_compute; reflexivity|].
  split; [reflexivity|]. split; [reflexivity|].
  split; [vm_compute; reflexivity|]. split; [reflexivity|].
  split; [reflexivity|]. split; [reflexivity|].
  split; [vm_compute; reflexivity|]. split; reflexivity.
Qed.

End UninstalledClaimExamples.

(** ** [define] with the [extends] option *)

Section DefineExtends.

Variable prog : Program.

(** X2.  A [define] with the [extends] option, given a proper constructor
    and a valid name: it fails with [NotSupportedError] when the extended
    name is itself a valid custom element name; otherwise it reads the
    identifier [testElement], which the module does not declare, and fails
    with [ReferenceError], registering nothing, unless the page has such a
    global; and whenever such a [define] returns, the page has that global
    and a definition with the given name and constructor, whose local name
    is the extended one, is registered. *)
Theorem define_extends_reads_testElement (name : jsstring)
  (constructor : classid) (extensionOf : jsstring) (w : World)
  (inst : Installation) :
  installation w = Some inst ->
  prototype_constructor_is_self (classes prog constructor) = true ->
  isValidCustomElementName name = true ->
  (isValidCustomElementName extensionOf = true ->
   forall rec,
     define prog rec name constructor (Some extensionOf) w
     = Throws (VError NotSupportedError)
         (with_installation
            (Some (set_stack (customElementsReactionStack inst ++ [[]]) inst))
            w))
  /\ (isValidCustomElementName extensionOf = false ->
      testElement_constructor_get prog = None ->
      forall rec,
        define prog rec name constructor (Some extensionOf) w
        = Throws (VError ReferenceError)
            (with_installation
               (Some (set_stack (customElementsReactionStack inst ++ [[]])
                        inst)) w))
  /\ (forall fuel w',
         eval prog fuel (RunScript [Define name constructor (Some extensionOf)])
           w = ret w' ->
         isValidCustomElementName extensionOf = false
         /\ (exists getter, testElement_constructor_get prog = Some getter)
         /\ exists definition,
              definition ∈ definitions_of w'
              /\ def_name definition = name
              /\ def_constructor definition = constructor
              /\ def_localName definition = extensionOf).
Proof.
  intros Hinst Hself Hname. split; [|split].
  - intros Hext rec. unfold define, executeCEReactions, define_body.
    rewrite Hinst. cbn. by rewrite Hself, Hname, Hext.
  - intros Hext Hget rec. unfold define, executeCEReactions, define_body.
    rewrite Hinst. cbn. by rewrite Hself, Hname, Hext, Hget.
  - intros fuel w' Hrun.
    destruct (eval_define_inv _ _ _ _ _ _ _ Hrun) as [n Hdef].
    destruct (define_registers prog (eval prog n) (eval_respects prog n)
                _ _ _ _ _ Hdef)
      as (_ & before & definition & added & Hd & _ & Hn & Hc & Hl & _).
    assert (Hpath : isValidCustomElementName extensionOf = false
                    /\ exists getter,
                         testElement_constructor_get prog = Some getter).
    { revert Hdef. unfold define, executeCEReactions, define_body.
      rewrite Hinst. cbn. rewrite Hself, Hname. cbn.
      destruct (isValidCustomElementName extensionOf); [done|].
      destruct (testElement_constructor_get prog) as [getter|]; [|done].
      intros _. split; [done|]. by exists getter. }
    split; [apply Hpath|]. split; [apply Hpath|].
    exists definition. split; [|done].
    rewrite Hd. apply elem_of_app. right. apply elem_of_app. right.
    apply list_elem_of_here.
Qed.

End DefineExtends.

Section DefineExtendsExamples.

Import Examples.

Lemma define_extends_reads_testElement_witness :
  define example_program (eval example_program 3) (lit "x-a") 0
    (Some (lit "button")) installed_world
  = Throws (VError ReferenceError)
      (with_installation
         (Some (set_stack
                  (customElementsReactionStack fresh_installation ++ [[]])
                  fresh_installation)) installed_world)
  /\ exists w' definition,
       eval extends_program 9
         (RunScript [Define (lit "x-a") 0 (Some (lit "button"))])
         installed_world = ret w'
       /\ definition ∈ definitions_of w'
       /\ def_name definition = lit "x-a"
       /\ def_constructor definition = 0
       /\ def_localName definition = lit "button".
Proof.
  split.
  - apply (proj1 (proj2 (define_extends_reads_testElement example_program
                           (lit "x-a") 0 (lit "button") installed_world
                           fresh_installation eq_refl eq_refl eq_refl)));
      reflexivity.
  - destruct (eval extends_program 9
                (RunScript [Define (lit "x-a") 0 (Some (lit "button"))])
                installed_world) as [[] w'|error w'|] eqn:Hrun.
    + destruct (proj2 (proj2 (define_extends_reads_testElement extends_program
                                (lit "x-a") 0 (lit "button") installed_world
                                fresh_installation eq_refl eq_refl eq_refl))
                  9 w' Hrun) as (_ & _ & definition & Hconcl).
      by exists w', definition.
    + vm_compute in Hrun. discriminate Hrun.
    + vm_compute in Hrun. discriminate Hrun.
Defined.

End DefineExtendsExamples.

(** ** Construction stacks *)

Section StacksRestored.

Variable prog : Program.
Variable promisesSupported : bool.

(** X4.  [upgradeElement] pops the construction stack entry it pushed,
    whether the constructor returned or threw, as long as the [catch] block
    gets to its end: if every record without a reaction queue belongs to a
    custom or failed element, then after whatever the page does every
    construction stack holds what it held before, and the records are still
    of that kind.  A record without a reaction queue of an element that is
    neither custom nor failed (as [createAnElement] makes for a customized
    built-in element) is the exception: when the constructor throws, the
    [catch] block fails with a [TypeError] on [reactionQueue.splice], the
    pop is skipped and the element stays on the construction stack. *)
Theorem construction_stacks_restored :
  (forall (w w' : World) (address : nat) (l : list elem),
      runs prog promisesSupported w w' ->
      sound w ->
      constructionStacks w !! address = Some l ->
      constructionStacks w' !! address = Some l /\ sound w')
  /\ (forall (rec : call -> World -> result) (element : elem)
             (definition : CustomElementDefinition) (w w2 w3 : World)
             (error : value) (st : ElementState),
         upgrade_prepare element definition w = Some (ret w2) ->
         construct prog rec element definition w2 = Throws error w3 ->
         getPrivateState w3 element = Some st ->
         reactionQueue st = None ->
         exists w',
           upgradeElement prog rec element definition w
           = Throws (VError TypeError) w'
           /\ constructionStack_of w' definition
              = constructionStack_of w3 definition
           /\ (getPrivateState w' element ≫= customElementState)
              = Some CE_STATE_FAILED).
Proof.
  split.
  - intros w w' address l Hruns Hsound Hl.
    destruct (runs_lasting _ _ _ _ Hruns) as (_ & _ & _ & Hk & _ & _ & Hb).
    split; [by apply Hb|by eapply sound_records_kept].
  - intros rec element definition w w2 w3 error st Hprep Hcons Hst Hq.
    unfold upgradeElement. rewrite Hprep. cbn [bind ret]. rewrite Hcons.
    unfold upgrade_catch. rewrite Hst.
    cbn [reactionQueue set_customElementDefinition set_customElementState].
    rewrite Hq. cbn [bind]. eexists. split; [reflexivity|].
    split; [reflexivity|].
    by rewrite getPrivateState_setPrivateState.
Qed.

End StacksRestored.

Section StacksRestoredExamples.

Import Examples Runs.

Lemma defined_throwing_world_sound : sound defined_throwing_world.
Proof.
  apply sound_from_list. vm_compute.
  apply Forall_cons_2; [|apply Forall_nil_2]. intros _. reflexivity.
Qed.

Lemma construction_stacks_restored_witness :
  ((constructionStacks (after connect_another defined_world) !! 0 = Some []
    /\ sound (after connect_another defined_world))
   /\ (getPrivateState (after connect_another defined_world) 7
       ≫= customElementState) = Some CE_STATE_CUSTOM)
  /\ ((constructionStacks (after connect_another defined_throwing_world) !! 0
       = Some []
       /\ sound (after connect_another defined_throwing_world))
      /\ (getPrivateState (after connect_another defined_throwing_world) 7
          ≫= customElementState) = Some CE_STATE_FAILED
      /\ reported (after connect_another defined_throwing_world)
         = [VError (UserError 7); VError (UserError 7)])
  /\ exists w',
       upgradeElement example_program (eval example_program 3) 7
         (x_a_definition 2) created_world = Throws (VError TypeError) w'
       /\ constructionStack_of w' (x_a_definition 2) = [7]
       /\ (getPrivateState w' 7 ≫= customElementState) = Some CE_STATE_FAILED.
Proof.
  destruct (construction_stacks_restored example_program true)
    as [Hsound Hbare].
  split; [|split].
  - split; [|vm_compute; reflexivity].
    apply (Hsound defined_world (after connect_another defined_world) 0 []).
    + by apply runs_script.
    + exact defined_world_sound.
    + vm_compute. reflexivity.
  - split; [|split; vm_compute; reflexivity].
    apply (Hsound defined_throwing_world
             (after connect_another defined_throwing_world) 0 []).
    + by apply runs_script.
    + exact defined_throwing_world_sound.
    + vm_compute. reflexivity.
  - destruct (Hbare (eval example_program 3) 7 (x_a_definition 2)
                created_world
                (constructionStack_push (x_a_definition 2) 7 created_world)
                (constructionStack_push (x_a_definition 2) 7 created_world)
                (VError (UserError 7)) bare_record)
      as (w' & Hthrows & Hstack & Hstate);
      [vm_compute; reflexivity|vm_compute; reflexivity|vm_compute; reflexivity
      |reflexivity|].
    exists w'. split; [exact Hthrows|]. split; [|exact Hstate].
    rewrite Hstack. vm_compute. reflexivity.
Defined.

End StacksRestoredExamples.

(** ** [get] after a [define] that read an accessor *)

Section DefineThenGetExamples.

Import Examples CustomElementRegistry.

(** The proviso of X7 is needed: when reading [testElement] runs code of
    the page that defines the same name first, the [define] still returns,
    and [get] answers with the constructor of that first definition. *)
Example define_then_get_after_accessor :
  exists w' r',
    eval accessor_program 9
      (RunScript [Define (lit "x-a") 0 (Some (lit "button"))])
      installed_world = ret w'
    /\ registry_of w' = Some r'
    /\ map def_constructor (definitions r') = [6; 0]
    /\ get r' (lit "x-a") = Some 6.
Proof.
  eexists _, _. split; [vm_compute; reflexivity|].
  split; [reflexivity|]. split; reflexivity.
Qed.

End DefineThenGetExamples.
